(** * A shallow embedding of the NFA engine of refa (src/nfa.ts)

    The TypeScript program manipulates a mutable object graph: nodes carry
    insertion-ordered adjacency maps, node lists carry a mutable set of final
    nodes.  The embedding keeps that graph in an explicit [Store] and writes
    every operation of the source as a function in a small state-and-error
    monad over it. *)

From Stdlib Require Import ZArith QArith Lia.
From stdpp Require Import gmap list.

Open Scope Z_scope.
Open Scope nat_scope.

(** ** Character sets *)

(** Modelled from the spec: [char-set.ts] is not part of the sources at hand.
    A CharSet is a sequence of closed integer intervals together with the
    inclusive upper bound of its alphabet; [union] merges overlapping and
    adjacent intervals, [intersect] is the interval-wise intersection, and an
    operation that receives a raw range with [min > max] or [max > maximum]
    fails with invalid-range. *)
Module CharSet.

Record CharRange := mkRange { min : Z; max : Z }.

Record t := mk { maximum : Z; ranges : list CharRange }.

Definition inRange (r : CharRange) (c : Z) : bool :=
  (min r <=? c)%Z && (c <=? max r)%Z.

Definition has (s : t) (c : Z) : bool := existsb (fun r => inRange r c) (ranges s).

Definition isEmpty (s : t) : bool :=
  match ranges s with [] => true | _ => false end.

Definition empty (maximum : Z) : t := mk maximum [].

(** Insert one interval into a sorted interval list, merging it with the
    intervals it overlaps or touches. *)
Fixpoint addRange (r : CharRange) (l : list CharRange) : list CharRange :=
  match l with
  | [] => [r]
  | x :: tl =>
      if (max r + 1 <? min x)%Z then r :: x :: tl
      else if (max x + 1 <? min r)%Z then x :: addRange r tl
      else addRange (mkRange (Z.min (min r) (min x)) (Z.max (max r) (max x))) tl
  end.

Definition addRanges (rs : list CharRange) (l : list CharRange) : list CharRange :=
  fold_left (fun acc r => addRange r acc) rs l.

(** [union] with another CharSet. *)
Definition union (s o : t) : t := mk (maximum s) (addRanges (ranges o) (ranges s)).

Definition validRange (maximum : Z) (r : CharRange) : bool :=
  (min r <=? max r)%Z && (max r <=? maximum)%Z.

(** [union] with a sequence of raw ranges; [None] is the invalid-range
    failure. *)
Definition unionRanges (s : t) (rs : list CharRange) : option t :=
  if forallb (validRange (maximum s)) rs
  then Some (mk (maximum s) (addRanges rs (ranges s)))
  else None.

Definition meet (a b : CharRange) : list CharRange :=
  let lo := Z.max (min a) (min b) in
  let hi := Z.min (max a) (max b) in
  if (lo <=? hi)%Z then [mkRange lo hi] else [].

Definition intersect (s o : t) : t :=
  mk (maximum s)
     (flat_map (fun a => flat_map (fun b => meet a b) (ranges o)) (ranges s)).

End CharSet.

Abbreviation CharSet := CharSet.t.

(** ** Insertion-ordered maps and sets

    JavaScript's [Map] and [Set] iterate in insertion order, and the engine
    relies on it for deterministic output; they are association lists and
    lists here.  Keys are node references. *)
Module JsMap.
Section Ops.
Context {V : Type}.

Definition t := list (nat * V).

Fixpoint get (m : list (nat * V)) (k : nat) : option V :=
  match m with
  | [] => None
  | (k', v) :: tl => if Nat.eqb k' k then Some v else get tl k
  end.

Definition has (m : list (nat * V)) (k : nat) : bool :=
  match get m k with Some _ => true | None => false end.

(** [set] keeps the position of an existing key and appends a new one. *)
Fixpoint set (m : list (nat * V)) (k : nat) (v : V) : list (nat * V) :=
  match m with
  | [] => [(k, v)]
  | (k', v') :: tl => if Nat.eqb k' k then (k, v) :: tl else (k', v') :: set tl k v
  end.

Definition delete (m : list (nat * V)) (k : nat) : list (nat * V) :=
  List.filter (fun e => negb (Nat.eqb (fst e) k)) m.

Definition keys (m : list (nat * V)) : list nat := map fst m.

Definition size (m : list (nat * V)) : nat := length m.
End Ops.
End JsMap.

Module JsSet.
Definition t := list nat.

Definition has (s : list nat) (x : nat) : bool := existsb (Nat.eqb x) s.

Definition add (s : list nat) (x : nat) : list nat :=
  if has s x then s else s ++ [x].

Definition delete (s : list nat) (x : nat) : list nat :=
  List.filter (fun y => negb (Nat.eqb y x)) s.

Definition size (s : list nat) : nat := length s.
End JsSet.

(** ** The object store *)

(** [NFANode]: [node_id] and [node_list] are the source's [id] and [list]
    (the owning NodeList, by its identity); [in_] is the source's [in]. *)
Record NFANode := mkNode {
  node_id : nat;
  node_list : nat;
  out : list (nat * CharSet);
  in_ : list (nat * CharSet)
}.

(** A SubList is a view: an initial node and a (mutable, shared) set of final
    nodes, referred to by the address of the set object. *)
Record SubList := mkSubList { initial : nat; final : nat }.

(** A NodeList is its identity (the source's private [id], taken from the
    static counter) and the two fields it shares with [SubList]; its
    [_nodeCounter] lives in the store. *)
Record NodeList := mkNodeList { nl_id : nat; nl_sub :> SubList }.

Record Store := mkStore {
  store_nodes : gmap nat NFANode;
  store_sets : gmap nat (list nat);
  nodeCounter : gmap nat nat;
  NodeList_counter : nat
}.

Definition emptyStore : Store := mkStore ∅ ∅ ∅ 0.

Definition blankNode : NFANode := mkNode 0 0 [] [].

Definition getNode (st : Store) (r : nat) : NFANode :=
  default blankNode (store_nodes st !! r).

Definition getSet (st : Store) (s : nat) : list nat :=
  default [] (store_sets st !! s).

Definition outOf (st : Store) (r : nat) : list (nat * CharSet) := out (getNode st r).
Definition inOf (st : Store) (r : nat) : list (nat * CharSet) := in_ (getNode st r).

Definition setOut (st : Store) (r : nat) (m : list (nat * CharSet)) : Store :=
  let n := getNode st r in
  mkStore (<[r := mkNode (node_id n) (node_list n) m (in_ n)]> (store_nodes st))
          (store_sets st) (nodeCounter st) (NodeList_counter st).

Definition setIn (st : Store) (r : nat) (m : list (nat * CharSet)) : Store :=
  let n := getNode st r in
  mkStore (<[r := mkNode (node_id n) (node_list n) (out n) m]> (store_nodes st))
          (store_sets st) (nodeCounter st) (NodeList_counter st).

Definition putSet (st : Store) (s : nat) (l : list nat) : Store :=
  mkStore (store_nodes st) (<[s := l]> (store_sets st)) (nodeCounter st) (NodeList_counter st).

(** ** Errors and the monad *)

Inductive error :=
| CrossListLink      (* linking or unlinking nodes of different node lists *)
| EmptyLabel         (* linking with the empty character set *)
| MissingEdge        (* unlinking nodes which are not linked *)
| AlphabetMismatch   (* unequal maxCharacter *)
| InvalidRange       (* quantifier bounds, or a malformed character range *)
| InvalidCodepoint   (* fromWords: character above the maximum or not an integer *)
| InitialRemoval     (* removeUnreachable asked to remove the initial state *)
| NotIndexed         (* intersect: a node without an index *)
| OutOfFuel.         (* a traversal of the model exhausted its step budget *)

Inductive Result (A : Type) :=
| Ok (a : A)
| Err (e : error).
Arguments Ok {A} a.
Arguments Err {A} e.

(** Computations over a state [S] that may throw. *)
Definition M (S A : Type) : Type := S -> Result (A * S).

Definition ret {S A} (a : A) : M S A := fun s => Ok (a, s).
Definition throw {S A} (e : error) : M S A := fun _ => Err e.
Definition bind {S A B} (m : M S A) (k : A -> M S B) : M S B :=
  fun s => match m s with
           | Ok (a, s') => k a s'
           | Err e => Err e
           end.
Definition gets {S A} (f : S -> A) : M S A := fun s => Ok (f s, s).
Definition modify {S} (f : S -> S) : M S unit := fun s => Ok (tt, f s).

Notation "x <- m ;; k" := (bind m (fun x => k))
  (at level 100, m at next level, right associativity).
Notation "m ;;; k" := (bind m (fun _ => k))
  (at level 100, right associativity).

(** [for (const x of l) body(x)] over a snapshot [l]. *)
Fixpoint forEach {S A} (l : list A) (body : A -> M S unit) : M S unit :=
  match l with
  | [] => ret tt
  | x :: tl => body x ;;; forEach tl body
  end.

(** Run a store computation inside a state that carries the store first. *)
Definition onStore {X A} (m : M Store A) : M (Store * X) A :=
  fun s => match m (fst s) with
           | Ok (a, st') => Ok (a, (st', snd s))
           | Err e => Err e
           end.

(** ** Traversal *)

Fixpoint dropVisited (visited : list nat) (stack : list nat) : list nat :=
  match stack with
  | [] => []
  | e :: rest => if JsSet.has visited e then dropVisited visited rest else stack
  end.

(** Modelled from the spec: [DFS] of [util.ts] is not part of the sources at
    hand.  [DFS(start, next)] is a depth-first search from [start]: every
    element is handed to [next] once, the first time it is met, and the
    elements [next] returns are explored next.  Elements already visited are
    skipped.  [fuel] bounds the number of elements visited. *)
Fixpoint DFSLoop {S} (fuel : nat) (next : nat -> M S (list nat))
    (visited : list nat) (stack : list nat) : M S unit :=
  match dropVisited visited stack with
  | [] => ret tt
  | e :: rest =>
      match fuel with
      | 0 => throw OutOfFuel
      | Datatypes.S fuel' =>
          r <- next e ;;
          DFSLoop fuel' next (e :: visited) (r ++ rest)
      end
  end.

Definition DFS {S} (fuel : nat) (start : nat) (next : nat -> M S (list nat)) : M S unit :=
  DFSLoop fuel next [] [start].

(** Every traversal of the node graph visits allocated nodes only, so the
    number of nodes (plus the start) bounds it. *)
Definition graphFuel (st : Store) : nat := Datatypes.S (Datatypes.S (size (store_nodes st))).

(** ** NodeList *)

(** [createNode]: a new node object with the next id of its list. *)
Definition createNode (this : nat) : M Store nat := fun st =>
  let r := fresh (dom (store_nodes st)) in
  let c := default 0 (nodeCounter st !! this) in
  Ok (r, mkStore (<[r := mkNode c this [] []]> (store_nodes st)) (store_sets st)
                 (<[this := Datatypes.S c]> (nodeCounter st)) (NodeList_counter st)).

Definition newSet : M Store nat := fun st =>
  let s := fresh (dom (store_sets st)) in
  Ok (s, putSet st s []).

(** [new NodeList()] *)
Definition newNodeList : M Store NodeList := fun st =>
  let i := NodeList_counter st in
  let st1 := mkStore (store_nodes st) (store_sets st) (<[i := 0]> (nodeCounter st)) (Datatypes.S i) in
  (f <- newSet ;;
   n <- createNode i ;;
   ret (mkNodeList i (mkSubList n f))) st1.

(** The inner [add] of [linkNodes]. *)
Definition add (map : list (nat * CharSet)) (to : nat) (characters : CharSet)
  : list (nat * CharSet) :=
  match JsMap.get map to with
  | None => JsMap.set map to characters
  | Some current => JsMap.set map to (CharSet.union current characters)
  end.

Definition linkNodes (this : NodeList) (from to : nat) (characters : CharSet) : M Store unit :=
  fun st =>
    if negb (node_list (getNode st from) =? node_list (getNode st to)) then Err CrossListLink
    else if negb (node_list (getNode st from) =? nl_id this) then Err CrossListLink
    else if CharSet.isEmpty characters then Err EmptyLabel
    else
      let st1 := setOut st from (add (outOf st from) to characters) in
      let st2 := setIn st1 to (add (inOf st1 to) from characters) in
      Ok (tt, st2).

Definition unlinkNodes (this : NodeList) (from to : nat) : M Store unit :=
  fun st =>
    if negb (node_list (getNode st from) =? node_list (getNode st to)) then Err CrossListLink
    else if negb (node_list (getNode st from) =? nl_id this) then Err CrossListLink
    else if negb (JsMap.has (outOf st from) to) then Err MissingEdge
    else
      let st1 := setOut st from (JsMap.delete (outOf st from) to) in
      let st2 := setIn st1 to (JsMap.delete (inOf st1 to) from) in
      Ok (tt, st2).

(** The [makeEmpty] closure of [removeUnreachable]. *)
Definition makeEmpty (this : NodeList) : M Store unit :=
  modify (fun st => putSet st (final this) []) ;;;
  modify (fun st => setIn st (initial this) []) ;;;
  modify (fun st => setOut st (initial this) []).

(** The [removeNode] closure of [removeUnreachable].  The two loops run over
    the keys of a map while the body deletes the current key from that very
    map; a JavaScript map iterator then goes on with the remaining entries,
    which is the iteration over the keys as they stand when the loop starts. *)
Definition removeNode (this : NodeList) (node : nat) : M Store unit :=
  if node =? initial this then throw InitialRemoval
  else
    modify (fun st => putSet st (final this) (JsSet.delete (getSet st (final this)) node)) ;;;
    outs <- gets (fun st => JsMap.keys (outOf st node)) ;;
    forEach outs (fun outgoing => unlinkNodes this node outgoing) ;;;
    ins <- gets (fun st => JsMap.keys (inOf st node)) ;;
    forEach ins (fun incoming => unlinkNodes this incoming node).

(** Step 5 of [removeUnreachable]: the callback stops at a node that is
    already known to reach a final state. *)
Definition canReachNext (st : Store) (node : nat) : M (list nat) (list nat) :=
  fun canReachFinal =>
    if JsSet.has canReachFinal node then Ok ([], canReachFinal)
    else Ok (JsMap.keys (inOf st node), JsSet.add canReachFinal node).

Definition removeUnreachable (this : NodeList) : M Store unit :=
  fun st =>
    if JsSet.size (getSet st (final this)) =? 0 then makeEmpty this st
    else
      (* 1) all nodes *)
      match DFS (graphFuel st) (initial this)
              (fun node allNodes =>
                 Ok (JsMap.keys (inOf st node) ++ JsMap.keys (outOf st node),
                     JsSet.add allNodes node))
              (fold_left JsSet.add (getSet st (final this)) [])
      with
      | Err e => Err e
      | Ok (_, allNodes) =>
      (* 2) all nodes reachable from the initial state *)
      match DFS (graphFuel st) (initial this)
              (fun node reachable =>
                 Ok (JsMap.keys (outOf st node), JsSet.add reachable node))
              []
      with
      | Err e => Err e
      | Ok (_, reachableFromInitial) =>
      (* 3) remove what the initial state does not reach *)
      match forEach allNodes
              (fun node => if JsSet.has reachableFromInitial node then ret tt
                           else removeNode this node) st
      with
      | Err e => Err e
      | Ok (_, st3) =>
      (* 4) no final states left *)
      if JsSet.size (getSet st3 (final this)) =? 0 then makeEmpty this st3
      else
        (* 5) all nodes which can reach a final state *)
        match forEach (getSet st3 (final this))
                (fun f => DFS (graphFuel st3) f (canReachNext st3)) []
        with
        | Err e => Err e
        | Ok (_, canReachFinal) =>
        (* 6) remove what cannot reach a final state *)
        forEach reachableFromInitial
          (fun node => if JsSet.has canReachFinal node then ret tt
                       else removeNode this node) st3
        end
      end
      end
      end.

(** The level loop of the node list's iterator: one pass over [toVisit],
    yielding the nodes met for the first time and collecting their
    successors for the next level. *)
Fixpoint iterLevel (st : Store) (toVisit : list nat)
    (visited yielded newVisit : list nat) : list nat * list nat * list nat :=
  match toVisit with
  | [] => (visited, yielded, newVisit)
  | node :: tl =>
      if JsSet.has visited node then iterLevel st tl visited yielded newVisit
      else iterLevel st tl (JsSet.add visited node) (yielded ++ [node])
                     (newVisit ++ JsMap.keys (outOf st node))
  end.

Fixpoint iterLoop (fuel : nat) (st : Store) (toVisit visited yielded : list nat)
  : Result (list nat) :=
  match toVisit with
  | [] => Ok yielded
  | _ =>
      match fuel with
      | 0 => Err OutOfFuel
      | Datatypes.S fuel' =>
          let '(visited', yielded', newVisit) := iterLevel st toVisit visited yielded [] in
          iterLoop fuel' st newVisit visited' yielded'
      end
  end.

(** [[Symbol.iterator]]: the nodes reachable from the initial node, breadth
    first.  The generator is consumed while the graph it walks stays as it
    is, so the embedding produces the whole sequence at once. *)
Definition iterate (this : NodeList) : M Store (list nat) := fun st =>
  match iterLoop (graphFuel st) st [initial this] [] [] with
  | Ok l => Ok (l, st)
  | Err e => Err e
  end.

(** ** Operations on the sets of the store *)

Definition setAdd (s x : nat) : M Store unit :=
  modify (fun st => putSet st s (JsSet.add (getSet st s) x)).
Definition setDelete (s x : nat) : M Store unit :=
  modify (fun st => putSet st s (JsSet.delete (getSet st s) x)).
Definition setClear (s : nat) : M Store unit :=
  modify (fun st => putSet st s []).
Definition setElements (s : nat) : M Store (list nat) := gets (fun st => getSet st s).
Definition setHas (s x : nat) : M Store bool := gets (fun st => JsSet.has (getSet st s) x).
Definition setSize (s : nat) : M Store nat := gets (fun st => JsSet.size (getSet st s)).

(** ** Sub-list transformers *)

(** Modelled from the spec: [cachedFunc] of [util.ts] is not part of the
    sources at hand.  A cached function answers from its cache and calls the
    wrapped function, recording the answer, only for a key it has not seen.
    The cache is the second component of the state. *)
Definition cachedFunc (func : M Store nat) (key : nat) : M (Store * list (nat * nat)) nat :=
  fun s =>
    match JsMap.get (snd s) key with
    | Some v => Ok (v, s)
    | None =>
        match func (fst s) with
        | Ok (v, st') => Ok (v, (st', JsMap.set (snd s) key v))
        | Err e => Err e
        end
    end.

Definition baseMakeEmpty (nodeList : NodeList) (base : SubList) : M Store unit :=
  outs <- gets (fun st => JsMap.keys (outOf st (initial base))) ;;
  forEach outs (fun o => unlinkNodes nodeList (initial base) o) ;;;
  setClear (final base).

(** The callback that [localCopy] hands to [DFS]. *)
Definition localCopyNext (nodeList : NodeList) (toCopy : SubList) (final' : nat) (node : nat)
  : M (Store * list (nat * nat)) (list nat) :=
  let translate := cachedFunc (createNode (nl_id nodeList)) in
  trans <- translate node ;;
  isFinal <- onStore (setHas (final toCopy) node) ;;
  (if isFinal : bool then onStore (setAdd final' trans) else ret tt) ;;;
  edges <- onStore (gets (fun st => outOf st node)) ;;
  forEach edges (fun e =>
    to' <- translate (fst e) ;;
    onStore (linkNodes nodeList trans to' (snd e))) ;;;
  onStore (gets (fun st => JsMap.keys (outOf st node))).

Definition localCopy (nodeList : NodeList) (toCopy : SubList) : M Store SubList :=
  initial' <- createNode (nl_id nodeList) ;;
  final' <- newSet ;;
  fun st =>
    match DFS (graphFuel st) (initial toCopy) (localCopyNext nodeList toCopy final')
              (st, [(initial toCopy, initial')]) with
    | Ok (_, (st', _)) => Ok (mkSubList initial' final', st')
    | Err e => Err e
    end.

(** Shared by [baseReplaceWith] and [baseUnion]: move every edge that leaves
    [from] so that it leaves [onto]. *)
Definition transferEdges (nodeList : NodeList) (onto from : nat) : M Store unit :=
  edges <- gets (fun st => outOf st from) ;;
  forEach edges (fun e =>
    linkNodes nodeList onto (fst e) (snd e) ;;;
    unlinkNodes nodeList from (fst e)).

Definition baseReplaceWith (nodeList : NodeList) (base replacement : SubList) : M Store unit :=
  baseMakeEmpty nodeList base ;;;
  (* transfer finals *)
  fs <- setElements (final replacement) ;;
  forEach fs (fun f =>
    setAdd (final base) (if f =? initial replacement then initial base else f)) ;;;
  (* transfer nodes *)
  transferEdges nodeList (initial base) (initial replacement).

Definition baseConcat (nodeList : NodeList) (base after : SubList) : M Store unit :=
  nb <- setSize (final base) ;;
  if nb =? 0 then ret tt
  else
    na <- setSize (final after) ;;
    if na =? 0 then baseMakeEmpty nodeList base
    else
      (* replace after initial with base finals *)
      initialEdges <- gets (fun st => outOf st (initial after)) ;;
      baseFinals <- setElements (final base) ;;
      forEach baseFinals (fun baseFinal =>
        forEach initialEdges (fun e => linkNodes nodeList baseFinal (fst e) (snd e))) ;;;
      (* unlink after initial *)
      forEach initialEdges (fun e => unlinkNodes nodeList (initial after) (fst e)) ;;;
      (* if the initial of after is not final, clear the base finals *)
      afterInitialFinal <- setHas (final after) (initial after) ;;
      (if afterInitialFinal : bool then ret tt else setClear (final base)) ;;;
      (* transfer finals *)
      afterFinals <- setElements (final after) ;;
      forEach afterFinals (fun n =>
        if n =? initial after then ret tt else setAdd (final base) n).

Definition baseOptimizationReuseFinalStates (nodeList : NodeList) (base : SubList)
  : M Store unit :=
  fs <- setElements (final base) ;;
  reusable <- gets (fun st =>
    List.filter (fun f => negb (f =? initial base) && (JsMap.size (outOf st f) =? 0)) fs) ;;
  if 1 <? length reusable then
    let masterFinal := List.last reusable 0 in
    forEach (removelast reusable) (fun toRemove =>
      setDelete (final base) toRemove ;;;
      edges <- gets (fun st => inOf st toRemove) ;;
      forEach edges (fun e =>
        linkNodes nodeList (fst e) masterFinal (snd e) ;;;
        unlinkNodes nodeList (fst e) toRemove))
  else ret tt.

Definition baseUnion (nodeList : NodeList) (base alternative : SubList) : M Store unit :=
  (* add finals *)
  fs <- setElements (final alternative) ;;
  forEach fs (fun n =>
    setAdd (final base) (if n =? initial alternative then initial base else n)) ;;;
  (* transfer nodes to base *)
  transferEdges nodeList (initial base) (initial alternative) ;;;
  baseOptimizationReuseFinalStates nodeList base.

(** [for (let i = times; i > 2; i--) body] runs [body] [times - 2] times. *)
Fixpoint repeatM {S} (n : nat) (body : M S unit) : M S unit :=
  match n with
  | 0 => ret tt
  | Datatypes.S n' => body ;;; repeatM n' body
  end.

Definition addAll (realFinal : list nat) (fs : list nat) : list nat :=
  fold_left JsSet.add fs realFinal.

(** The loop of the second branch of [baseRepeat]; [realFinal] is the local
    set the source accumulates into. *)
Fixpoint repeatCollect (nodeList : NodeList) (base copy : SubList) (n : nat)
    (realFinal : list nat) : M Store (list nat) :=
  match n with
  | 0 => ret realFinal
  | Datatypes.S n' =>
      c <- localCopy nodeList copy ;;
      baseConcat nodeList base c ;;;
      fs <- setElements (final base) ;;
      repeatCollect nodeList base copy n' (addAll realFinal fs)
  end.

Definition baseRepeat (nodeList : NodeList) (base : SubList) (times : nat) : M Store unit :=
  if times =? 0 then
    baseMakeEmpty nodeList base ;;; setAdd (final base) (initial base)
  else if times =? 1 then ret tt
  else
    size <- setSize (final base) ;;
    initialIsFinal <- setHas (final base) (initial base) ;;
    if (size =? 1) && initialIsFinal then ret tt
    else if size =? 0 then ret tt
    else if negb initialIsFinal then
      copy <- localCopy nodeList base ;;
      repeatM (times - 2) (c <- localCopy nodeList copy ;; baseConcat nodeList base c) ;;;
      baseConcat nodeList base copy
    else
      realFinal <- setElements (final base) ;;
      setDelete (final base) (initial base) ;;;
      copy <- localCopy nodeList base ;;
      realFinal <- repeatCollect nodeList base copy (times - 2) realFinal ;;
      baseConcat nodeList base copy ;;;
      fs <- setElements (final base) ;;
      (* transfer the final states *)
      setClear (final base) ;;;
      forEach (addAll realFinal fs) (fun f => setAdd (final base) f).

Definition basePlus (nodeList : NodeList) (base : SubList) : M Store unit :=
  fs <- setElements (final base) ;;
  forEach fs (fun f =>
    if f =? initial base then ret tt
    else
      edges <- gets (fun st => outOf st (initial base)) ;;
      forEach edges (fun e => linkNodes nodeList f (fst e) (snd e))).

(** The upper bound of a quantifier: a number of repetitions or [Infinity]. *)
Inductive bound := Finite (n : nat) | Infinity.

Definition baseQuantify (nodeList : NodeList) (base : SubList) (min : nat) (max : bound)
  : M Store unit :=
  match max with
  | Finite 0 =>
      baseMakeEmpty nodeList base ;;; setAdd (final base) (initial base)
  | _ =>
      initialIsFinal <- setHas (final base) (initial base) ;;
      let min := if initialIsFinal : bool then 0 else min in
      (if negb initialIsFinal && (min =? 0) then setAdd (final base) (initial base)
       else ret tt) ;;;
      match max with
      | Finite 1 => ret tt
      | Finite max =>
          if min =? max then baseRepeat nodeList base min
          else
            copy <- localCopy nodeList base ;;
            setAdd (final copy) (initial copy) ;;;
            baseRepeat nodeList copy (max - min) ;;;
            baseRepeat nodeList base min ;;;
            baseConcat nodeList base copy
      | Infinity =>
          if 1 <? min then
            copy <- localCopy nodeList base ;;
            basePlus nodeList copy ;;;
            baseRepeat nodeList base (min - 1) ;;;
            baseConcat nodeList base copy
          else basePlus nodeList base
      end
  end.

(** ** The NFA facade *)

Record NFAOptions := mkOptions { maxCharacter : Z }.

(** An NFA object owns its NodeList (the constructor is private and every
    construction makes a new list), so two NFA objects are the same object
    exactly when their node lists are. *)
Record NFA := mkNFA { nodes : NodeList; options : NFAOptions }.

Definition sameNFA (a b : NFA) : bool := nl_id (nodes a) =? nl_id (nodes b).

Definition checkOptionsCompatibility (thisOptions otherOptions : NFAOptions) : M Store unit :=
  if (maxCharacter thisOptions =? maxCharacter otherOptions)%Z then ret tt
  else throw AlphabetMismatch.

Definition isEmpty (this : NFA) : M Store bool :=
  n <- setSize (final (nodes this)) ;; ret (n =? 0).

(** The [match] closure of [test].  The loop over [node.out] is the inner
    [fix]; [fuel] bounds the depth of the recursion on [index]. *)
Fixpoint match_ (fuel : nat) (st : Store) (finals : nat) (characters : list Z)
    (index : nat) (node : nat) : Result bool :=
  match fuel with
  | 0 => Err OutOfFuel
  | Datatypes.S fuel' =>
      match characters !! index with
      | None => Ok (JsSet.has (getSet st finals) node)
      | Some cp =>
          (fix loop (edges : list (nat * CharSet)) : Result bool :=
             match edges with
             | [] => Ok false
             | (to, chars) :: tl =>
                 if CharSet.has chars cp then
                   match match_ fuel' st finals characters (Datatypes.S index) to with
                   | Ok true => Ok true
                   | Ok false => loop tl
                   | Err e => Err e
                   end
                 else loop tl
             end) (outOf st node)
      end
  end.

Definition test (this : NFA) (word : list Z) : M Store bool := fun st =>
  match match_ (Datatypes.S (length word)) st (final (nodes this)) word 0
               (initial (nodes this)) with
  | Ok b => Ok (b, st)
  | Err e => Err e
  end.

Definition union (this nfa : NFA) : M Store unit :=
  if sameNFA nfa this then ret tt
  else
    checkOptionsCompatibility (options this) (options nfa) ;;;
    c <- localCopy (nodes this) (nodes nfa) ;;
    baseUnion (nodes this) (nodes this) c.

(** [quantify(min, max)]: the arguments are integers, or [None] for an
    infinite [max]; non-integral numbers are excluded by the types. *)
Definition quantify (this : NFA) (min : Z) (max : option Z) : M Store unit :=
  let bad := match max with
             | Some m => (min <? 0)%Z || (m <? min)%Z
             | None => (min <? 0)%Z
             end in
  if bad then throw InvalidRange
  else baseQuantify (nodes this) (nodes this) (Z.to_nat min)
         (match max with Some m => Finite (Z.to_nat m) | None => Infinity end).

Definition concat (this nfa : NFA) : M Store unit :=
  if sameNFA this nfa then quantify this 2%Z (Some 2%Z)
  else
    checkOptionsCompatibility (options this) (options nfa) ;;;
    baseConcat (nodes this) (nodes this) (nodes nfa).

Definition copy (this : NFA) : M Store NFA :=
  nl <- newNodeList ;;
  let copy := mkNFA nl (options this) in
  union copy this ;;;
  ret copy.

(** Modelled from the spec: [createIndexMap] of [util.ts] is not part of the
    sources at hand.  It numbers the items of an iteration in the order in
    which they come. *)
Definition createIndexMap (items : list nat) : list (nat * nat) :=
  zip items (seq 0 (length items)).

(** The [translate] closure of [intersect]. *)
Definition translatePair (nodeList : NodeList) (thisIndexMap otherIndexMap : list (nat * nat))
    (thisNode otherNode : nat) : M (Store * list (nat * nat)) nat :=
  match JsMap.get thisIndexMap thisNode, JsMap.get otherIndexMap otherNode with
  | Some thisIndex, Some otherIndex =>
      cachedFunc (createNode (nl_id nodeList))
                 (thisIndex * JsMap.size otherIndexMap + otherIndex)
  | _, _ => throw NotIndexed
  end.

Definition intersect (left right : NFA) : M Store NFA :=
  checkOptionsCompatibility (options left) (options right) ;;;
  nodeList <- newNodeList ;;
  (* node pair translation *)
  leftNodes <- iterate (nodes left) ;;
  rightNodes <- iterate (nodes right) ;;
  let thisIndexMap := createIndexMap leftNodes in
  let otherIndexMap := createIndexMap rightNodes in
  let translate := translatePair nodeList thisIndexMap otherIndexMap in
  leftFinals <- setElements (final (nodes left)) ;;
  rightFinals <- setElements (final (nodes right)) ;;
  (fun st =>
     match
       ((* add finals *)
        forEach leftFinals (fun thisFinal =>
          forEach rightFinals (fun otherFinal =>
            t <- translate thisFinal otherFinal ;;
            onStore (setAdd (final nodeList) t))) ;;;
        (* add edges *)
        forEach leftNodes (fun thisNode =>
          forEach rightNodes (fun otherNode =>
            from <- translate thisNode otherNode ;;
            thisOut <- onStore (gets (fun st => outOf st thisNode)) ;;
            forEach thisOut (fun e1 =>
              otherOut <- onStore (gets (fun st => outOf st otherNode)) ;;
              forEach otherOut (fun e2 =>
                let transition := CharSet.intersect (snd e1) (snd e2) in
                if CharSet.isEmpty transition then ret tt
                else
                  to' <- translate (fst e1) (fst e2) ;;
                  onStore (linkNodes nodeList from to' transition))))))
         (st, [(0, initial nodeList)])
     with
     | Ok (_, (st', _)) => Ok (tt, st')
     | Err e => Err e
     end) ;;;
  removeUnreachable nodeList ;;;
  baseOptimizationReuseFinalStates nodeList nodeList ;;;
  ret (mkNFA nodeList (options left)).

(** A JavaScript number, as far as [fromWords] tells numbers apart: a finite
    rational value, [NaN], or one of the infinities. *)
Inductive number :=
| Num (q : Q)
| NaN
| PosInfinity
| NegInfinity.

Definition ofZ (z : Z) : number := Num (inject_Z z).

(** [Number.isInteger] *)
Definition isInteger (n : number) : bool :=
  match n with
  | Num q => (Qden (Qred q) =? 1)%positive
  | _ => false
  end.

(** [n > z] *)
Definition greaterThan (n : number) (z : Z) : bool :=
  match n with
  | Num q => negb (Qle_bool q (inject_Z z))
  | NaN => false
  | PosInfinity => true
  | NegInfinity => false
  end.

(** The value of a number that [isInteger] accepted. *)
Definition toInteger (n : number) : Z :=
  match n with
  | Num q => Qnum (Qred q)
  | _ => 0%Z
  end.

(** The loop of [getNext] over [node.out]: the target of the first edge that
    carries [char]. *)
Fixpoint findEdge (edges : list (nat * CharSet)) (char : Z) : option nat :=
  match edges with
  | [] => None
  | (to, chars) :: tl => if CharSet.has chars char then Some to else findEdge tl char
  end.

(** The [getNext] closure of [fromWords]. *)
Definition getNext (nodeList : NodeList) (options : NFAOptions) (node : nat) (char : number)
  : M Store nat :=
  if greaterThan char (maxCharacter options) then throw InvalidCodepoint
  else if negb (isInteger char) then throw InvalidCodepoint
  else
    let c := toInteger char in
    edges <- gets (fun st => outOf st node) ;;
    match findEdge edges c with
    | Some to => ret to
    | None =>
        newNode <- createNode (nl_id nodeList) ;;
        match CharSet.unionRanges (CharSet.empty (maxCharacter options))
                                  [CharSet.mkRange c c] with
        | None => throw InvalidRange
        | Some charSet =>
            linkNodes nodeList node newNode charSet ;;;
            ret newNode
        end
    end.

(** The inner loop of [fromWords]: walk one word from [node]. *)
Fixpoint walkWord (nodeList : NodeList) (options : NFAOptions) (node : nat)
    (word : list number) : M Store nat :=
  match word with
  | [] => ret node
  | charCode :: tl =>
      node' <- getNext nodeList options node charCode ;;
      walkWord nodeList options node' tl
  end.

Definition fromWords (words : list (list number)) (options : NFAOptions) : M Store NFA :=
  nodeList <- newNodeList ;;
  (* build a prefix trie *)
  forEach words (fun word =>
    node <- walkWord nodeList options (initial nodeList) word ;;
    setAdd (final nodeList) node) ;;;
  baseOptimizationReuseFinalStates nodeList nodeList ;;;
  ret (mkNFA nodeList options).

(** Modelled from the spec: the DFA of [dfa.ts] and [invertCharMap] of
    [char-util.ts] are not part of the sources at hand.  A DFA state has an
    outgoing transition map keyed by code-point range; the DFA names its
    initial state, its final states and its alphabet.  [invertCharMap] turns
    a transition map into a map from target state to the union of the ranges
    that lead there. *)
Record DFA := mkDFA {
  dfa_out : gmap nat (list (CharSet.CharRange * nat));
  dfa_initial : nat;
  dfa_final : list nat;
  dfa_maxCharacter : Z
}.

Fixpoint invertCharMap (out : list (CharSet.CharRange * nat)) (maximum : Z)
    (byNode : list (nat * CharSet)) : option (list (nat * CharSet)) :=
  match out with
  | [] => Some byNode
  | (range, target) :: tl =>
      let current := default (CharSet.empty maximum) (JsMap.get byNode target) in
      match CharSet.unionRanges current [range] with
      | None => None
      | Some s => invertCharMap tl maximum (JsMap.set byNode target s)
      end
  end.

(** The callback that [fromDFA] hands to [DFS]. *)
Definition fromDFANext (dfa : DFA) (nodeList : NodeList) (dfaNode : nat)
  : M (Store * list (nat * nat)) (list nat) :=
  let translate := cachedFunc (createNode (nl_id nodeList)) in
  transNode <- translate dfaNode ;;
  match invertCharMap (default [] (dfa_out dfa !! dfaNode)) (dfa_maxCharacter dfa) [] with
  | None => throw InvalidRange
  | Some byNode =>
      forEach byNode (fun e =>
        to' <- translate (fst e) ;;
        onStore (linkNodes nodeList transNode to' (snd e))) ;;;
      ret (JsMap.keys byNode)
  end.

Definition fromDFA (dfa : DFA) : M Store NFA :=
  let options := mkOptions (dfa_maxCharacter dfa) in
  nodeList <- newNodeList ;;
  fun st =>
    match DFS (Datatypes.S (Datatypes.S (size (dfa_out dfa)))) (dfa_initial dfa)
              (fromDFANext dfa nodeList)
              (st, [(dfa_initial dfa, initial nodeList)]) with
    | Ok (_, (st', _)) => Ok (mkNFA nodeList options, st')
    | Err e => Err e
    end.

(** * Properties *)

(** ** Character sets *)

Module CharSetFacts.
Import CharSet.

Lemma has_addRange r l c :
  existsb (fun x => inRange x c) (addRange r l)
  = inRange r c || existsb (fun x => inRange x c) l.
Proof.
  revert r. induction l as [|x tl IH]; intros r; simpl.
  - reflexivity.
  - destruct (max r + 1 <? min x)%Z eqn:E1; [reflexivity|].
    destruct (max x + 1 <? min r)%Z eqn:E2; simpl.
    + rewrite IH. destruct (inRange r c), (inRange x c); reflexivity.
    + rewrite IH, orb_assoc. f_equal.
      apply Z.ltb_ge in E1, E2. unfold inRange; simpl.
      destruct r as [a b], x as [a' b']; simpl in *.
      apply eq_true_iff_eq.
      rewrite !orb_true_iff, !andb_true_iff, !Z.leb_le. lia.
Qed.

Lemma has_addRanges rs l c :
  existsb (fun x => inRange x c) (addRanges rs l)
  = existsb (fun x => inRange x c) rs || existsb (fun x => inRange x c) l.
Proof.
  unfold addRanges. revert l. induction rs as [|r rs IH]; intros l; simpl.
  - reflexivity.
  - rewrite IH, has_addRange.
    destruct (inRange r c), (existsb _ rs), (existsb _ l); reflexivity.
Qed.

Lemma has_union s o c : has (union s o) c = has s c || has o c.
Proof. unfold has, union; simpl. rewrite has_addRanges. apply orb_comm. Qed.

Lemma has_meet a b c :
  existsb (fun x => inRange x c) (meet a b) = inRange a c && inRange b c.
Proof.
  unfold meet, inRange.
  destruct (Z.max (min a) (min b) <=? Z.min (max a) (max b))%Z eqn:E; simpl.
  - rewrite orb_false_r. apply eq_true_iff_eq.
    rewrite !andb_true_iff, !Z.leb_le. lia.
  - apply Z.leb_gt in E. symmetry. apply not_true_is_false.
    rewrite !andb_true_iff, !Z.leb_le. lia.
Qed.

Lemma has_meets a l c :
  existsb (fun x => inRange x c) (flat_map (fun b => meet a b) l)
  = inRange a c && existsb (fun r => inRange r c) l.
Proof.
  induction l as [|b l IH]; simpl.
  - symmetry. apply andb_false_r.
  - rewrite existsb_app, IH, has_meet.
    destruct (inRange a c), (inRange b c); reflexivity.
Qed.

Lemma has_intersect s o c : has (intersect s o) c = has s c && has o c.
Proof.
  unfold has, intersect; simpl.
  induction (ranges s) as [|a l IH]; simpl; [reflexivity|].
  rewrite existsb_app, IH, has_meets.
  destruct (inRange a c), (existsb _ l), (existsb _ (ranges o)); reflexivity.
Qed.

Lemma isEmpty_has s c : isEmpty s = true -> has s c = false.
Proof. unfold isEmpty, has. destruct (ranges s); [reflexivity|discriminate]. Qed.

Lemma has_empty m c : has (empty m) c = false.
Proof. reflexivity. Qed.

Lemma addRange_not_nil r l : addRange r l <> [].
Proof.
  revert r. induction l as [|x tl IH]; intros r; simpl; [discriminate|].
  destruct (max r + 1 <? min x)%Z; [discriminate|].
  destruct (max x + 1 <? min r)%Z; [discriminate|apply IH].
Qed.
End CharSetFacts.

(** ** Maps and sets *)

Module JsMapFacts.
Section Facts.
Context {V : Type}.
Implicit Types (m : list (nat * V)) (k : nat) (v : V).

Lemma get_set_eq m k v : JsMap.get (JsMap.set m k v) k = Some v.
Proof.
  induction m as [|[k' v'] tl IH]; simpl.
  - rewrite Nat.eqb_refl. reflexivity.
  - destruct (k' =? k) eqn:E; simpl.
    + rewrite Nat.eqb_refl. reflexivity.
    + rewrite E. exact IH.
Qed.

Lemma get_set_ne m k k' v : k <> k' -> JsMap.get (JsMap.set m k v) k' = JsMap.get m k'.
Proof.
  intros Hne. induction m as [|[k0 v0] tl IH]; simpl.
  - destruct (k =? k') eqn:E; [apply Nat.eqb_eq in E; contradiction|reflexivity].
  - destruct (k0 =? k) eqn:E; simpl.
    + apply Nat.eqb_eq in E; subst k0.
      destruct (k =? k') eqn:E'; [apply Nat.eqb_eq in E'; contradiction|reflexivity].
    + destruct (k0 =? k'); [reflexivity|exact IH].
Qed.

Lemma get_delete_eq m k : JsMap.get (JsMap.delete m k) k = None.
Proof.
  unfold JsMap.delete. induction m as [|[k' v'] tl IH]; [reflexivity|].
  simpl. destruct (k' =? k) eqn:E; simpl; [exact IH|].
  rewrite E. exact IH.
Qed.

Lemma get_delete_ne m k k' : k <> k' -> JsMap.get (JsMap.delete m k) k' = JsMap.get m k'.
Proof.
  intros Hne. unfold JsMap.delete. induction m as [|[k0 v0] tl IH]; [reflexivity|].
  simpl. destruct (k0 =? k) eqn:E; simpl.
  - apply Nat.eqb_eq in E; subst k0.
    destruct (k =? k') eqn:E'; [apply Nat.eqb_eq in E'; contradiction|exact IH].
  - destruct (k0 =? k'); [reflexivity|exact IH].
Qed.

Lemma get_Some_In m k v : JsMap.get m k = Some v -> In (k, v) m.
Proof.
  induction m as [|[k' v'] tl IH]; simpl; [discriminate|].
  destruct (k' =? k) eqn:E.
  - apply Nat.eqb_eq in E. intros [= ->]. left. congruence.
  - intros H. right. auto.
Qed.

Lemma In_get m k v : In (k, v) m -> exists v', JsMap.get m k = Some v'.
Proof.
  induction m as [|[k' v'] tl IH]; simpl; [tauto|].
  intros [[= -> ->]|H].
  - rewrite Nat.eqb_refl. eauto.
  - destruct (k' =? k); eauto.
Qed.

Lemma In_keys m k : In k (JsMap.keys m) <-> exists v, JsMap.get m k = Some v.
Proof.
  unfold JsMap.keys. rewrite in_map_iff. split.
  - intros [[k' v] [<- H]]. eapply In_get. exact H.
  - intros [v H]. exists (k, v). split; [reflexivity|]. apply get_Some_In. exact H.
Qed.

Lemma map_has_true m k : JsMap.has m k = true <-> In k (JsMap.keys m).
Proof.
  rewrite In_keys. unfold JsMap.has. destruct (JsMap.get m k); split; eauto.
  - discriminate.
  - intros [v [=]].
Qed.
End Facts.
End JsMapFacts.

Module JsSetFacts.
Lemma set_has_true s x : JsSet.has s x = true <-> In x s.
Proof.
  unfold JsSet.has. rewrite existsb_exists. split.
  - intros [y [H E]]. apply Nat.eqb_eq in E. congruence.
  - intros H. exists x. split; [exact H|apply Nat.eqb_refl].
Qed.

Lemma set_has_false s x : JsSet.has s x = false <-> ~ In x s.
Proof. rewrite <- set_has_true. destruct (JsSet.has s x); split; congruence. Qed.

Lemma In_add s x y : In y (JsSet.add s x) <-> y = x \/ In y s.
Proof.
  unfold JsSet.add. destruct (JsSet.has s x) eqn:E.
  - apply set_has_true in E. split; [tauto|]. intros [->|H]; assumption.
  - rewrite in_app_iff. simpl. intuition.
Qed.

Lemma In_delete s x y : In y (JsSet.delete s x) <-> y <> x /\ In y s.
Proof.
  unfold JsSet.delete. rewrite filter_In, negb_true_iff, Nat.eqb_neq. tauto.
Qed.

Lemma In_addAll fs acc y : In y (fold_left JsSet.add fs acc) <-> In y fs \/ In y acc.
Proof.
  revert acc. induction fs as [|f fs IH]; intros acc; simpl; [tauto|].
  rewrite IH, In_add. intuition.
Qed.
End JsSetFacts.

(** ** Words, paths and languages *)

(** [step st a c b]: the store has an edge from [a] to [b] whose label
    contains the code point [c]. *)
Definition step (st : Store) (a : nat) (c : Z) (b : nat) : Prop :=
  exists chars, In (b, chars) (outOf st a) /\ CharSet.has chars c = true.

(** [path st a w b]: [w] labels a path from [a] to [b]. *)
Inductive path (st : Store) : nat -> list Z -> nat -> Prop :=
| path_nil a : path st a [] a
| path_cons a c b w d : step st a c b -> path st b w d -> path st a (c :: w) d.

(** The words a sub-automaton accepts. *)
Definition accepts (st : Store) (sub : SubList) (w : list Z) : Prop :=
  exists f, In f (getSet st (final sub)) /\ path st (initial sub) w f.

(** [test] by recursion on the remaining word, without fuel. *)
Fixpoint matches (st : Store) (finals : nat) (w : list Z) (node : nat) : bool :=
  match w with
  | [] => JsSet.has (getSet st finals) node
  | cp :: tl =>
      existsb (fun e => CharSet.has (snd e) cp && matches st finals tl (fst e)) (outOf st node)
  end.

Section TestFacts.
Variables (st : Store) (finals : nat).

Lemma match_loop_spec cp (k : nat -> Result bool) (f : nat -> bool)
    (edges : list (nat * CharSet)) :
  (forall to chars, In (to, chars) edges -> k to = Ok (f to)) ->
  (fix loop (edges : list (nat * CharSet)) : Result bool :=
     match edges with
     | [] => Ok false
     | (to, chars) :: tl =>
         if CharSet.has chars cp then
           match k to with
           | Ok true => Ok true
           | Ok false => loop tl
           | Err e => Err e
           end
         else loop tl
     end) edges
  = Ok (existsb (fun e => CharSet.has (snd e) cp && f (fst e)) edges).
Proof.
  induction edges as [|[to chars] tl IH]; intros Hk; [reflexivity|].
  simpl. rewrite IH by (intros; eapply Hk; right; eassumption).
  destruct (CharSet.has chars cp); simpl; [|reflexivity].
  rewrite (Hk to chars) by (left; reflexivity).
  destruct (f to); reflexivity.
Qed.

(** With more fuel than characters left, [match] returns, and returns what
    the structural matcher says about the rest of the word. *)
Lemma match_matches fuel characters index node :
  length characters - index < fuel ->
  match_ fuel st finals characters index node
  = Ok (matches st finals (drop index characters) node).
Proof.
  revert index node. induction fuel as [|fuel IH]; intros index node Hlt; [lia|].
  simpl. destruct (characters !! index) as [cp|] eqn:E.
  - rewrite (drop_S _ _ _ E). simpl.
    apply match_loop_spec. intros to chars _. apply IH.
    apply lookup_lt_Some in E. lia.
  - apply lookup_ge_None in E. rewrite drop_ge by lia. reflexivity.
Qed.

Lemma matches_path w node :
  matches st finals w node = true
  <-> exists f, In f (getSet st finals) /\ path st node w f.
Proof.
  revert node. induction w as [|c w IH]; intros node; simpl.
  - rewrite JsSetFacts.set_has_true. split.
    + intros H. exists node. split; [exact H|constructor].
    + intros [f [H P]]. inversion P; subst. exact H.
  - rewrite existsb_exists. split.
    + intros [[to chars] [Hin H]]. simpl in H. apply andb_true_iff in H as [Hc Hm].
      apply IH in Hm as [f [Hf P]]. exists f. split; [exact Hf|].
      econstructor; [|exact P]. exists chars. auto.
    + intros [f [Hf P]]. inversion P as [|? ? b ? ? [chars [Hin Hc]] P']; subst.
      exists (b, chars). split; [exact Hin|]. simpl. rewrite Hc. simpl.
      apply IH. eauto.
Qed.
End TestFacts.

Lemma test_matches this word st :
  test this word st
  = Ok (matches st (final (nodes this)) word (initial (nodes this)), st).
Proof.
  unfold test. rewrite match_matches by lia. rewrite drop_0. reflexivity.
Qed.

(** C10.  [test] is total: on every store, for every NFA and every finite
    word, the recursive [match] returns a boolean and leaves the store as it
    is; a recursion budget of one more than the characters that remain after
    [index] is enough at every call, so the depth is bounded by the length of
    the word. *)
Theorem test_terminates :
  (forall (st : Store) (finals : nat) (characters : list Z) (index node fuel : nat),
      length characters - index < fuel ->
      exists b, match_ fuel st finals characters index node = Ok b)
  /\ (forall (this : NFA) (word : list Z) (st : Store),
         exists b, test this word st = Ok (b, st)).
Proof.
  split.
  - intros st finals characters index node fuel H.
    eexists. apply match_matches. exact H.
  - intros this word st. eexists. apply test_matches.
Qed.

(** [test] answers true exactly on the accepted words. *)
Lemma test_true_accepts this word st :
  test this word st = Ok (true, st) <-> accepts st (nodes this) word.
Proof.
  rewrite test_matches. unfold accepts. rewrite <- matches_path.
  split; [intros [= H]; exact H|intros ->; reflexivity].
Qed.

(** C5.  [test(w)] returns true exactly when [w] labels a path from the
    initial node to a final node, each code point lying in the CharSet of the
    edge it takes; on the empty word it returns whether the initial node is
    final. *)
Theorem test_accepts_paths (this : NFA) (word : list Z) (st : Store) :
  (test this word st = Ok (true, st) <-> accepts st (nodes this) word)
  /\ test this [] st
     = Ok (JsSet.has (getSet st (final (nodes this))) (initial (nodes this)), st).
Proof.
  split.
  - rewrite test_matches. unfold accepts. rewrite <- matches_path.
    split; [intros [= H]; exact H|intros ->; reflexivity].
  - apply test_matches.
Qed.

(** ** Reading the store after a write *)

Lemma getNode_setOut st r m r' :
  getNode (setOut st r m) r'
  = if decide (r = r')
    then mkNode (node_id (getNode st r)) (node_list (getNode st r)) m (in_ (getNode st r))
    else getNode st r'.
Proof.
  unfold getNode, setOut; simpl. rewrite lookup_insert.
  destruct (decide (r = r')); reflexivity.
Qed.

Lemma getNode_setIn st r m r' :
  getNode (setIn st r m) r'
  = if decide (r = r')
    then mkNode (node_id (getNode st r)) (node_list (getNode st r)) (out (getNode st r)) m
    else getNode st r'.
Proof.
  unfold getNode, setIn; simpl. rewrite lookup_insert.
  destruct (decide (r = r')); reflexivity.
Qed.

Lemma outOf_setOut st r m r' :
  outOf (setOut st r m) r' = if decide (r = r') then m else outOf st r'.
Proof. unfold outOf. rewrite getNode_setOut. destruct (decide (r = r')); reflexivity. Qed.

Lemma inOf_setOut st r m r' : inOf (setOut st r m) r' = inOf st r'.
Proof.
  unfold inOf. rewrite getNode_setOut. destruct (decide (r = r')); [subst|]; reflexivity.
Qed.

Lemma outOf_setIn st r m r' : outOf (setIn st r m) r' = outOf st r'.
Proof.
  unfold outOf. rewrite getNode_setIn. destruct (decide (r = r')); [subst|]; reflexivity.
Qed.

Lemma inOf_setIn st r m r' :
  inOf (setIn st r m) r' = if decide (r = r') then m else inOf st r'.
Proof. unfold inOf. rewrite getNode_setIn. destruct (decide (r = r')); reflexivity. Qed.

Lemma node_list_setOut st r m r' :
  node_list (getNode (setOut st r m) r') = node_list (getNode st r').
Proof. rewrite getNode_setOut. destruct (decide (r = r')); [subst|]; reflexivity. Qed.

Lemma node_list_setIn st r m r' :
  node_list (getNode (setIn st r m) r') = node_list (getNode st r').
Proof. rewrite getNode_setIn. destruct (decide (r = r')); [subst|]; reflexivity. Qed.

Lemma getSet_setOut st r m s : getSet (setOut st r m) s = getSet st s.
Proof. reflexivity. Qed.

Lemma getSet_setIn st r m s : getSet (setIn st r m) s = getSet st s.
Proof. reflexivity. Qed.

Lemma getSet_putSet st s l s' :
  getSet (putSet st s l) s' = if decide (s = s') then l else getSet st s'.
Proof.
  unfold getSet, putSet; simpl. rewrite lookup_insert.
  destruct (decide (s = s')); reflexivity.
Qed.

Lemma getNode_putSet st s l r : getNode (putSet st s l) r = getNode st r.
Proof. reflexivity. Qed.

Lemma outOf_putSet st s l r : outOf (putSet st s l) r = outOf st r.
Proof. reflexivity. Qed.

Lemma inOf_putSet st s l r : inOf (putSet st s l) r = inOf st r.
Proof. reflexivity. Qed.

Create Rewrite HintDb store.
#[export] Hint Rewrite outOf_setOut inOf_setOut outOf_setIn inOf_setIn
  node_list_setOut node_list_setIn getSet_setOut getSet_setIn getSet_putSet
  getNode_putSet outOf_putSet inOf_putSet : store.

(** ** linkNodes *)

(** The label [linkNodes] leaves in a map that held [current] for the key. *)
Definition linked (current : option CharSet) (characters : CharSet) : CharSet :=
  match current with
  | Some l => CharSet.union l characters
  | None => characters
  end.

Lemma get_add map to characters :
  JsMap.get (add map to characters) to = Some (linked (JsMap.get map to) characters).
Proof.
  unfold add, linked. destruct (JsMap.get map to); apply JsMapFacts.get_set_eq.
Qed.

Lemma get_add_ne map to characters k :
  to <> k -> JsMap.get (add map to characters) k = JsMap.get map k.
Proof.
  intros H. unfold add. destruct (JsMap.get map to); apply JsMapFacts.get_set_ne; exact H.
Qed.

(** What a successful [linkNodes] does to every adjacency map. *)
Lemma linkNodes_ok this from to characters st st' :
  linkNodes this from to characters st = Ok (tt, st') ->
  (forall a, outOf st' a = if decide (from = a) then add (outOf st from) to characters
                           else outOf st a)
  /\ (forall b, inOf st' b = if decide (to = b) then add (inOf st to) from characters
                             else inOf st b)
  /\ (forall a, node_list (getNode st' a) = node_list (getNode st a))
  /\ (forall s, getSet st' s = getSet st s).
Proof.
  unfold linkNodes.
  destruct (negb (node_list (getNode st from) =? node_list (getNode st to))); [discriminate|].
  destruct (negb (node_list (getNode st from) =? nl_id this)); [discriminate|].
  destruct (CharSet.isEmpty characters); [discriminate|].
  intros [= <-]. repeat split; intros; autorewrite with store; reflexivity.
Qed.


(** ** Reasoning about computations *)

Lemma bind_Ok {S A B} (m : M S A) (k : A -> M S B) s b s' :
  bind m k s = Ok (b, s') <-> exists a s1, m s = Ok (a, s1) /\ k a s1 = Ok (b, s').
Proof.
  unfold bind. destruct (m s) as [[a s1]|e]; split.
  - intros H. eauto.
  - intros (a' & s1' & [= <- <-] & H). exact H.
  - discriminate.
  - intros (a' & s1' & [=] & _).
Qed.

Lemma forEach_app {S A} (l1 l2 : list A) (body : A -> M S unit) s :
  forEach (l1 ++ l2) body s
  = match forEach l1 body s with
    | Ok (_, s1) => forEach l2 body s1
    | Err e => Err e
    end.
Proof.
  revert s. induction l1 as [|x l1 IH]; intros s; simpl; [reflexivity|].
  unfold bind. destruct (body x s) as [[[] s1]|e]; [apply IH|reflexivity].
Qed.

(** A loop invariant that may mention the elements already handled. *)
Lemma forEach_inv {S A} (I : list A -> S -> Prop) (l : list A) (body : A -> M S unit) s s' :
  I [] s ->
  (forall pre x post s1 s2,
      l = pre ++ x :: post -> I pre s1 -> body x s1 = Ok (tt, s2) -> I (pre ++ [x]) s2) ->
  forEach l body s = Ok (tt, s') ->
  I l s'.
Proof.
  intros H0 Hstep.
  assert (G : forall post pre s1, l = pre ++ post -> I pre s1 ->
                forEach post body s1 = Ok (tt, s') -> I l s').
  { induction post as [|x post IH]; intros pre s1 E H1 Hrun.
    - simpl in Hrun. injection Hrun as <-. rewrite app_nil_r in E. subst. exact H1.
    - simpl in Hrun. apply bind_Ok in Hrun as ([] & s2 & Hb & Hrun).
      apply (IH (pre ++ [x]) s2).
      + rewrite <- app_assoc. exact E.
      + eapply Hstep; eauto.
      + exact Hrun. }
  intros Hrun. apply (G l [] s); auto.
Qed.

(** The same for loops that cannot fail while the invariant holds. *)
Lemma forEach_total {S A} (I : list A -> S -> Prop) (l : list A) (body : A -> M S unit) s :
  I [] s ->
  (forall pre x post s1,
      l = pre ++ x :: post -> I pre s1 ->
      exists s2, body x s1 = Ok (tt, s2) /\ I (pre ++ [x]) s2) ->
  exists s', forEach l body s = Ok (tt, s') /\ I l s'.
Proof.
  intros H0 Hstep.
  assert (G : forall post pre s1, l = pre ++ post -> I pre s1 ->
                exists s', forEach post body s1 = Ok (tt, s') /\ I l s').
  { induction post as [|x post IH]; intros pre s1 E H1.
    - rewrite app_nil_r in E. subst. exists s1. split; [reflexivity|exact H1].
    - destruct (Hstep pre x post s1 E H1) as (s2 & Hb & H2).
      destruct (IH (pre ++ [x]) s2) as (s' & Hrun & H'); [rewrite <- app_assoc; exact E|exact H2|].
      exists s'. split; [|exact H'].
      simpl. unfold bind. rewrite Hb. exact Hrun. }
  apply (G l [] s); auto.
Qed.

(** ** Depth-first search *)

Lemma dropVisited_In V K n : In n (dropVisited V K) -> In n K.
Proof.
  induction K as [|e K IH]; simpl; [tauto|].
  destruct (JsSet.has V e); [right; auto|simpl; tauto].
Qed.

Lemma dropVisited_keeps V K n : In n K -> In n V \/ In n (dropVisited V K).
Proof.
  induction K as [|e K IH]; simpl; [tauto|].
  destruct (JsSet.has V e) eqn:E.
  - apply JsSetFacts.set_has_true in E. intros [<-|H]; auto.
  - simpl. tauto.
Qed.

Lemma dropVisited_head V K e rest : dropVisited V K = e :: rest -> JsSet.has V e = false.
Proof.
  induction K as [|x K IH]; simpl; [discriminate|].
  destruct (JsSet.has V x) eqn:E; [exact IH|].
  intros [= <- <-]. exact E.
Qed.

Lemma DFSLoop_inv {S} (I : list nat -> list nat -> S -> Prop) (next : nat -> M S (list nat)) :
  (forall V e K s, I V (e :: K) s -> JsSet.has V e = true -> I V K s) ->
  (forall V e K s r s',
      I V (e :: K) s -> JsSet.has V e = false -> next e s = Ok (r, s') ->
      I (e :: V) (r ++ K) s') ->
  forall fuel V K s s',
    I V K s -> DFSLoop fuel next V K s = Ok (tt, s') -> exists V', I V' [] s'.
Proof.
  intros Hskip Hvisit.
  assert (Hdrop : forall V K s, I V K s -> I V (dropVisited V K) s).
  { intros V K s. induction K as [|e K IH]; simpl; [auto|].
    destruct (JsSet.has V e) eqn:E; [|auto].
    intros H. apply IH. eapply Hskip; eauto. }
  induction fuel as [|fuel IH]; intros V K s s' HI Hrun.
  - simpl in Hrun. apply Hdrop in HI.
    destruct (dropVisited V K); [|discriminate].
    injection Hrun as <-. eauto.
  - simpl in Hrun. pose proof (Hdrop _ _ _ HI) as HI'.
    destruct (dropVisited V K) as [|e rest] eqn:E.
    + injection Hrun as <-. eauto.
    + apply bind_Ok in Hrun as (r & s1 & Hn & Hrun).
      eapply IH; [|exact Hrun].
      eapply Hvisit; eauto. eapply dropVisited_head; eauto.
Qed.


(** [DFS] with a callback that records the node in a set and goes on with
    the nodes [nexts] gives collects the nodes reachable along [nexts]. *)
Lemma DFS_collects (nexts : nat -> list nat) fuel start acc0 acc :
  DFS fuel start (fun node acc => Ok (nexts node, JsSet.add acc node)) acc0 = Ok (tt, acc) ->
  forall n, In n acc <-> In n acc0 \/ rtc (fun a b => In b (nexts a)) start n.
Proof.
  intros Hrun. unfold DFS in Hrun.
  set (R := fun a b => In b (nexts a)).
  set (I := fun (V K : list nat) (acc : list nat) =>
              (forall n, In n acc <-> In n acc0 \/ In n V)
              /\ (forall n, In n V \/ In n K -> rtc R start n)
              /\ (forall n m, In n V -> R n m -> In m V \/ In m K)
              /\ (In start V \/ In start K)).
  destruct (DFSLoop_inv I (fun node acc => Ok (nexts node, JsSet.add acc node)))
    with (fuel := fuel) (V := @nil nat) (K := [start]) (s := acc0) (s' := acc)
    as (V' & Hacc & Hsound & Hclosed & Hstart); [| | |exact Hrun|].
  - (* skipping a visited node *)
    intros V e K s (H1 & H2 & H3 & H4) Hv. apply JsSetFacts.set_has_true in Hv.
    split; [exact H1|]. split; [|split].
    + intros n [H|H]; apply H2; simpl; auto.
    + intros n m Hn Hm. destruct (H3 n m Hn Hm) as [H|[<-|H]]; auto.
    + destruct H4 as [H|[<-|H]]; auto.
  - (* visiting a node *)
    intros V e K s r s' (H1 & H2 & H3 & H4) Hv [= <- <-].
    split; [|split; [|split]].
    + intros n. rewrite JsSetFacts.In_add, H1. simpl. intuition congruence.
    + intros n [[<-|H]|H].
      * apply H2. simpl. auto.
      * apply H2. auto.
      * apply in_app_iff in H as [H|H].
        -- eapply rtc_r; [apply H2; simpl; auto|exact H].
        -- apply H2. simpl. auto.
    + intros n m [<-|Hn] Hm.
      * right. apply in_app_iff. left. exact Hm.
      * destruct (H3 n m Hn Hm) as [H|[<-|H]]; simpl; auto.
        right. apply in_app_iff. auto.
    + destruct H4 as [H|[<-|H]]; simpl; auto. right. apply in_app_iff. auto.
  - (* initially *)
    split; [|split; [|split]]; simpl; try tauto.
    intros n [[]|[<-|[]]]. constructor.
  - intros n. rewrite Hacc.
    assert (G : forall a b, rtc R a b -> In a V' -> In b V').
    { induction 1 as [|a b c Hab _ IH]; [auto|].
      intros Ha. apply IH. destruct (Hclosed a b Ha Hab) as [H'|[]]. exact H'. }
    split; (intros [H|H]; [left; exact H|right]).
    + apply Hsound. auto.
    + apply (G start n H). destruct Hstart as [H'|[]]. exact H'.
Qed.

(** ** Edges *)

(** [succ st a b]: [b] is a key of [a.out]; [pred st b a]: [a] is a key of
    [b.in]. *)
Definition succ (st : Store) (a b : nat) : Prop := In b (JsMap.keys (outOf st a)).
Definition pred (st : Store) (b a : nat) : Prop := In a (JsMap.keys (inOf st b)).


Lemma In_keys_delete {V} (m : list (nat * V)) k k' :
  In k' (JsMap.keys (JsMap.delete m k)) <-> k' <> k /\ In k' (JsMap.keys m).
Proof.
  rewrite !JsMapFacts.In_keys. destruct (decide (k = k')) as [->|Hne].
  - rewrite JsMapFacts.get_delete_eq. split; [intros [v [=]]|tauto].
  - rewrite JsMapFacts.get_delete_ne by exact Hne. split; [split; [congruence|tauto]|tauto].
Qed.






(** Step 5 of [removeUnreachable] collects the nodes from which the [in]
    maps lead back to one of the final nodes. *)
Lemma canReach_collects st fuel finals C :
  forEach finals (fun f => DFS fuel f (canReachNext st)) [] = Ok (tt, C) ->
  forall n, In n C <-> exists f, In f finals /\ rtc (pred st) f n.
Proof.
  intros Hrun.
  apply (forEach_inv (fun pre C =>
           (forall n, In n C -> exists f, In f pre /\ rtc (pred st) f n)
           /\ (forall n m, In n C -> pred st n m -> In m C)
           /\ (forall f, In f pre -> In f C))) in Hrun.
  - destruct Hrun as (Hsound & Hclosed & Hfin). intros n. split; [apply Hsound|].
    intros (f & Hf & Hr). apply Hfin in Hf. revert Hf.
    induction Hr as [|a b c Hab _ IH]; [auto|]. intros Ha. apply IH. eapply Hclosed; eauto.
  - split; [|split]; simpl; tauto.
  - intros pre f post C0 C1 _ (J1 & J2 & J3) Hdfs. unfold DFS in Hdfs.
    set (I := fun (V K : list nat) (C : list nat) =>
                (forall n, In n C0 -> In n C)
                /\ (forall n, In n V -> In n C)
                /\ (forall n, In n C \/ In n K ->
                              exists f', In f' (pre ++ [f]) /\ rtc (pred st) f' n)
                /\ (forall n m, In n C -> pred st n m -> In m C \/ In m K)
                /\ (In f C \/ In f K)).
    destruct (DFSLoop_inv I (canReachNext st))
      with (fuel := fuel) (V := @nil nat) (K := [f]) (s := C0) (s' := C1)
      as (V' & I1 & I2 & I3 & I4 & I5); [| | |exact Hdfs|].
    + intros V e K D (H1 & H2 & H3 & H4 & H5) Hv. apply JsSetFacts.set_has_true in Hv.
      split; [exact H1|]. split; [exact H2|]. split; [|split].
      * intros n [H|H]; apply H3; simpl; auto.
      * intros n m Hn Hm. destruct (H4 n m Hn Hm) as [H|[<-|H]]; auto.
      * destruct H5 as [H|[<-|H]]; auto.
    + intros V e K D r D' (H1 & H2 & H3 & H4 & H5) Hv Hn. unfold canReachNext in Hn.
      destruct (JsSet.has D e) eqn:Ec; injection Hn as <- <-.
      * apply JsSetFacts.set_has_true in Ec.
        split; [exact H1|]. split; [|split; [|split]].
        -- intros n [<-|H]; auto.
        -- intros n [H|H]; apply H3; simpl; auto.
        -- intros n m Hn Hm. destruct (H4 n m Hn Hm) as [H|[<-|H]]; auto.
        -- destruct H5 as [H|[<-|H]]; auto.
      * split; [|split; [|split; [|split]]].
        -- intros n Hn. apply JsSetFacts.In_add. auto.
        -- intros n [<-|H]; apply JsSetFacts.In_add; auto.
        -- intros n [H|H].
           ++ apply JsSetFacts.In_add in H as [->|H]; apply H3; simpl; auto.
           ++ apply in_app_iff in H as [H|H].
              ** destruct (H3 e) as (f' & Hf' & Hr); [simpl; auto|].
                 exists f'. split; [exact Hf'|]. eapply rtc_r; [exact Hr|exact H].
              ** apply H3. simpl. auto.
        -- intros n m Hn Hm. rewrite JsSetFacts.In_add, in_app_iff.
           apply JsSetFacts.In_add in Hn as [->|Hn].
           ++ right. left. exact Hm.
           ++ destruct (H4 n m Hn Hm) as [H|[<-|H]]; auto.
        -- rewrite JsSetFacts.In_add, in_app_iff.
           destruct H5 as [H|[<-|H]]; auto.
    + split; [auto|]. split; [intros n []|]. split; [|split].
      * intros n [H|[<-|[]]].
        -- destruct (J1 n H) as (f' & Hf' & Hr). exists f'. rewrite in_app_iff. auto.
        -- exists f. rewrite in_app_iff. simpl. split; [auto|constructor].
      * intros n m Hn Hm. left. eapply J2; eauto.
      * right. left. reflexivity.
    + split; [|split].
      * intros n Hn. apply I3. auto.
      * intros n m Hn Hm. destruct (I4 n m Hn Hm) as [H|[]]. exact H.
      * intros f' Hf'. apply in_app_iff in Hf' as [H|[<-|[]]].
        -- apply I1, J3, H.
        -- destruct I5 as [H|[]]. exact H.
Qed.



Lemma rtc_succ_mono st st' a b :
  (forall x y, succ st x y -> succ st' x y) -> rtc (succ st) a b -> rtc (succ st') a b.
Proof.
  intros H Hr. induction Hr as [|x y z Hxy _ IH]; [constructor|].
  eapply rtc_l; eauto.
Qed.


(** ** Concrete runs *)

Definition options16 : NFAOptions := mkOptions 65535.

(** The automata of the words "a", "b", "ab" and "ac", built one after the
    other in an empty store. *)
Definition wordA : list number := [ofZ 97].
Definition wordB : list number := [ofZ 98].
Definition wordAB : list number := [ofZ 97; ofZ 98].
Definition wordAC : list number := [ofZ 97; ofZ 99].

(** C1.  On the automata of "a" and "b" (two NFAs, same [maxCharacter])
    [concat] hands the other automaton's own node list to [baseConcat]; the
    first [linkNodes], from a final node of the one list to a node of the
    other, throws.  On the same object [concat] is [quantify(2, 2)]. *)
Theorem concat_links_across_lists :
  (a <- fromWords [wordA] options16 ;;
   b <- fromWords [wordB] options16 ;;
   concat a b) emptyStore = Err CrossListLink
  /\ (forall (this : NFA) (st : Store),
         concat this this st = quantify this 2%Z (Some 2%Z) st)
  /\ (forall (this nfa : NFA) (st : Store),
         sameNFA this nfa = false ->
         maxCharacter (options this) = maxCharacter (options nfa) ->
         concat this nfa st = baseConcat (nodes this) (nodes this) (nodes nfa) st).
Proof.
  split; [vm_compute; reflexivity|]. split.
  - intros this st. unfold concat, sameNFA. rewrite Nat.eqb_refl. reflexivity.
  - intros this nfa st Hne Hmax. unfold concat. rewrite Hne.
    unfold checkOptionsCompatibility. rewrite Hmax, Z.eqb_refl. reflexivity.
Qed.

(** A DFA with one state and a transition on "a" from this state to
    itself. *)
Definition loopDFA : DFA :=
  mkDFA {[ 0 := [(CharSet.mkRange 97 97, 0)] ]} 0 [0] 65535.

(** C3.  [fromDFA] mirrors the transitions of the DFA, those that enter its
    initial state too: the initial node of the NFA made from [loopDFA] has an
    incoming edge. *)
Theorem fromDFA_initial_has_incoming :
  match fromDFA loopDFA emptyStore with
  | Ok (nfa, st) => JsMap.keys (inOf st (initial (nodes nfa))) = [initial (nodes nfa)]
  | Err _ => False
  end.
Proof. vm_compute. reflexivity. Qed.

Lemma isInteger_ofZ z : isInteger (ofZ z) = true.
Proof.
  unfold isInteger, ofZ, inject_Z, Qred.
  pose proof (Z.ggcd_gcd z 1) as Hg. pose proof (Z.ggcd_correct_divisors z 1) as Hd.
  destruct (Z.ggcd z 1) as [g [a b]]. simpl in *.
  rewrite Z.gcd_1_r in Hg. subst g. destruct Hd as [_ Hb].
  assert (b = 1%Z) as -> by lia. reflexivity.
Qed.

Lemma greaterThan_ofZ z m : (z <= m)%Z -> greaterThan (ofZ z) m = false.
Proof.
  intros H. unfold greaterThan, ofZ. apply negb_false_iff.
  apply Qle_bool_iff. rewrite <- Zle_Qle. exact H.
Qed.

(** C8.  [fromWords] takes a negative code point: the word made of [-1]
    alone yields an automaton, with an edge labelled [-1], that accepts this
    word; and the guard of [getNext], the one place that raises
    invalid-codepoint, lets every negative integer pass. *)
Theorem fromWords_accepts_negative :
  match fromWords [[ofZ (-1)]] options16 emptyStore with
  | Ok (nfa, st) => test nfa [(-1)%Z] st = Ok (true, st)
  | Err _ => False
  end
  /\ forall (nodeList : NodeList) (options : NFAOptions) (node : nat) (z : Z) (st : Store),
       (z < 0)%Z -> (0 <= maxCharacter options)%Z ->
       getNext nodeList options node (ofZ z) st <> Err InvalidCodepoint.
Proof.
  split; [vm_compute; reflexivity|].
  intros nodeList options node z st Hz Hmax. unfold getNext.
  rewrite greaterThan_ofZ by lia. rewrite isInteger_ofZ. cbn [negb].
  unfold bind, gets, ret, throw. cbv beta.
  destruct (findEdge (outOf st node) (toInteger (ofZ z))); [discriminate|].
  unfold createNode. cbv beta zeta iota.
  destruct (CharSet.unionRanges _ _); [|discriminate].
  unfold linkNodes.
  repeat match goal with |- context [if ?b then _ else _] => destruct b end; discriminate.
Qed.

(** C9.  The intersection of the automata of "ab" and "ac" is empty, and
    [removeUnreachable] resets its node list by clearing the maps of the
    initial node only: the node that the initial node led to (node 8, of the
    same list) still lists it in its [in] map. *)
Theorem intersect_leaves_stale_in_entry :
  match (a <- fromWords [wordAB] options16 ;;
         b <- fromWords [wordAC] options16 ;;
         intersect a b) emptyStore with
  | Ok (nfa, st) =>
      node_list (getNode st 8) = nl_id (nodes nfa)
      /\ JsMap.has (inOf st 8) (initial (nodes nfa)) = true
      /\ JsMap.has (outOf st (initial (nodes nfa))) 8 = false
  | Err _ => False
  end.
Proof. vm_compute. repeat split. Qed.



Lemma In_addAll_nil fs n : In n (fold_left JsSet.add fs []) <-> In n fs.
Proof. rewrite JsSetFacts.In_addAll. simpl. tauto. Qed.




Lemma allocated_of_out st a b :
  In b (JsMap.keys (outOf st a)) -> exists n, store_nodes st !! a = Some n /\ out n = outOf st a.
Proof.
  unfold outOf, getNode. destruct (store_nodes st !! a) as [n|]; simpl; [eauto|tauto].
Qed.



(** The automaton of "ab" with one more node, entered from the middle node
    on "c" and leading nowhere. *)
Definition deadEnd : Result (NFA * Store) :=
  (a <- fromWords [wordAB] options16 ;;
   d <- createNode (nl_id (nodes a)) ;;
   linkNodes (nodes a) 1 d (CharSet.mk 65535 [CharSet.mkRange 99 99]) ;;;
   ret a) emptyStore.

Definition deadEndStore : Store :=
  Eval vm_compute in match deadEnd with Ok (_, st) => st | Err _ => emptyStore end.
Definition deadEndList : NodeList :=
  Eval vm_compute in match deadEnd with Ok (a, _) => nodes a | Err _ => mkNodeList 0 (mkSubList 0 0) end.


(** ** The primitives, seen through the maps of the nodes *)

Definition allocated (st : Store) (r : nat) : Prop := is_Some (store_nodes st !! r).
Definition allocatedSet (st : Store) (s : nat) : Prop := is_Some (store_sets st !! s).
Definition owner (st : Store) (r : nat) : nat := node_list (getNode st r).

Lemma unallocated_blank st r : ~ allocated st r -> getNode st r = blankNode.
Proof.
  unfold allocated, getNode. destruct (store_nodes st !! r); [|reflexivity].
  intros H. exfalso. apply H. eauto.
Qed.

Lemma createNode_spec l st :
  exists r st',
    createNode l st = Ok (r, st')
    /\ ~ allocated st r
    /\ (forall a, allocated st' a <-> a = r \/ allocated st a)
    /\ owner st' r = l
    /\ (forall a, a <> r -> owner st' a = owner st a)
    /\ (forall a, outOf st' a = outOf st a)
    /\ (forall a, inOf st' a = inOf st a)
    /\ (forall s, getSet st' s = getSet st s)
    /\ (forall s, allocatedSet st' s <-> allocatedSet st s).
Proof.
  eexists. eexists. split; [reflexivity|].
  set (r := fresh (dom (store_nodes st))).
  assert (Hr : store_nodes st !! r = None).
  { apply not_elem_of_dom. apply is_fresh. }
  assert (Hblank : getNode st r = blankNode) by (unfold getNode; rewrite Hr; reflexivity).
  split; [unfold allocated; rewrite Hr; intros [? [=]]|].
  split; [|split; [|split; [|split; [|split; [|split]]]]].
  - intros a. unfold allocated; simpl. rewrite lookup_insert.
    destruct (decide (r = a)) as [<-|Hne].
    + split; [auto|intros _; eauto].
    + split; [auto|intros [->|H]; [contradiction|exact H]].
  - unfold owner, getNode; simpl. rewrite lookup_insert_eq. reflexivity.
  - intros a Hne. unfold owner, getNode; simpl. rewrite lookup_insert_ne by congruence.
    reflexivity.
  - intros a. unfold outOf, getNode; simpl. rewrite lookup_insert.
    destruct (decide (r = a)) as [<-|Hne]; [rewrite Hr|]; reflexivity.
  - intros a. unfold inOf, getNode; simpl. rewrite lookup_insert.
    destruct (decide (r = a)) as [<-|Hne]; [rewrite Hr|]; reflexivity.
  - reflexivity.
  - reflexivity.
Qed.

Lemma newSet_spec st :
  exists s st',
    newSet st = Ok (s, st')
    /\ ~ allocatedSet st s
    /\ (forall t, allocatedSet st' t <-> t = s \/ allocatedSet st t)
    /\ (forall t, getSet st' t = getSet st t)
    /\ getSet st' s = []
    /\ store_nodes st' = store_nodes st.
Proof.
  eexists. eexists. split; [reflexivity|].
  set (s := fresh (dom (store_sets st))).
  assert (Hs : store_sets st !! s = None).
  { apply not_elem_of_dom. apply is_fresh. }
  split; [unfold allocatedSet; rewrite Hs; intros [? [=]]|].
  split; [|split; [|split]].
  - intros t. unfold allocatedSet; simpl. rewrite lookup_insert.
    destruct (decide (s = t)) as [<-|Hne].
    + split; [auto|intros _; eauto].
    + split; [auto|intros [->|H]; [contradiction|exact H]].
  - intros t. rewrite getSet_putSet. destruct (decide (s = t)) as [<-|Hne]; [|reflexivity].
    unfold getSet. rewrite Hs. reflexivity.
  - rewrite getSet_putSet, decide_True by reflexivity. reflexivity.
  - reflexivity.
Qed.

Lemma allocated_setOut st r m a : allocated (setOut st r m) a <-> a = r \/ allocated st a.
Proof.
  unfold allocated, setOut; simpl. rewrite lookup_insert.
  destruct (decide (r = a)) as [<-|Hne].
  - split; [auto|intros _; eauto].
  - split; [auto|intros [->|H]; [contradiction|exact H]].
Qed.

Lemma allocated_setIn st r m a : allocated (setIn st r m) a <-> a = r \/ allocated st a.
Proof.
  unfold allocated, setIn; simpl. rewrite lookup_insert.
  destruct (decide (r = a)) as [<-|Hne].
  - split; [auto|intros _; eauto].
  - split; [auto|intros [->|H]; [contradiction|exact H]].
Qed.

Lemma allocatedSet_putSet st s l t : allocatedSet (putSet st s l) t <-> t = s \/ allocatedSet st t.
Proof.
  unfold allocatedSet, putSet; simpl. rewrite lookup_insert.
  destruct (decide (s = t)) as [<-|Hne].
  - split; [auto|intros _; eauto].
  - split; [auto|intros [->|H]; [contradiction|exact H]].
Qed.

(** [linkNodes] succeeds exactly on two nodes of the called list and a
    non-empty label. *)
Lemma linkNodes_succeeds this from to chars st :
  owner st from = nl_id this -> owner st to = nl_id this -> CharSet.isEmpty chars = false ->
  exists st', linkNodes this from to chars st = Ok (tt, st').
Proof.
  unfold owner, linkNodes. intros -> -> ->. rewrite Nat.eqb_refl. simpl. eauto.
Qed.

Lemma linkNodes_effect this from to chars st st' :
  linkNodes this from to chars st = Ok (tt, st') ->
  (forall a, outOf st' a = if decide (from = a) then add (outOf st from) to chars
                           else outOf st a)
  /\ (forall b, inOf st' b = if decide (to = b) then add (inOf st to) from chars
                             else inOf st b)
  /\ (forall a, owner st' a = owner st a)
  /\ (forall s, getSet st' s = getSet st s)
  /\ (forall a, allocated st' a <-> a = from \/ a = to \/ allocated st a)
  /\ (forall s, allocatedSet st' s <-> allocatedSet st s)
  /\ CharSet.isEmpty chars = false.
Proof.
  intros H. pose proof (linkNodes_ok _ _ _ _ _ _ H) as (H1 & H2 & H3 & H4).
  split; [exact H1|]. split; [exact H2|]. split; [exact H3|]. split; [exact H4|].
  unfold linkNodes in H.
  destruct (negb (node_list (getNode st from) =? node_list (getNode st to))); [discriminate|].
  destruct (negb (node_list (getNode st from) =? nl_id this)); [discriminate|].
  destruct (CharSet.isEmpty chars); [discriminate|].
  injection H as <-. split; [|split; [|reflexivity]].
  - intros a. rewrite allocated_setIn, allocated_setOut. tauto.
  - intros s. reflexivity.
Qed.

Lemma unlinkNodes_succeeds this from to st :
  owner st from = nl_id this -> owner st to = nl_id this ->
  In to (JsMap.keys (outOf st from)) ->
  exists st', unlinkNodes this from to st = Ok (tt, st').
Proof.
  unfold owner, unlinkNodes. intros -> -> H. rewrite Nat.eqb_refl. simpl.
  apply JsMapFacts.map_has_true in H. rewrite H. simpl. eauto.
Qed.

Lemma unlinkNodes_effect this from to st st' :
  unlinkNodes this from to st = Ok (tt, st') ->
  (forall a, outOf st' a = if decide (from = a) then JsMap.delete (outOf st from) to
                           else outOf st a)
  /\ (forall b, inOf st' b = if decide (to = b) then JsMap.delete (inOf st to) from
                             else inOf st b)
  /\ (forall a, owner st' a = owner st a)
  /\ (forall s, getSet st' s = getSet st s)
  /\ (forall a, allocated st' a <-> a = from \/ a = to \/ allocated st a)
  /\ (forall s, allocatedSet st' s <-> allocatedSet st s).
Proof.
  unfold unlinkNodes.
  destruct (negb (node_list (getNode st from) =? node_list (getNode st to))); [discriminate|].
  destruct (negb (node_list (getNode st from) =? nl_id this)); [discriminate|].
  destruct (negb (JsMap.has (outOf st from) to)); [discriminate|].
  intros [= <-]. unfold owner.
  split; [|split; [|split; [|split; [|split]]]]; intros; autorewrite with store;
    try reflexivity.
  rewrite allocated_setIn, allocated_setOut. tauto.
Qed.

(** ** Adjacency maps under [add] and [delete] *)

Lemma In_set {V} (m : list (nat * V)) k v k' v' :
  In (k', v') (JsMap.set m k v) -> (k' = k /\ v' = v) \/ In (k', v') m.
Proof.
  induction m as [|[k0 v0] tl IH]; simpl.
  - intros [[= <- <-]|[]]. auto.
  - destruct (k0 =? k) eqn:E; simpl.
    + intros [[= <- <-]|H]; auto.
    + intros [H|H]; [auto|]. destruct (IH H); auto.
Qed.

Lemma keys_set {V} (m : list (nat * V)) k v k' :
  In k' (JsMap.keys (JsMap.set m k v)) <-> k' = k \/ In k' (JsMap.keys m).
Proof.
  rewrite !JsMapFacts.In_keys. destruct (decide (k = k')) as [<-|Hne].
  - rewrite JsMapFacts.get_set_eq. split; [auto|eauto].
  - rewrite JsMapFacts.get_set_ne by exact Hne. split; [auto|intros [->|H]; [contradiction|exact H]].
Qed.

Lemma NoDup_keys_set {V} (m : list (nat * V)) k v :
  List.NoDup (JsMap.keys m) -> List.NoDup (JsMap.keys (JsMap.set m k v)).
Proof.
  induction m as [|[k0 v0] tl IH]; simpl.
  - intros _. constructor; [simpl; tauto|constructor].
  - intros H. inversion H as [|? ? Hnot Htl]; subst.
    destruct (k0 =? k) eqn:E; simpl.
    + apply Nat.eqb_eq in E; subst. constructor; assumption.
    + apply Nat.eqb_neq in E. constructor; [|apply IH; exact Htl].
      change (~ In k0 (JsMap.keys (JsMap.set tl k v))). rewrite keys_set.
      intros [->|H']; [congruence|contradiction].
Qed.

Lemma In_entries_delete {V} (m : list (nat * V)) k k' v' :
  In (k', v') (JsMap.delete m k) <-> k' <> k /\ In (k', v') m.
Proof.
  unfold JsMap.delete. rewrite filter_In. simpl. rewrite negb_true_iff, Nat.eqb_neq. tauto.
Qed.

Lemma NoDup_keys_delete {V} (m : list (nat * V)) k :
  List.NoDup (JsMap.keys m) -> List.NoDup (JsMap.keys (JsMap.delete m k)).
Proof.
  unfold JsMap.delete, JsMap.keys. induction m as [|[k0 v0] tl IH]; simpl; [auto|].
  intros H. inversion H as [|? ? Hnot Htl]; subst.
  destruct (negb (k0 =? k)); simpl; [|auto].
  constructor; [|auto]. intros Hin. apply Hnot.
  apply in_map_iff in Hin as ([k1 v1] & E & Hin). apply filter_In in Hin as [Hin _].
  apply in_map_iff. exists (k1, v1). auto.
Qed.

Lemma keys_add m to chars k :
  In k (JsMap.keys (add m to chars)) <-> k = to \/ In k (JsMap.keys m).
Proof. unfold add. destruct (JsMap.get m to); apply keys_set. Qed.

Lemma NoDup_keys_add m to chars :
  List.NoDup (JsMap.keys m) -> List.NoDup (JsMap.keys (add m to chars)).
Proof. unfold add. destruct (JsMap.get m to); apply NoDup_keys_set. Qed.

Lemma In_entries_add m to chars b S :
  In (b, S) (add m to chars) ->
  (b = to /\ S = linked (JsMap.get m to) chars) \/ In (b, S) m.
Proof.
  unfold add, linked. destruct (JsMap.get m to); intros H; apply In_set in H; tauto.
Qed.

(** A step along an entry of an adjacency map. *)
Definition hasStep (m : list (nat * CharSet)) (c : Z) (b : nat) : Prop :=
  exists S, In (b, S) m /\ CharSet.has S c = true.

Lemma hasStep_set_fresh m k v c b :
  JsMap.get m k = None ->
  hasStep (JsMap.set m k v) c b <-> hasStep m c b \/ (b = k /\ CharSet.has v c = true).
Proof.
  intros Hnone. unfold hasStep. induction m as [|[k0 v0] tl IH]; simpl.
  - split.
    + intros (S & [[= <- <-]|[]] & Hc). auto.
    + intros [(S & [] & _)|[-> Hc]]. eauto.
  - simpl in Hnone. destruct (k0 =? k) eqn:E; [discriminate|]. simpl.
    specialize (IH Hnone). split.
    + intros (S & [[= <- <-]|Hin] & Hc); [left; eauto|].
      destruct (proj1 IH) as [(S' & Hin' & H')|H']; eauto.
    + intros [(S & [[= <- <-]|Hin] & Hc)|Hc]; [eauto| |].
      * destruct (proj2 IH) as (S' & Hin' & H'); eauto.
      * destruct (proj2 IH) as (S' & Hin' & H'); eauto.
Qed.

Lemma hasStep_set_merge m k cur chars c b :
  JsMap.get m k = Some cur ->
  hasStep (JsMap.set m k (CharSet.union cur chars)) c b
  <-> hasStep m c b \/ (b = k /\ CharSet.has chars c = true).
Proof.
  unfold hasStep. induction m as [|[k0 v0] tl IH]; simpl; [discriminate|].
  destruct (k0 =? k) eqn:E; simpl.
  - apply Nat.eqb_eq in E; subst k0. intros [= ->]. split.
    + intros (S & [[= <- <-]|Hin] & Hc); [|left; eauto].
      rewrite CharSetFacts.has_union in Hc. apply orb_true_iff in Hc as [Hc|Hc]; [left; eauto|auto].
    + intros [(S & [[= <- <-]|Hin] & Hc)|[-> Hc]].
      * eexists. split; [left; reflexivity|]. rewrite CharSetFacts.has_union, Hc. reflexivity.
      * eauto.
      * eexists. split; [left; reflexivity|]. rewrite CharSetFacts.has_union, Hc.
        apply orb_true_r.
  - intros Hget. specialize (IH Hget). split.
    + intros (S & [[= <- <-]|Hin] & Hc); [left; eauto|].
      destruct (proj1 IH) as [(S' & Hin' & H')|H']; eauto.
    + intros [(S & [[= <- <-]|Hin] & Hc)|Hc]; [eauto| |].
      * destruct (proj2 IH) as (S' & Hin' & H'); eauto.
      * destruct (proj2 IH) as (S' & Hin' & H'); eauto.
Qed.

Lemma hasStep_add m to chars c b :
  hasStep (add m to chars) c b <-> hasStep m c b \/ (b = to /\ CharSet.has chars c = true).
Proof.
  unfold add. destruct (JsMap.get m to) eqn:E.
  - apply hasStep_set_merge. exact E.
  - apply hasStep_set_fresh. exact E.
Qed.

Lemma hasStep_delete m k c b :
  hasStep (JsMap.delete m k) c b <-> b <> k /\ hasStep m c b.
Proof.
  unfold hasStep. split.
  - intros (S & Hin & H). apply In_entries_delete in Hin as [Hne Hin]. eauto.
  - intros (Hne & S & Hin & H). exists S. split; [apply In_entries_delete; auto|exact H].
Qed.

Lemma step_hasStep st a c b : step st a c b <-> hasStep (outOf st a) c b.
Proof. reflexivity. Qed.

Lemma addRanges_nonempty rs l : rs <> [] -> CharSet.addRanges rs l <> [].
Proof.
  unfold CharSet.addRanges. destruct rs as [|r rs] using rev_ind; [congruence|].
  intros _. rewrite fold_left_app. simpl. apply CharSetFacts.addRange_not_nil.
Qed.

Lemma linked_nonempty current chars :
  CharSet.isEmpty chars = false -> CharSet.isEmpty (linked current chars) = false.
Proof.
  unfold linked. destruct current as [l|]; [|auto].
  unfold CharSet.isEmpty, CharSet.union; simpl.
  destruct (CharSet.ranges chars) as [|r rs] eqn:E; [discriminate|]. intros _.
  destruct (CharSet.addRanges (r :: rs) (CharSet.ranges l)) eqn:E'; [|reflexivity].
  exfalso. revert E'. apply addRanges_nonempty. discriminate.
Qed.

(** ** Well-formed graphs *)

(** The facts about the [out] maps that the transformers rely on: no key
    twice, every target allocated, no empty label. *)
Record good (st : Store) : Prop := mkGood {
  good_nodup : forall a, List.NoDup (JsMap.keys (outOf st a));
  good_closed : forall a b, In b (JsMap.keys (outOf st a)) -> allocated st b;
  good_labels : forall a b S, In (b, S) (outOf st a) -> CharSet.isEmpty S = false
}.

Lemma good_same_out st st' :
  (forall a, outOf st' a = outOf st a) ->
  (forall a, allocated st a -> allocated st' a) ->
  good st -> good st'.
Proof.
  intros Hout Hal [G1 G2 G3]. split.
  - intros a. rewrite Hout. apply G1.
  - intros a b. rewrite Hout. intros H. apply Hal. eapply G2; eauto.
  - intros a b S. rewrite Hout. apply G3.
Qed.

Lemma good_linkNodes this from to chars st st' :
  linkNodes this from to chars st = Ok (tt, st') -> good st -> good st'.
Proof.
  intros H [G1 G2 G3]. apply linkNodes_effect in H as (Hout & _ & _ & _ & Hal & _ & Hne).
  split.
  - intros a. rewrite Hout. destruct (decide (from = a)); [apply NoDup_keys_add|]; apply G1.
  - intros a b. rewrite Hout, Hal. destruct (decide (from = a)) as [<-|_].
    + rewrite keys_add. intros [->|H]; [auto|]. right; right. eapply G2; eauto.
    + intros H. right; right. eapply G2; eauto.
  - intros a b S. rewrite Hout. destruct (decide (from = a)) as [<-|_]; [|apply G3].
    intros H. apply In_entries_add in H as [[_ ->]|H]; [|eapply G3; eauto].
    apply linked_nonempty. exact Hne.
Qed.

Lemma good_unlinkNodes this from to st st' :
  unlinkNodes this from to st = Ok (tt, st') -> good st -> good st'.
Proof.
  intros H [G1 G2 G3]. apply unlinkNodes_effect in H as (Hout & _ & _ & _ & Hal & _).
  split.
  - intros a. rewrite Hout. destruct (decide (from = a)); [apply NoDup_keys_delete|]; apply G1.
  - intros a b. rewrite Hout, Hal. destruct (decide (from = a)) as [<-|_].
    + rewrite In_keys_delete. intros [_ H]. right; right. eapply G2; eauto.
    + intros H. right; right. eapply G2; eauto.
  - intros a b S. rewrite Hout. destruct (decide (from = a)) as [<-|_]; [|apply G3].
    intros H. apply In_entries_delete in H as [_ H]. eapply G3; eauto.
Qed.

(** ** Termination of the depth-first search *)

(** When the nodes the search meets all belong to a list [U], a budget of
    [length U] visits is enough. *)
Lemma DFSLoop_total {S} (I : list nat -> list nat -> S -> Prop) (next : nat -> M S (list nat))
    (U : list nat) :
  (forall V e K s, I V (e :: K) s -> JsSet.has V e = true -> I V K s) ->
  (forall V e K s,
      I V (e :: K) s -> JsSet.has V e = false ->
      In e U /\ exists r s', next e s = Ok (r, s') /\ I (e :: V) (r ++ K) s') ->
  forall fuel V K s,
    I V K s -> List.NoDup V -> incl V U -> length U <= fuel + length V ->
    exists V' s', DFSLoop fuel next V K s = Ok (tt, s') /\ I V' [] s'.
Proof.
  intros Hskip Hvisit.
  assert (Hdrop : forall V K s, I V K s -> I V (dropVisited V K) s).
  { intros V K s. induction K as [|e K IH]; simpl; [auto|].
    destruct (JsSet.has V e) eqn:E; [|auto].
    intros H. apply IH. eapply Hskip; eauto. }
  induction fuel as [|fuel IH]; intros V K s HI Hnd Hincl Hlen;
    pose proof (Hdrop _ _ _ HI) as HI'; simpl;
    destruct (dropVisited V K) as [|e rest] eqn:E; try (exists V, s; split; [reflexivity|exact HI']).
  - exfalso. pose proof (dropVisited_head _ _ _ _ E) as He.
    destruct (Hvisit _ _ _ _ HI' He) as (HU & _).
    apply JsSetFacts.set_has_false in He.
    assert (Hle : length (e :: V) <= length U).
    { apply NoDup_incl_length; [constructor; assumption|].
      intros x [<-|Hx]; [exact HU|apply Hincl; exact Hx]. }
    simpl in Hle. lia.
  - pose proof (dropVisited_head _ _ _ _ E) as He.
    destruct (Hvisit _ _ _ _ HI' He) as (HU & r & s1 & Hn & HI1).
    apply JsSetFacts.set_has_false in He.
    destruct (IH (e :: V) (r ++ rest) s1) as (V' & s' & Hrun & HV'); [exact HI1| | | |].
    + constructor; assumption.
    + intros x [<-|Hx]; [exact HU|apply Hincl; exact Hx].
    + simpl. lia.
    + exists V', s'. split; [|exact HV']. unfold bind. rewrite Hn. exact Hrun.
Qed.

(** The allocated nodes, as a list. *)
Definition allocatedList (st : Store) : list nat := map fst (map_to_list (store_nodes st)).

Lemma In_allocatedList st a : In a (allocatedList st) <-> allocated st a.
Proof.
  unfold allocatedList, allocated. rewrite in_map_iff. split.
  - intros ([a' n] & <- & H). apply list_elem_of_In, elem_of_map_to_list in H.
    simpl. rewrite H. eauto.
  - intros [n H]. exists (a, n). split; [reflexivity|].
    apply list_elem_of_In, elem_of_map_to_list. exact H.
Qed.

Lemma length_allocatedList st : length (allocatedList st) = size (store_nodes st).
Proof. unfold allocatedList. rewrite length_map. apply length_map_to_list. Qed.

Lemma get_None_keys {V} (m : list (nat * V)) k :
  JsMap.get m k = None <-> ~ In k (JsMap.keys m).
Proof.
  rewrite JsMapFacts.In_keys. destruct (JsMap.get m k) as [v|].
  - split; [discriminate|]. intros H. exfalso. apply H. eauto.
  - split; [|reflexivity]. intros _ [v [=]].
Qed.

Lemma In_set_fresh {V} (m : list (nat * V)) k v e :
  JsMap.get m k = None -> In e (JsMap.set m k v) <-> e = (k, v) \/ In e m.
Proof.
  intros Hnone. induction m as [|[k0 v0] tl IH]; simpl.
  - intuition.
  - simpl in Hnone. destruct (k0 =? k) eqn:E; [discriminate|]. simpl.
    rewrite (IH Hnone). tauto.
Qed.

(** ** localCopy *)

Section LocalCopy.
Variables (nodeList : NodeList) (toCopy : SubList) (st0 : Store) (final' : nat).
Hypothesis good0 : good st0.
Hypothesis final'_fresh : ~ allocatedSet st0 final'.
Hypothesis finals_allocated : allocatedSet st0 (final toCopy).

Definition cacheOf (s : Store * list (nat * nat)) (a : nat) : option nat :=
  JsMap.get (snd s) a.

(** The state of a copy under way: [done a] are the edges of the node [a]
    of the original that have been copied so far. *)
Record copying (done : nat -> list (nat * CharSet)) (s : Store * list (nat * nat)) : Prop :=
  mkCopying {
  cp_good : good (fst s);
  cp_out : forall a, allocated st0 a -> outOf (fst s) a = outOf st0 a;
  cp_owner : forall a, allocated st0 a -> owner (fst s) a = owner st0 a;
  cp_alloc : forall a, allocated st0 a -> allocated (fst s) a;
  cp_sets : forall t, t <> final' -> getSet (fst s) t = getSet st0 t;
  cp_allocSets : forall t, allocatedSet (fst s) t <-> t = final' \/ allocatedSet st0 t;
  cp_cache : forall a y, cacheOf s a = Some y ->
               allocated st0 a /\ ~ allocated st0 y /\ allocated (fst s) y
               /\ owner (fst s) y = nl_id nodeList;
  cp_inj : forall a a' y, cacheOf s a = Some y -> cacheOf s a' = Some y -> a = a';
  cp_new : forall y, allocated (fst s) y -> ~ allocated st0 y -> exists a, cacheOf s a = Some y;
  cp_edges : forall a ta, cacheOf s a = Some ta ->
               forall y S, In (y, S) (outOf (fst s) ta) <->
                           exists b, cacheOf s b = Some y /\ In (b, S) (done a);
  cp_done : forall a b S, In (b, S) (done a) ->
              In (b, S) (outOf st0 a) /\ is_Some (cacheOf s a) /\ is_Some (cacheOf s b)
}.

Lemma copying_ext done done' s :
  (forall a, done a = done' a) -> copying done s -> copying done' s.
Proof.
  intros E [H1 H2 H3 H4 H5 H6 H7 H8 H9 H10 H11]. split; auto.
  - intros a ta Ha y S. rewrite <- E. apply H10. exact Ha.
  - intros a b S. rewrite <- E. apply H11.
Qed.

(** [translate]: answer from the cache, or create the mirror node. *)
Lemma translate_step done s b :
  copying done s -> allocated st0 b ->
  exists y s',
    cachedFunc (createNode (nl_id nodeList)) b s = Ok (y, s')
    /\ copying done s'
    /\ cacheOf s' b = Some y
    /\ (forall a z, cacheOf s a = Some z -> cacheOf s' a = Some z)
    /\ (forall t, getSet (fst s') t = getSet (fst s) t).
Proof.
  intros C Hb. unfold cachedFunc. destruct (JsMap.get (snd s) b) as [y|] eqn:Eb.
  - exists y, s. split; [reflexivity|]. split; [exact C|]. split; [exact Eb|]. split; auto.
  - destruct (createNode_spec (nl_id nodeList) (fst s))
      as (r & st' & -> & Hfresh & Hal & Hown & Hown' & Hout & Hin & Hset & Hals).
    exists r, (st', JsMap.set (snd s) b r).
    assert (Hmono : forall a z, cacheOf s a = Some z ->
                                cacheOf (st', JsMap.set (snd s) b r) a = Some z).
    { intros a z Ha. unfold cacheOf in *; simpl.
      rewrite JsMapFacts.get_set_ne; [exact Ha|]. intros ->. congruence. }
    assert (Hcases : forall a z, cacheOf (st', JsMap.set (snd s) b r) a = Some z ->
                                 (a = b /\ z = r) \/ (a <> b /\ cacheOf s a = Some z)).
    { intros a z. unfold cacheOf; simpl. destruct (decide (b = a)) as [<-|Hne].
      - rewrite JsMapFacts.get_set_eq. intros [= <-]. auto.
      - rewrite JsMapFacts.get_set_ne by exact Hne. auto. }
    assert (Hr0 : ~ allocated st0 r) by (intros H; apply Hfresh; apply (cp_alloc _ _ C); exact H).
    split; [reflexivity|]. split; [|split; [|split; [exact Hmono|exact Hset]]].
    2:{ unfold cacheOf; simpl. apply JsMapFacts.get_set_eq. }
    destruct C as [H1 H2 H3 H4 H5 H6 H7 H8 H9 H10 H11]. split; simpl.
    + eapply good_same_out; [exact Hout| |exact H1]. intros a Ha. apply Hal. auto.
    + intros a Ha. rewrite Hout. auto.
    + intros a Ha. rewrite Hown'; [auto|]. intros ->. contradiction.
    + intros a Ha. apply Hal. auto.
    + intros t Ht. rewrite Hset. auto.
    + intros t. rewrite Hals. auto.
    + intros a z Ha. apply Hcases in Ha as [[-> ->]|[Hne Ha]].
      * split; [exact Hb|]. split; [exact Hr0|]. split; [apply Hal; auto|exact Hown].
      * destruct (H7 a z Ha) as (A1 & A2 & A3 & A4).
        split; [exact A1|]. split; [exact A2|]. split; [apply Hal; auto|].
        rewrite Hown'; [exact A4|]. intros ->. contradiction.
    + intros a a' z Ha Ha'.
      apply Hcases in Ha as [[-> ->]|[Hne Ha]]; apply Hcases in Ha' as [[-> E']|[Hne' Ha']];
        try reflexivity.
      * exfalso. apply Hfresh. apply (H7 a' r Ha').
      * exfalso. subst z. apply Hfresh. apply (H7 a r Ha).
      * eapply H8; eauto.
    + intros z Hz Hz0. apply Hal in Hz as [->|Hz].
      * exists b. unfold cacheOf; simpl. apply JsMapFacts.get_set_eq.
      * destruct (H9 z Hz Hz0) as (a & Ha). exists a. apply Hmono. exact Ha.
    + intros a ta Ha z S. rewrite Hout.
      apply Hcases in Ha as [[-> ->]|[Hne Ha]].
      * assert (Hblank : outOf (fst s) r = []).
        { unfold outOf. rewrite unallocated_blank by exact Hfresh. reflexivity. }
        rewrite Hblank. split; [intros []|].
        intros (b' & _ & Hd). apply H11 in Hd as (_ & [z' Hz'] & _).
        unfold cacheOf in Hz'. congruence.
      * rewrite (H10 a ta Ha). split.
        -- intros (b' & Hb' & Hd). exists b'. split; [apply Hmono; exact Hb'|exact Hd].
        -- intros (b' & Hb' & Hd). exists b'. split; [|exact Hd].
           apply Hcases in Hb' as [[-> ->]|[_ Hb']]; [|exact Hb'].
           apply H11 in Hd as (_ & _ & [z' Hz']). unfold cacheOf in Hz'. congruence.
    + intros a b' S Hd. destruct (H11 a b' S Hd) as (A1 & [z Hz] & [z' Hz']).
      split; [exact A1|]. split; eexists; apply Hmono; eassumption.
Qed.

(** Copying one edge of the node under way. *)
Lemma link_step done s e ta b y S :
  copying done s ->
  cacheOf s e = Some ta -> cacheOf s b = Some y ->
  In (b, S) (outOf st0 e) -> ~ In b (JsMap.keys (done e)) ->
  exists st',
    linkNodes nodeList ta y S (fst s) = Ok (tt, st')
    /\ copying (fun a => if decide (a = e) then done e ++ [(b, S)] else done a) (st', snd s)
    /\ (forall t, getSet st' t = getSet (fst s) t).
Proof.
  intros C He Hb Hin Hnew.
  pose proof C as [H1 H2 H3 H4 H5 H6 H7 H8 H9 H10 H11].
  destruct (H7 e ta He) as (E1 & E2 & E3 & E4).
  destruct (H7 b y Hb) as (B1 & B2 & B3 & B4).
  destruct (linkNodes_succeeds nodeList ta y S (fst s)) as (st' & Hrun); auto.
  { eapply good_labels; [exact good0|exact Hin]. }
  exists st'. split; [exact Hrun|].
  pose proof (good_linkNodes _ _ _ _ _ _ Hrun H1) as Hgood.
  apply linkNodes_effect in Hrun as (Hout & _ & Hown & Hset & Hal & Hals & _).
  split; [|exact Hset].
  assert (Hfresh : JsMap.get (outOf (fst s) ta) y = None).
  { apply get_None_keys. intros Hk. apply JsMapFacts.In_keys in Hk as (S' & Hk).
    apply JsMapFacts.get_Some_In in Hk. apply (H10 e ta He) in Hk as (b' & Hb' & Hd).
    apply Hnew. replace b with b' by (eapply H8; eauto).
    apply JsMapFacts.In_keys. eapply JsMapFacts.In_get. exact Hd. }
  split; simpl.
  - exact Hgood.
  - intros a Ha. rewrite Hout. destruct (decide (ta = a)) as [<-|_]; [contradiction|auto].
  - intros a Ha. rewrite Hown. auto.
  - intros a Ha. apply Hal. auto.
  - intros t Ht. rewrite Hset. auto.
  - intros t. rewrite Hals. auto.
  - intros a z Ha. destruct (H7 a z Ha) as (A1 & A2 & A3 & A4).
    split; [exact A1|]. split; [exact A2|]. split; [apply Hal; auto|]. rewrite Hown. exact A4.
  - exact H8.
  - intros z Hz Hz0. apply H9; [|exact Hz0]. apply Hal in Hz as [->|[->|Hz]]; auto.
  - intros a ta' Ha z S'. rewrite Hout. destruct (decide (ta = ta')) as [<-|Hne].
    + assert (a = e) by (eapply H8; eauto). subst a.
      rewrite decide_True by reflexivity.
      unfold add. rewrite Hfresh. rewrite In_set_fresh by exact Hfresh.
      rewrite (H10 e ta He). split.
      * intros [[= -> ->]|(b' & Hb' & Hd)].
        -- exists b. split; [exact Hb|]. apply in_app_iff. right. left. reflexivity.
        -- exists b'. split; [exact Hb'|]. apply in_app_iff. auto.
      * intros (b' & Hb' & Hd). apply in_app_iff in Hd as [Hd|[[= -> ->]|[]]].
        -- right. eauto.
        -- left. unfold cacheOf in Hb', Hb. simpl in Hb'. rewrite Hb in Hb'.
           injection Hb' as <-. reflexivity.
    + assert (a <> e) by (intros ->; unfold cacheOf in Ha, He; simpl in Ha; congruence).
      rewrite decide_False by assumption. apply H10. exact Ha.
  - intros a b' S'. destruct (decide (a = e)) as [->|Hne]; [|apply H11].
    intros Hd. apply in_app_iff in Hd as [Hd|[[= -> ->]|[]]]; [apply H11; exact Hd|].
    split; [exact Hin|]. split; eexists; eassumption.
Qed.

Lemma copying_putSet done s l :
  copying done s -> copying done (putSet (fst s) final' l, snd s).
Proof.
  intros [H1 H2 H3 H4 H5 H6 H7 H8 H9 H10 H11]. split; simpl; auto.
  - destruct H1 as [G1 G2 G3]. split; auto.
  - intros t Ht. rewrite getSet_putSet, decide_False by congruence. auto.
  - intros t. rewrite allocatedSet_putSet, H6. tauto.
Qed.

(** The original nodes visited so far have all their edges copied. *)
Definition doneOf (V : list nat) (a : nat) : list (nat * CharSet) :=
  if JsSet.has V a then outOf st0 a else [].

(** The final set of the copy holds the mirrors of the final nodes
    visited. *)
Definition finalsCopied (V : list nat) (s : Store * list (nat * nat)) : Prop :=
  forall y, In y (getSet (fst s) final') <->
            exists a, In a V /\ In a (getSet st0 (final toCopy)) /\ cacheOf s a = Some y.

Lemma localCopyNext_step V e s :
  copying (doneOf V) s -> finalsCopied V s ->
  (forall a, In a V -> is_Some (cacheOf s a)) ->
  allocated st0 e -> ~ In e V ->
  exists s',
    localCopyNext nodeList toCopy final' e s = Ok (JsMap.keys (outOf st0 e), s')
    /\ copying (doneOf (e :: V)) s'
    /\ finalsCopied (e :: V) s'
    /\ (forall a, In a (e :: V) -> is_Some (cacheOf s' a))
    /\ (forall a z, cacheOf s a = Some z -> cacheOf s' a = Some z).
Proof.
  intros C F HV He HeV.
  assert (Hne : final' <> final toCopy) by (intros E; apply final'_fresh; rewrite E; exact finals_allocated).
  unfold localCopyNext.
  destruct (translate_step _ _ e C He) as (ta & s1 & Ht & C1 & Hta & Hmono1 & Hset1).
  unfold bind at 1. rewrite Ht.
  unfold bind at 1, onStore at 1, setHas, gets; simpl.
  rewrite (cp_sets _ _ C1) by congruence. rewrite <- surjective_pairing.
  (* the state after the final node, if it is one, has been recorded *)
  set (s2 := if JsSet.has (getSet st0 (final toCopy)) e
             then (putSet (fst s1) final' (JsSet.add (getSet (fst s1) final') ta), snd s1)
             else s1).
  assert (C2 : copying (doneOf V) s2).
  { unfold s2. destruct (JsSet.has _ e); [apply copying_putSet|]; exact C1. }
  assert (Hcache2 : snd s2 = snd s1) by (unfold s2; destruct (JsSet.has _ e); reflexivity).
  assert (F2 : finalsCopied (e :: V) s2).
  { intros y. unfold s2. destruct (JsSet.has (getSet st0 (final toCopy)) e) eqn:Ef; simpl.
    - apply JsSetFacts.set_has_true in Ef.
      rewrite getSet_putSet, decide_True by reflexivity.
      rewrite JsSetFacts.In_add, Hset1, (F y). split.
      + intros [->|(a & Ha & Hf & Hc)]; [exists e; auto|].
        exists a. split; [auto|]. split; [exact Hf|]. apply Hmono1. exact Hc.
      + intros (a & [<-|Ha] & Hf & Hc).
        * left. unfold cacheOf in *. simpl in Hc. congruence.
        * right. exists a. split; [exact Ha|]. split; [exact Hf|].
          destruct (HV a Ha) as [z Hz]. pose proof (Hmono1 _ _ Hz) as Hz'.
          unfold cacheOf in *. simpl in Hc. congruence.
    - apply JsSetFacts.set_has_false in Ef. rewrite Hset1, (F y). split.
      + intros (a & Ha & Hf & Hc). exists a. split; [auto|]. split; [exact Hf|].
        apply Hmono1. exact Hc.
      + intros (a & [<-|Ha] & Hf & Hc); [contradiction|].
        exists a. split; [exact Ha|]. split; [exact Hf|].
        destruct (HV a Ha) as [z Hz]. pose proof (Hmono1 _ _ Hz) as Hz'.
        unfold cacheOf in *. congruence. }
  assert (Hstep2 : (if JsSet.has (getSet st0 (final toCopy)) e
                    then onStore (setAdd final' ta) else ret tt) s1 = Ok (tt, s2)).
  { unfold s2. destruct (JsSet.has _ e); reflexivity. }
  unfold bind at 1. rewrite Hstep2.
  unfold bind at 1, onStore at 1, gets; simpl.
  rewrite (cp_out _ _ C2) by exact He. rewrite <- surjective_pairing.
  (* the loop over the edges *)
  destruct (forEach_total
              (fun pre s =>
                 copying (fun a => if decide (a = e) then pre else doneOf V a) s
                 /\ (forall a z, cacheOf s2 a = Some z -> cacheOf s a = Some z)
                 /\ (forall t, getSet (fst s) t = getSet (fst s2) t))
              (outOf st0 e)
              (fun e0 => to' <- cachedFunc (createNode (nl_id nodeList)) (fst e0) ;;
                         onStore (linkNodes nodeList ta to' (snd e0))) s2)
    as (s3 & Hloop & C3 & Hmono3 & Hset3).
  { split; [|split; [auto|auto]]. eapply copying_ext; [|exact C2].
    intros a. destruct (decide (a = e)) as [->|_]; [|reflexivity].
    unfold doneOf. apply JsSetFacts.set_has_false in HeV. rewrite HeV. reflexivity. }
  { intros pre [b S] post s4 Hsplit (C4 & Hmono4 & Hset4). simpl.
    assert (Hin : In (b, S) (outOf st0 e)) by (rewrite Hsplit; apply in_app_iff; simpl; auto).
    assert (Hb : allocated st0 b).
    { eapply good_closed; [exact good0|]. apply JsMapFacts.In_keys.
      eapply JsMapFacts.In_get. exact Hin. }
    destruct (translate_step _ _ b C4 Hb) as (y & s5 & Ht5 & C5 & Hy & Hmono5 & Hset5).
    assert (Hta5 : cacheOf s5 e = Some ta).
    { apply Hmono5, Hmono4. unfold cacheOf. rewrite Hcache2. exact Hta. }
    destruct (link_step _ s5 e ta b y S C5 Hta5 Hy Hin) as (st6 & Hl & C6 & Hset6).
    { rewrite decide_True by reflexivity.
      pose proof (good_nodup _ good0 e) as Hnd. rewrite Hsplit in Hnd.
      unfold JsMap.keys in Hnd. rewrite map_app in Hnd.
      apply NoDup_remove_2 in Hnd. simpl in Hnd. intros Hk. apply Hnd.
      apply in_app_iff. left. exact Hk. }
    exists (st6, snd s5). split; [|split; [|split]].
    - unfold bind. rewrite Ht5. unfold onStore. rewrite Hl. reflexivity.
    - eapply copying_ext; [|exact C6]. intros a. simpl.
      destruct (decide (a = e)); [rewrite decide_True by reflexivity|]; reflexivity.
    - intros a z Ha. apply Hmono4 in Ha. apply Hmono5 in Ha. exact Ha.
    - intros t. simpl. rewrite Hset6, Hset5. apply Hset4. }
  unfold bind at 1. rewrite Hloop.
  unfold onStore, gets; simpl. rewrite (cp_out _ _ C3) by exact He.
  rewrite <- surjective_pairing.
  exists s3. split; [reflexivity|].
  assert (Hmono : forall a z, cacheOf s a = Some z -> cacheOf s3 a = Some z).
  { intros a z Ha. apply Hmono3. unfold cacheOf. rewrite Hcache2. apply Hmono1. exact Ha. }
  split; [|split; [|split; [|exact Hmono]]].
  - eapply copying_ext; [|exact C3]. intros a. unfold doneOf. simpl.
    destruct (decide (a = e)) as [->|Hne'].
    + rewrite Nat.eqb_refl. reflexivity.
    + destruct (a =? e) eqn:E; [apply Nat.eqb_eq in E; congruence|]. reflexivity.
  - intros y. rewrite Hset3, (F2 y). split.
    + intros (a & Ha & Hf & Hc). exists a. split; [exact Ha|]. split; [exact Hf|].
      apply Hmono3. exact Hc.
    + intros (a & Ha & Hf & Hc). exists a. split; [exact Ha|]. split; [exact Hf|].
      assert (Hs : is_Some (cacheOf s2 a)).
      { unfold cacheOf. rewrite Hcache2. destruct Ha as [<-|Ha]; [eauto|].
        destruct (HV a Ha) as [z Hz]. exists z. apply Hmono1. exact Hz. }
      destruct Hs as [z Hz]. pose proof (Hmono3 _ _ Hz). congruence.
  - intros a [<-|Ha].
    + exists ta. apply Hmono3. unfold cacheOf. rewrite Hcache2. exact Hta.
    + destruct (HV a Ha) as [z Hz]. exists z. apply Hmono. exact Hz.
Qed.
End LocalCopy.

Lemma reach_allocated st a b :
  good st -> allocated st a -> rtc (succ st) a b -> allocated st b.
Proof.
  intros G Ha Hr. induction Hr as [|x y z Hxy _ IH]; [exact Ha|].
  apply IH. eapply good_closed; eauto.
Qed.

Lemma owner_same_nodes st st' a :
  store_nodes st' = store_nodes st -> owner st' a = owner st a.
Proof. unfold owner, getNode. intros ->. reflexivity. Qed.

Lemma allocated_same_nodes st st' a :
  store_nodes st' = store_nodes st -> allocated st' a <-> allocated st a.
Proof. unfold allocated. intros ->. reflexivity. Qed.

Lemma outOf_same_nodes st st' a :
  store_nodes st' = store_nodes st -> outOf st' a = outOf st a.
Proof. unfold outOf, getNode. intros ->. reflexivity. Qed.

(** [localCopy] returns a sub-automaton made of new nodes of the list, which
    accepts the words of the original and leaves what existed untouched. *)
Lemma localCopy_spec nodeList toCopy st :
  good st -> allocated st (initial toCopy) -> allocatedSet st (final toCopy) ->
  exists copy st',
    localCopy nodeList toCopy st = Ok (copy, st')
    /\ good st'
    /\ (forall a, allocated st a ->
                  allocated st' a /\ outOf st' a = outOf st a /\ owner st' a = owner st a)
    /\ (forall t, t <> final copy -> getSet st' t = getSet st t)
    /\ ~ allocatedSet st (final copy)
    /\ (forall t, allocatedSet st' t <-> t = final copy \/ allocatedSet st t)
    /\ ~ allocated st (initial copy) /\ allocated st' (initial copy)
    /\ (forall f, In f (getSet st' (final copy)) -> allocated st' f /\ ~ allocated st f)
    /\ (forall y, allocated st' y -> ~ allocated st y ->
                  owner st' y = nl_id nodeList
                  /\ forall z, succ st' y z -> allocated st' z /\ ~ allocated st z)
    /\ (forall w, accepts st' copy w <-> accepts st toCopy w)
    /\ ((forall x, rtc (succ st) (initial toCopy) x -> ~ succ st x (initial toCopy)) ->
        forall x, ~ succ st' x (initial copy)).
Proof.
  intros G Hti Hfs. unfold localCopy.
  destruct (createNode_spec (nl_id nodeList) st)
    as (i' & st1 & Hc & Hfresh & Hal1 & Hown1 & Hown1' & Hout1 & _ & Hset1 & Hals1).
  destruct (newSet_spec st1) as (f' & st2 & Hn & Hf' & Hals2 & Hset2 & Hempty & Hnodes).
  unfold bind at 1. rewrite Hc. unfold bind at 1. rewrite Hn.
  set (ti := initial toCopy) in *.
  assert (Hf'0 : ~ allocatedSet st f') by (rewrite <- Hals1; exact Hf').
  set (I := fun (V K : list nat) (s : Store * list (nat * nat)) =>
              copying nodeList st f' (doneOf st V) s
              /\ finalsCopied toCopy st f' V s
              /\ (forall a, In a V -> is_Some (cacheOf s a))
              /\ cacheOf s ti = Some i'
              /\ (forall k, In k V \/ In k K -> rtc (succ st) ti k)
              /\ (forall a b, In a V -> succ st a b -> In b V \/ In b K)
              /\ (In ti V \/ In ti K)).
  destruct (DFSLoop_total I (localCopyNext nodeList toCopy f') (allocatedList st2))
    with (fuel := graphFuel st2) (V := @nil nat) (K := [ti]) (s := (st2, [(ti, i')]))
    as (V & [st' cache] & Hrun & C & F & HV & Hi' & Hreach & Hclosed & Hstart).
  - (* skipping *)
    intros V e K s (C & F & HV & Hi' & Hreach & Hclosed & Hstart) Hv.
    apply JsSetFacts.set_has_true in Hv.
    split; [exact C|]. split; [exact F|]. split; [exact HV|]. split; [exact Hi'|].
    split; [|split].
    + intros k [H|H]; apply Hreach; simpl; auto.
    + intros a b Ha Hab. destruct (Hclosed a b Ha Hab) as [H|[<-|H]]; auto.
    + destruct Hstart as [H|[<-|H]]; auto.
  - (* visiting *)
    intros V e K s (C & F & HV & Hi' & Hreach & Hclosed & Hstart) Hv.
    apply JsSetFacts.set_has_false in Hv.
    assert (He : allocated st e).
    { eapply reach_allocated; [exact G|exact Hti|]. apply Hreach. simpl. auto. }
    split.
    { apply In_allocatedList. apply (allocated_same_nodes st1 st2); [exact Hnodes|].
      apply Hal1. auto. }
    destruct (localCopyNext_step nodeList toCopy st f' G Hf'0 Hfs V e s C F HV He Hv)
      as (s' & Hnext & C' & F' & HV' & Hmono).
    exists (JsMap.keys (outOf st e)), s'. split; [exact Hnext|].
    split; [exact C'|]. split; [exact F'|]. split; [exact HV'|]. split; [apply Hmono; exact Hi'|].
    split; [|split].
    + intros k [[<-|H]|H].
      * apply Hreach. simpl. auto.
      * apply Hreach. auto.
      * apply in_app_iff in H as [H|H].
        -- eapply rtc_r; [apply Hreach; simpl; auto|exact H].
        -- apply Hreach. simpl. auto.
    + intros a b [<-|Ha] Hab.
      * right. apply in_app_iff. left. exact Hab.
      * destruct (Hclosed a b Ha Hab) as [H|[<-|H]]; simpl; auto.
        right. apply in_app_iff. auto.
    + destruct Hstart as [H|[<-|H]]; simpl; auto. right. apply in_app_iff. auto.
  - (* initially *)
    assert (Hblank : outOf st i' = []).
    { unfold outOf. rewrite unallocated_blank by exact Hfresh. reflexivity. }
    split; [|split; [|split; [|split; [|split; [|split]]]]].
    + split; simpl.
      * eapply good_same_out; [| |exact G].
        -- intros a. rewrite (outOf_same_nodes st1 st2) by exact Hnodes. apply Hout1.
        -- intros a Ha. apply (allocated_same_nodes st1 st2); [exact Hnodes|]. apply Hal1. auto.
      * intros a _. rewrite (outOf_same_nodes st1 st2) by exact Hnodes. apply Hout1.
      * intros a Ha. rewrite (owner_same_nodes st1 st2) by exact Hnodes.
        apply Hown1'. intros ->. contradiction.
      * intros a Ha. apply (allocated_same_nodes st1 st2); [exact Hnodes|]. apply Hal1. auto.
      * intros t _. rewrite Hset2. apply Hset1.
      * intros t. rewrite Hals2, Hals1. reflexivity.
      * intros a y. unfold cacheOf; simpl. destruct (ti =? a) eqn:E; [|discriminate].
        apply Nat.eqb_eq in E; subst a. intros [= <-].
        split; [exact Hti|]. split; [exact Hfresh|].
        split; [apply (allocated_same_nodes st1 st2); [exact Hnodes|]; apply Hal1; auto|].
        rewrite (owner_same_nodes st1 st2) by exact Hnodes. exact Hown1.
      * intros a a' y. unfold cacheOf; simpl.
        destruct (ti =? a) eqn:E; [|discriminate]. destruct (ti =? a') eqn:E'; [|discriminate].
        apply Nat.eqb_eq in E, E'. congruence.
      * intros y Hy Hy0. apply (allocated_same_nodes st1 st2) in Hy; [|exact Hnodes].
        apply Hal1 in Hy as [->|Hy]; [|contradiction].
        exists ti. unfold cacheOf; simpl. rewrite Nat.eqb_refl. reflexivity.
      * intros a ta. unfold cacheOf; simpl. destruct (ti =? a) eqn:E; [|discriminate].
        intros [= <-] y S. rewrite (outOf_same_nodes st1 st2) by exact Hnodes.
        rewrite Hout1, Hblank. unfold doneOf. simpl. split; [intros []|intros (b & _ & [])].
      * intros a b S. unfold doneOf. simpl. intros [].
    + intros y. simpl. rewrite Hempty. split; [intros []|intros (a & [] & _)].
    + intros a [].
    + unfold cacheOf; simpl. rewrite Nat.eqb_refl. reflexivity.
    + intros k [[]|[<-|[]]]. constructor.
    + intros a b [].
    + right. left. reflexivity.
  - constructor.
  - intros x [].
  - rewrite length_allocatedList. unfold graphFuel. simpl. lia.
  - (* the copy *)
    unfold DFS. rewrite Hrun. simpl in *.
    exists (mkSubList i' f'), st'. split; [reflexivity|]. simpl.
    destruct Hstart as [Hstart|[]].
    assert (Hclosed' : forall a b, In a V -> succ st a b -> In b V).
    { intros a b Ha Hab. destruct (Hclosed a b Ha Hab) as [H|[]]. exact H. }
    assert (HdoneV : forall a, In a V -> doneOf st V a = outOf st a).
    { intros a Ha. unfold doneOf. apply JsSetFacts.set_has_true in Ha. rewrite Ha. reflexivity. }
    pose proof C as [H1 H2 H3 H4 H5 H6 H7 H8 H9 H10 H11]. simpl in *.
    split; [exact H1|]. split; [intros a Ha; auto|]. split; [exact H5|].
    split; [exact Hf'0|]. split; [exact H6|]. split; [exact Hfresh|].
    split; [apply (H7 ti i' Hi')|].
    assert (Hnew : forall y, allocated st' y -> ~ allocated st y ->
                     owner st' y = nl_id nodeList
                     /\ forall z, succ st' y z -> allocated st' z /\ ~ allocated st z).
    { intros y Hy Hy0. destruct (H9 y Hy Hy0) as (a & Ha).
      split; [apply (H7 a y Ha)|]. intros z Hz. unfold succ in Hz.
      apply JsMapFacts.In_keys in Hz as (S & Hz). apply JsMapFacts.get_Some_In in Hz.
      apply (H10 a y Ha) in Hz as (b & Hb & _). destruct (H7 b z Hb) as (_ & B2 & B3 & _).
      auto. }
    split; [|split; [exact Hnew|split]].
    + intros f Hf. apply F in Hf as (a & _ & _ & Ha). destruct (H7 a f Ha) as (_ & A2 & A3 & _).
      auto.
    + (* the language *)
      intros w. unfold accepts; simpl. split.
      * intros (y & Hy & Hp). apply F in Hy as (f & HfV & Hf & Hfy).
        assert (Lift : forall ta w y, path st' ta w y -> forall a, cacheOf (st', cache) a = Some ta ->
                         exists b, cacheOf (st', cache) b = Some y /\ path st a w b).
        { intros ta w0 y0 Hp0. induction Hp0 as [x|x c x1 w0 x2 Hs Hp0 IH]; intros a Ha.
          - exists a. split; [exact Ha|constructor].
          - destruct Hs as (S & Hin & Hch).
            apply (H10 a x Ha) in Hin as (b1 & Hb1 & Hd).
            destruct (IH b1 Hb1) as (b & Hb & Hp').
            exists b. split; [exact Hb|]. econstructor; [|exact Hp'].
            exists S. split; [apply (H11 a b1 S Hd)|exact Hch]. }
        destruct (Lift i' w y Hp ti Hi') as (b & Hb & Hp').
        exists f. split; [exact Hf|]. replace f with b by (eapply H8; eauto). exact Hp'.
      * intros (f & Hf & Hp).
        assert (Down : forall a w b, path st a w b -> In a V ->
                         exists ta tb, cacheOf (st', cache) a = Some ta
                                       /\ cacheOf (st', cache) b = Some tb
                                       /\ path st' ta w tb /\ In b V).
        { clear Hp. intros a w' b Hp. induction Hp as [x|x c x1 w' x2 Hs Hp IH]; intros Ha.
          - destruct (HV x Ha) as [tx Hx]. exists tx, tx. repeat split; auto. constructor.
          - destruct Hs as (S & Hin & Hch).
            assert (Hx1 : In x1 V).
            { apply (Hclosed' x x1 Ha). apply JsMapFacts.In_keys.
              eapply JsMapFacts.In_get. exact Hin. }
            destruct (IH Hx1) as (t1 & t2 & Ht1 & Ht2 & Hp' & Hx2).
            destruct (HV x Ha) as [tx Hx]. exists tx, t2.
            split; [exact Hx|]. split; [exact Ht2|]. split; [|exact Hx2].
            econstructor; [|exact Hp']. exists S. split; [|exact Hch].
            apply (H10 x tx Hx). exists x1. split; [exact Ht1|].
            rewrite HdoneV by exact Ha. exact Hin. }
        destruct (Down ti w f Hp Hstart) as (ta & tb & Hta & Htb & Hp' & HfV).
        assert (ta = i') by (unfold cacheOf in *; simpl in *; congruence). subst ta.
        exists tb. split; [|exact Hp']. apply F. exists f. auto.
    + (* normalization *)
      intros Hnorm x Hx. unfold succ in Hx.
      assert (Hxa : allocated st' x).
      { destruct (decide (allocated st' x)) as [H|H]; [exact H|].
        unfold outOf in Hx. rewrite unallocated_blank in Hx by exact H. destruct Hx. }
      destruct (decide (allocated st x)) as [Hx0|Hx0].
      * rewrite H2 in Hx by exact Hx0. apply Hfresh. eapply good_closed; eauto.
      * destruct (H9 x Hxa Hx0) as (a & Ha).
        apply JsMapFacts.In_keys in Hx as (S & Hx). apply JsMapFacts.get_Some_In in Hx.
        apply (H10 a x Ha) in Hx as (b & Hb & Hd).
        assert (b = ti) by (eapply H8; eauto). subst b.
        destruct (H11 a ti S Hd) as (Hin & _ & _).
        assert (HaV : In a V).
        { unfold doneOf in Hd. destruct (JsSet.has V a) eqn:E; [|destruct Hd].
          apply JsSetFacts.set_has_true. exact E. }
        apply (Hnorm a); [apply Hreach; auto|].
        apply JsMapFacts.In_keys. eapply JsMapFacts.In_get. exact Hin.
Qed.

(** ** Loops of links and unlinks *)

Lemma forEach_map {S A B} (f : A -> B) (l : list A) (body : B -> M S unit) s :
  forEach (map f l) body s = forEach l (fun a => body (f a)) s.
Proof.
  revert s. induction l as [|x l IH]; intros s; simpl; [reflexivity|].
  unfold bind. destruct (body (f x) s) as [[[] s1]|]; [apply IH|reflexivity].
Qed.

Lemma forEach_nested {S A B} (l : list A) (es : list B) (body : A -> B -> M S unit) s :
  forEach l (fun a => forEach es (body a)) s
  = forEach (list_prod l es) (fun p => body (fst p) (snd p)) s.
Proof.
  revert s. induction l as [|a l IH]; intros s; simpl; [reflexivity|].
  rewrite forEach_app, forEach_map. simpl. unfold bind.
  destruct (forEach es (body a) s) as [[[] s1]|]; [apply IH|reflexivity].
Qed.

(** Linking a list of triples [(from, (to, chars))]. *)
Lemma link_all this (pairs : list (nat * (nat * CharSet))) st :
  good st ->
  (forall x y S, In (x, (y, S)) pairs ->
                 owner st x = nl_id this /\ owner st y = nl_id this
                 /\ CharSet.isEmpty S = false) ->
  exists st',
    forEach pairs (fun p => linkNodes this (fst p) (fst (snd p)) (snd (snd p))) st = Ok (tt, st')
    /\ good st'
    /\ (forall x c y, step st' x c y <->
                      step st x c y \/ exists S, In (x, (y, S)) pairs /\ CharSet.has S c = true)
    /\ (forall x y, succ st' x y <-> succ st x y \/ exists S, In (x, (y, S)) pairs)
    /\ (forall x, (forall e, ~ In (x, e) pairs) -> outOf st' x = outOf st x)
    /\ (forall a, owner st' a = owner st a)
    /\ (forall a, allocated st a -> allocated st' a)
    /\ (forall t, getSet st' t = getSet st t)
    /\ (forall t, allocatedSet st' t <-> allocatedSet st t).
Proof.
  intros G Hok.
  destruct (forEach_total
              (fun pre s =>
                 good s
                 /\ (forall x c y, step s x c y <->
                       step st x c y \/ exists S, In (x, (y, S)) pre /\ CharSet.has S c = true)
                 /\ (forall x y, succ s x y <-> succ st x y \/ exists S, In (x, (y, S)) pre)
                 /\ (forall x, (forall e, ~ In (x, e) pre) -> outOf s x = outOf st x)
                 /\ (forall a, owner s a = owner st a)
                 /\ (forall a, allocated st a -> allocated s a)
                 /\ (forall t, getSet s t = getSet st t)
                 /\ (forall t, allocatedSet s t <-> allocatedSet st t))
              pairs
              (fun p => linkNodes this (fst p) (fst (snd p)) (snd (snd p))) st)
    as (st' & Hrun & H); [| |exists st'; split; [exact Hrun|exact H]].
  - split; [exact G|]. split; [|split; [|split; [|split; [|split; [|split]]]]];
      try (intros; reflexivity); auto.
    + intros x c y. split; [auto|]. intros [H|(S & [] & _)]; exact H.
    + intros x y. split; [auto|]. intros [H|(S & [])]; exact H.
  - intros pre [f [to chars]] post s1 Hsplit (G1 & S1 & K1 & F1 & O1 & A1 & T1 & AS1). simpl.
    destruct (Hok f to chars) as (Hf & Hto & Hne). { rewrite Hsplit. apply in_app_iff. simpl. auto. }
    destruct (linkNodes_succeeds this f to chars s1) as (s2 & Hl); try rewrite O1; auto.
    exists s2. split; [exact Hl|].
    pose proof (good_linkNodes _ _ _ _ _ _ Hl G1) as G2.
    apply linkNodes_effect in Hl as (Hout & _ & Hown & Hset & Hal & Hals & _).
    split; [exact G2|]. split; [|split; [|split; [|split; [|split; [|split]]]]].
    + intros x c y. rewrite step_hasStep, Hout. destruct (decide (f = x)) as [<-|Hne'].
      * rewrite hasStep_add, <- step_hasStep, S1. split.
        -- intros [[H|(S & Hin & Hc)]|[-> Hc]]; [auto| |].
           ++ right. exists S. split; [apply in_app_iff; auto|exact Hc].
           ++ right. exists chars. split; [apply in_app_iff; simpl; auto|exact Hc].
        -- intros [H|(S & Hin & Hc)]; [auto|].
           apply in_app_iff in Hin as [Hin|[[= -> ->]|[]]]; [left; right; eauto|auto].
      * rewrite <- step_hasStep, S1. split.
        -- intros [H|(S & Hin & Hc)]; [auto|]. right. exists S.
           split; [apply in_app_iff; auto|exact Hc].
        -- intros [H|(S & Hin & Hc)]; [auto|].
           apply in_app_iff in Hin as [Hin|[[= -> -> ->]|[]]]; [eauto|congruence].
    + intros x y. unfold succ at 1. rewrite Hout. destruct (decide (f = x)) as [<-|Hne'].
      * rewrite keys_add. fold (succ s1 f y). rewrite K1. split.
        -- intros [->|[H|(S & Hin)]]; [|auto|].
           ++ right. exists chars. apply in_app_iff. simpl. auto.
           ++ right. exists S. apply in_app_iff. auto.
        -- intros [H|(S & Hin)]; [auto|].
           apply in_app_iff in Hin as [Hin|[[= -> ->]|[]]]; [right; right; eauto|auto].
      * fold (succ s1 x y). rewrite K1. split.
        -- intros [H|(S & Hin)]; [auto|]. right. exists S. apply in_app_iff. auto.
        -- intros [H|(S & Hin)]; [auto|].
           apply in_app_iff in Hin as [Hin|[[= -> -> ->]|[]]]; [eauto|congruence].
    + intros x Hx. rewrite Hout. destruct (decide (f = x)) as [<-|_].
      * exfalso. apply (Hx (to, chars)). apply in_app_iff. simpl. auto.
      * apply F1. intros e He. apply (Hx e). apply in_app_iff. auto.
    + intros a. rewrite Hown. apply O1.
    + intros a Ha. apply Hal. auto.
    + intros t. rewrite Hset. apply T1.
    + intros t. rewrite Hals. apply AS1.
Qed.

(** Removing every edge that leaves a node. *)
Lemma unlink_all_out this x st :
  good st ->
  owner st x = nl_id this ->
  (forall o, succ st x o -> owner st o = nl_id this) ->
  exists st',
    forEach (JsMap.keys (outOf st x)) (fun o => unlinkNodes this x o) st = Ok (tt, st')
    /\ good st'
    /\ (forall a, outOf st' a = if decide (a = x) then [] else outOf st a)
    /\ (forall a, owner st' a = owner st a)
    /\ (forall a, allocated st a -> allocated st' a)
    /\ (forall t, getSet st' t = getSet st t)
    /\ (forall t, allocatedSet st' t <-> allocatedSet st t).
Proof.
  intros G Hx Ho.
  destruct (forEach_total
              (fun pre s =>
                 good s
                 /\ (forall a, a <> x -> outOf s a = outOf st a)
                 /\ (forall k v, In (k, v) (outOf s x) <-> In (k, v) (outOf st x) /\ ~ In k pre)
                 /\ (forall a, owner s a = owner st a)
                 /\ (forall a, allocated st a -> allocated s a)
                 /\ (forall t, getSet s t = getSet st t)
                 /\ (forall t, allocatedSet s t <-> allocatedSet st t))
              (JsMap.keys (outOf st x))
              (fun o => unlinkNodes this x o) st)
    as (st' & Hrun & G' & F' & E' & O' & A' & T' & AS').
  - split; [exact G|]. split; [auto|]. split; [|split; [|split; [|split]]];
      try (intros; reflexivity); auto.
    intros k v. simpl. tauto.
  - intros pre o post s1 Hsplit (G1 & F1 & E1 & O1 & A1 & T1 & AS1).
    assert (Hio : In o (JsMap.keys (outOf st x))) by (rewrite Hsplit; apply in_app_iff; simpl; auto).
    assert (Hnew : ~ In o pre).
    { pose proof (good_nodup _ G x) as Hnd. rewrite Hsplit in Hnd.
      apply NoDup_remove_2 in Hnd. intros H. apply Hnd. apply in_app_iff. auto. }
    destruct (unlinkNodes_succeeds this x o s1) as (s2 & Hu).
    { rewrite O1. exact Hx. }
    { rewrite O1. apply Ho. exact Hio. }
    { apply JsMapFacts.In_keys in Hio as (v & Hv). apply JsMapFacts.get_Some_In in Hv.
      apply JsMapFacts.In_keys. eapply JsMapFacts.In_get. apply E1. split; eauto. }
    exists s2. split; [exact Hu|].
    pose proof (good_unlinkNodes _ _ _ _ _ Hu G1) as G2.
    apply unlinkNodes_effect in Hu as (Hout & _ & Hown & Hset & Hal & Hals).
    split; [exact G2|]. split; [|split; [|split; [|split; [|split]]]].
    + intros a Ha. rewrite Hout, decide_False by congruence. apply F1. exact Ha.
    + intros k v. rewrite Hout, decide_True by reflexivity.
      rewrite In_entries_delete, E1, in_app_iff. simpl. clear. intuition (subst; intuition).
    + intros a. rewrite Hown. apply O1.
    + intros a Ha. apply Hal. auto.
    + intros t. rewrite Hset. apply T1.
    + intros t. rewrite Hals. apply AS1.
  - exists st'. split; [exact Hrun|]. split; [exact G'|].
    split; [|split; [exact O'|split; [exact A'|split; [exact T'|exact AS']]]].
    intros a. destruct (decide (a = x)) as [->|Hne]; [|apply F'; exact Hne].
    assert (Hnone : forall e, ~ In e (outOf st' x)).
    { intros [k v] Hin. apply E' in Hin as (Hin & Hn). apply Hn. apply JsMapFacts.In_keys.
      eapply JsMapFacts.In_get. exact Hin. }
    destruct (outOf st' x) as [|e tl]; [reflexivity|].
    exfalso. apply (Hnone e). left. reflexivity.
Qed.

Lemma setClear_effect s st :
  exists st',
    setClear s st = Ok (tt, st')
    /\ (forall t, getSet st' t = if decide (s = t) then [] else getSet st t)
    /\ (forall t, allocatedSet st' t <-> t = s \/ allocatedSet st t)
    /\ store_nodes st' = store_nodes st.
Proof.
  eexists. split; [reflexivity|]. split; [|split; [|reflexivity]].
  - intros t. apply getSet_putSet.
  - intros t. apply allocatedSet_putSet.
Qed.

Lemma good_same_nodes st st' : store_nodes st' = store_nodes st -> good st -> good st'.
Proof.
  intros E G. eapply good_same_out; [| |exact G].
  - intros a. apply outOf_same_nodes. exact E.
  - intros a. apply allocated_same_nodes. exact E.
Qed.

Lemma baseMakeEmpty_spec nodeList base st :
  good st ->
  owner st (initial base) = nl_id nodeList ->
  (forall o, succ st (initial base) o -> owner st o = nl_id nodeList) ->
  exists st',
    baseMakeEmpty nodeList base st = Ok (tt, st')
    /\ good st'
    /\ (forall a, outOf st' a = if decide (a = initial base) then [] else outOf st a)
    /\ (forall a, owner st' a = owner st a)
    /\ (forall a, allocated st a -> allocated st' a)
    /\ (forall t, getSet st' t = if decide (final base = t) then [] else getSet st t)
    /\ (forall t, allocatedSet st' t <-> t = final base \/ allocatedSet st t).
Proof.
  intros G Hx Ho. unfold baseMakeEmpty.
  destruct (unlink_all_out nodeList (initial base) st G Hx Ho)
    as (st1 & Hrun & G1 & F1 & O1 & A1 & T1 & AS1).
  destruct (setClear_effect (final base) st1) as (st2 & Hc & T2 & AS2 & N2).
  exists st2. split.
  { unfold bind, gets. rewrite Hrun, Hc. reflexivity. }
  split; [eapply good_same_nodes; eauto|].
  split; [intros a; rewrite (outOf_same_nodes st1 st2) by exact N2; apply F1|].
  split; [intros a; rewrite (owner_same_nodes st1 st2) by exact N2; apply O1|].
  split; [intros a Ha; apply (allocated_same_nodes st1 st2); [exact N2|auto]|].
  split.
  - intros t. rewrite T2. destruct (decide (final base = t)); [reflexivity|apply T1].
  - intros t. rewrite AS2, AS1. reflexivity.
Qed.

(** ** Paths *)

Lemma step_succ st a c b : step st a c b -> succ st a b.
Proof.
  intros (S & Hin & _). apply JsMapFacts.In_keys. eapply JsMapFacts.In_get. exact Hin.
Qed.

Lemma path_nil_inv st a b : path st a [] b -> a = b.
Proof. inversion 1. reflexivity. Qed.

Lemma path_cons_inv st a c w b :
  path st a (c :: w) b -> exists x, step st a c x /\ path st x w b.
Proof. inversion 1; subst. eauto. Qed.

Lemma path_app st a u b v d : path st a u b -> path st b v d -> path st a (u ++ v) d.
Proof.
  intros Hp Hq. induction Hp as [x|x c x1 w x2 Hs Hp IH]; simpl; [exact Hq|].
  econstructor; [exact Hs|]. apply IH. exact Hq.
Qed.

Lemma path_reach st a w b : path st a w b -> rtc (succ st) a b.
Proof.
  induction 1 as [x|x c x1 w x2 Hs Hp IH]; [constructor|].
  eapply rtc_l; [eapply step_succ; exact Hs|exact IH].
Qed.

(** Paths depend on the [out] maps of the nodes they visit only. *)
Lemma path_within (P : nat -> Prop) st st' a w b :
  (forall x, P x -> outOf st' x = outOf st x) ->
  (forall x y, P x -> succ st x y -> P y) ->
  P a -> path st a w b -> path st' a w b /\ P b.
Proof.
  intros Hout Hcl Ha Hp. induction Hp as [x|x c x1 w x2 Hs Hp IH]; [split; [constructor|exact Ha]|].
  assert (P x1) by (eapply Hcl; [exact Ha|eapply step_succ; exact Hs]).
  destruct (IH H) as [Hp' Hb]. split; [|exact Hb].
  econstructor; [|exact Hp']. unfold step. rewrite Hout by exact Ha. exact Hs.
Qed.

(** The graph after a concatenation: the final nodes of the base take over
    the edges of the initial node [ai] of the part [N] that is appended. *)
Section ConcatPaths.
Variables (st st' : Store) (N : nat -> Prop) (bfinals : list nat) (ai : nat).
Hypothesis Hclosed : forall x y, N x -> succ st x y -> N y.
Hypothesis Hinto : forall x y, succ st x y -> N y -> N x.
Hypothesis Hai : N ai.
Hypothesis Hnorm : forall x, ~ succ st x ai.
Hypothesis Hbf : forall f, In f bfinals -> ~ N f.
Hypothesis Hstep : forall x c y,
    step st' x c y <-> (x <> ai /\ step st x c y) \/ (In x bfinals /\ step st ai c y).

Lemma concat_inside x w y :
  path st' x w y -> N x -> x <> ai -> path st x w y /\ N y /\ y <> ai.
Proof.
  induction 1 as [x|x c x1 w x2 Hs Hp IH]; intros Hx Hne; [split; [constructor|auto]|].
  apply Hstep in Hs as [[_ Hs]|[Hf _]]; [|exfalso; eapply Hbf; eauto].
  pose proof (step_succ _ _ _ _ Hs) as Hsu.
  destruct IH as (Hp' & Hy & Hy').
  - eapply Hclosed; eauto.
  - intros ->. eapply Hnorm; eauto.
  - split; [econstructor; eauto|auto].
Qed.

Lemma concat_inside_back x w y :
  path st x w y -> N x -> x <> ai -> path st' x w y /\ y <> ai.
Proof.
  induction 1 as [x|x c x1 w x2 Hs Hp IH]; intros Hx Hne; [split; [constructor|auto]|].
  pose proof (step_succ _ _ _ _ Hs) as Hsu.
  destruct IH as (Hp' & Hy').
  - eapply Hclosed; eauto.
  - intros ->. eapply Hnorm; eauto.
  - split; [|exact Hy']. econstructor; [|exact Hp']. apply Hstep. auto.
Qed.

Lemma concat_outside x w y :
  path st' x w y -> ~ N x ->
  (~ N y /\ path st x w y)
  \/ (N y /\ y <> ai
      /\ exists u c v f t, w = u ++ c :: v /\ path st x u f /\ In f bfinals
                           /\ step st ai c t /\ path st t v y).
Proof.
  induction 1 as [x|x c x1 w x2 Hs Hp IH]; intros Hx; [left; split; [exact Hx|constructor]|].
  apply Hstep in Hs as [[Hne Hs]|[Hf Hs]].
  - pose proof (step_succ _ _ _ _ Hs) as Hsu.
    destruct IH as [(Hy & Hp')|(Hy & Hy' & u & c' & v & f & t & -> & Hu & Hf & Ht & Hv)].
    + intros H1. apply Hx. eapply Hinto; eauto.
    + left. split; [exact Hy|]. econstructor; eauto.
    + right. split; [exact Hy|]. split; [exact Hy'|].
      exists (c :: u), c', v, f, t. split; [reflexivity|]. split; [econstructor; eauto|auto].
  - pose proof (step_succ _ _ _ _ Hs) as Hsu.
    destruct (concat_inside x1 w x2 Hp) as (Hp' & Hy & Hy').
    + eapply Hclosed; eauto.
    + intros ->. eapply Hnorm; eauto.
    + right. split; [exact Hy|]. split; [exact Hy'|].
      exists [], c, w, x, x1. split; [reflexivity|]. split; [constructor|auto].
Qed.

Lemma concat_outside_back x w y :
  path st x w y -> ~ N x -> path st' x w y /\ ~ N y.
Proof.
  induction 1 as [x|x c x1 w x2 Hs Hp IH]; intros Hx; [split; [constructor|exact Hx]|].
  pose proof (step_succ _ _ _ _ Hs) as Hsu.
  destruct IH as (Hp' & Hy).
  - intros H1. apply Hx. eapply Hinto; eauto.
  - split; [|exact Hy]. econstructor; [|exact Hp']. apply Hstep. left. split; [|exact Hs].
    intros ->. contradiction.
Qed.

Lemma concat_across x u f c t v y :
  path st x u f -> ~ N x -> In f bfinals -> step st ai c t -> path st t v y ->
  path st' x (u ++ c :: v) y /\ y <> ai.
Proof.
  intros Hu Hx Hf Ht Hv. pose proof (step_succ _ _ _ _ Ht) as Hsu.
  destruct (concat_inside_back t v y Hv) as (Hv' & Hy).
  - eapply Hclosed; eauto.
  - intros ->. eapply Hnorm; eauto.
  - split; [|exact Hy]. eapply path_app; [apply (concat_outside_back x u f Hu Hx)|].
    econstructor; [|exact Hv']. apply Hstep. auto.
Qed.

(** Between nodes outside of [N], nothing changes. *)
Lemma concat_old_paths x w g : ~ N x -> ~ N g -> path st' x w g <-> path st x w g.
Proof.
  intros Hx Hg. split.
  - intros Hp. destruct (concat_outside x w g Hp Hx) as [(_ & Hp')|(Hy & _)];
      [exact Hp'|contradiction].
  - intros Hp. apply (concat_outside_back x w g Hp Hx).
Qed.

Variables (bi : nat) (afinals finals' : list nat).
Hypothesis Hbi : ~ N bi.
Hypothesis Haf : forall g, In g afinals -> N g.
Hypothesis Hfinals' : forall g,
    In g finals' <-> (In ai afinals /\ In g bfinals) \/ (In g afinals /\ g <> ai).

Lemma concat_language w :
  (exists g, In g finals' /\ path st' bi w g)
  <-> exists u v, w = u ++ v
                  /\ (exists f, In f bfinals /\ path st bi u f)
                  /\ (exists g, In g afinals /\ path st ai v g).
Proof.
  split.
  - intros (g & Hg & Hp). apply Hfinals' in Hg as [(Hia & Hg)|(Hg & Hne)].
    + exists w, []. split; [symmetry; apply app_nil_r|]. split.
      * exists g. split; [exact Hg|]. apply (concat_old_paths bi w g); auto.
      * exists ai. split; [exact Hia|constructor].
    + destruct (concat_outside bi w g Hp Hbi)
        as [(Hy & _)|(_ & _ & u & c & v & f & t & -> & Hu & Hf & Ht & Hv)].
      * exfalso. apply Hy. apply Haf. exact Hg.
      * exists u, (c :: v). split; [reflexivity|]. split; [eauto|].
        exists g. split; [exact Hg|]. econstructor; eauto.
  - intros (u & v & -> & (f & Hf & Hu) & (g & Hg & Hv)).
    destruct v as [|c v'].
    + apply path_nil_inv in Hv. rewrite <- Hv in Hg.
      exists f. split; [apply Hfinals'; auto|]. rewrite app_nil_r.
      apply (concat_outside_back bi u f Hu Hbi).
    + apply path_cons_inv in Hv as (t & Ht & Hv').
      destruct (concat_across bi u f c t v' g Hu Hbi Hf Ht Hv') as (Hp & Hne).
      exists g. split; [apply Hfinals'; auto|exact Hp].
Qed.
End ConcatPaths.

Lemma size_zero (l : list nat) : (JsSet.size l =? 0) = true <-> l = [].
Proof. unfold JsSet.size. rewrite Nat.eqb_eq. destruct l; simpl; split; congruence. Qed.

(** The last loop of [baseConcat]: add the final nodes of [after], its
    initial node apart. *)
Lemma transfer_finals s a l st :
  allocatedSet st s ->
  exists st',
    forEach l (fun n => if n =? a then ret tt else setAdd s n) st = Ok (tt, st')
    /\ (forall g, In g (getSet st' s) <-> In g (getSet st s) \/ (In g l /\ g <> a))
    /\ (forall t, t <> s -> getSet st' t = getSet st t)
    /\ (forall t, allocatedSet st' t <-> allocatedSet st t)
    /\ store_nodes st' = store_nodes st.
Proof.
  intros Hs.
  destruct (forEach_total
              (fun pre st' =>
                 (forall g, In g (getSet st' s) <-> In g (getSet st s) \/ (In g pre /\ g <> a))
                 /\ (forall t, t <> s -> getSet st' t = getSet st t)
                 /\ (forall t, allocatedSet st' t <-> allocatedSet st t)
                 /\ store_nodes st' = store_nodes st)
              l (fun n => if n =? a then ret tt else setAdd s n) st)
    as (st' & Hrun & H); [| |eauto].
  - split; [|split; [|split]]; try reflexivity; auto. intros g. simpl. tauto.
  - intros pre n post s1 _ (H1 & H2 & H3 & H4).
    destruct (n =? a) eqn:E.
    + apply Nat.eqb_eq in E; subst n. exists s1. split; [reflexivity|].
      split; [|auto]. intros g. rewrite H1, in_app_iff. simpl. clear. intuition (subst; intuition).
    + apply Nat.eqb_neq in E. eexists. split; [reflexivity|].
      split; [|split; [|split]].
      * intros g. rewrite getSet_putSet, decide_True by reflexivity.
        rewrite JsSetFacts.In_add, H1, in_app_iff. simpl. clear -E.
        intuition (subst; intuition).
      * intros t Ht. rewrite getSet_putSet, decide_False by congruence. auto.
      * intros t. rewrite allocatedSet_putSet, H3. split; [intros [->|H]; auto|auto].
      * exact H4.
Qed.

Lemma step_same_out st st' x c y : outOf st' x = outOf st x -> step st' x c y <-> step st x c y.
Proof. unfold step. intros ->. reflexivity. Qed.

(** [baseConcat(base, after)], where [after] lives in a part [N] of the
    graph that nothing enters from outside. *)
Lemma baseConcat_spec nodeList base after st (N : nat -> Prop) :
  good st ->
  final base <> final after -> allocatedSet st (final base) ->
  owner st (initial base) = nl_id nodeList ->
  (forall o, succ st (initial base) o -> owner st o = nl_id nodeList) ->
  (forall f, In f (getSet st (final base)) -> owner st f = nl_id nodeList) ->
  (forall y, N y -> owner st y = nl_id nodeList) ->
  (forall x y, N x -> succ st x y -> N y) ->
  (forall x y, succ st x y -> N y -> N x) ->
  N (initial after) ->
  (forall f, In f (getSet st (final after)) -> N f) ->
  ~ N (initial base) ->
  (forall f, In f (getSet st (final base)) -> ~ N f) ->
  (forall x, ~ succ st x (initial after)) ->
  exists st',
    baseConcat nodeList base after st = Ok (tt, st')
    /\ good st'
    /\ (forall w, accepts st' base w <->
                  exists u v, w = u ++ v /\ accepts st base u /\ accepts st after v)
    /\ (forall a, owner st' a = owner st a)
    /\ (forall a, allocated st a -> allocated st' a)
    /\ (forall t, t <> final base -> getSet st' t = getSet st t)
    /\ (forall t, allocatedSet st' t <-> allocatedSet st t)
    /\ (forall g, In g (getSet st' (final base)) ->
                  In g (getSet st (final base)) \/ In g (getSet st (final after)))
    /\ (forall x, x <> initial base -> x <> initial after ->
                  ~ In x (getSet st (final base)) -> outOf st' x = outOf st x)
    /\ (forall x y, succ st' x y ->
                    succ st x y \/ (N y /\ In x (getSet st (final base))))
    /\ (getSet st (final base) = [] -> st' = st)
    /\ (getSet st (final base) <> [] -> getSet st (final after) = [] ->
        outOf st' (initial base) = [] /\ getSet st' (final base) = [])
    /\ (getSet st (final base) <> [] -> getSet st (final after) <> [] ->
        (forall x w g, ~ N x -> ~ N g -> path st' x w g <-> path st x w g)
        /\ (forall g, In g (getSet st' (final base)) <->
                      (In (initial after) (getSet st (final after))
                       /\ In g (getSet st (final base)))
                      \/ (In g (getSet st (final after)) /\ g <> initial after))).
Proof.
  intros G Hsets Hbs Hbi Hbo Hbf HN Hcl Hinto Hai Haf HbiN HbfN Hnorm.
  set (bi := initial base) in *. set (ai := initial after) in *.
  set (bfinals := getSet st (final base)) in *.
  set (afinals := getSet st (final after)) in *.
  unfold baseConcat. unfold bind at 1, setSize at 1, gets. fold bfinals.
  destruct (JsSet.size bfinals =? 0) eqn:Eb.
  { (* the base accepts nothing *)
    apply size_zero in Eb. exists st. split; [reflexivity|]. split; [exact G|].
    split.
    { intros w. unfold accepts. fold bfinals. rewrite Eb. split.
      - intros (f & [] & _).
      - intros (u & v & _ & (f & [] & _) & _). }
    split; [reflexivity|]. split; [auto|]. split; [reflexivity|]. split; [reflexivity|].
    split; [auto|]. split; [reflexivity|]. split; [auto|]. split; [reflexivity|].
    split; intros E; contradiction. }
  assert (Eb' : bfinals <> []) by (intros E; apply size_zero in E; congruence).
  unfold bind at 1, setSize at 1, gets. fold afinals.
  destruct (JsSet.size afinals =? 0) eqn:Ea.
  { (* [after] accepts nothing *)
    apply size_zero in Ea.
    destruct (baseMakeEmpty_spec nodeList base st G Hbi Hbo)
      as (st' & Hrun & G' & Hout & Hown & Hal & Hset & Hals).
    exists st'. split; [exact Hrun|]. split; [exact G'|].
    split.
    { intros w. unfold accepts. rewrite Hset, decide_True by reflexivity. fold afinals.
      rewrite Ea. split.
      - intros (f & [] & _).
      - intros (u & v & _ & _ & (f & [] & _)). }
    split; [exact Hown|]. split; [exact Hal|].
    split; [intros t Ht; rewrite Hset, decide_False by congruence; reflexivity|].
    split; [intros t; rewrite Hals; split; [intros [->|H]; auto|auto]|].
    split; [intros g; rewrite Hset, decide_True by reflexivity; intros []|].
    split; [intros x Hx _ _; rewrite Hout, decide_False by exact Hx; reflexivity|].
    split.
    { intros x y. unfold succ. rewrite Hout. destruct (decide (x = initial base)); [intros []|auto]. }
    split; [intros E; contradiction|].
    split; [|intros _ E; contradiction].
    intros _ _. split; [rewrite Hout, decide_True by reflexivity; reflexivity|].
    rewrite Hset, decide_True by reflexivity. reflexivity. }
  assert (Ea' : afinals <> []) by (intros E; apply size_zero in E; congruence).
  (* the links from the final nodes of the base *)
  unfold bind, setElements, setHas, gets. fold ai bfinals.
  rewrite forEach_nested.
  assert (HaiB : ~ In ai bfinals) by (intros H; apply (HbfN ai H); exact Hai).
  destruct (link_all nodeList (list_prod bfinals (outOf st ai)) st G)
    as (sA & HrunA & GA & SA & KA & FA & OA & AA & TA & ASA).
  { intros x y S Hin. apply in_prod_iff in Hin as [Hx Hy].
    split; [apply Hbf; exact Hx|]. split.
    - apply HN. apply (Hcl ai y Hai). apply JsMapFacts.In_keys. eapply JsMapFacts.In_get. exact Hy.
    - eapply good_labels; eauto. }
  change (fun p : nat * (nat * CharSet) => linkNodes nodeList p.1 p.2.1 p.2.2)
    with (fun p : nat * (nat * CharSet) => linkNodes nodeList (fst p) (fst (snd p)) (snd (snd p))).
  rewrite HrunA.
  assert (HoutA : outOf sA ai = outOf st ai).
  { apply FA. intros e He. apply in_prod_iff in He as [He _]. contradiction. }
  (* the edges of the initial node of [after] go *)
  rewrite <- (forEach_map fst (outOf st ai) (fun o => unlinkNodes nodeList ai o)).
  change (map fst (outOf st ai)) with (JsMap.keys (outOf st ai)). rewrite <- HoutA.
  destruct (unlink_all_out nodeList ai sA GA) as (sB & HrunB & GB & FB & OB & AB & TB & ASB).
  { rewrite OA. apply HN. exact Hai. }
  { intros o Ho. rewrite OA. apply HN. apply (Hcl ai o Hai). unfold succ in *.
    rewrite <- HoutA. exact Ho. }
  rewrite HrunB.
  (* the final nodes *)
  rewrite TB, TA. fold afinals.
  set (sC := if JsSet.has afinals ai then sB else putSet sB (final base) []).
  assert (HrunC : (if JsSet.has afinals ai then ret tt else setClear (final base)) sB
                  = Ok (tt, sC)).
  { unfold sC. destruct (JsSet.has afinals ai); reflexivity. }
  rewrite HrunC.
  assert (NC : store_nodes sC = store_nodes sB).
  { unfold sC. destruct (JsSet.has afinals ai); reflexivity. }
  assert (TC : forall t, t <> final base -> getSet sC t = getSet st t).
  { intros t Ht. unfold sC. destruct (JsSet.has afinals ai).
    - rewrite TB. apply TA.
    - rewrite getSet_putSet, decide_False by congruence. rewrite TB. apply TA. }
  assert (FC : forall g, In g (getSet sC (final base)) <-> In ai afinals /\ In g bfinals).
  { intros g. unfold sC. destruct (JsSet.has afinals ai) eqn:E.
    - apply JsSetFacts.set_has_true in E. rewrite TB, TA. fold bfinals. tauto.
    - apply JsSetFacts.set_has_false in E.
      rewrite getSet_putSet, decide_True by reflexivity. simpl. tauto. }
  assert (ASC : forall t, allocatedSet sC t <-> allocatedSet st t).
  { intros t. unfold sC. destruct (JsSet.has afinals ai).
    - rewrite ASB. apply ASA.
    - rewrite allocatedSet_putSet, ASB, ASA. split; [intros [->|H]; auto|auto]. }
  rewrite TC by congruence. fold afinals.
  destruct (transfer_finals (final base) ai afinals sC) as (sD & HrunD & FD & TD & ASD & ND).
  { apply ASC. exact Hbs. }
  rewrite HrunD. exists sD. split; [reflexivity|].
  assert (Hnodes : store_nodes sD = store_nodes sB) by congruence.
  assert (Hout : forall x, outOf sD x = if decide (x = ai) then [] else outOf sA x).
  { intros x. rewrite (outOf_same_nodes sB sD) by exact Hnodes. apply FB. }
  assert (Hfin : forall g, In g (getSet sD (final base)) <->
                           (In ai afinals /\ In g bfinals) \/ (In g afinals /\ g <> ai)).
  { intros g. rewrite FD, FC. reflexivity. }
  assert (Hstep : forall x c y,
             step sD x c y <-> (x <> ai /\ step st x c y) \/ (In x bfinals /\ step st ai c y)).
  { intros x c y. unfold step at 1. rewrite Hout. destruct (decide (x = ai)) as [->|Hne].
    - split; [intros (S & [] & _)|]. intros [[H _]|[H _]]; [congruence|contradiction].
    - fold (step sA x c y). rewrite SA. split.
      + intros [H|(S & Hin & Hc)]; [auto|]. apply in_prod_iff in Hin as [Hx Hy].
        right. split; [exact Hx|]. exists S. auto.
      + intros [[_ H]|[Hx (S & Hin & Hc)]]; [auto|]. right. exists S.
        split; [apply in_prod_iff; auto|exact Hc]. }
  split; [eapply good_same_nodes; eauto|].
  split.
  { (* the language *)
    intros w. unfold accepts. fold bi ai bfinals afinals.
    apply (concat_language st sD N bfinals ai Hcl Hinto Hai Hnorm HbfN Hstep bi afinals
             (getSet sD (final base)) HbiN Haf Hfin). }
  split; [intros a; rewrite (owner_same_nodes sB sD) by exact Hnodes; rewrite OB; apply OA|].
  split; [intros a Ha; apply (allocated_same_nodes sB sD); [exact Hnodes|auto]|].
  split; [intros t Ht; rewrite TD by exact Ht; apply TC; exact Ht|].
  split; [intros t; rewrite ASD; apply ASC|].
  split; [intros g Hg; apply Hfin in Hg; tauto|].
  split.
  { intros x _ Hx Hxf. rewrite Hout, decide_False by exact Hx. apply FA.
    intros e He. apply in_prod_iff in He as [He _]. contradiction. }
  split.
  { intros x y. unfold succ at 1. rewrite Hout. destruct (decide (x = ai)); [intros []|].
    fold (succ sA x y). rewrite KA. intros [H|(S & Hin)]; [auto|].
    apply in_prod_iff in Hin as [Hx Hy]. right. split; [|exact Hx].
    apply (Hcl ai y Hai). apply JsMapFacts.In_keys. eapply JsMapFacts.In_get. exact Hy. }
  split; [intros E; contradiction|]. split; [intros _ E; contradiction|].
  intros _ _. split; [|exact Hfin].
  intros x w g. apply (concat_old_paths st sD N bfinals ai Hcl Hinto Hai Hnorm HbfN Hstep).
Qed.

(** ** Powers of a language *)

(** [power n L]: the concatenations of [n] words of [L]. *)
Fixpoint power (n : nat) (L : list Z -> Prop) (w : list Z) : Prop :=
  match n with
  | 0 => w = []
  | Datatypes.S n' => exists u v, w = u ++ v /\ L u /\ power n' L v
  end.

(** The concatenations of at most [n] words of [L]. *)
Definition upTo (n : nat) (L : list Z -> Prop) (w : list Z) : Prop :=
  exists j, j <= n /\ power j L w.

Lemma power_ext n (L L' : list Z -> Prop) w :
  (forall u, L u <-> L' u) -> power n L w <-> power n L' w.
Proof.
  intros E. revert w. induction n as [|n IH]; intros w; simpl; [reflexivity|].
  split; intros (u & v & -> & Hu & Hv); exists u, v; (split; [reflexivity|]); split;
    try (apply E; exact Hu); apply IH; exact Hv.
Qed.

Lemma power_snoc n L w :
  power (Datatypes.S n) L w <-> exists u v, w = u ++ v /\ power n L u /\ L v.
Proof.
  revert w. induction n as [|n IH]; intros w.
  - simpl. split.
    + intros (u & v & -> & Hu & ->). exists [], u. rewrite app_nil_r. auto.
    + intros (u & v & -> & -> & Hv). exists v, []. rewrite app_nil_r. auto.
  - change (power (Datatypes.S (Datatypes.S n)) L w)
      with (exists u v, w = u ++ v /\ L u /\ power (Datatypes.S n) L v).
    split.
    + intros (u & v & -> & Hu & Hv). apply IH in Hv as (v1 & v2 & -> & Hv1 & Hv2).
      exists (u ++ v1), v2. split; [apply app_assoc|]. split; [|exact Hv2].
      exists u, v1. auto.
    + intros (u & v & -> & (u1 & u2 & -> & Hu1 & Hu2) & Hv).
      exists u1, (u2 ++ v). split; [symmetry; apply app_assoc|]. split; [exact Hu1|].
      apply IH. exists u2, v. auto.
Qed.

Lemma power_one L w : power 1 L w <-> L w.
Proof.
  simpl. split.
  - intros (u & v & -> & Hu & ->). rewrite app_nil_r. exact Hu.
  - intros H. exists w, []. rewrite app_nil_r. auto.
Qed.

Lemma power_empty n (L : list Z -> Prop) w :
  (forall u, ~ L u) -> power (Datatypes.S n) L w -> False.
Proof. intros E (u & v & _ & Hu & _). exact (E u Hu). Qed.

Lemma power_epsilon n (L : list Z -> Prop) w :
  (forall u, L u <-> u = []) -> power n L w <-> w = [].
Proof.
  intros E. revert w. induction n as [|n IH]; intros w; simpl; [reflexivity|]. split.
  - intros (u & v & -> & Hu & Hv). apply E in Hu. apply IH in Hv. subst. reflexivity.
  - intros ->. exists [], []. split; [reflexivity|]. split; [apply E|apply IH]; reflexivity.
Qed.

(** [L?] repeated [n] times is [L] repeated at most [n] times. *)
Lemma power_optional n (L0 L' : list Z -> Prop) w :
  (forall u, L0 u <-> u = [] \/ L' u) -> power n L0 w <-> upTo n L' w.
Proof.
  intros E. revert w. induction n as [|n IH]; intros w.
  - simpl. unfold upTo. split.
    + intros ->. exists 0. simpl. auto.
    + intros (j & Hj & Hp). assert (j = 0) by lia. subst j. exact Hp.
  - simpl. split.
    + intros (u & v & -> & Hu & Hv). apply IH in Hv as (j & Hj & Hv).
      apply E in Hu as [->|Hu].
      * exists j. split; [lia|exact Hv].
      * exists (Datatypes.S j). split; [lia|]. exists u, v. auto.
    + intros (j & Hj & Hp). destruct j as [|j].
      * simpl in Hp. subst w. exists [], []. split; [reflexivity|].
        split; [apply E; auto|]. apply IH. exists 0. simpl. split; [lia|reflexivity].
      * destruct Hp as (u & v & -> & Hu & Hv). exists u, v. split; [reflexivity|].
        split; [apply E; auto|]. apply IH. exists j. split; [lia|exact Hv].
Qed.

Lemma upTo_succ n L w : upTo (Datatypes.S n) L w <-> upTo n L w \/ power (Datatypes.S n) L w.
Proof.
  unfold upTo. split.
  - intros (j & Hj & Hp). destruct (decide (j = Datatypes.S n)) as [->|Hne]; [auto|].
    left. exists j. split; [lia|exact Hp].
  - intros [(j & Hj & Hp)|Hp]; [exists j; split; [lia|exact Hp]|].
    exists (Datatypes.S n). auto.
Qed.

(** ** Graphs that grow *)

Lemma succ_allocated st x y : succ st x y -> allocated st x.
Proof.
  intros H. destruct (decide (allocated st x)) as [Ha|Ha]; [exact Ha|].
  unfold succ, outOf in H. rewrite unallocated_blank in H by exact Ha. destruct H.
Qed.

(** Paths between allocated nodes survive an extension of the store. *)
Lemma path_frame st st' a w b :
  good st -> allocated st a ->
  (forall x, allocated st x -> outOf st' x = outOf st x) ->
  path st' a w b <-> path st a w b.
Proof.
  intros G Ha Hout. split; intros Hp.
  - refine (proj1 (path_within (allocated st) st' st a w b _ _ Ha Hp)).
    + intros x Hx. symmetry. apply Hout. exact Hx.
    + intros x y Hx Hxy. unfold succ in Hxy. rewrite Hout in Hxy by exact Hx.
      eapply good_closed; eauto.
  - refine (proj1 (path_within (allocated st) st st' a w b Hout _ Ha Hp)).
    intros x y Hx Hxy. eapply good_closed; eauto.
Qed.

Lemma accepts_frame st st' sub w :
  good st -> allocated st (initial sub) ->
  (forall x, allocated st x -> outOf st' x = outOf st x) ->
  getSet st' (final sub) = getSet st (final sub) ->
  accepts st' sub w <-> accepts st sub w.
Proof.
  intros G Ha Hout Hset. unfold accepts. rewrite Hset.
  split; intros (f & Hf & Hp); exists f; (split; [exact Hf|]);
    apply (path_frame st st' _ _ _ G Ha Hout); exact Hp.
Qed.

(** Paths inside a part of the graph that is left alone. *)
Lemma accepts_part (P : nat -> Prop) st st' sub w :
  (forall x, P x -> outOf st' x = outOf st x) ->
  (forall x y, P x -> succ st x y -> P y) ->
  P (initial sub) ->
  getSet st' (final sub) = getSet st (final sub) ->
  accepts st' sub w <-> accepts st sub w.
Proof.
  intros Hout Hcl Hi Hset. unfold accepts. rewrite Hset.
  split; intros (f & Hf & Hp); exists f; (split; [exact Hf|]).
  - refine (proj1 (path_within P st' st _ w f _ _ Hi Hp)).
    + intros x Hx. symmetry. apply Hout. exact Hx.
    + intros x y Hx Hxy. unfold succ in Hxy. rewrite Hout in Hxy by exact Hx. eapply Hcl; eauto.
  - exact (proj1 (path_within P st st' _ w f Hout Hcl Hi Hp)).
Qed.

(** ** Sub-automata side by side *)

Section Parts.
Variable nodeList : NodeList.

(** What the transformers need of the sub-automaton they alter. *)
Record rooted (st : Store) (base : SubList) : Prop := mkRooted {
  rt_good : good st;
  rt_init : allocated st (initial base);
  rt_set : allocatedSet st (final base);
  rt_owner : owner st (initial base) = nl_id nodeList;
  rt_succ : forall o, succ st (initial base) o -> owner st o = nl_id nodeList;
  rt_finals : forall f, In f (getSet st (final base)) ->
                        allocated st f /\ owner st f = nl_id nodeList
}.

(** A sub-automaton that lives in a part [N] of the graph which no edge
    enters from outside, and whose initial node has no incoming edge. *)
Record part (st : Store) (sub : SubList) (N : nat -> Prop) : Prop := mkPart {
  pt_alloc : forall y, N y -> allocated st y /\ owner st y = nl_id nodeList;
  pt_closed : forall x y, N x -> succ st x y -> N y;
  pt_into : forall x y, succ st x y -> N y -> N x;
  pt_init : N (initial sub);
  pt_finals : forall f, In f (getSet st (final sub)) -> N f;
  pt_set : allocatedSet st (final sub);
  pt_norm : forall x, ~ succ st x (initial sub)
}.

(** The base keeps out of the part. *)
Record apart (st : Store) (base sub : SubList) (N : nat -> Prop) : Prop := mkApart {
  ap_init : ~ N (initial base);
  ap_finals : forall f, In f (getSet st (final base)) -> ~ N f;
  ap_sets : final base <> final sub
}.

(** A copy is a new part; what was there stays. *)
Lemma copy_step toCopy st base :
  rooted st base ->
  allocated st (initial toCopy) -> allocatedSet st (final toCopy) ->
  (forall x, rtc (succ st) (initial toCopy) x -> ~ succ st x (initial toCopy)) ->
  exists c st1,
    localCopy nodeList toCopy st = Ok (c, st1)
    /\ rooted st1 base
    /\ part st1 c (fun y => allocated st1 y /\ ~ allocated st y)
    /\ apart st1 base c (fun y => allocated st1 y /\ ~ allocated st y)
    /\ (forall x, allocated st x ->
                  allocated st1 x /\ outOf st1 x = outOf st x /\ owner st1 x = owner st x)
    /\ (forall t, allocatedSet st t ->
                  getSet st1 t = getSet st t /\ allocatedSet st1 t /\ t <> final c)
    /\ (forall w, accepts st1 c w <-> accepts st toCopy w)
    /\ (forall sub N', part st sub N' -> part st1 sub N').
Proof.
  intros [G Hi Hs Ho Hsu Hf] Hti Hts Hnorm.
  destruct (localCopy_spec nodeList toCopy st G Hti Hts)
    as (c & st1 & Hrun & G1 & Hfr & Hset & Hfc & Hals & Hic & Hic1 & Hfin & Hnew & Hlang & Hn).
  exists c, st1. split; [exact Hrun|].
  assert (Hset' : forall t, allocatedSet st t ->
                    getSet st1 t = getSet st t /\ allocatedSet st1 t /\ t <> final c).
  { intros t Ht. assert (t <> final c) by (intros ->; contradiction).
    split; [apply Hset; assumption|]. split; [apply Hals; auto|assumption]. }
  assert (Hinto : forall x y, succ st1 x y -> ~ allocated st y -> ~ allocated st x).
  { intros x y Hxy Hy Hx. apply Hy. destruct (Hfr x Hx) as (_ & Hout & _).
    unfold succ in Hxy. rewrite Hout in Hxy. eapply good_closed; eauto. }
  split; [|split; [|split; [|split; [exact Hfr|split; [exact Hset'|split; [exact Hlang|]]]]]].
  - split.
    + exact G1.
    + apply Hfr. exact Hi.
    + apply Hset'. exact Hs.
    + destruct (Hfr _ Hi) as (_ & _ & ->). exact Ho.
    + intros o Hso. destruct (Hfr _ Hi) as (_ & Hout & _). unfold succ in Hso.
      rewrite Hout in Hso. destruct (Hfr o) as (_ & _ & ->); [eapply good_closed; eauto|].
      apply Hsu. exact Hso.
    + intros f Hff. destruct (Hset' _ Hs) as (E & _ & _). rewrite E in Hff.
      destruct (Hf f Hff) as (Hfa & Hfo). destruct (Hfr f Hfa) as (A1 & _ & A3).
      split; [exact A1|]. rewrite A3. exact Hfo.
  - split.
    + intros y [Hy Hy0]. split; [exact Hy|]. apply (Hnew y Hy Hy0).
    + intros x y [Hx Hx0] Hxy. apply (Hnew x Hx Hx0). exact Hxy.
    + intros x y Hxy [Hy Hy0]. split; [eapply succ_allocated; eauto|eapply Hinto; eauto].
    + split; assumption.
    + exact Hfin.
    + apply Hals. auto.
    + apply Hn. exact Hnorm.
  - split.
    + intros [_ H]. contradiction.
    + intros f Hff [_ H]. apply H. destruct (Hset' _ Hs) as (E & _ & _). rewrite E in Hff.
      apply (Hf f Hff).
    + intros E. apply Hfc. rewrite <- E. exact Hs.
  - intros sub N' [P1 P2 P3 P4 P5 P6 P7]. split.
    + intros y Hy. destruct (P1 y Hy) as (Hya & Hyo). destruct (Hfr y Hya) as (A1 & _ & A3).
      split; [exact A1|]. rewrite A3. exact Hyo.
    + intros x y Hx Hxy. apply (P2 x y Hx). destruct (Hfr x) as (_ & Hout & _); [apply P1; exact Hx|].
      unfold succ in *. rewrite <- Hout. exact Hxy.
    + intros x y Hxy Hy. destruct (decide (allocated st x)) as [Hx|Hx].
      * apply (P3 x y); [|exact Hy]. destruct (Hfr x Hx) as (_ & Hout & _).
        unfold succ in *. rewrite <- Hout. exact Hxy.
      * exfalso. assert (Hx1 : allocated st1 x) by (eapply succ_allocated; eauto).
        destruct (Hnew x Hx1 Hx) as (_ & Hcl). destruct (Hcl y Hxy) as (_ & Hy0).
        apply Hy0. apply P1. exact Hy.
    + exact P4.
    + intros f Hff. destruct (Hset' _ P6) as (E & _ & _). rewrite E in Hff. apply P5. exact Hff.
    + apply Hset'. exact P6.
    + intros x Hx. destruct (decide (allocated st x)) as [Hx0|Hx0].
      * apply (P7 x). destruct (Hfr x Hx0) as (_ & Hout & _).
        unfold succ in *. rewrite <- Hout. exact Hx.
      * assert (Hx1 : allocated st1 x) by (eapply succ_allocated; eauto).
        destruct (Hnew x Hx1 Hx0) as (_ & Hcl). destruct (Hcl _ Hx) as (_ & Hy0).
        apply Hy0. apply P1. exact P4.
Qed.

(** Appending a part to the base. *)
Lemma concat_step st base after N :
  rooted st base -> part st after N -> apart st base after N ->
  exists st',
    baseConcat nodeList base after st = Ok (tt, st')
    /\ rooted st' base
    /\ (forall w, accepts st' base w <->
                  exists u v, w = u ++ v /\ accepts st base u /\ accepts st after v)
    /\ (forall x, allocated st x -> allocated st' x)
    /\ (forall g, In g (getSet st' (final base)) -> In g (getSet st (final base)) \/ N g)
    /\ ((forall w g, ~ N g -> path st' (initial base) w g <-> path st (initial base) w g)
        \/ (outOf st' (initial base) = [] /\ forall v, ~ accepts st after v))
    /\ (forall sub N',
           part st sub N' -> (forall y, N y -> ~ N' y) -> apart st base sub N' ->
           part st' sub N' /\ apart st' base sub N'
           /\ forall w, accepts st' sub w <-> accepts st sub w).
Proof.
  intros [G Hi Hs Ho Hsu Hf] [P1 P2 P3 P4 P5 P6 P7] [A1 A2 A3].
  destruct (baseConcat_spec nodeList base after st N G A3 Hs Ho Hsu)
    as (st' & Hrun & G' & Hlang & Hown & Hal & Hset & Hals & Hfin & Hout & Hsucc
        & Case1 & Case2 & Case3); auto.
  { intros f Hff. apply (Hf f Hff). }
  { intros y Hy. apply (P1 y Hy). }
  exists st'. split; [exact Hrun|].
  assert (Hfin' : forall g, In g (getSet st' (final base)) -> In g (getSet st (final base)) \/ N g).
  { intros g Hg. destruct (Hfin g Hg) as [H|H]; auto. }
  split; [|split; [exact Hlang|split; [exact Hal|split; [exact Hfin'|split]]]].
  - split.
    + exact G'.
    + apply Hal. exact Hi.
    + apply Hals. exact Hs.
    + rewrite Hown. exact Ho.
    + intros o Hso. rewrite Hown. destruct (Hsucc _ _ Hso) as [H|[H _]]; [auto|apply P1; exact H].
    + intros f Hff. rewrite Hown. destruct (Hfin' f Hff) as [H|H].
      * destruct (Hf f H). auto.
      * destruct (P1 f H). auto.
  - destruct (getSet st (final base)) as [|f0 fs] eqn:Eb.
    { left. intros w g _. rewrite (Case1 eq_refl). reflexivity. }
    destruct (getSet st (final after)) as [|g0 gs] eqn:Ea.
    { right. destruct Case2 as (E1 & _); [discriminate|reflexivity|].
      split; [exact E1|]. intros v (f & Hff & _). unfold accepts in *. rewrite Ea in Hff.
      destruct Hff. }
    left. intros w g Hg. apply Case3; [discriminate|discriminate|exact A1|exact Hg].
  - intros sub N' [Q1 Q2 Q3 Q4 Q5 Q6 Q7] Hdis [B1 B2 B3].
    assert (Hsame : forall x, N' x -> outOf st' x = outOf st x).
    { intros x Hx. apply Hout.
      - intros ->. contradiction.
      - intros ->. apply (Hdis _ P4). exact Hx.
      - intros H. apply (B2 x H). exact Hx. }
    assert (Hsets : getSet st' (final sub) = getSet st (final sub)) by (apply Hset; congruence).
    split; [|split].
    + split.
      * intros y Hy. destruct (Q1 y Hy). split; [auto|]. rewrite Hown. assumption.
      * intros x y Hx Hxy. apply (Q2 x y Hx). unfold succ in *. rewrite <- Hsame by exact Hx.
        exact Hxy.
      * intros x y Hxy Hy. destruct (Hsucc _ _ Hxy) as [H|[H _]].
        -- eapply Q3; eauto.
        -- exfalso. eapply Hdis; eauto.
      * exact Q4.
      * intros f Hff. rewrite Hsets in Hff. apply Q5. exact Hff.
      * apply Hals. exact Q6.
      * intros x Hx. destruct (Hsucc _ _ Hx) as [H|[H _]].
        -- eapply Q7; eauto.
        -- eapply Hdis; eauto.
    + split; [exact B1| |exact B3].
      intros f Hff Hn. destruct (Hfin' f Hff) as [H|H].
      * eapply B2; eauto.
      * eapply Hdis; eauto.
    + intros w. apply (accepts_part N'); auto.
Qed.
End Parts.

Lemma path_no_out st a w b : outOf st a = [] -> path st a w b -> w = [] /\ a = b.
Proof.
  intros E Hp. destruct Hp as [x|x c x1 w x2 (S & Hin & _) _]; [auto|].
  rewrite E in Hin. destruct Hin.
Qed.

Lemma path_enters st a w b : path st a w b -> (w = [] /\ a = b) \/ exists x, succ st x b.
Proof.
  induction 1 as [x|x c x1 w x2 Hs Hp IH]; [auto|]. right.
  destruct IH as [[_ <-]|H]; [|exact H]. exists x. eapply step_succ; eauto.
Qed.

Lemma upTo_empty n (L : list Z -> Prop) w : (forall v, ~ L v) -> upTo n L w <-> w = [].
Proof.
  intros E. unfold upTo. split.
  - intros ([|j] & _ & Hp); [exact Hp|]. exfalso. eapply power_empty; eauto.
  - intros ->. exists 0. simpl. split; [lia|reflexivity].
Qed.

Section Repeat.
Variables (nodeList : NodeList) (base copy : SubList) (Rc : nat -> Prop).
Variable L' : list Z -> Prop.

Lemma apart_frame st st1 :
  apart st base copy Rc ->
  getSet st1 (final base) = getSet st (final base) ->
  apart st1 base copy Rc.
Proof. intros [A1 A2 A3] E. split; [exact A1| |exact A3]. rewrite E. exact A2. Qed.

(** One round of the loops of [baseRepeat]: a copy of the copy is appended
    to the base. *)
Lemma round st m :
  rooted nodeList st base -> part nodeList st copy Rc -> apart st base copy Rc ->
  (forall w, accepts st copy w <-> L' w) ->
  (forall w, accepts st base w <-> power m L' w) ->
  exists st',
    (c <- localCopy nodeList copy ;; baseConcat nodeList base c) st = Ok (tt, st')
    /\ rooted nodeList st' base /\ part nodeList st' copy Rc /\ apart st' base copy Rc
    /\ (forall w, accepts st' copy w <-> L' w)
    /\ (forall w, accepts st' base w <-> power (Datatypes.S m) L' w)
    /\ (forall g, allocated st g -> allocated st' g)
    /\ (forall g, In g (getSet st' (final base)) -> allocated st' g /\ ~ Rc g)
    /\ ((forall w g, allocated st g ->
                     path st' (initial base) w g <-> path st (initial base) w g)
        \/ (outOf st' (initial base) = [] /\ forall v, ~ L' v)).
Proof.
  intros R P A Hcopy Hbase.
  pose proof (rt_good _ _ _ R) as G.
  assert (Hci : allocated st (initial copy)) by (apply (pt_alloc _ _ _ _ P); apply (pt_init _ _ _ _ P)).
  destruct (copy_step nodeList copy st base R Hci (pt_set _ _ _ _ P))
    as (c & st1 & Hrun1 & R1 & Pc & Ac & Hfr & Hsets & Hlang & Hother).
  { intros x _. apply (pt_norm _ _ _ _ P). }
  pose proof (Hother copy Rc P) as P1.
  assert (Hb1 : getSet st1 (final base) = getSet st (final base)).
  { apply Hsets. apply (rt_set _ _ _ R). }
  pose proof (apart_frame st st1 A Hb1) as A1.
  assert (Hout1 : forall x, allocated st x -> outOf st1 x = outOf st x) by (intros x Hx; apply Hfr; exact Hx).
  destruct (concat_step nodeList st1 base c _ R1 Pc Ac)
    as (st2 & Hrun2 & R2 & Hlang2 & Hal2 & Hfin2 & Hold & Hother2).
  destruct (Hother2 copy Rc P1) as (P2 & A2 & Hcopy2); [|exact A1|].
  { intros y [_ Hy] Hr. apply Hy. apply (pt_alloc _ _ _ _ P). exact Hr. }
  exists st2. split; [unfold bind; rewrite Hrun1; exact Hrun2|].
  split; [exact R2|]. split; [exact P2|]. split; [exact A2|].
  assert (Hcopy1 : forall w, accepts st1 copy w <-> L' w).
  { intros w. rewrite <- Hcopy. apply accepts_frame; auto. apply Hsets. apply (pt_set _ _ _ _ P). }
  split; [intros w; rewrite Hcopy2; apply Hcopy1|].
  split.
  { intros w. rewrite Hlang2, power_snoc. split.
    - intros (u & v & -> & Hu & Hv). exists u, v. split; [reflexivity|]. split.
      + apply Hbase. apply (accepts_frame st st1); auto. apply (rt_init _ _ _ R).
      + apply Hcopy. apply Hlang. exact Hv.
    - intros (u & v & -> & Hu & Hv). exists u, v. split; [reflexivity|]. split.
      + apply (accepts_frame st st1); auto; [apply (rt_init _ _ _ R)|]. apply Hbase. exact Hu.
      + apply Hlang. apply Hcopy. exact Hv. }
  split; [intros g Hg; apply Hal2; apply Hfr; exact Hg|].
  split.
  { intros g Hg. split; [apply (rt_finals _ _ _ R2); exact Hg|]. apply (ap_finals _ _ _ _ A2). exact Hg. }
  destruct Hold as [Hold|[Hempty Hnone]].
  - left. intros w g Hg. rewrite Hold.
    + apply path_frame; auto. apply (rt_init _ _ _ R).
    + intros [_ H]. contradiction.
  - right. split; [exact Hempty|]. intros v Hv. apply (Hnone v). apply Hlang. apply Hcopy. exact Hv.
Qed.

(** The loop of the first branch. *)
Lemma repeat_rounds k : forall st m,
  rooted nodeList st base -> part nodeList st copy Rc -> apart st base copy Rc ->
  (forall w, accepts st copy w <-> L' w) ->
  (forall w, accepts st base w <-> power m L' w) ->
  exists st',
    repeatM k (c <- localCopy nodeList copy ;; baseConcat nodeList base c) st = Ok (tt, st')
    /\ rooted nodeList st' base /\ part nodeList st' copy Rc /\ apart st' base copy Rc
    /\ (forall w, accepts st' copy w <-> L' w)
    /\ (forall w, accepts st' base w <-> power (m + k) L' w).
Proof.
  induction k as [|k IH]; intros st m R P A Hcopy Hbase.
  - exists st. rewrite Nat.add_0_r. split; [reflexivity|]. split; [exact R|].
    split; [exact P|]. split; [exact A|]. split; [exact Hcopy|exact Hbase].
  - destruct (round st m R P A Hcopy Hbase) as (st1 & Hrun & R1 & P1 & A1 & Hc1 & Hb1 & _).
    destruct (IH st1 (Datatypes.S m) R1 P1 A1 Hc1 Hb1) as (st' & Hrun' & R' & P' & A' & Hc' & Hb').
    exists st'. split; [simpl; unfold bind at 1; rewrite Hrun; exact Hrun'|].
    replace (m + Datatypes.S k) with (Datatypes.S m + k) by lia.
    split; [exact R'|]. split; [exact P'|]. split; [exact A'|]. split; [exact Hc'|exact Hb'].
Qed.

(** What the set [realFinal] of the second branch stands for: the nodes at
    which at most [m] words of [L'] end. *)
Definition collected (st : Store) (m : nat) (realFinal : list nat) : Prop :=
  In (initial base) realFinal
  /\ (forall g, In g realFinal -> allocated st g /\ ~ Rc g)
  /\ (forall w, (exists g, In g realFinal /\ path st (initial base) w g) <-> upTo m L' w).

Lemma collected_step st st' m realFinal :
  collected st m realFinal ->
  (forall w, accepts st' base w <-> power (Datatypes.S m) L' w) ->
  (forall g, allocated st g -> allocated st' g) ->
  (forall g, In g (getSet st' (final base)) -> allocated st' g /\ ~ Rc g) ->
  ((forall w g, In g realFinal ->
                path st' (initial base) w g <-> path st (initial base) w g)
   \/ (outOf st' (initial base) = [] /\ forall v, ~ L' v)) ->
  collected st' (Datatypes.S m) (addAll realFinal (getSet st' (final base))).
Proof.
  intros (Hbi & Hal & HR) Hbase Hmono Hfin Hold. unfold addAll. split; [|split].
  - apply JsSetFacts.In_addAll. auto.
  - intros g Hg. apply JsSetFacts.In_addAll in Hg as [Hg|Hg]; [auto|].
    destruct (Hal g Hg). auto.
  - intros w. destruct Hold as [Hold|[Hempty Hnone]].
    + rewrite upTo_succ, <- HR, <- Hbase. unfold accepts. split.
      * intros (g & Hg & Hp). apply JsSetFacts.In_addAll in Hg as [Hg|Hg]; [right; eauto|].
        left. exists g. split; [exact Hg|]. apply Hold; assumption.
      * intros [(g & Hg & Hp)|(g & Hg & Hp)]; exists g.
        -- split; [apply JsSetFacts.In_addAll; auto|]. apply Hold; assumption.
        -- split; [apply JsSetFacts.In_addAll; auto|exact Hp].
    + rewrite upTo_empty by exact Hnone. split.
      * intros (g & _ & Hp). apply (path_no_out _ _ _ _ Hempty Hp).
      * intros ->. exists (initial base). split; [apply JsSetFacts.In_addAll; auto|constructor].
Qed.

(** The loop of the second branch. *)
Lemma collect_rounds k : forall st m realFinal,
  rooted nodeList st base -> part nodeList st copy Rc -> apart st base copy Rc ->
  (forall w, accepts st copy w <-> L' w) ->
  (forall w, accepts st base w <-> power m L' w) ->
  collected st m realFinal ->
  exists st' realFinal',
    repeatCollect nodeList base copy k realFinal st = Ok (realFinal', st')
    /\ rooted nodeList st' base /\ part nodeList st' copy Rc /\ apart st' base copy Rc
    /\ (forall w, accepts st' copy w <-> L' w)
    /\ (forall w, accepts st' base w <-> power (m + k) L' w)
    /\ collected st' (m + k) realFinal'.
Proof.
  induction k as [|k IH]; intros st m realFinal R P A Hcopy Hbase Hcol.
  - exists st, realFinal. rewrite Nat.add_0_r. split; [reflexivity|]. split; [exact R|].
    split; [exact P|]. split; [exact A|]. split; [exact Hcopy|]. split; [exact Hbase|exact Hcol].
  - destruct (round st m R P A Hcopy Hbase)
      as (st1 & Hrun & R1 & P1 & A1 & Hc1 & Hb1 & Hmono & Hfin & Hold).
    assert (Hcol1 : collected st1 (Datatypes.S m) (addAll realFinal (getSet st1 (final base)))).
    { apply (collected_step st st1 m realFinal Hcol Hb1 Hmono Hfin).
      destruct Hold as [Hold|H]; [left|right; exact H].
      intros w g Hg. apply Hold. apply Hcol. exact Hg. }
    destruct (IH st1 (Datatypes.S m) _ R1 P1 A1 Hc1 Hb1 Hcol1)
      as (st' & rf' & Hrun' & R' & P' & A' & Hc' & Hb' & Hcol').
    exists st', rf'. split.
    { simpl. unfold bind in Hrun |- *.
      destruct (localCopy nodeList copy st) as [[c s1]|]; [|discriminate].
      rewrite Hrun. unfold setElements, gets. exact Hrun'. }
    replace (m + Datatypes.S k) with (Datatypes.S m + k) by lia.
    split; [exact R'|]. split; [exact P'|]. split; [exact A'|]. split; [exact Hc'|].
    split; [exact Hb'|exact Hcol'].
Qed.
End Repeat.

(** ** baseRepeat *)

(** A sub-automaton of a node list, as the construction algorithms meet it:
    the [out] maps are well formed, the [in] map of the initial node lists
    every node that has an edge to it, the initial node, the set of final
    nodes and the final nodes exist, and the final nodes and all the nodes
    that the initial node reaches belong to the list. *)
Record wellFormed (st : Store) (nodeList : NodeList) (base : SubList) : Prop := mkWellFormed {
  wf_good : good st;
  wf_mirror : forall x, succ st x (initial base) -> pred st (initial base) x;
  wf_initial : allocated st (initial base);
  wf_final : allocatedSet st (final base);
  wf_finals : forall f, In f (getSet st (final base)) ->
                        allocated st f /\ owner st f = nl_id nodeList;
  wf_owned : forall a, rtc (succ st) (initial base) a -> owner st a = nl_id nodeList
}.

(** Normalization: the initial node has no incoming edges. *)
Definition normalized (st : Store) (sub : SubList) : Prop := inOf st (initial sub) = [].

Lemma normalized_no_pred st sub :
  (forall x, succ st x (initial sub) -> pred st (initial sub) x) ->
  normalized st sub -> forall x, ~ succ st x (initial sub).
Proof.
  intros Hsym Hn x Hx. apply Hsym in Hx. unfold pred in Hx. rewrite Hn in Hx. destruct Hx.
Qed.

Lemma wellFormed_rooted st nodeList base : wellFormed st nodeList base -> rooted nodeList st base.
Proof.
  intros [G _ Hi Hs Hf Ho]. split; auto.
  - apply Ho. constructor.
  - intros o Hso. apply Ho. apply rtc_once. exact Hso.
Qed.

Lemma singleton_set (l : list nat) x : JsSet.size l = 1 -> JsSet.has l x = true -> l = [x].
Proof.
  destruct l as [|y [|z l]]; simpl; try discriminate. intros _ H.
  rewrite orb_false_r in H. apply Nat.eqb_eq in H. congruence.
Qed.

(** Filling a set from a list. *)
Lemma setAdd_all s l st :
  exists st',
    forEach l (fun f => setAdd s f) st = Ok (tt, st')
    /\ (forall g, In g (getSet st' s) <-> In g (getSet st s) \/ In g l)
    /\ store_nodes st' = store_nodes st.
Proof.
  destruct (forEach_total
              (fun pre st' =>
                 (forall g, In g (getSet st' s) <-> In g (getSet st s) \/ In g pre)
                 /\ store_nodes st' = store_nodes st)
              l (fun f => setAdd s f) st) as (st' & Hrun & H); [| |eauto].
  - split; [|reflexivity]. intros g. simpl. tauto.
  - intros pre x post s1 _ (H1 & H2). eexists. split; [reflexivity|]. split; [|exact H2].
    intros g. rewrite getSet_putSet, decide_True by reflexivity.
    rewrite JsSetFacts.In_add, H1, in_app_iff. simpl. clear. intuition (subst; intuition).
Qed.

Lemma path_same_nodes st st' a w b :
  store_nodes st' = store_nodes st -> path st' a w b <-> path st a w b.
Proof.
  intros E. split; intros Hp.
  - refine (proj1 (path_within (fun _ => True) st' st a w b _ _ I Hp)); auto.
    intros x _. symmetry. apply outOf_same_nodes. exact E.
  - refine (proj1 (path_within (fun _ => True) st st' a w b _ _ I Hp)); auto.
    intros x _. apply outOf_same_nodes. exact E.
Qed.

Lemma rooted_same_nodes nodeList st st' base :
  store_nodes st' = store_nodes st ->
  allocatedSet st' (final base) ->
  (forall f, In f (getSet st' (final base)) -> In f (getSet st (final base))) ->
  rooted nodeList st base -> rooted nodeList st' base.
Proof.
  intros E Hs Hsub [G Hi _ Ho Hsu Hf]. split.
  - eapply good_same_nodes; eauto.
  - apply (allocated_same_nodes st st'); auto.
  - exact Hs.
  - rewrite (owner_same_nodes st st') by exact E. exact Ho.
  - intros o Hso. rewrite (owner_same_nodes st st') by exact E. apply Hsu.
    unfold succ in *. rewrite <- (outOf_same_nodes st st') by exact E. exact Hso.
  - intros f Hff. destruct (Hf f (Hsub f Hff)). split.
    + apply (allocated_same_nodes st st'); auto.
    + rewrite (owner_same_nodes st st') by exact E. assumption.
Qed.

(** C4.  For a well-formed, normalized sub-automaton [base] of a node list
    and every [n], [baseRepeat(nodeList, base, n)] returns, and afterwards
    [base] accepts exactly the concatenations of [n] words that it accepted
    before (the empty word alone for [n = 0]), in the branch where the
    initial node is not final as in the branch that keeps the real final
    states. *)
Theorem baseRepeat_power (nodeList : NodeList) (base : SubList) (n : nat) (st : Store) :
  wellFormed st nodeList base ->
  normalized st base ->
  exists st',
    baseRepeat nodeList base n st = Ok (tt, st')
    /\ forall w, accepts st' base w <-> power n (accepts st base) w.
Proof.
  intros W Hnorm.
  pose proof (wellFormed_rooted _ _ _ W) as R.
  pose proof (normalized_no_pred _ _ (wf_mirror _ _ _ W) Hnorm) as Hnp.
  pose proof (wf_good _ _ _ W) as G.
  set (bi := initial base) in *.
  assert (Hloop : forall w, path st bi w bi <-> w = []).
  { intros w. split; [|intros ->; constructor]. intros Hp.
    destruct (path_enters _ _ _ _ Hp) as [[H _]|[x Hx]]; [exact H|]. exfalso. eapply Hnp; eauto. }
  unfold baseRepeat.
  destruct (n =? 0) eqn:E0.
  { (* n = 0 *)
    apply Nat.eqb_eq in E0. subst n.
    destruct (baseMakeEmpty_spec nodeList base st G (rt_owner _ _ _ R) (rt_succ _ _ _ R))
      as (st1 & Hrun & _ & Hout & _ & _ & Hset & _).
    eexists. split; [unfold bind; rewrite Hrun; reflexivity|].
    intros w. unfold accepts. simpl.
    rewrite getSet_putSet, decide_True by reflexivity.
    rewrite Hset, decide_True by reflexivity. simpl. fold bi. split.
    - intros (f & _ & Hp). apply path_same_nodes with (st := st1) in Hp; [|reflexivity].
      apply (path_no_out st1 bi w f); [|exact Hp]. rewrite Hout, decide_True; reflexivity.
    - intros ->. exists bi. split; [auto|constructor]. }
  destruct (n =? 1) eqn:E1.
  { apply Nat.eqb_eq in E1. subst n. exists st. split; [reflexivity|].
    intros w. symmetry. apply power_one. }
  apply Nat.eqb_neq in E0, E1.
  destruct n as [|[|k]]; [congruence|congruence|]. clear E0 E1.
  replace (Datatypes.S (Datatypes.S k) - 2) with k by lia.
  unfold bind at 1, setSize at 1, gets. unfold bind at 1, setHas at 1, gets.
  set (finals := getSet st (final base)) in *.
  destruct ((JsSet.size finals =? 1) && JsSet.has finals (initial base)) eqn:Eeps.
  { (* the empty word alone *)
    apply andb_true_iff in Eeps as [Es Eh]. apply Nat.eqb_eq in Es.
    pose proof (singleton_set _ _ Es Eh) as Ef.
    exists st. split; [reflexivity|]. intros w. rewrite power_epsilon.
    - unfold accepts. fold finals bi. rewrite Ef. split.
      + intros (f & [<-|[]] & Hp). apply Hloop. exact Hp.
      + intros ->. exists bi. split; [left; reflexivity|constructor].
    - intros u. unfold accepts. fold finals bi. rewrite Ef. split.
      + intros (f & [<-|[]] & Hp). apply Hloop. exact Hp.
      + intros ->. exists bi. split; [left; reflexivity|constructor]. }
  destruct (JsSet.size finals =? 0) eqn:Ez.
  { (* no word *)
    apply size_zero in Ez. exists st. split; [reflexivity|]. intros w.
    assert (Hnone : forall u, ~ accepts st base u).
    { intros u (f & Hf & _). fold finals in Hf. rewrite Ez in Hf. destruct Hf. }
    split; [intros H; exfalso; eapply Hnone; eauto|].
    intros H. exfalso. eapply power_empty; eauto. }
  destruct (JsSet.has finals (initial base)) eqn:Eh; cbn [negb].
  2:{ (* the initial node is not final *)
    destruct (copy_step nodeList base st base R (rt_init _ _ _ R) (rt_set _ _ _ R))
      as (copy & st1 & Hrun1 & R1 & P1 & A1 & Hfr & Hsets & Hlang & _).
    { intros x _. apply Hnp. }
    unfold bind at 1. rewrite Hrun1.
    assert (Hb1 : forall w, accepts st1 base w <-> power 1 (accepts st base) w).
    { intros w. rewrite power_one. apply accepts_frame; auto.
      - apply (rt_init _ _ _ R).
      - intros x Hx. apply Hfr. exact Hx.
      - apply Hsets. apply (rt_set _ _ _ R). }
    destruct (repeat_rounds nodeList base copy _ (accepts st base) k st1 1 R1 P1 A1 Hlang Hb1)
      as (st2 & Hrun2 & R2 & P2 & A2 & Hc2 & Hb2).
    unfold bind at 1. rewrite Hrun2.
    destruct (concat_step nodeList st2 base copy _ R2 P2 A2) as (st3 & Hrun3 & _ & Hlang3 & _).
    exists st3. split; [exact Hrun3|]. intros w. rewrite Hlang3.
    rewrite power_snoc. change (Datatypes.S k) with (1 + k).
    split; intros (u & v & -> & Hu & Hv); exists u, v; (split; [reflexivity|]); split;
      try (apply Hb2; exact Hu); apply Hc2; exact Hv. }
  (* the initial node is final: the real final states are collected *)
  apply JsSetFacts.set_has_true in Eh.
  unfold bind at 1, setElements at 1, gets. unfold bind at 1, setDelete at 1, modify.
  fold finals.
  set (sta := putSet st (final base) (JsSet.delete finals (initial base))).
  assert (Na : store_nodes sta = store_nodes st) by reflexivity.
  assert (Fa : getSet sta (final base) = JsSet.delete finals bi).
  { unfold sta. rewrite getSet_putSet, decide_True by reflexivity. reflexivity. }
  assert (Ra : rooted nodeList sta base).
  { apply (rooted_same_nodes nodeList st sta); auto.
    - unfold sta. apply allocatedSet_putSet. auto.
    - intros f. rewrite Fa. intros Hf. apply JsSetFacts.In_delete in Hf. apply Hf. }
  set (L' := accepts sta base).
  assert (HL : forall u, accepts st base u <-> u = [] \/ L' u).
  { intros u. unfold L', accepts. fold finals bi. rewrite Fa. split.
    - intros (f & Hf & Hp). destruct (decide (f = bi)) as [->|Hne].
      + left. apply Hloop. exact Hp.
      + right. exists f. split; [apply JsSetFacts.In_delete; auto|].
        apply (path_same_nodes st sta); auto.
    - intros [->|(f & Hf & Hp)].
      + exists bi. split; [exact Eh|constructor].
      + exists f. apply JsSetFacts.In_delete in Hf as [_ Hf]. split; [exact Hf|].
        apply (path_same_nodes st sta) in Hp; auto. }
  destruct (copy_step nodeList base sta base Ra (rt_init _ _ _ Ra) (rt_set _ _ _ Ra))
    as (copy & st1 & Hrun1 & R1 & P1 & A1 & Hfr & Hsets & Hlang & _).
  { intros x _ Hx. apply (Hnp x). unfold succ in *.
    rewrite <- (outOf_same_nodes st sta) by exact Na. exact Hx. }
  unfold bind at 1. rewrite Hrun1.
  assert (Hb1 : forall w, accepts st1 base w <-> power 1 L' w).
  { intros w. rewrite power_one. apply accepts_frame; auto.
    - apply (rt_good _ _ _ Ra).
    - apply (rt_init _ _ _ Ra).
    - intros x Hx. apply Hfr. exact Hx.
    - apply Hsets. apply (rt_set _ _ _ Ra). }
  assert (Hcol1 : collected base (fun y => allocated st1 y /\ ~ allocated sta y) L' st1 1 finals).
  { split; [exact Eh|]. split.
    - intros g Hg. destruct (wf_finals _ _ _ W g Hg) as (Hga & _).
      apply (allocated_same_nodes st sta) in Hga; [|exact Na].
      split; [apply Hfr; exact Hga|]. intros [_ H]. contradiction.
    - intros w. rewrite <- (power_optional 1 (accepts st base) L' w HL), power_one.
      unfold accepts. fold finals bi. split; intros (g & Hg & Hp); exists g; (split; [exact Hg|]).
      + apply (path_same_nodes st sta); [exact Na|].
        apply (path_frame sta st1) in Hp; auto.
        * apply (rt_good _ _ _ Ra).
        * apply (rt_init _ _ _ Ra).
        * intros x Hx. apply Hfr. exact Hx.
      + apply (path_frame sta st1); auto.
        * apply (rt_good _ _ _ Ra).
        * apply (rt_init _ _ _ Ra).
        * intros x Hx. apply Hfr. exact Hx.
        * apply (path_same_nodes st sta); auto. }
  destruct (collect_rounds nodeList base copy _ L' k st1 1 finals R1 P1 A1 Hlang Hb1 Hcol1)
    as (st2 & rf2 & Hrun2 & R2 & P2 & A2 & Hc2 & Hb2 & Hcol2).
  unfold bind at 1. rewrite Hrun2.
  destruct (concat_step nodeList st2 base copy _ R2 P2 A2)
    as (st3 & Hrun3 & R3 & Hlang3 & Hmono3 & Hfin3 & Hold3 & _).
  unfold bind at 1. rewrite Hrun3.
  assert (Hb3 : forall w, accepts st3 base w <-> power (Datatypes.S (1 + k)) L' w).
  { intros w. rewrite Hlang3, power_snoc.
    split; intros (u & v & -> & Hu & Hv); exists u, v; (split; [reflexivity|]); split;
      try (apply Hb2; exact Hu); apply Hc2; exact Hv. }
  assert (Hcol2' : collected base (fun _ => False) L' st2 (1 + k) rf2).
  { destruct Hcol2 as (H1 & H2 & H3). split; [exact H1|]. split; [|exact H3].
    intros g Hg. split; [apply (H2 g Hg)|tauto]. }
  assert (Hcol3 : collected base (fun _ => False) L' st3
                    (Datatypes.S (1 + k)) (addAll rf2 (getSet st3 (final base)))).
  { apply (collected_step base _ L' st2 st3 _ rf2 Hcol2' Hb3 Hmono3).
    - intros g Hg. split; [apply (rt_finals _ _ _ R3); exact Hg|tauto].
    - destruct Hold3 as [Hold|[Hempty Hnone]].
      + left. intros w g Hg. apply Hold. apply Hcol2. exact Hg.
      + right. split; [exact Hempty|]. intros v Hv. apply (Hnone v). apply Hc2. exact Hv. }
  unfold bind at 1, setElements at 1, gets. unfold bind at 1, setClear at 1, modify.
  set (stc := putSet st3 (final base) []).
  destruct (setAdd_all (final base) (addAll rf2 (getSet st3 (final base))) stc)
    as (st5 & Hrun5 & Hfin5 & Hn5).
  exists st5. split; [exact Hrun5|]. intros w.
  rewrite (power_optional _ (accepts st base) L' w HL).
  destruct Hcol3 as (_ & _ & <-). unfold accepts. fold bi.
  assert (Hnodes : store_nodes st5 = store_nodes st3) by (rewrite Hn5; reflexivity).
  assert (Hset5 : forall g, In g (getSet st5 (final base))
                            <-> In g (addAll rf2 (getSet st3 (final base)))).
  { intros g. rewrite Hfin5. unfold stc. rewrite getSet_putSet, decide_True by reflexivity.
    simpl. tauto. }
  split; intros (g & Hg & Hp); exists g; (split; [apply Hset5; exact Hg|]).
  - apply (path_same_nodes st3 st5); auto.
  - apply (path_same_nodes st3 st5); auto.
Qed.

(** ** Checking well-formedness of a concrete store *)

Fixpoint nodupb (l : list nat) : bool :=
  match l with
  | [] => true
  | x :: l' => negb (existsb (Nat.eqb x) l') && nodupb l'
  end.

Definition allocatedb (st : Store) (r : nat) : bool :=
  match store_nodes st !! r with Some _ => true | None => false end.

Definition allocatedSetb (st : Store) (s : nat) : bool :=
  match store_sets st !! s with Some _ => true | None => false end.

Definition goodb (st : Store) : bool :=
  forallb (fun e : nat * NFANode =>
             nodupb (JsMap.keys (out (snd e)))
             && forallb (allocatedb st) (JsMap.keys (out (snd e)))
             && forallb (fun o : nat * CharSet => negb (CharSet.isEmpty (snd o))) (out (snd e)))
          (map_to_list (store_nodes st)).

Definition ownedb (st : Store) (nodeList : NodeList) : bool :=
  forallb (fun e : nat * NFANode => node_list (snd e) =? nl_id nodeList)
          (map_to_list (store_nodes st)).

(** Every node with an edge to [r] is a key of the [in] map of [r]. *)
Definition mirrorb (st : Store) (r : nat) : bool :=
  forallb (fun e : nat * NFANode =>
             negb (JsMap.has (out (snd e)) r) || JsMap.has (inOf st r) (fst e))
          (map_to_list (store_nodes st)).

Definition wellFormedb (st : Store) (nodeList : NodeList) (base : SubList) : bool :=
  goodb st && mirrorb st (initial base) && ownedb st nodeList
  && allocatedb st (initial base) && allocatedSetb st (final base)
  && forallb (allocatedb st) (getSet st (final base)).

Lemma nodupb_sound l : nodupb l = true -> List.NoDup l.
Proof.
  induction l as [|x l IH]; simpl; [constructor|]. intros H.
  apply andb_true_iff in H as [Hx Hl]. constructor; [|auto].
  intros Hin. apply negb_true_iff in Hx.
  assert (existsb (Nat.eqb x) l = true); [|congruence].
  apply existsb_exists. exists x. split; [exact Hin|apply Nat.eqb_refl].
Qed.

Lemma allocatedb_sound st r : allocatedb st r = true -> allocated st r.
Proof. unfold allocatedb, allocated. destruct (store_nodes st !! r); [eauto|discriminate]. Qed.

Lemma allocatedSetb_sound st s : allocatedSetb st s = true -> allocatedSet st s.
Proof. unfold allocatedSetb, allocatedSet. destruct (store_sets st !! s); [eauto|discriminate]. Qed.

Lemma outOf_lookup st a :
  (exists n, store_nodes st !! a = Some n /\ outOf st a = out n) \/ outOf st a = [].
Proof.
  unfold outOf, getNode. destruct (store_nodes st !! a) as [n|]; simpl; eauto.
Qed.

Lemma goodb_sound st : goodb st = true -> good st.
Proof.
  unfold goodb. rewrite forallb_forall. intros H.
  assert (Hn : forall a n, store_nodes st !! a = Some n ->
                 nodupb (JsMap.keys (out n)) = true
                 /\ forallb (allocatedb st) (JsMap.keys (out n)) = true
                 /\ forallb (fun o : nat * CharSet => negb (CharSet.isEmpty (snd o))) (out n) = true).
  { intros a n Hn. specialize (H (a, n)). simpl in H.
    rewrite <- list_elem_of_In, elem_of_map_to_list in H. specialize (H Hn).
    apply andb_true_iff in H as [H H3]. apply andb_true_iff in H as [H1 H2]. auto. }
  split.
  - intros a. destruct (outOf_lookup st a) as [(n & Hl & E)|E]; rewrite E; [|constructor].
    apply nodupb_sound. apply (Hn a n Hl).
  - intros a b Hb. destruct (outOf_lookup st a) as [(n & Hl & E)|E]; rewrite E in Hb; [|destruct Hb].
    destruct (Hn a n Hl) as (_ & H2 & _). rewrite forallb_forall in H2.
    apply allocatedb_sound. apply H2. exact Hb.
  - intros a b S Hb. destruct (outOf_lookup st a) as [(n & Hl & E)|E]; rewrite E in Hb; [|destruct Hb].
    destruct (Hn a n Hl) as (_ & _ & H3). rewrite forallb_forall in H3.
    apply negb_true_iff. apply (H3 (b, S)). exact Hb.
Qed.

Lemma mirrorb_sound st r x : mirrorb st r = true -> succ st x r -> pred st r x.
Proof.
  unfold mirrorb. rewrite forallb_forall. intros H Hx.
  destruct (allocated_of_out _ _ _ Hx) as (n & Hn & Hout).
  specialize (H (x, n)). simpl in H.
  rewrite <- list_elem_of_In, elem_of_map_to_list in H. specialize (H Hn).
  apply orb_true_iff in H as [H|H].
  - apply negb_true_iff in H. apply JsMapFacts.map_has_true in Hx.
    rewrite <- Hout in Hx. congruence.
  - apply JsMapFacts.map_has_true. exact H.
Qed.

Lemma ownedb_sound st nodeList a :
  ownedb st nodeList = true -> allocated st a -> owner st a = nl_id nodeList.
Proof.
  unfold ownedb, allocated, owner, getNode. rewrite forallb_forall. intros H [n Hn].
  rewrite Hn. specialize (H (a, n)). simpl in H.
  rewrite <- list_elem_of_In, elem_of_map_to_list in H. apply Nat.eqb_eq. apply H. exact Hn.
Qed.

Lemma wellFormedb_sound st nodeList base :
  wellFormedb st nodeList base = true -> wellFormed st nodeList base.
Proof.
  unfold wellFormedb. intros H.
  apply andb_true_iff in H as [H H6]. apply andb_true_iff in H as [H H5].
  apply andb_true_iff in H as [H H4]. apply andb_true_iff in H as [H H3].
  apply andb_true_iff in H as [H1 H2].
  pose proof (goodb_sound _ H1) as G. pose proof (allocatedb_sound _ _ H4) as Hi.
  rewrite forallb_forall in H6. split.
  - exact G.
  - intros x. apply mirrorb_sound. exact H2.
  - exact Hi.
  - apply allocatedSetb_sound. exact H5.
  - intros f Hf. pose proof (allocatedb_sound _ _ (H6 f Hf)) as Ha.
    split; [exact Ha|]. apply ownedb_sound; assumption.
  - intros a Hr. apply ownedb_sound; [exact H3|]. eapply reach_allocated; eauto.
Qed.

(** The automaton of the words [ab] and the empty word. *)
Definition optionalAB : Result (NFA * Store) := fromWords [wordAB; []] options16 emptyStore.

Definition optionalABStore : Store :=
  Eval vm_compute in match optionalAB with Ok (_, st) => st | Err _ => emptyStore end.
Definition optionalABList : NodeList :=
  Eval vm_compute in
    match optionalAB with Ok (a, _) => nodes a | Err _ => mkNodeList 0 (mkSubList 0 0) end.

Lemma baseRepeat_power_witness :
  exists st',
    baseRepeat optionalABList optionalABList 3 optionalABStore = Ok (tt, st')
    /\ forall w, accepts st' optionalABList w
                 <-> power 3 (accepts optionalABStore optionalABList) w.
Proof.
  apply (baseRepeat_power optionalABList optionalABList 3 optionalABStore).
  - apply wellFormedb_sound. vm_compute. reflexivity.
  - vm_compute. reflexivity.
Defined.

(** ** The node list's iterator *)

Lemma iterLevel_spec st toVisit : forall visited yielded newVisit,
  exists news newVisit',
    iterLevel st toVisit visited yielded newVisit
    = (visited ++ news, yielded ++ news, newVisit')
    /\ (List.NoDup visited -> List.NoDup (visited ++ news))
    /\ (forall x, In x news -> In x toVisit)
    /\ (forall x, In x toVisit -> In x (visited ++ news))
    /\ (forall y, In y newVisit' <-> In y newVisit \/ exists x, In x news /\ succ st x y).
Proof.
  induction toVisit as [|node tl IH]; intros visited yielded newVisit; simpl.
  - exists [], newVisit. rewrite !app_nil_r. split; [reflexivity|].
    split; [auto|]. split; [intros x []|]. split; [intros x []|].
    intros y. split; [auto|]. intros [H|(x & [] & _)]. exact H.
  - destruct (JsSet.has visited node) eqn:E.
    + destruct (IH visited yielded newVisit) as (news & nv & Hrun & Hnd & Hsub & Hall & Hnv).
      exists news, nv. split; [exact Hrun|]. split; [exact Hnd|].
      split; [intros x Hx; right; auto|]. split; [|exact Hnv].
      apply JsSetFacts.set_has_true in E.
      intros x [<-|Hx]; [apply in_app_iff; auto|auto].
    + apply JsSetFacts.set_has_false in E.
      assert (Ea : JsSet.add visited node = visited ++ [node]).
      { unfold JsSet.add. apply JsSetFacts.set_has_false in E. rewrite E. reflexivity. }
      rewrite Ea.
      destruct (IH (visited ++ [node]) (yielded ++ [node])
                  (newVisit ++ JsMap.keys (outOf st node)))
        as (news & nv & Hrun & Hnd & Hsub & Hall & Hnv).
      exists (node :: news), nv.
      replace (visited ++ node :: news) with ((visited ++ [node]) ++ news)
        by (rewrite <- app_assoc; reflexivity).
      replace (yielded ++ node :: news) with ((yielded ++ [node]) ++ news)
        by (rewrite <- app_assoc; reflexivity).
      split; [exact Hrun|]. split; [|split; [|split]].
      * intros Hv. apply Hnd. apply List.NoDup_app; [exact Hv| |].
        -- constructor; [intros []|constructor].
        -- intros x Hx [<-|[]]. auto.
      * intros x [<-|Hx]; [left; reflexivity|right; auto].
      * intros x [<-|Hx]; [|auto]. apply in_app_iff. left. apply in_app_iff. simpl. auto.
      * intros y. rewrite Hnv, in_app_iff. unfold succ. split.
        -- intros [[H|H]|(x & Hx & H)]; [auto| |].
           ++ right. exists node. simpl. auto.
           ++ right. exists x. simpl. auto.
        -- intros [H|(x & [<-|Hx] & H)]; [auto|auto|]. right. exists x. auto.
Qed.

Lemma iterLoop_nil fuel st visited yielded : iterLoop fuel st [] visited yielded = Ok yielded.
Proof. destruct fuel; reflexivity. Qed.

Lemma iterLoop_cons fuel st t tl visited yielded :
  iterLoop (Datatypes.S fuel) st (t :: tl) visited yielded
  = let '(visited', yielded', newVisit) := iterLevel st (t :: tl) visited yielded [] in
    iterLoop fuel st newVisit visited' yielded'.
Proof. reflexivity. Qed.

(** The loop returns, with the nodes visited so far followed by the nodes it
    goes on to visit; the result is closed under the edges. *)
Lemma iterLoop_spec st (U : list nat) :
  (forall x y, In x U -> succ st x y -> In y U) ->
  forall fuel toVisit visited,
    List.NoDup visited -> incl visited U -> incl toVisit U ->
    length U < fuel + length visited ->
    (forall x y, In x visited -> succ st x y -> In y visited \/ In y toVisit) ->
    exists ext,
      iterLoop fuel st toVisit visited visited = Ok (visited ++ ext)
      /\ (forall x, In x toVisit -> In x (visited ++ ext))
      /\ (forall x y, In x (visited ++ ext) -> succ st x y -> In y (visited ++ ext))
      /\ incl (visited ++ ext) U.
Proof.
  intros HU. induction fuel as [|fuel IH]; intros toVisit visited Hnd Hv Ht Hlen Hcl.
  - exfalso. pose proof (NoDup_incl_length Hnd Hv). simpl in Hlen. lia.
  - destruct toVisit as [|t0 tl] eqn:Et.
    + exists []. rewrite app_nil_r. split; [reflexivity|]. split; [intros x []|].
      split; [|exact Hv]. intros x y Hx Hy. destruct (Hcl x y Hx Hy) as [H|[]]. exact H.
    + rewrite <- Et in *.
      destruct (iterLevel_spec st toVisit visited visited [])
        as (news & nv & Hrun & Hnd' & Hsub & Hall & Hnv).
      assert (Hstep : iterLoop (Datatypes.S fuel) st toVisit visited visited
                      = iterLoop fuel st nv (visited ++ news) (visited ++ news)).
      { rewrite Et at 1. rewrite iterLoop_cons, <- Et, Hrun. reflexivity. }
      rewrite Hstep.
      assert (Hv' : incl (visited ++ news) U).
      { intros x Hx. apply in_app_iff in Hx as [Hx|Hx]; [apply Hv; exact Hx|].
        apply Ht, Hsub, Hx. }
      assert (Hcl' : forall x y, In x (visited ++ news) -> succ st x y ->
                                 In y (visited ++ news) \/ In y nv).
      { intros x y Hx Hy. apply in_app_iff in Hx as [Hx|Hx].
        - destruct (Hcl x y Hx Hy) as [H|H]; [left; apply in_app_iff; auto|].
          left. apply Hall. exact H.
        - right. apply Hnv. right. exists x. auto. }
      destruct nv as [|n0 nv'] eqn:En.
      * exists news. rewrite iterLoop_nil. split; [reflexivity|]. split; [exact Hall|].
        split; [|exact Hv']. intros x y Hx Hy. destruct (Hcl' x y Hx Hy) as [H|[]]. exact H.
      * rewrite <- En in *.
        assert (Hne : news <> []).
        { intros ->. assert (Hin : In n0 nv) by (rewrite En; left; reflexivity).
          apply Hnv in Hin as [[]|(x & [] & _)]. }
        destruct (IH nv (visited ++ news)) as (ext & Hrun' & Hall' & Hcl'' & Hincl).
        -- apply Hnd'. exact Hnd.
        -- exact Hv'.
        -- intros y Hy. apply Hnv in Hy as [[]|(x & Hx & Hy)].
           eapply HU; [|exact Hy]. apply Ht, Hsub, Hx.
        -- rewrite length_app. destruct news; [congruence|]. simpl in *. lia.
        -- exact Hcl'.
        -- exists (news ++ ext). rewrite app_assoc. split; [exact Hrun'|].
           split; [|split; [exact Hcl''|exact Hincl]].
           intros x Hx. apply in_app_iff. left. apply Hall. exact Hx.
Qed.

(** [iterate] returns: the initial node first, and with every node its
    successors; the nodes come from any set [U] of nodes that holds the
    initial node and is closed under the edges. *)
Lemma iterate_spec (this : NodeList) st (U : list nat) :
  In (initial this) U ->
  (forall x y, In x U -> succ st x y -> In y U) ->
  length U <= size (store_nodes st) ->
  exists l,
    iterate this st = Ok (initial this :: l, st)
    /\ (forall x y, In x (initial this :: l) -> succ st x y -> In y (initial this :: l))
    /\ (forall x, In x (initial this :: l) -> In x U).
Proof.
  intros Hi Hcl Hlen. unfold iterate, graphFuel.
  set (i := initial this).
  assert (E : iterLoop (Datatypes.S (Datatypes.S (size (store_nodes st)))) st [i] [] []
              = iterLoop (Datatypes.S (size (store_nodes st))) st
                  (JsMap.keys (outOf st i)) [i] [i]) by reflexivity.
  rewrite E.
  destruct (iterLoop_spec st U Hcl) with
    (fuel := Datatypes.S (size (store_nodes st))) (toVisit := JsMap.keys (outOf st i))
    (visited := [i]) as (ext & Hrun & _ & Hclosed & Hincl).
  - constructor; [intros []|constructor].
  - intros x [<-|[]]. exact Hi.
  - intros y Hy. eapply Hcl; eauto.
  - simpl. lia.
  - intros x y [<-|[]] Hy. right. exact Hy.
  - exists ext. rewrite Hrun. split; [reflexivity|]. split; [exact Hclosed|].
    intros x Hx. apply Hincl. exact Hx.
Qed.

(** ** Index maps *)

Lemma get_zip_seq (l : list nat) x : forall s,
  JsMap.get (zip l (seq s (length l))) x
  = match list_find (fun y => y = x) l with
    | Some (i, _) => Some (s + i)
    | None => None
    end.
Proof.
  induction l as [|y l IH]; intros s; simpl; [reflexivity|].
  destruct (Nat.eqb_spec y x) as [->|Hne].
  - rewrite decide_True by reflexivity. simpl. f_equal. lia.
  - rewrite decide_False by exact Hne. rewrite IH.
    destruct (list_find (fun y0 => y0 = x) l) as [[i z]|]; simpl; [f_equal; lia|reflexivity].
Qed.

Lemma createIndexMap_Some l x i :
  JsMap.get (createIndexMap l) x = Some i -> l !! i = Some x /\ i < length l.
Proof.
  unfold createIndexMap. rewrite get_zip_seq.
  destruct (list_find (fun y => y = x) l) as [[j z]|] eqn:E; [|discriminate].
  intros [= <-]. apply list_find_Some in E as (H1 & -> & _). simpl.
  split; [exact H1|]. eapply lookup_lt_Some; eauto.
Qed.

Lemma createIndexMap_In l x :
  In x l -> exists i, JsMap.get (createIndexMap l) x = Some i.
Proof.
  intros H. unfold createIndexMap. rewrite get_zip_seq.
  destruct (list_find (fun y => y = x) l) as [[j z]|] eqn:E; [eauto|].
  exfalso. apply list_find_None in E. rewrite Forall_forall in E.
  apply (E x); [apply list_elem_of_In; exact H|reflexivity].
Qed.

Lemma createIndexMap_head x l : JsMap.get (createIndexMap (x :: l)) x = Some 0.
Proof. unfold createIndexMap. simpl. rewrite Nat.eqb_refl. reflexivity. Qed.

Lemma createIndexMap_size l : JsMap.size (createIndexMap l) = length l.
Proof.
  unfold createIndexMap, JsMap.size. rewrite length_zip_with, length_seq. lia.
Qed.

Lemma createIndexMap_inj l x y i :
  JsMap.get (createIndexMap l) x = Some i -> JsMap.get (createIndexMap l) y = Some i -> x = y.
Proof.
  intros Hx Hy. apply createIndexMap_Some in Hx as [Hx _], Hy as [Hy _]. congruence.
Qed.

Lemma pair_index_inj n i j i' j' :
  j < n -> j' < n -> i * n + j = i' * n + j' -> i = i' /\ j = j'.
Proof.
  intros Hj Hj' E.
  assert (Hi : (i * n + j) / n = i) by (rewrite Nat.div_add_l, Nat.div_small; lia).
  assert (Hi' : (i' * n + j') / n = i') by (rewrite Nat.div_add_l, Nat.div_small; lia).
  rewrite E, Hi' in Hi. subst i'. split; [reflexivity|lia].
Qed.

(** ** A node list's own part of the graph *)

Lemma NoDup_set_add (s : list nat) x : List.NoDup s -> List.NoDup (JsSet.add s x).
Proof.
  intros H. unfold JsSet.add. destruct (JsSet.has s x) eqn:E; [exact H|].
  apply JsSetFacts.set_has_false in E. apply List.NoDup_app; [exact H| |].
  - constructor; [intros []|constructor].
  - intros y Hy [<-|[]]. auto.
Qed.

Lemma NoDup_set_delete (s : list nat) x : List.NoDup s -> List.NoDup (JsSet.delete s x).
Proof. apply List.NoDup_filter. Qed.

Section Region.
Variable this : NodeList.

(** The nodes [N] of the node list [this]: they exist and belong to the
    list, no edge leaves or enters the part, the [in] maps mirror the [out]
    maps, a map has a key once, no label is empty, the initial and the
    final nodes are nodes of the part, and the set of final nodes has an
    element once. *)
Record region (st : Store) (N : nat -> Prop) : Prop := mkRegion {
  rg_alloc : forall x, N x -> allocated st x /\ owner st x = nl_id this;
  rg_out : forall x y, N x -> succ st x y -> N y;
  rg_into : forall x y, succ st x y -> N y -> N x;
  rg_mirror : forall x y, N y -> JsMap.get (inOf st y) x = JsMap.get (outOf st x) y;
  rg_nodup_out : forall x, N x -> List.NoDup (JsMap.keys (outOf st x));
  rg_nodup_in : forall x, N x -> List.NoDup (JsMap.keys (inOf st x));
  rg_labels : forall x y S, N x -> In (y, S) (outOf st x) -> CharSet.isEmpty S = false;
  rg_init : N (initial this);
  rg_finals : forall f, In f (getSet st (final this)) -> N f;
  rg_nodup_finals : List.NoDup (getSet st (final this))
}.

Lemma region_ext st (N N' : nat -> Prop) :
  (forall x, N x <-> N' x) -> region st N -> region st N'.
Proof.
  intros E [R1 R2 R3 R4 R5 R6 RL R7 R8 R9]. split.
  - intros x Hx. apply R1, E, Hx.
  - intros x y Hx Hy. apply E. eapply R2; [apply E|]; eauto.
  - intros x y Hx Hy. apply E. eapply R3; [|apply E]; eauto.
  - intros x y Hy. apply R4, E, Hy.
  - intros x Hx. apply R5, E, Hx.
  - intros x Hx. apply R6, E, Hx.
  - intros x y S Hx. apply RL, E, Hx.
  - apply E, R7.
  - intros f Hf. apply E, R8, Hf.
  - exact R9.
Qed.

Lemma region_pred st N x y : region st N -> N y -> pred st y x -> N x /\ succ st x y.
Proof.
  intros R Hy Hp. unfold pred in Hp. apply JsMapFacts.In_keys in Hp as [S HS].
  rewrite (rg_mirror _ _ R x y Hy) in HS.
  assert (Hs : succ st x y) by (apply JsMapFacts.In_keys; eauto).
  split; [|exact Hs]. eapply rg_into; eauto.
Qed.

Lemma region_succ_pred st N x y : region st N -> N y -> succ st x y <-> pred st y x.
Proof.
  intros R Hy. unfold succ, pred. rewrite !JsMapFacts.In_keys.
  rewrite (rg_mirror _ _ R x y Hy). reflexivity.
Qed.

Lemma region_linkNodes st st' N from to chars :
  linkNodes this from to chars st = Ok (tt, st') ->
  N from -> N to -> region st N -> region st' N.
Proof.
  intros H Hf Ht [R1 R2 R3 R4 R5 R6 RL R7 R8 R9].
  apply linkNodes_effect in H as (Hout & Hin & Hown & Hset & Hal & _ & Hlab).
  assert (Hs : forall x y, succ st' x y <-> succ st x y \/ (x = from /\ y = to)).
  { intros x y. unfold succ. rewrite Hout. destruct (decide (from = x)) as [<-|Hne].
    - rewrite keys_add. clear. intuition (subst; intuition).
    - clear -Hne. intuition congruence. }
  split.
  - intros x Hx. rewrite Hal, Hown. destruct (R1 x Hx). auto.
  - intros x y Hx Hy. apply Hs in Hy as [Hy|[_ ->]]; [eapply R2; eauto|exact Ht].
  - intros x y Hy Hn. apply Hs in Hy as [Hy|[-> _]]; [eapply R3; eauto|exact Hf].
  - intros x y Hy. rewrite Hin, Hout.
    destruct (decide (to = y)) as [<-|Hy']; destruct (decide (from = x)) as [<-|Hx'].
    + rewrite !get_add. rewrite (R4 from to Ht). reflexivity.
    + rewrite get_add_ne by exact Hx'. apply R4. exact Ht.
    + rewrite get_add_ne by exact Hy'. apply R4. exact Hy.
    + apply R4. exact Hy.
  - intros x Hx. rewrite Hout. destruct (decide (from = x)); [apply NoDup_keys_add|]; auto.
  - intros x Hx. rewrite Hin. destruct (decide (to = x)); [apply NoDup_keys_add|]; auto.
  - intros x y S Hx. rewrite Hout. destruct (decide (from = x)) as [<-|_]; [|apply RL, Hx].
    intros H. apply In_entries_add in H as [[_ ->]|H]; [|eapply RL; eauto].
    apply linked_nonempty. exact Hlab.
  - exact R7.
  - intros f. rewrite Hset. apply R8.
  - rewrite Hset. exact R9.
Qed.

Lemma region_unlinkNodes st st' N from to :
  unlinkNodes this from to st = Ok (tt, st') ->
  N from -> N to -> region st N -> region st' N.
Proof.
  intros H Hf Ht [R1 R2 R3 R4 R5 R6 RL R7 R8 R9].
  apply unlinkNodes_effect in H as (Hout & Hin & Hown & Hset & Hal & _).
  assert (Hs : forall x y, succ st' x y -> succ st x y).
  { intros x y. unfold succ. rewrite Hout. destruct (decide (from = x)) as [<-|Hne]; [|auto].
    rewrite In_keys_delete. tauto. }
  split.
  - intros x Hx. rewrite Hal, Hown. destruct (R1 x Hx). auto.
  - intros x y Hx Hy. eapply R2; eauto.
  - intros x y Hy Hn. eapply R3; eauto.
  - intros x y Hy. rewrite Hin, Hout.
    destruct (decide (to = y)) as [<-|Hy']; destruct (decide (from = x)) as [<-|Hx'].
    + rewrite !JsMapFacts.get_delete_eq. reflexivity.
    + rewrite JsMapFacts.get_delete_ne by exact Hx'. apply R4. exact Ht.
    + rewrite JsMapFacts.get_delete_ne by exact Hy'. apply R4. exact Hy.
    + apply R4. exact Hy.
  - intros x Hx. rewrite Hout. destruct (decide (from = x)); [apply NoDup_keys_delete|]; auto.
  - intros x Hx. rewrite Hin. destruct (decide (to = x)); [apply NoDup_keys_delete|]; auto.
  - intros x y S Hx. rewrite Hout. destruct (decide (from = x)) as [<-|_]; [|apply RL, Hx].
    intros H. apply In_entries_delete in H as [_ H]. eapply RL; eauto.
  - exact R7.
  - intros f. rewrite Hset. apply R8.
  - rewrite Hset. exact R9.
Qed.

(** A new node of the list joins the part. *)
Lemma region_createNode st st' N r :
  createNode (nl_id this) st = Ok (r, st') ->
  (forall x y, succ st x y -> allocated st y) ->
  region st N -> region st' (fun x => x = r \/ N x).
Proof.
  intros H Hcl [R1 R2 R3 R4 R5 R6 RL R7 R8 R9].
  destruct (createNode_spec (nl_id this) st)
    as (r' & st'' & Hrun & Hfresh & Hal & Hown & Hown' & Hout & Hin & Hset & _).
  rewrite Hrun in H. injection H as <- <-.
  assert (Hr_out : outOf st r' = []).
  { unfold outOf. rewrite unallocated_blank by exact Hfresh. reflexivity. }
  assert (Hr_in : inOf st r' = []).
  { unfold inOf. rewrite unallocated_blank by exact Hfresh. reflexivity. }
  assert (Hno : forall x, ~ succ st x r').
  { intros x Hx. apply Hfresh. eapply Hcl; eauto. }
  split.
  - intros x [->|Hx].
    + split; [apply Hal; auto|exact Hown].
    + destruct (R1 x Hx) as [Ha Ho]. split; [apply Hal; auto|].
      rewrite Hown'; [exact Ho|]. intros ->. contradiction.
  - intros x y Hx. unfold succ. rewrite Hout. intros Hy. destruct Hx as [->|Hx].
    + unfold succ in Hy. rewrite Hr_out in Hy. destruct Hy.
    + right. eapply R2; eauto.
  - intros x y. unfold succ. rewrite Hout. intros Hy [->|Hn].
    + exfalso. eapply Hno; eauto.
    + right. eapply R3; eauto.
  - intros x y Hy. rewrite Hin, Hout. destruct Hy as [->|Hy]; [|apply R4; exact Hy].
    rewrite Hr_in. simpl. symmetry. apply get_None_keys. apply Hno.
  - intros x Hx. rewrite Hout. destruct Hx as [->|Hx]; [rewrite Hr_out; constructor|auto].
  - intros x Hx. rewrite Hin. destruct Hx as [->|Hx]; [rewrite Hr_in; constructor|auto].
  - intros x y S Hx. rewrite Hout. destruct Hx as [->|Hx]; [rewrite Hr_out; intros []|].
    apply RL, Hx.
  - right. exact R7.
  - intros f. rewrite Hset. intros Hf. right. auto.
  - rewrite Hset. exact R9.
Qed.

(** Writing a set of the store. *)
Lemma region_putSet st N s l :
  (s = final this -> List.NoDup l /\ forall f, In f l -> N f) ->
  region st N -> region (putSet st s l) N.
Proof.
  intros Hl [R1 R2 R3 R4 R5 R6 RL R7 R8 R9]. split; try assumption.
  - intros f. rewrite getSet_putSet. destruct (decide (s = final this)) as [E|_]; [|apply R8].
    apply Hl. exact E.
  - rewrite getSet_putSet. destruct (decide (s = final this)) as [E|_]; [|exact R9].
    apply Hl. exact E.
Qed.
End Region.

(** ** The product construction of [intersect] *)

(** The key under which [translate] caches the node of a pair. *)
Definition pairKey (thisIndexMap otherIndexMap : list (nat * nat)) (a b : nat) : option nat :=
  match JsMap.get thisIndexMap a, JsMap.get otherIndexMap b with
  | Some i, Some j => Some (i * JsMap.size otherIndexMap + j)
  | _, _ => None
  end.

Lemma translatePair_key nodeList thisIndexMap otherIndexMap a b :
  translatePair nodeList thisIndexMap otherIndexMap a b
  = match pairKey thisIndexMap otherIndexMap a b with
    | Some k => cachedFunc (createNode (nl_id nodeList)) k
    | None => throw NotIndexed
    end.
Proof.
  unfold translatePair, pairKey.
  destruct (JsMap.get thisIndexMap a), (JsMap.get otherIndexMap b); reflexivity.
Qed.

(** A cache that has grown. *)
Definition extends (cache cache' : list (nat * nat)) : Prop :=
  forall k v, JsMap.get cache k = Some v -> JsMap.get cache' k = Some v.

Lemma extends_refl cache : extends cache cache.
Proof. intros k v H. exact H. Qed.

Lemma extends_trans c1 c2 c3 : extends c1 c2 -> extends c2 c3 -> extends c1 c3.
Proof. intros H1 H2 k v H. apply H2, H1, H. Qed.

Lemma step_linkNodes this from to chars st st' :
  linkNodes this from to chars st = Ok (tt, st') ->
  forall x c y, step st' x c y <->
                step st x c y \/ (x = from /\ y = to /\ CharSet.has chars c = true).
Proof.
  intros H x c y. apply linkNodes_effect in H as (Hout & _).
  rewrite !step_hasStep, Hout. destruct (decide (from = x)) as [<-|Hne].
  - rewrite hasStep_add. clear. intuition (subst; intuition).
  - clear -Hne. intuition congruence.
Qed.

Section Product.
Variables (nodeList : NodeList) (st0 : Store) (lA lB : list nat) (old : nat -> Prop).
Hypothesis old_closed : forall x y, old x -> succ st0 x y -> old y.
Hypothesis old_alloc : forall x, old x -> allocated st0 x.

Definition keyOf (a b : nat) : option nat :=
  pairKey (createIndexMap lA) (createIndexMap lB) a b.

(** The node of the pair [(a, b)], once [translate] has made it. *)
Definition pairNode (cache : list (nat * nat)) (a b : nat) : option nat :=
  match keyOf a b with
  | Some k => JsMap.get cache k
  | None => None
  end.

Lemma keyOf_inj a b a' b' k :
  keyOf a b = Some k -> keyOf a' b' = Some k -> a = a' /\ b = b'.
Proof.
  unfold keyOf, pairKey. rewrite createIndexMap_size.
  destruct (JsMap.get (createIndexMap lA) a) as [i|] eqn:Ea; [|discriminate].
  destruct (JsMap.get (createIndexMap lB) b) as [j|] eqn:Eb; [|discriminate].
  destruct (JsMap.get (createIndexMap lA) a') as [i'|] eqn:Ea'; [|discriminate].
  destruct (JsMap.get (createIndexMap lB) b') as [j'|] eqn:Eb'; [|discriminate].
  intros [= <-] [= E].
  destruct (createIndexMap_Some _ _ _ Eb) as [_ Hj].
  destruct (createIndexMap_Some _ _ _ Eb') as [_ Hj'].
  destruct (pair_index_inj (length lB) i' j' i j Hj' Hj E) as [-> ->].
  split; eapply createIndexMap_inj; eauto.
Qed.

Lemma keyOf_In a b : In a lA -> In b lB -> exists k, keyOf a b = Some k.
Proof.
  intros Ha Hb. unfold keyOf, pairKey.
  destruct (createIndexMap_In _ _ Ha) as [i ->].
  destruct (createIndexMap_In _ _ Hb) as [j ->]. eauto.
Qed.

Lemma keyOf_Some a b k : keyOf a b = Some k -> In a lA /\ In b lB.
Proof.
  unfold keyOf, pairKey.
  destruct (JsMap.get (createIndexMap lA) a) as [i|] eqn:Ea; [|discriminate].
  destruct (JsMap.get (createIndexMap lB) b) as [j|] eqn:Eb; [|discriminate].
  intros _. apply createIndexMap_Some in Ea as [Ea _], Eb as [Eb _].
  split; eapply list_elem_of_In, list_elem_of_lookup_2; eauto.
Qed.

Lemma pairNode_extends cache cache' a b p :
  extends cache cache' -> pairNode cache a b = Some p -> pairNode cache' a b = Some p.
Proof. unfold pairNode. intros E. destruct (keyOf a b); [apply E|discriminate]. Qed.

Lemma pairNode_In cache a b p : pairNode cache a b = Some p -> In a lA /\ In b lB.
Proof.
  unfold pairNode. destruct (keyOf a b) eqn:E; [|discriminate]. intros _.
  eapply keyOf_Some; eauto.
Qed.

(** The state of the construction: [F] tells for which pairs of final nodes
    the final node of the product has been added, [D] for which pairs of
    edges the edge of the product has been handled. *)
Record prod (F : nat -> nat -> Prop)
    (D : nat -> nat -> nat * CharSet -> nat * CharSet -> Prop)
    (s : Store * list (nat * nat)) : Prop := mkProd {
  pr_closed : forall x y, succ (fst s) x y -> allocated (fst s) y;
  pr_frame : forall x, old x -> outOf (fst s) x = outOf st0 x;
  pr_alloc : forall x, allocated st0 x -> allocated (fst s) x;
  pr_sets : forall t, t <> final nodeList -> getSet (fst s) t = getSet st0 t;
  pr_region : region nodeList (fst s) (fun x => allocated (fst s) x /\ ~ old x);
  pr_cache_new : forall k v, JsMap.get (snd s) k = Some v -> allocated (fst s) v /\ ~ old v;
  pr_cache_inj : forall k k' v,
      JsMap.get (snd s) k = Some v -> JsMap.get (snd s) k' = Some v -> k = k';
  pr_cache_init : JsMap.get (snd s) 0 = Some (initial nodeList);
  pr_sound : forall p c q, ~ old p -> step (fst s) p c q ->
      exists a b a' b',
        pairNode (snd s) a b = Some p /\ pairNode (snd s) a' b' = Some q
        /\ step st0 a c a' /\ step st0 b c b';
  pr_complete : forall a b e1 e2 c,
      D a b e1 e2 -> In e1 (outOf st0 a) -> In e2 (outOf st0 b) ->
      CharSet.has (snd e1) c = true -> CharSet.has (snd e2) c = true ->
      exists p q,
        pairNode (snd s) a b = Some p /\ pairNode (snd s) (fst e1) (fst e2) = Some q
        /\ step (fst s) p c q;
  pr_finals_done : forall fa fb, F fa fb ->
      exists f, pairNode (snd s) fa fb = Some f /\ In f (getSet (fst s) (final nodeList));
  pr_finals_only : forall f, In f (getSet (fst s) (final nodeList)) ->
      exists fa fb, F fa fb /\ pairNode (snd s) fa fb = Some f
}.

Lemma prod_ext (F F' : nat -> nat -> Prop)
    (D D' : nat -> nat -> nat * CharSet -> nat * CharSet -> Prop) s :
  (forall fa fb, F fa fb <-> F' fa fb) ->
  (forall a b e1 e2, In e1 (outOf st0 a) -> In e2 (outOf st0 b) ->
                     D' a b e1 e2 -> D a b e1 e2) ->
  prod F D s -> prod F' D' s.
Proof.
  intros HF HD [P1 P2 P3 P4 P5 P6 P7 P8 P9 P10 P11 P12]. split; try assumption.
  - intros a b e1 e2 c Hd H1 H2. apply P10; auto.
  - intros fa fb Hf. apply P11, HF, Hf.
  - intros f Hf. destruct (P12 f Hf) as (fa & fb & H & E). exists fa, fb. split; [apply HF, H|exact E].
Qed.

(** [translate]: the node of a pair, made when the pair is met first. *)
Lemma prod_translate F D s a b :
  prod F D s -> In a lA -> In b lB ->
  exists p s',
    translatePair nodeList (createIndexMap lA) (createIndexMap lB) a b s = Ok (p, s')
    /\ prod F D s'
    /\ pairNode (snd s') a b = Some p
    /\ extends (snd s) (snd s').
Proof.
  intros P Ha Hb. destruct (keyOf_In a b Ha Hb) as [k Hk].
  rewrite translatePair_key. fold (keyOf a b). rewrite Hk.
  destruct s as [st cache]. unfold cachedFunc. cbn [fst snd].
  destruct (JsMap.get cache k) as [v|] eqn:Ec.
  - exists v, (st, cache). split; [reflexivity|]. split; [exact P|].
    split; [|apply extends_refl]. unfold pairNode. rewrite Hk. exact Ec.
  - destruct (createNode_spec (nl_id nodeList) st)
      as (r & st' & Hrun & Hfresh & Hal & Hown & Hown' & Hout & Hin & Hset & _).
    rewrite Hrun. exists r, (st', JsMap.set cache k r).
    assert (Hext : extends cache (JsMap.set cache k r)).
    { intros k' v Hv. rewrite JsMapFacts.get_set_ne; [exact Hv|]. intros <-. congruence. }
    split; [reflexivity|]. split; [|split; [|exact Hext]].
    2:{ unfold pairNode. rewrite Hk. simpl. apply JsMapFacts.get_set_eq. }
    destruct P as [P1 P2 P3 P4 P5 P6 P7 P8 P9 P10 P11 P12]. simpl in *.
    assert (Hr : ~ old r).
    { intros Ho. apply Hfresh, P3, old_alloc, Ho. }
    split; simpl.
    + intros x y. unfold succ. rewrite Hout. intros H. apply Hal. right. eapply P1; exact H.
    + intros x Hx. rewrite Hout. apply P2, Hx.
    + intros x Hx. apply Hal. right. apply P3, Hx.
    + intros t Ht. rewrite Hset. apply P4, Ht.
    + apply (region_createNode nodeList st st' _ r Hrun P1) in P5.
      eapply region_ext; [|exact P5]. intros x. simpl. rewrite Hal.
      clear -Hr. intuition (subst; intuition).
    + intros k' v. destruct (decide (k = k')) as [<-|Hne].
      * rewrite JsMapFacts.get_set_eq. intros [= <-]. split; [apply Hal; auto|exact Hr].
      * rewrite JsMapFacts.get_set_ne by exact Hne. intros Hv.
        destruct (P6 k' v Hv). split; [apply Hal; auto|assumption].
    + intros k1 k2 v.
      destruct (decide (k = k1)) as [<-|Hne1]; destruct (decide (k = k2)) as [<-|Hne2];
        rewrite ?JsMapFacts.get_set_eq, ?JsMapFacts.get_set_ne by assumption.
      * reflexivity.
      * intros [= <-] Hv. exfalso. apply Hfresh. apply (P6 k2 r Hv).
      * intros Hv [= <-]. exfalso. apply Hfresh. apply (P6 k1 r Hv).
      * apply P7.
    + apply Hext. exact P8.
    + intros p c q Hp. unfold step. rewrite Hout. intros Hs.
      destruct (P9 p c q Hp Hs) as (a1 & b1 & a2 & b2 & H1 & H2 & H3 & H4).
      exists a1, b1, a2, b2. split; [eapply pairNode_extends; eauto|].
      split; [eapply pairNode_extends; eauto|]. auto.
    + intros a1 b1 e1 e2 c Hd H1 H2 H3 H4.
      destruct (P10 a1 b1 e1 e2 c Hd H1 H2 H3 H4) as (p & q & Hp & Hq & Hs).
      exists p, q. split; [eapply pairNode_extends; eauto|].
      split; [eapply pairNode_extends; eauto|].
      unfold step. rewrite Hout. exact Hs.
    + intros fa fb Hf. destruct (P11 fa fb Hf) as (f & Hp & Hfin).
      exists f. split; [eapply pairNode_extends; eauto|]. rewrite Hset. exact Hfin.
    + intros f. rewrite Hset. intros Hf. destruct (P12 f Hf) as (fa & fb & H & Hp).
      exists fa, fb. split; [exact H|]. eapply pairNode_extends; eauto.
Qed.

(** An edge of the product. *)
Lemma prod_link F D s a b p e1 e2 q :
  prod F D s ->
  pairNode (snd s) a b = Some p -> pairNode (snd s) (fst e1) (fst e2) = Some q ->
  In e1 (outOf st0 a) -> In e2 (outOf st0 b) ->
  CharSet.isEmpty (CharSet.intersect (snd e1) (snd e2)) = false ->
  exists st',
    linkNodes nodeList p q (CharSet.intersect (snd e1) (snd e2)) (fst s) = Ok (tt, st')
    /\ prod F (fun a0 b0 e1' e2' =>
                 D a0 b0 e1' e2' \/ (a0 = a /\ b0 = b /\ e1' = e1 /\ e2' = e2))
            (st', snd s).
Proof.
  intros P Hp Hq H1 H2 Hne.
  pose proof P as [P1 P2 P3 P4 P5 P6 P7 P8 P9 P10 P11 P12].
  destruct s as [st cache]. simpl in *.
  assert (Np : allocated st p /\ ~ old p).
  { unfold pairNode in Hp. destruct (keyOf a b); [|discriminate]. eapply P6; eauto. }
  assert (Nq : allocated st q /\ ~ old q).
  { unfold pairNode in Hq. destruct (keyOf (fst e1) (fst e2)); [|discriminate]. eapply P6; eauto. }
  destruct (linkNodes_succeeds nodeList p q (CharSet.intersect (snd e1) (snd e2)) st)
    as (st' & Hrun); [apply (rg_alloc _ _ _ P5 p Np)|apply (rg_alloc _ _ _ P5 q Nq)|exact Hne|].
  exists st'. split; [exact Hrun|].
  pose proof (step_linkNodes _ _ _ _ _ _ Hrun) as Hstep.
  pose proof (region_linkNodes nodeList st st' _ p q _ Hrun Np Nq P5) as R'.
  apply linkNodes_effect in Hrun as (Hout & Hin & Hown & Hset & Hal & _ & _).
  assert (Hal' : forall x, allocated st' x <-> allocated st x).
  { intros x. rewrite Hal. destruct Np, Nq. clear -H H3. intuition (subst; intuition). }
  split; simpl.
  - intros x y. unfold succ. rewrite Hout, Hal'. destruct (decide (p = x)) as [<-|_].
    + rewrite keys_add. intros [->|H]; [apply Nq|eapply P1; exact H].
    + apply P1.
  - intros x Hx. rewrite Hout. rewrite decide_False; [apply P2, Hx|].
    intros <-. apply Np. exact Hx.
  - intros x Hx. apply Hal'. apply P3, Hx.
  - intros t Ht. rewrite Hset. apply P4, Ht.
  - eapply region_ext; [|exact R']. intros x. simpl. rewrite Hal'. reflexivity.
  - intros k v Hv. rewrite Hal'. eapply P6; eauto.
  - exact P7.
  - exact P8.
  - intros p0 c q0 Hp0 Hs. apply Hstep in Hs as [Hs|(-> & -> & Hc)]; [apply P9; assumption|].
    rewrite CharSetFacts.has_intersect in Hc. apply andb_true_iff in Hc as [Hc1 Hc2].
    exists a, b, (fst e1), (fst e2). split; [exact Hp|]. split; [exact Hq|].
    split; [exists (snd e1)|exists (snd e2)]; (split; [|assumption]).
    + rewrite <- surjective_pairing. exact H1.
    + rewrite <- surjective_pairing. exact H2.
  - intros a1 b1 e1' e2' c [Hd|(-> & -> & -> & ->)] I1 I2 C1 C2.
    + destruct (P10 a1 b1 e1' e2' c Hd I1 I2 C1 C2) as (p1 & q1 & Hp1 & Hq1 & Hs).
      exists p1, q1. split; [exact Hp1|]. split; [exact Hq1|]. apply Hstep. auto.
    + exists p, q. split; [exact Hp|]. split; [exact Hq|]. apply Hstep. right.
      rewrite CharSetFacts.has_intersect, C1, C2. auto.
  - intros fa fb Hf. rewrite Hset. apply P11, Hf.
  - intros f. rewrite Hset. apply P12.
Qed.

(** A pair of edges without a common character. *)
Lemma prod_skip F D s a b e1 e2 :
  prod F D s ->
  CharSet.isEmpty (CharSet.intersect (snd e1) (snd e2)) = true ->
  prod F (fun a0 b0 e1' e2' =>
            D a0 b0 e1' e2' \/ (a0 = a /\ b0 = b /\ e1' = e1 /\ e2' = e2)) s.
Proof.
  intros [P1 P2 P3 P4 P5 P6 P7 P8 P9 P10 P11 P12] He. split; try assumption.
  intros a1 b1 e1' e2' c [Hd|(-> & -> & -> & ->)] I1 I2 C1 C2; [apply P10; assumption|].
  exfalso. pose proof (CharSetFacts.isEmpty_has _ c He) as H.
  rewrite CharSetFacts.has_intersect, C1, C2 in H. discriminate.
Qed.

(** A final node of the product. *)
Lemma prod_final F D s fa fb f :
  prod F D s -> pairNode (snd s) fa fb = Some f ->
  prod (fun fa' fb' => F fa' fb' \/ (fa' = fa /\ fb' = fb)) D
       (putSet (fst s) (final nodeList) (JsSet.add (getSet (fst s) (final nodeList)) f), snd s).
Proof.
  intros [P1 P2 P3 P4 P5 P6 P7 P8 P9 P10 P11 P12] Hf. destruct s as [st cache]. simpl in *.
  assert (Nf : allocated st f /\ ~ old f).
  { unfold pairNode in Hf. destruct (keyOf fa fb); [|discriminate]. eapply P6; eauto. }
  split; simpl; try assumption.
  - intros t Ht. rewrite getSet_putSet, decide_False by congruence. apply P4, Ht.
  - apply region_putSet; [|exact P5]. intros _.
    split; [apply NoDup_set_add, (rg_nodup_finals _ _ _ P5)|]. intros g Hg.
    apply JsSetFacts.In_add in Hg as [->|Hg]; [exact Nf|]. apply (rg_finals _ _ _ P5 g Hg).
  - intros fa' fb' [H|[-> ->]]; rewrite getSet_putSet, decide_True by reflexivity.
    + destruct (P11 fa' fb' H) as (g & Hg & Hin). exists g. split; [exact Hg|].
      apply JsSetFacts.In_add. auto.
    + exists f. split; [exact Hf|]. apply JsSetFacts.In_add. auto.
  - intros g. rewrite getSet_putSet, decide_True by reflexivity. intros Hg.
    apply JsSetFacts.In_add in Hg as [->|Hg].
    + exists fa, fb. auto.
    + destruct (P12 g Hg) as (fa' & fb' & H & E). exists fa', fb'. auto.
Qed.
(** *** The loops *)

Hypothesis lA_old : forall a, In a lA -> old a.
Hypothesis lB_old : forall b, In b lB -> old b.
Hypothesis lA_closed : forall a a', In a lA -> succ st0 a a' -> In a' lA.
Hypothesis lB_closed : forall b b', In b lB -> succ st0 b b' -> In b' lB.

Local Abbreviation translate := (translatePair nodeList (createIndexMap lA) (createIndexMap lB)).

Lemma In_entry_succ st a (e : nat * CharSet) : In e (outOf st a) -> succ st a (fst e).
Proof. intros H. unfold succ, JsMap.keys. apply in_map. exact H. Qed.

(** The innermost loop: the edges of [otherNode]. *)
Lemma edges_inner F D a b p e1 s :
  prod F D s -> In a lA -> In b lB -> In e1 (outOf st0 a) ->
  pairNode (snd s) a b = Some p ->
  exists s',
    forEach (outOf st0 b) (fun e2 =>
      let transition := CharSet.intersect (snd e1) (snd e2) in
      if CharSet.isEmpty transition then ret tt
      else
        to' <- translate (fst e1) (fst e2) ;;
        onStore (linkNodes nodeList p to' transition)) s = Ok (tt, s')
    /\ prod F (fun a0 b0 e1' e2' => D a0 b0 e1' e2' \/ (a0 = a /\ b0 = b /\ e1' = e1)) s'
    /\ pairNode (snd s') a b = Some p
    /\ extends (snd s) (snd s').
Proof.
  intros P Ha Hb He1 Hp.
  destruct (forEach_total
    (fun pre s' =>
       prod F (fun a0 b0 e1' e2' =>
                 D a0 b0 e1' e2' \/ (a0 = a /\ b0 = b /\ e1' = e1 /\ In e2' pre)) s'
       /\ pairNode (snd s') a b = Some p
       /\ extends (snd s) (snd s'))
    (outOf st0 b)
    (fun e2 =>
      let transition := CharSet.intersect (snd e1) (snd e2) in
      if CharSet.isEmpty transition then ret tt
      else
        to' <- translate (fst e1) (fst e2) ;;
        onStore (linkNodes nodeList p to' transition)) s) as (s' & Hrun & P' & Hp' & Hext).
  - split; [|split; [exact Hp|apply extends_refl]].
    eapply prod_ext; [| |exact P]; [reflexivity|].
    intros a0 b0 e1' e2' _ _ [H|(_ & _ & _ & [])]. exact H.
  - intros pre e2 post s1 El (P1 & Hp1 & Hext1).
    assert (He2 : In e2 (outOf st0 b)) by (rewrite El; apply in_app_iff; simpl; auto).
    cbv zeta. destruct (CharSet.isEmpty (CharSet.intersect (snd e1) (snd e2))) eqn:Ee.
    + exists s1. split; [reflexivity|]. split; [|split; assumption].
      apply (prod_skip _ _ _ a b e1 e2) in P1; [|exact Ee].
      eapply prod_ext; [| |exact P1]; [reflexivity|].
      intros a0 b0 e1' e2' _ _ [H|(-> & -> & -> & H)]; [auto|].
      apply in_app_iff in H as [H|[<-|[]]]; [left; right; auto|right; auto].
    + destruct (prod_translate F _ s1 (fst e1) (fst e2) P1) as (q & s2 & Htr & P2 & Hq & Hext2).
      { eapply lA_closed; [exact Ha|]. apply In_entry_succ. exact He1. }
      { eapply lB_closed; [exact Hb|]. apply In_entry_succ. exact He2. }
      assert (Hp2 : pairNode (snd s2) a b = Some p) by (eapply pairNode_extends; eauto).
      destruct (prod_link _ _ s2 a b p e1 e2 q P2 Hp2 Hq He1 He2 Ee) as (st3 & Hlk & P3).
      exists (st3, snd s2). split.
      { unfold bind. rewrite Htr. unfold onStore. rewrite Hlk. reflexivity. }
      split; [|split; [exact Hp2|eapply extends_trans; eauto]].
      eapply prod_ext; [| |exact P3]; [reflexivity|].
      intros a0 b0 e1' e2' _ _ [H|(-> & -> & -> & H)]; [auto|].
      apply in_app_iff in H as [H|[<-|[]]]; [left; right; auto|right; auto].
  - exists s'. split; [exact Hrun|]. split; [|split; assumption].
    eapply prod_ext; [| |exact P']; [reflexivity|].
    intros a0 b0 e1' e2' _ H2 [H|(-> & -> & ->)]; [auto|]. right. auto.
Qed.

(** The loop over the edges of [thisNode]. *)
Lemma edges_from F D a b p s :
  prod F D s -> In a lA -> In b lB ->
  pairNode (snd s) a b = Some p ->
  exists s',
    forEach (outOf st0 a) (fun e1 =>
      otherOut <- onStore (gets (fun st => outOf st b)) ;;
      forEach otherOut (fun e2 =>
        let transition := CharSet.intersect (snd e1) (snd e2) in
        if CharSet.isEmpty transition then ret tt
        else
          to' <- translate (fst e1) (fst e2) ;;
          onStore (linkNodes nodeList p to' transition))) s = Ok (tt, s')
    /\ prod F (fun a0 b0 e1' e2' => D a0 b0 e1' e2' \/ (a0 = a /\ b0 = b)) s'
    /\ extends (snd s) (snd s').
Proof.
  intros P Ha Hb Hp.
  destruct (forEach_total
    (fun pre s' =>
       prod F (fun a0 b0 e1' e2' =>
                 D a0 b0 e1' e2' \/ (a0 = a /\ b0 = b /\ In e1' pre)) s'
       /\ pairNode (snd s') a b = Some p
       /\ extends (snd s) (snd s'))
    (outOf st0 a)
    (fun e1 =>
      otherOut <- onStore (gets (fun st => outOf st b)) ;;
      forEach otherOut (fun e2 =>
        let transition := CharSet.intersect (snd e1) (snd e2) in
        if CharSet.isEmpty transition then ret tt
        else
          to' <- translate (fst e1) (fst e2) ;;
          onStore (linkNodes nodeList p to' transition))) s) as (s' & Hrun & P' & Hp' & Hext).
  - split; [|split; [exact Hp|apply extends_refl]].
    eapply prod_ext; [| |exact P]; [reflexivity|].
    intros a0 b0 e1' e2' _ _ [H|(_ & _ & [])]. exact H.
  - intros pre e1 post s1 El (P1 & Hp1 & Hext1).
    assert (He1 : In e1 (outOf st0 a)) by (rewrite El; apply in_app_iff; simpl; auto).
    destruct (edges_inner F _ a b p e1 s1 P1 Ha Hb He1 Hp1) as (s2 & Hrun2 & P2 & Hp2 & Hext2).
    exists s2. split.
    { unfold bind, onStore, gets. cbn [fst snd].
      rewrite (pr_frame _ _ _ P1 b (lB_old b Hb)), <- surjective_pairing. exact Hrun2. }
    split; [|split; [exact Hp2|eapply extends_trans; eauto]].
    eapply prod_ext; [| |exact P2]; [reflexivity|].
    intros a0 b0 e1' e2' _ _ [H|(-> & -> & H)]; [auto|].
    apply in_app_iff in H as [H|[<-|[]]]; [left; right; auto|right; auto].
  - exists s'. split; [exact Hrun|]. split; [|exact Hext].
    eapply prod_ext; [| |exact P']; [reflexivity|].
    intros a0 b0 e1' e2' H1 _ [H|(-> & ->)]; [auto|]. right. auto.
Qed.

(** The edges of the product: the loops over the nodes of both automata. *)
Lemma add_edges F s :
  prod F (fun _ _ _ _ => False) s ->
  exists s',
    forEach lA (fun thisNode =>
      forEach lB (fun otherNode =>
        from <- translate thisNode otherNode ;;
        thisOut <- onStore (gets (fun st => outOf st thisNode)) ;;
        forEach thisOut (fun e1 =>
          otherOut <- onStore (gets (fun st => outOf st otherNode)) ;;
          forEach otherOut (fun e2 =>
            let transition := CharSet.intersect (snd e1) (snd e2) in
            if CharSet.isEmpty transition then ret tt
            else
              to' <- translate (fst e1) (fst e2) ;;
              onStore (linkNodes nodeList from to' transition))))) s = Ok (tt, s')
    /\ prod F (fun a b _ _ => In a lA /\ In b lB) s'
    /\ extends (snd s) (snd s').
Proof.
  intros P.
  apply (forEach_total
    (fun preA s' => prod F (fun a0 b0 _ _ => In a0 preA /\ In b0 lB) s'
                    /\ extends (snd s) (snd s'))).
  - split; [|apply extends_refl]. eapply prod_ext; [| |exact P]; [reflexivity|].
    intros a0 b0 e1 e2 _ _ [[] _].
  - intros preA a postA s1 ElA (P1 & Hext1).
    assert (Ha : In a lA) by (rewrite ElA; apply in_app_iff; simpl; auto).
    destruct (forEach_total
      (fun preB s' =>
         prod F (fun a0 b0 _ _ => (In a0 preA /\ In b0 lB) \/ (a0 = a /\ In b0 preB)) s'
         /\ extends (snd s) (snd s'))
      lB
      (fun otherNode =>
        from <- translate a otherNode ;;
        thisOut <- onStore (gets (fun st => outOf st a)) ;;
        forEach thisOut (fun e1 =>
          otherOut <- onStore (gets (fun st => outOf st otherNode)) ;;
          forEach otherOut (fun e2 =>
            let transition := CharSet.intersect (snd e1) (snd e2) in
            if CharSet.isEmpty transition then ret tt
            else
              to' <- translate (fst e1) (fst e2) ;;
              onStore (linkNodes nodeList from to' transition)))) s1)
      as (s2 & Hrun & P2 & Hext2).
    + split; [|exact Hext1]. eapply prod_ext; [| |exact P1]; [reflexivity|].
      intros a0 b0 e1 e2 _ _ [H|(_ & [])]. exact H.
    + intros preB b postB s2 ElB (P2 & Hext2).
      assert (Hb : In b lB) by (rewrite ElB; apply in_app_iff; simpl; auto).
      destruct (prod_translate F _ s2 a b P2 Ha Hb) as (p & s3 & Htr & P3 & Hp & Hext3).
      destruct (edges_from F _ a b p s3 P3 Ha Hb Hp) as (s4 & Hrun4 & P4 & Hext4).
      exists s4. split.
      { unfold bind at 1. rewrite Htr. unfold bind at 1, onStore at 1, gets. cbn [fst snd].
        rewrite (pr_frame _ _ _ P3 a (lA_old a Ha)), <- surjective_pairing. exact Hrun4. }
      split; [|eapply extends_trans; [exact Hext2|eapply extends_trans; eauto]].
      eapply prod_ext; [| |exact P4]; [reflexivity|].
      intros a0 b0 e1' e2' _ _ [H|(-> & H)]; [auto|].
      apply in_app_iff in H as [H|[<-|[]]]; [left; right; auto|right; auto].
    + exists s2. split; [exact Hrun|]. split; [|exact Hext2].
      eapply prod_ext; [| |exact P2]; [reflexivity|].
      intros a0 b0 e1' e2' _ _ [H Hb0]. apply in_app_iff in H as [H|[<-|[]]]; auto.
Qed.

(** The final nodes of the product. *)
Lemma add_finals D leftFinals rightFinals s :
  (forall f, In f leftFinals -> In f lA) ->
  (forall f, In f rightFinals -> In f lB) ->
  prod (fun _ _ => False) D s ->
  exists s',
    forEach leftFinals (fun thisFinal =>
      forEach rightFinals (fun otherFinal =>
        t <- translate thisFinal otherFinal ;;
        onStore (setAdd (final nodeList) t))) s = Ok (tt, s')
    /\ prod (fun fa fb => In fa leftFinals /\ In fb rightFinals) D s'
    /\ extends (snd s) (snd s').
Proof.
  intros HA HB P.
  apply (forEach_total
    (fun preA s' => prod (fun fa fb => In fa preA /\ In fb rightFinals) D s'
                    /\ extends (snd s) (snd s'))).
  - split; [|apply extends_refl]. eapply prod_ext; [| |exact P]; [|auto].
    intros fa fb. simpl. tauto.
  - intros preA fa postA s1 ElA (P1 & Hext1).
    assert (Ha : In fa leftFinals) by (rewrite ElA; apply in_app_iff; simpl; auto).
    destruct (forEach_total
      (fun preB s' =>
         prod (fun fa' fb' => (In fa' preA /\ In fb' rightFinals) \/ (fa' = fa /\ In fb' preB))
              D s'
         /\ extends (snd s) (snd s'))
      rightFinals
      (fun otherFinal =>
        t <- translate fa otherFinal ;;
        onStore (setAdd (final nodeList) t)) s1)
      as (s2 & Hrun & P2 & Hext2).
    + split; [|exact Hext1]. eapply prod_ext; [| |exact P1]; [|auto].
      intros fa' fb'. simpl. tauto.
    + intros preB fb postB s2 ElB (P2 & Hext2).
      assert (Hb : In fb rightFinals) by (rewrite ElB; apply in_app_iff; simpl; auto).
      destruct (prod_translate _ D s2 fa fb P2 (HA _ Ha) (HB _ Hb))
        as (p & s3 & Htr & P3 & Hp & Hext3).
      pose proof (prod_final _ _ s3 fa fb p P3 Hp) as P4.
      eexists. split.
      { unfold bind. rewrite Htr. unfold onStore, setAdd, modify. reflexivity. }
      split; [|eapply extends_trans; eauto].
      eapply prod_ext; [| |exact P4]; [|auto].
      intros fa' fb'. simpl. rewrite in_app_iff. simpl. clear. intuition (subst; intuition).
    + exists s2. split; [exact Hrun|]. split; [|exact Hext2].
      eapply prod_ext; [| |exact P2]; [|auto].
      intros fa' fb'. simpl. rewrite in_app_iff. simpl. clear -Ha.
      intuition (subst; intuition).
Qed.

(** *** The language of the product *)

Lemma pairNode_inj F D s a b a' b' p :
  prod F D s ->
  pairNode (snd s) a b = Some p -> pairNode (snd s) a' b' = Some p -> a = a' /\ b = b'.
Proof.
  intros P. unfold pairNode.
  destruct (keyOf a b) as [k|] eqn:Ek; [|discriminate].
  destruct (keyOf a' b') as [k'|] eqn:Ek'; [|discriminate].
  intros H H'. pose proof (pr_cache_inj _ _ _ P k k' p H H') as <-.
  eapply keyOf_inj; eauto.
Qed.

Lemma pairNode_new F D s a b p :
  prod F D s -> pairNode (snd s) a b = Some p -> allocated (fst s) p /\ ~ old p.
Proof.
  intros P. unfold pairNode. destruct (keyOf a b); [|discriminate].
  apply (pr_cache_new _ _ _ P).
Qed.

(** A path of the product is a path of either automaton. *)
Lemma product_sound F D s :
  prod F D s ->
  forall w p q a b,
    pairNode (snd s) a b = Some p -> path (fst s) p w q ->
    exists a' b', pairNode (snd s) a' b' = Some q /\ path st0 a w a' /\ path st0 b w b'.
Proof.
  intros P. induction w as [|c w IH]; intros p q a b Hp Hpath.
  - apply path_nil_inv in Hpath as <-. exists a, b. split; [exact Hp|]. split; constructor.
  - apply path_cons_inv in Hpath as (x & Hs & Hpath).
    destruct (pairNode_new _ _ _ _ _ _ P Hp) as [_ Hn].
    destruct (pr_sound _ _ _ P p c x Hn Hs) as (a1 & b1 & a2 & b2 & H1 & H2 & S1 & S2).
    destruct (pairNode_inj _ _ _ _ _ _ _ _ P Hp H1) as [<- <-].
    destruct (IH x q a2 b2 H2 Hpath) as (a' & b' & Hq & PA & PB).
    exists a', b'. split; [exact Hq|]. split; econstructor; eauto.
Qed.

(** Paths of both automata along one word make a path of the product. *)
Lemma product_complete F s :
  prod F (fun a b _ _ => In a lA /\ In b lB) s ->
  forall w a b p a' b',
    In a lA -> In b lB -> pairNode (snd s) a b = Some p ->
    path st0 a w a' -> path st0 b w b' ->
    exists q, pairNode (snd s) a' b' = Some q /\ path (fst s) p w q.
Proof.
  intros P. induction w as [|c w IH]; intros a b p a' b' Ha Hb Hp PA PB.
  - apply path_nil_inv in PA as <-. apply path_nil_inv in PB as <-.
    exists p. split; [exact Hp|constructor].
  - apply path_cons_inv in PA as (a1 & (S1 & I1 & C1) & PA).
    apply path_cons_inv in PB as (b1 & (S2 & I2 & C2) & PB).
    destruct (pr_complete _ _ _ P a b (a1, S1) (b1, S2) c (conj Ha Hb) I1 I2 C1 C2)
      as (p' & q' & Hp' & Hq' & Hs).
    simpl in Hq'. rewrite Hp in Hp'. injection Hp' as <-.
    destruct (IH a1 b1 q' a' b') as (q & Hq & Hpath); auto.
    + eapply lA_closed; [exact Ha|]. apply (In_entry_succ st0 a (a1, S1)). exact I1.
    + eapply lB_closed; [exact Hb|]. apply (In_entry_succ st0 b (b1, S2)). exact I2.
    + exists q. split; [exact Hq|]. econstructor; eauto.
Qed.

(** The product accepts the words that both automata accept. *)
Lemma product_language (A B : SubList) s :
  (exists tl, lA = initial A :: tl) -> (exists tl, lB = initial B :: tl) ->
  prod (fun fa fb => In fa (getSet st0 (final A)) /\ In fb (getSet st0 (final B)))
       (fun a b _ _ => In a lA /\ In b lB) s ->
  forall w, accepts (fst s) nodeList w <-> accepts st0 A w /\ accepts st0 B w.
Proof.
  intros [tlA EA] [tlB EB] P w.
  assert (Ha : In (initial A) lA) by (rewrite EA; left; reflexivity).
  assert (Hb : In (initial B) lB) by (rewrite EB; left; reflexivity).
  assert (H0 : pairNode (snd s) (initial A) (initial B) = Some (initial nodeList)).
  { unfold pairNode, keyOf, pairKey. rewrite EA, EB, !createIndexMap_head. simpl.
    apply (pr_cache_init _ _ _ P). }
  unfold accepts. split.
  - intros (f & Hf & Hpath).
    destruct (product_sound _ _ _ P w _ _ _ _ H0 Hpath) as (a' & b' & Hq & PA & PB).
    destruct (pr_finals_only _ _ _ P f Hf) as (fa & fb & [FA FB] & Hfab).
    destruct (pairNode_inj _ _ _ _ _ _ _ _ P Hq Hfab) as [-> ->]. split; eauto.
  - intros [(fa & FA & PA) (fb & FB & PB)].
    destruct (product_complete _ _ P w _ _ _ _ _ Ha Hb H0 PA PB) as (q & Hq & Hpath).
    destruct (pr_finals_done _ _ _ P fa fb (conj FA FB)) as (f & Hf & Hin).
    rewrite Hq in Hf. injection Hf as <-. eauto.
Qed.
End Product.

(** ** Removing nodes from a node list's part of the graph *)

Lemma succ_entries st a b : succ st a b <-> exists S, In (b, S) (outOf st a).
Proof.
  unfold succ, JsMap.keys. rewrite in_map_iff. split.
  - intros ([b' S] & <- & H). eauto.
  - intros (S & H). exists (b, S). auto.
Qed.

Lemma NoDup_app_last (l : list nat) pre x post :
  List.NoDup l -> l = pre ++ x :: post -> ~ In x pre.
Proof.
  intros H ->. apply NoDup_remove_2 in H. intros Hin. apply H. apply in_app_iff. auto.
Qed.

Section Prune.
Variable this : NodeList.

Lemma removeNode_region st N x :
  region this st N -> N x -> x <> initial this ->
  exists st',
    removeNode this x st = Ok (tt, st')
    /\ region this st' N
    /\ (forall a b S, In (b, S) (outOf st' a) <-> In (b, S) (outOf st a) /\ a <> x /\ b <> x)
    /\ (forall t, getSet st' t = if decide (final this = t)
                                 then JsSet.delete (getSet st (final this)) x
                                 else getSet st t)
    /\ (forall a, allocated st' a <-> allocated st a)
    /\ (forall a, ~ N a -> outOf st' a = outOf st a).
Proof.
  intros R Hx Hne. unfold removeNode.
  destruct (x =? initial this) eqn:Ex; [apply Nat.eqb_eq in Ex; contradiction|].
  unfold bind at 1, modify at 1.
  set (st1 := putSet st (final this) (JsSet.delete (getSet st (final this)) x)).
  assert (R1 : region this st1 N).
  { apply region_putSet; [|exact R]. intros _.
    split; [apply NoDup_set_delete, (rg_nodup_finals _ _ _ R)|]. intros f Hf.
    apply JsSetFacts.In_delete in Hf as [_ Hf]. apply (rg_finals _ _ _ R f Hf). }
  unfold bind at 1, gets at 1.
  (* the outgoing edges *)
  destruct (forEach_total
    (fun pre s =>
       region this s N
       /\ (forall a b S, In (b, S) (outOf s a) <->
                         In (b, S) (outOf st a) /\ ~ (a = x /\ In b pre))
       /\ (forall t, getSet s t = getSet st1 t)
       /\ (forall a, allocated s a <-> allocated st a)
       /\ (forall a, ~ N a -> outOf s a = outOf st a))
    (JsMap.keys (outOf st1 x)) (fun outgoing => unlinkNodes this x outgoing) st1)
    as (st2 & Hrun2 & R2 & E2 & S2 & A2 & F2).
  { split; [exact R1|]. split; [|split; [|split]]; try reflexivity.
    intros a b S. simpl. unfold st1. rewrite outOf_putSet. tauto. }
  { intros pre o post s El (Rs & Es & Ss & As & Fs).
    assert (Ho : succ st x o).
    { unfold st1 in El. rewrite outOf_putSet in El. unfold succ. rewrite El.
      apply in_app_iff. simpl. auto. }
    assert (Hpre : ~ In o pre).
    { eapply NoDup_app_last; [|exact El]. apply (rg_nodup_out _ _ _ R1 x Hx). }
    assert (No : N o) by exact (rg_out _ _ _ R x o Hx Ho).
    destruct (unlinkNodes_succeeds this x o s) as (s2 & Hu).
    - apply (rg_alloc _ _ _ Rs x Hx).
    - apply (rg_alloc _ _ _ Rs o No).
    - apply succ_entries in Ho as (S & HS). apply succ_entries. exists S.
      apply Es. split; [exact HS|]. tauto.
    - exists s2. split; [exact Hu|].
      split; [eapply region_unlinkNodes; eauto|].
      apply unlinkNodes_effect in Hu as (Hout & _ & _ & Hset & Hal & _).
      split; [|split; [|split]].
      + intros a b S. rewrite Hout. destruct (decide (x = a)) as [<-|Hxa].
        * rewrite In_entries_delete, Es, in_app_iff. simpl. clear. intuition (subst; intuition).
        * rewrite Es, in_app_iff. simpl. clear -Hxa. intuition (subst; intuition).
      + intros t. rewrite Hset. apply Ss.
      + intros a. rewrite Hal, <- As.
        destruct (rg_alloc _ _ _ Rs x Hx), (rg_alloc _ _ _ Rs o No).
        clear -H H1. intuition (subst; intuition).
      + intros a Ha. rewrite Hout, decide_False; [apply Fs, Ha|]. intros <-. contradiction. }
  unfold bind at 1. rewrite Hrun2. unfold bind at 1, gets at 1.
  (* the incoming edges *)
  destruct (forEach_total
    (fun pre s =>
       region this s N
       /\ (forall a b S, In (b, S) (outOf s a) <->
                         In (b, S) (outOf st2 a) /\ ~ (b = x /\ In a pre))
       /\ (forall t, getSet s t = getSet st1 t)
       /\ (forall a, allocated s a <-> allocated st a)
       /\ (forall a, ~ N a -> outOf s a = outOf st a))
    (JsMap.keys (inOf st2 x)) (fun incoming => unlinkNodes this incoming x) st2)
    as (st3 & Hrun3 & R3 & E3 & S3 & A3 & F3).
  { split; [exact R2|]. split; [|split; [|split]]; try assumption.
    intros a b S. simpl. tauto. }
  { intros pre i post s El (Rs & Es & Ss & As & Fs).
    assert (Hi : pred st2 x i).
    { unfold pred. rewrite El. apply in_app_iff. simpl. auto. }
    assert (Hpre : ~ In i pre).
    { eapply NoDup_app_last; [|exact El]. apply (rg_nodup_in _ _ _ R2 x Hx). }
    destruct (region_pred this st2 N i x R2 Hx Hi) as [Ni Hs].
    destruct (unlinkNodes_succeeds this i x s) as (s2 & Hu).
    - apply (rg_alloc _ _ _ Rs i Ni).
    - apply (rg_alloc _ _ _ Rs x Hx).
    - apply succ_entries in Hs as (S & HS). apply succ_entries. exists S.
      apply Es. split; [exact HS|]. tauto.
    - exists s2. split; [exact Hu|].
      split; [eapply region_unlinkNodes; eauto|].
      apply unlinkNodes_effect in Hu as (Hout & _ & _ & Hset & Hal & _).
      split; [|split; [|split]].
      + intros a b S. rewrite Hout. destruct (decide (i = a)) as [<-|Hia].
        * rewrite In_entries_delete, Es, in_app_iff. simpl. clear. intuition (subst; intuition).
        * rewrite Es, in_app_iff. simpl. clear -Hia. intuition (subst; intuition).
      + intros t. rewrite Hset. apply Ss.
      + intros a. rewrite Hal, <- As.
        destruct (rg_alloc _ _ _ Rs x Hx), (rg_alloc _ _ _ Rs i Ni).
        clear -H H1. intuition (subst; intuition).
      + intros a Ha. rewrite Hout, decide_False; [apply Fs, Ha|]. intros <-. contradiction. }
  exists st3. split; [exact Hrun3|]. split; [exact R3|].
  split; [|split; [|split; [exact A3|exact F3]]].
  - intros a b S. rewrite E3, E2. split.
    + intros ((H & H1) & H2). split; [exact H|]. split.
      * intros ->. apply H1. split; [reflexivity|].
        unfold st1. rewrite outOf_putSet. apply succ_entries. eauto.
      * intros ->. apply H2. split; [reflexivity|].
        apply (region_succ_pred this st2 N a x R2 Hx). apply succ_entries. exists S.
        apply E2. split; [exact H|exact H1].
    + intros (H & Ha & Hb). split; [split; [exact H|]|]; tauto.
  - intros t. rewrite S3. unfold st1. apply getSet_putSet.
Qed.

(** The removal loops of [removeUnreachable]: every node of [l] outside
    [keep] goes, with its edges. *)
Lemma prune_region st N keep l :
  region this st N ->
  (forall x, In x l -> N x) ->
  (In (initial this) l -> In (initial this) keep) ->
  exists st',
    forEach l (fun node => if JsSet.has keep node then ret tt else removeNode this node) st
    = Ok (tt, st')
    /\ region this st' N
    /\ (forall a b S, In (b, S) (outOf st' a) <->
                      In (b, S) (outOf st a)
                      /\ ~ (In a l /\ ~ In a keep) /\ ~ (In b l /\ ~ In b keep))
    /\ (forall f, In f (getSet st' (final this)) <->
                  In f (getSet st (final this)) /\ ~ (In f l /\ ~ In f keep))
    /\ (forall t, t <> final this -> getSet st' t = getSet st t)
    /\ (forall a, allocated st' a <-> allocated st a)
    /\ (forall a, ~ N a -> outOf st' a = outOf st a).
Proof.
  intros R Hl Hinit.
  apply (forEach_total
    (fun pre s =>
       region this s N
       /\ (forall a b S, In (b, S) (outOf s a) <->
                         In (b, S) (outOf st a)
                         /\ ~ (In a pre /\ ~ In a keep) /\ ~ (In b pre /\ ~ In b keep))
       /\ (forall f, In f (getSet s (final this)) <->
                     In f (getSet st (final this)) /\ ~ (In f pre /\ ~ In f keep))
       /\ (forall t, t <> final this -> getSet s t = getSet st t)
       /\ (forall a, allocated s a <-> allocated st a)
       /\ (forall a, ~ N a -> outOf s a = outOf st a))).
  - split; [exact R|]. split; [|split; [|split; [|split]]]; try reflexivity;
      intros; simpl; tauto.
  - intros pre x post s El (Rs & Es & Fs & Ss & As & Os).
    assert (Hx : In x l) by (rewrite El; apply in_app_iff; simpl; auto).
    destruct (JsSet.has keep x) eqn:Ek.
    + apply JsSetFacts.set_has_true in Ek. exists s. split; [reflexivity|].
      split; [exact Rs|]. split; [|split; [|split; [exact Ss|split; [exact As|exact Os]]]].
      * intros a b S. rewrite Es, !in_app_iff. simpl. clear -Ek. intuition (subst; intuition).
      * intros f. rewrite Fs, !in_app_iff. simpl. clear -Ek. intuition (subst; intuition).
    + apply JsSetFacts.set_has_false in Ek.
      destruct (removeNode_region s N x Rs (Hl x Hx)) as (s2 & Hrun & R2 & E2 & S2 & A2 & O2).
      { intros ->. apply Ek, Hinit, Hx. }
      exists s2. split; [exact Hrun|]. split; [exact R2|].
      split; [|split; [|split; [|split]]].
      * intros a b S. rewrite E2, Es, !in_app_iff. simpl. clear -Ek.
        intuition (subst; intuition).
      * intros f. rewrite S2, decide_True by reflexivity.
        rewrite JsSetFacts.In_delete, Fs, !in_app_iff. simpl. clear -Ek.
        intuition (subst; intuition).
      * intros t Ht. rewrite S2, decide_False by congruence. apply Ss, Ht.
      * intros a. rewrite A2. apply As.
      * intros a Ha. rewrite O2 by exact Ha. apply Os, Ha.
Qed.
End Prune.

(** ** The searches of [removeUnreachable] return *)

Lemma DFS_total (N : nat -> Prop) (U : list nat) (nexts : nat -> list nat) fuel start acc0 :
  (forall x, N x -> In x U) ->
  (forall x y, N x -> In y (nexts x) -> N y) ->
  N start -> length U <= fuel ->
  exists acc,
    DFS fuel start (fun node acc => Ok (nexts node, JsSet.add acc node)) acc0 = Ok (tt, acc).
Proof.
  intros HU Hcl Hs Hlen. unfold DFS.
  destruct (DFSLoop_total (fun (V K : list nat) (_ : list nat) => forall x, In x K -> N x)
              (fun node acc => Ok (nexts node, JsSet.add acc node)) U)
    with (fuel := fuel) (V := @nil nat) (K := [start]) (s := acc0)
    as (V' & acc & Hrun & _).
  - intros V e K s H _ x Hx. apply H. right. exact Hx.
  - intros V e K s H _. split; [apply HU, H; left; reflexivity|].
    eexists. eexists. split; [reflexivity|].
    intros x Hx. apply in_app_iff in Hx as [Hx|Hx].
    + eapply Hcl; [|exact Hx]. apply H. left. reflexivity.
    + apply H. right. exact Hx.
  - intros x [<-|[]]. exact Hs.
  - constructor.
  - intros x [].
  - simpl. lia.
  - exists acc. exact Hrun.
Qed.

Lemma canReach_total st (N : nat -> Prop) (U : list nat) fuel finals C0 :
  (forall x, N x -> In x U) ->
  (forall x y, N x -> pred st x y -> N y) ->
  (forall f, In f finals -> N f) -> length U <= fuel ->
  exists C, forEach finals (fun f => DFS fuel f (canReachNext st)) C0 = Ok (tt, C).
Proof.
  intros HU Hcl Hf Hlen.
  destruct (forEach_total (fun _ (_ : list nat) => True) finals
              (fun f => DFS fuel f (canReachNext st)) C0) as (C & Hrun & _); [exact I| |eauto].
  intros pre f post C1 El _.
  assert (Nf : N f) by (apply Hf; rewrite El; apply in_app_iff; simpl; auto).
  unfold DFS.
  destruct (DFSLoop_total (fun (V K : list nat) (_ : list nat) => forall x, In x K -> N x)
              (canReachNext st) U)
    with (fuel := fuel) (V := @nil nat) (K := [f]) (s := C1)
    as (V' & acc & Hrun & _).
  - intros V e K s H _ x Hx. apply H. right. exact Hx.
  - intros V e K s H _. split; [apply HU, H; left; reflexivity|].
    unfold canReachNext. destruct (JsSet.has s e).
    + eexists. eexists. split; [reflexivity|]. intros x Hx. apply H. right. exact Hx.
    + eexists. eexists. split; [reflexivity|].
      intros x Hx. apply in_app_iff in Hx as [Hx|Hx].
      * eapply Hcl; [|exact Hx]. apply H. left. reflexivity.
      * apply H. right. exact Hx.
  - intros x [<-|[]]. exact Nf.
  - constructor.
  - intros x [].
  - simpl. lia.
  - exists acc. split; [exact Hrun|exact I].
Qed.

Lemma makeEmpty_effect this st :
  exists st',
    makeEmpty this st = Ok (tt, st')
    /\ getSet st' (final this) = []
    /\ (forall t, t <> final this -> getSet st' t = getSet st t)
    /\ (forall a, a <> initial this -> outOf st' a = outOf st a).
Proof.
  eexists. split; [reflexivity|]. split; [|split].
  - autorewrite with store. rewrite decide_True by reflexivity. reflexivity.
  - intros t Ht. autorewrite with store. rewrite decide_False by congruence. reflexivity.
  - intros a Ha. autorewrite with store. rewrite decide_False by congruence. reflexivity.
Qed.

Lemma path_sub st st' a w b :
  (forall x c y, step st' x c y -> step st x c y) -> path st' a w b -> path st a w b.
Proof.
  intros H Hp. induction Hp as [x|x c x1 w x2 Hs Hp IH]; [constructor|].
  econstructor; eauto.
Qed.

Section Unreachable.
Variable this : NodeList.

Lemma region_rtc_into st N a b : region this st N -> N b -> rtc (succ st) a b -> N a.
Proof.
  intros R Hb Hr. induction Hr as [|x y z Hxy _ IH]; [exact Hb|].
  eapply rg_into; eauto.
Qed.

Lemma region_rtc_out st N a b : region this st N -> N a -> rtc (succ st) a b -> N b.
Proof.
  intros R Ha Hr. induction Hr as [|x y z Hxy _ IH]; [exact Ha|].
  apply IH. eapply rg_out; eauto.
Qed.

Lemma region_rtc_pred st N a b :
  region this st N -> N b -> rtc (succ st) a b -> rtc (pred st) b a.
Proof.
  intros R Hb Hr. induction Hr as [|x y z Hxy Hyz IH]; [constructor|].
  eapply rtc_r; [apply IH; exact Hb|].
  apply (region_succ_pred this st N x y R); [|exact Hxy].
  eapply region_rtc_into; eauto.
Qed.

(** [removeUnreachable] returns and keeps the language. *)
Lemma removeUnreachable_language st N :
  region this st N ->
  exists st',
    removeUnreachable this st = Ok (tt, st')
    /\ (forall w, accepts st' this w <-> accepts st this w)
    /\ (getSet st' (final this) = [] \/ region this st' N)
    /\ (forall t, t <> final this -> getSet st' t = getSet st t)
    /\ (forall a, ~ N a -> outOf st' a = outOf st a).
Proof.
  intros R. unfold removeUnreachable.
  destruct (JsSet.size (getSet st (final this)) =? 0) eqn:E0.
  { apply size_zero in E0.
    destruct (makeEmpty_effect this st) as (st' & Hrun & Hf & Hs & Ho).
    exists st'. split; [exact Hrun|]. split; [|split; [left; exact Hf|split; [exact Hs|]]].
    - intros w. unfold accepts. rewrite Hf, E0. split; intros (f & [] & _).
    - intros a Ha. apply Ho. intros ->. apply Ha, (rg_init _ _ _ R). }
  assert (HU : forall x, N x -> In x (allocatedList st)).
  { intros x Hx. apply In_allocatedList. apply (rg_alloc _ _ _ R x Hx). }
  assert (Hfuel : length (allocatedList st) <= graphFuel st).
  { unfold graphFuel. rewrite length_allocatedList. lia. }
  (* 1) all nodes *)
  destruct (DFS_total N (allocatedList st)
              (fun node => JsMap.keys (inOf st node) ++ JsMap.keys (outOf st node))
              (graphFuel st) (initial this)
              (fold_left JsSet.add (getSet st (final this)) []) HU)
    as (allNodes & Hdfs1); [|apply (rg_init _ _ _ R)|exact Hfuel|].
  { intros x y Hx Hy. apply in_app_iff in Hy as [Hy|Hy].
    - apply (region_pred this st N y x R Hx Hy).
    - eapply rg_out; eauto. }
  assert (Hund : forall a b,
             rtc (fun a b => In b (JsMap.keys (inOf st a) ++ JsMap.keys (outOf st a))) a b ->
             N a -> N b).
  { intros a b Hr. induction Hr as [|x y z Hxy _ IH]; [auto|]. intros Ha. apply IH.
    apply in_app_iff in Hxy as [Hxy|Hxy].
    - apply (region_pred this st N y x R Ha Hxy).
    - eapply rg_out; eauto. }
  cbv beta in Hdfs1. rewrite Hdfs1.
  pose proof (DFS_collects _ _ _ _ _ Hdfs1) as Hall.
  assert (HallN : forall x, In x allNodes -> N x).
  { intros x Hx. apply Hall in Hx as [Hx|Hx].
    - apply (proj1 (In_addAll_nil _ _)) in Hx. apply (rg_finals _ _ _ R x Hx).
    - apply (Hund _ _ Hx). apply (rg_init _ _ _ R). }
  (* 2) all nodes reachable from the initial state *)
  destruct (DFS_total N (allocatedList st) (fun node => JsMap.keys (outOf st node))
              (graphFuel st) (initial this) [] HU)
    as (reach & Hdfs2); [|apply (rg_init _ _ _ R)|exact Hfuel|].
  { intros x y Hx Hy. eapply rg_out; eauto. }
  cbv beta in Hdfs2. rewrite Hdfs2.
  pose proof (DFS_collects _ _ _ _ _ Hdfs2) as Hreach.
  assert (Hreach' : forall n, In n reach <-> rtc (succ st) (initial this) n).
  { intros n. rewrite Hreach. simpl. tauto. }
  (* 3) remove what the initial state does not reach *)
  destruct (prune_region this st N reach allNodes R HallN)
    as (st3 & Hrun3 & R3 & E3 & F3 & S3 & A3 & O3).
  { intros _. apply Hreach'. constructor. }
  rewrite Hrun3.
  assert (Hfin3 : forall f, In f (getSet st3 (final this)) <->
                            In f (getSet st (final this)) /\ In f reach).
  { intros f. rewrite F3. split; [|tauto]. intros [Hf Hn]. split; [exact Hf|].
    destruct (JsSet.has reach f) eqn:Er; [apply JsSetFacts.set_has_true, Er|].
    apply JsSetFacts.set_has_false in Er. exfalso. apply Hn. split; [|exact Er].
    apply Hall. left. apply In_addAll_nil. exact Hf. }
  assert (Hstep3 : forall a c b, In a reach -> step st a c b -> step st3 a c b).
  { intros a c b Ha (S & HS & Hc). exists S. split; [|exact Hc]. apply E3.
    split; [exact HS|]. split; [tauto|].
    assert (In b reach); [|tauto]. apply Hreach'. eapply rtc_r; [apply Hreach', Ha|].
    apply succ_entries. eauto. }
  assert (Hsucc3 : forall a b, In a reach -> succ st a b -> succ st3 a b).
  { intros a b Ha Hs. apply succ_entries in Hs as (S & HS). apply succ_entries. exists S.
    apply E3. split; [exact HS|]. split; [tauto|].
    assert (In b reach); [|tauto]. apply Hreach'. eapply rtc_r; [apply Hreach', Ha|].
    apply succ_entries. eauto. }
  assert (Hsub3 : forall a c b, step st3 a c b -> step st a c b).
  { intros a c b (S & HS & Hc). exists S. split; [|exact Hc]. apply E3 in HS. tauto. }
  assert (Hpath3 : forall a w f, In a reach -> path st a w f -> path st3 a w f).
  { intros a w f Ha Hp. induction Hp as [x|x c x1 w x2 Hs Hp IH]; [constructor|].
    econstructor; [apply Hstep3; eauto|]. apply IH. apply Hreach'.
    eapply rtc_r; [apply Hreach', Ha|]. eapply step_succ; eauto. }
  destruct (JsSet.size (getSet st3 (final this)) =? 0) eqn:E4.
  { apply size_zero in E4.
    destruct (makeEmpty_effect this st3) as (st' & Hrun & Hf & Hs & Ho).
    exists st'. split; [exact Hrun|]. split; [|split; [left; exact Hf|split]].
    - intros w. unfold accepts. rewrite Hf. split; [intros (f & [] & _)|].
      intros (f & Hf' & Hp). exfalso.
      assert (Hin : In f (getSet st3 (final this))).
      { apply Hfin3. split; [exact Hf'|]. apply Hreach'. eapply path_reach; eauto. }
      rewrite E4 in Hin. destruct Hin.
    - intros t Ht. rewrite Hs by exact Ht. apply S3, Ht.
    - intros a Ha. rewrite Ho; [apply O3, Ha|]. intros ->. apply Ha, (rg_init _ _ _ R). }
  (* 5) all nodes which can reach a final state *)
  destruct (canReach_total st3 N (allocatedList st3) (graphFuel st3)
              (getSet st3 (final this)) []) as (C & Hrun5).
  { intros x Hx. apply In_allocatedList. apply (rg_alloc _ _ _ R3 x Hx). }
  { intros x y Hx Hy. apply (region_pred this st3 N y x R3 Hx Hy). }
  { apply (rg_finals _ _ _ R3). }
  { unfold graphFuel. rewrite length_allocatedList. lia. }
  rewrite Hrun5.
  pose proof (canReach_collects _ _ _ _ Hrun5) as HC.
  assert (HC' : forall x f, In f (getSet st3 (final this)) -> rtc (succ st3) x f -> In x C).
  { intros x f Hf Hr. apply HC. exists f. split; [exact Hf|].
    eapply region_rtc_pred; eauto. apply (rg_finals _ _ _ R3 f Hf). }
  (* 6) remove what cannot reach a final state *)
  destruct (prune_region this st3 N C reach R3)
    as (st6 & Hrun6 & R6 & E6 & F6 & S6 & A6 & O6).
  { intros x Hx. apply Hreach' in Hx.
    exact (region_rtc_out st N (initial this) x R (rg_init _ _ _ R) Hx). }
  { intros _.
    assert (Hex : exists f, In f (getSet st3 (final this))).
    { clear -E4. destruct (getSet st3 (final this)) as [|f fs]; [discriminate|].
      exists f. left. reflexivity. }
    destruct Hex as [f Hf]. apply (HC' _ f Hf).
    destruct (proj1 (Hfin3 f) Hf) as [_ Hr]. apply Hreach' in Hr.
    assert (G : forall a b, rtc (succ st) a b -> In a reach -> rtc (succ st3) a b).
    { clear -Hsucc3 Hreach'. intros a b Hr'.
      induction Hr' as [|x y z Hxy _ IH]; [constructor|]. intros Ha.
      assert (Hy : In y reach).
      { apply Hreach'. eapply rtc_r; [apply Hreach', Ha|exact Hxy]. }
      eapply rtc_l; [|apply IH; exact Hy]. apply Hsucc3; assumption. }
    apply G; [exact Hr|apply Hreach'; constructor]. }
  exists st6. split; [exact Hrun6|]. split; [|split; [right; exact R6|split]].
  - intros w. unfold accepts. split.
    + intros (f & Hf & Hp). exists f. split.
      * apply F6 in Hf as [Hf _]. apply Hfin3 in Hf. tauto.
      * apply (path_sub st st6); [|exact Hp]. intros x c y Hs. apply Hsub3.
        destruct Hs as (S & HS & Hc). exists S. split; [|exact Hc]. apply E6 in HS. tauto.
    + intros (f & Hf & Hp).
      assert (Hf3 : In f (getSet st3 (final this))).
      { apply Hfin3. split; [exact Hf|]. apply Hreach'. eapply path_reach; eauto. }
      assert (Hp3 : path st3 (initial this) w f).
      { apply Hpath3; [apply Hreach'; constructor|exact Hp]. }
      assert (Hkeep : forall x, rtc (succ st3) x f -> ~ (In x reach /\ ~ In x C)).
      { intros x Hx [_ Hn]. apply Hn. eapply HC'; eauto. }
      exists f. split.
      * apply F6. split; [exact Hf3|]. apply Hkeep. constructor.
      * revert Hkeep. clear -Hp3 E6. intros Hkeep.
        induction Hp3 as [x|x c x1 w x2 Hs Hp IH]; [constructor|].
        econstructor; [|apply IH; exact Hkeep].
        destruct Hs as (S & HS & Hc). exists S. split; [|exact Hc]. apply E6.
        split; [exact HS|]. split; apply Hkeep.
        -- eapply rtc_l; [apply succ_entries; eauto|]. eapply path_reach; eauto.
        -- eapply path_reach; eauto.
  - intros t Ht. rewrite S6 by exact Ht. apply S3, Ht.
  - intros a Ha. rewrite O6 by exact Ha. apply O3, Ha.
Qed.
End Unreachable.

(** ** Reusing final states *)

Lemma In_get_NoDup {V} (m : list (nat * V)) k v :
  List.NoDup (JsMap.keys m) -> In (k, v) m -> JsMap.get m k = Some v.
Proof.
  induction m as [|[k' v'] m IH]; simpl; [tauto|].
  intros Hnd [[= -> ->]|Hin].
  - rewrite Nat.eqb_refl. reflexivity.
  - apply NoDup_cons_iff in Hnd as [Hk Hnd].
    destruct (Nat.eqb_spec k' k) as [->|_]; [|auto].
    exfalso. apply Hk. unfold JsMap.keys. apply in_map_iff. exists (k, v). auto.
Qed.

Lemma step_label st x y S c :
  List.NoDup (JsMap.keys (outOf st x)) -> JsMap.get (outOf st x) y = Some S ->
  step st x c y <-> CharSet.has S c = true.
Proof.
  intros Hnd Hg. split.
  - intros (S' & Hin & Hc). apply (In_get_NoDup _ _ _ Hnd) in Hin. congruence.
  - intros Hc. exists S. split; [apply JsMapFacts.get_Some_In; exact Hg|exact Hc].
Qed.

Lemma step_unlinkNodes this from to st st' :
  unlinkNodes this from to st = Ok (tt, st') ->
  forall x c y, step st' x c y <-> step st x c y /\ ~ (x = from /\ y = to).
Proof.
  intros H x c y. apply unlinkNodes_effect in H as (Hout & _).
  rewrite !step_hasStep, Hout. destruct (decide (from = x)) as [<-|Hne].
  - rewrite hasStep_delete. clear. intuition (subst; intuition).
  - clear -Hne. intuition congruence.
Qed.

Lemma step_nil st a c b : outOf st a = [] -> ~ step st a c b.
Proof. intros E (S & H & _). rewrite E in H. destruct H. Qed.

Lemma keys_snoc {V} (pre : list (nat * V)) e a :
  In a (JsMap.keys (pre ++ [e])) <-> In a (JsMap.keys pre) \/ a = fst e.
Proof.
  unfold JsMap.keys. rewrite map_app, in_app_iff. simpl. clear. intuition (subst; intuition).
Qed.

Section Reuse.
Variable this : NodeList.

(** The inner loop: the edges into [toRemove] are led to [masterFinal]. *)
Lemma merge_edges st N r m :
  region this st N -> N r -> N m -> r <> m ->
  exists st',
    forEach (inOf st r) (fun e =>
      linkNodes this (fst e) m (snd e) ;;; unlinkNodes this (fst e) r) st = Ok (tt, st')
    /\ region this st' N
    /\ (forall a c y, step st' a c y <->
                      (step st a c y /\ y <> r) \/ (y = m /\ step st a c r))
    /\ (forall t, getSet st' t = getSet st t)
    /\ (forall a, outOf st a = [] -> outOf st' a = [])
    /\ (forall a, ~ N a -> outOf st' a = outOf st a).
Proof.
  intros R Nr Nm Hrm.
  destruct (forEach_total
    (fun pre s =>
       region this s N
       /\ (forall a c y, step s a c y <->
             (step st a c y /\ ~ (y = r /\ In a (JsMap.keys pre)))
             \/ (y = m /\ In a (JsMap.keys pre) /\ step st a c r))
       /\ (forall a, ~ In a (JsMap.keys pre) ->
                     JsMap.get (outOf s a) r = JsMap.get (outOf st a) r)
       /\ (forall t, getSet s t = getSet st t)
       /\ (forall a, outOf st a = [] -> outOf s a = [])
       /\ (forall a, ~ N a -> outOf s a = outOf st a))
    (inOf st r)
    (fun e => linkNodes this (fst e) m (snd e) ;;; unlinkNodes this (fst e) r) st)
    as (st' & Hrun & R' & E' & _ & S' & O' & F').
  - split; [exact R|]. split; [|split; [|split; [|split]]]; try reflexivity; auto.
    intros a c y. simpl. tauto.
  - intros pre [x S] post s El (Rs & Es & Gs & Ss & Os & Fs). simpl.
    assert (Hin : In (x, S) (inOf st r)) by (rewrite El; apply in_app_iff; simpl; auto).
    assert (Hpre : ~ In x (JsMap.keys pre)).
    { pose proof (rg_nodup_in _ _ _ R r Nr) as Hnd. unfold JsMap.keys in Hnd.
      rewrite El, map_app in Hnd. simpl in Hnd. apply NoDup_remove_2 in Hnd.
      intros H. apply Hnd. apply in_app_iff. auto. }
    assert (Hpred : pred st r x).
    { unfold pred, JsMap.keys. apply in_map_iff. exists (x, S). auto. }
    destruct (region_pred this st N x r R Nr Hpred) as [Nx Hsucc].
    assert (Hlab : JsMap.get (outOf st x) r = Some S).
    { rewrite <- (rg_mirror _ _ _ R x r Nr).
      apply In_get_NoDup; [apply (rg_nodup_in _ _ _ R r Nr)|exact Hin]. }
    assert (Hne : CharSet.isEmpty S = false).
    { apply (rg_labels _ _ _ R x r S Nx). apply JsMapFacts.get_Some_In. exact Hlab. }
    assert (HS : forall c, step st x c r <-> CharSet.has S c = true).
    { intros c. apply step_label; [apply (rg_nodup_out _ _ _ R x Nx)|exact Hlab]. }
    destruct (linkNodes_succeeds this x m S s) as (s1 & Hlk);
      [apply (rg_alloc _ _ _ Rs x Nx)|apply (rg_alloc _ _ _ Rs m Nm)|exact Hne|].
    pose proof (region_linkNodes this s s1 N x m S Hlk Nx Nm Rs) as R1.
    pose proof (step_linkNodes _ _ _ _ _ _ Hlk) as E1.
    apply linkNodes_effect in Hlk as Hlk'. destruct Hlk' as (Hout1 & _ & _ & Hset1 & _).
    destruct (unlinkNodes_succeeds this x r s1) as (s2 & Hul);
      [apply (rg_alloc _ _ _ R1 x Nx)|apply (rg_alloc _ _ _ R1 r Nr)| |].
    { apply JsMapFacts.In_keys. exists S. rewrite Hout1, decide_True by reflexivity.
      rewrite get_add_ne by congruence. rewrite Gs by exact Hpre. exact Hlab. }
    pose proof (region_unlinkNodes this s1 s2 N x r Hul Nx Nr R1) as R2.
    pose proof (step_unlinkNodes _ _ _ _ _ Hul) as E2.
    apply unlinkNodes_effect in Hul as Hul'. destruct Hul' as (Hout2 & _ & _ & Hset2 & _).
    exists s2. split; [unfold bind; rewrite Hlk; exact Hul|].
    split; [exact R2|]. split; [|split; [|split; [|split]]].
    + intros a c y. rewrite E2, E1, Es, keys_snoc. simpl.
      specialize (HS c). clear -HS Hrm Hpre. intuition (subst; intuition).
    + intros a Ha. rewrite keys_snoc in Ha. simpl in Ha.
      assert (Hax : x <> a) by (intros <-; tauto).
      rewrite Hout2, decide_False by exact Hax. rewrite Hout1, decide_False by exact Hax.
      apply Gs. tauto.
    + intros t. rewrite Hset2, Hset1. apply Ss.
    + intros a Ha. assert (Hax : x <> a).
      { intros <-. apply succ_entries in Hsucc as (S0 & H0). rewrite Ha in H0. destruct H0. }
      rewrite Hout2, decide_False by exact Hax. rewrite Hout1, decide_False by exact Hax.
      apply Os, Ha.
    + intros a Ha. assert (Hax : x <> a) by (intros <-; contradiction).
      rewrite Hout2, decide_False by exact Hax. rewrite Hout1, decide_False by exact Hax.
      apply Fs, Ha.
  - exists st'. split; [exact Hrun|]. split; [exact R'|].
    split; [|split; [exact S'|split; [exact O'|exact F']]].
    intros a c y. rewrite E'.
    assert (Hk : forall c', step st a c' r -> In a (JsMap.keys (inOf st r))).
    { intros c' Hs. apply (region_succ_pred this st N a r R Nr). eapply step_succ; eauto. }
    split.
    + intros [[H Hn]|(-> & _ & H)]; [left|right; auto]. split; [exact H|].
      intros ->. apply Hn. split; [reflexivity|eapply Hk; eauto].
    + intros [[H Hn]|[-> H]]; [left; tauto|right]. split; [reflexivity|].
      split; [eapply Hk; eauto|exact H].
Qed.

Lemma reusable_spec st (fs : list nat) f :
  In f (List.filter (fun f => negb (f =? initial this) && (JsMap.size (outOf st f) =? 0)) fs)
  <-> In f fs /\ f <> initial this /\ outOf st f = [].
Proof.
  rewrite filter_In, andb_true_iff, negb_true_iff, Nat.eqb_neq, Nat.eqb_eq.
  unfold JsMap.size. rewrite length_zero_iff_nil. tauto.
Qed.

(** [baseOptimizationReuseFinalStates] on a node list returns and keeps
    the language. *)
Lemma reuseFinals_language st N :
  region this st N ->
  exists st',
    baseOptimizationReuseFinalStates this this st = Ok (tt, st')
    /\ (forall w, accepts st' this w <-> accepts st this w)
    /\ (forall t, t <> final this -> getSet st' t = getSet st t)
    /\ (forall a, ~ N a -> outOf st' a = outOf st a).
Proof.
  intros R. unfold baseOptimizationReuseFinalStates.
  unfold bind at 1, setElements at 1, gets at 1. unfold bind at 1, gets at 1.
  set (fs := getSet st (final this)).
  set (reusable := List.filter _ fs).
  destruct (1 <? length reusable) eqn:El.
  2:{ exists st. split; [reflexivity|]. split; [reflexivity|]. split; reflexivity. }
  apply Nat.ltb_lt in El.
  assert (Hne : reusable <> []) by (intros E; rewrite E in El; simpl in El; lia).
  set (m := List.last reusable 0). set (removes := removelast reusable).
  assert (Esplit : reusable = removes ++ [m]) by (apply app_removelast_last; exact Hne).
  assert (Hnd : List.NoDup (removes ++ [m])).
  { rewrite <- Esplit. apply List.NoDup_filter. apply (rg_nodup_finals _ _ _ R). }
  assert (Hm_not : ~ In m removes).
  { apply NoDup_remove_2 in Hnd. rewrite app_nil_r in Hnd. exact Hnd. }
  assert (Hnd' : List.NoDup removes).
  { apply NoDup_remove_1 in Hnd. rewrite app_nil_r in Hnd. exact Hnd. }
  assert (Hre : forall f, In f removes \/ f = m ->
                          In f fs /\ f <> initial this /\ outOf st f = []).
  { intros f Hf. apply (reusable_spec st fs f). fold reusable. rewrite Esplit.
    apply in_app_iff. simpl. destruct Hf as [H| ->]; auto. }
  destruct (Hre m (or_intror eq_refl)) as (Hm_fs & Hm_init & Hm_out).
  assert (Nm : N m) by (apply (rg_finals _ _ _ R m Hm_fs)).
  destruct (forEach_total
    (fun pre s =>
       region this s N
       /\ (forall f, In f (getSet s (final this)) <-> In f fs /\ ~ In f pre)
       /\ (forall a c y, step s a c y <->
             (step st a c y /\ ~ In y pre) \/ (y = m /\ exists r, In r pre /\ step st a c r))
       /\ (forall a, outOf st a = [] -> outOf s a = [])
       /\ (forall t, t <> final this -> getSet s t = getSet st t)
       /\ (forall a, ~ N a -> outOf s a = outOf st a))
    removes
    (fun toRemove =>
       setDelete (final this) toRemove ;;;
       edges <- gets (fun st => inOf st toRemove) ;;
       forEach edges (fun e =>
         linkNodes this (fst e) m (snd e) ;;; unlinkNodes this (fst e) toRemove)) st)
    as (st' & Hrun & R' & F' & E' & O' & S' & Fr').
  - split; [exact R|]. split; [|split; [|split; [|split]]]; try reflexivity; auto.
    + intros f. simpl. tauto.
    + intros a c y. simpl. split; [tauto|]. intros [[H _]|(_ & r & [] & _)]. exact H.
  - intros pre r post s Er (Rs & Fs & Es & Os & Ss & Frs).
    assert (Hr : In r removes) by (rewrite Er; apply in_app_iff; simpl; auto).
    assert (Hpre : ~ In r pre) by (eapply NoDup_app_last; eauto).
    destruct (Hre r (or_introl Hr)) as (Hr_fs & Hr_init & Hr_out).
    assert (Nr : N r) by (apply (rg_finals _ _ _ R r Hr_fs)).
    assert (Hrm : r <> m) by (intros ->; contradiction).
    set (s1 := putSet s (final this) (JsSet.delete (getSet s (final this)) r)).
    assert (R1 : region this s1 N).
    { apply region_putSet; [|exact Rs]. intros _.
      split; [apply NoDup_set_delete, (rg_nodup_finals _ _ _ Rs)|]. intros f Hf.
      apply JsSetFacts.In_delete in Hf as [_ Hf]. apply (rg_finals _ _ _ Rs f Hf). }
    destruct (merge_edges s1 N r m R1 Nr Nm Hrm) as (s2 & Hrun2 & R2 & E2 & S2 & O2 & F2).
    exists s2. split.
    { unfold bind at 1, setDelete, modify. unfold bind at 1, gets. exact Hrun2. }
    split; [exact R2|]. split; [|split; [|split; [|split]]].
    + intros f. rewrite S2. unfold s1. rewrite getSet_putSet, decide_True by reflexivity.
      rewrite JsSetFacts.In_delete, Fs, in_app_iff. simpl. clear. intuition (subst; intuition).
    + intros a c y. rewrite E2. unfold s1, step. rewrite !outOf_putSet.
      fold (step s a c y) (step s a c r). rewrite !Es.
      split.
      * intros [[[[H Hn]|(-> & r' & Hr' & H)] Hy]|(-> & [[H Hn]|(Hrm' & _)])].
        -- left. split; [exact H|]. rewrite in_app_iff. simpl. intros [?|[?|[]]]; auto.
        -- right. split; [reflexivity|]. exists r'. rewrite in_app_iff. auto.
        -- right. split; [reflexivity|]. exists r. rewrite in_app_iff. simpl. auto.
        -- contradiction.
      * intros [[H Hn]|(-> & r' & Hr' & H)].
        -- rewrite in_app_iff in Hn. simpl in Hn. left. split; [left; tauto|].
           intros ->. tauto.
        -- apply in_app_iff in Hr' as [Hr'|[<-|[]]].
           ++ left. split; [right; eauto|auto].
           ++ right. split; [reflexivity|]. left. tauto.
    + intros a Ha. apply O2. unfold s1. rewrite outOf_putSet. apply Os, Ha.
    + intros t Ht. rewrite S2. unfold s1. rewrite getSet_putSet, decide_False by congruence.
      apply Ss, Ht.
    + intros a Ha. rewrite F2 by exact Ha. unfold s1. rewrite outOf_putSet. apply Frs, Ha.
  - exists st'. split; [exact Hrun|]. split; [|split; [exact S'|exact Fr']].
    assert (Hno : forall f, In f removes \/ f = m -> forall c b, ~ step st f c b).
    { intros f Hf c b. apply step_nil. apply (Hre f Hf). }
    assert (Hno' : forall c b, ~ step st' m c b).
    { intros c b. apply step_nil. apply O'. exact Hm_out. }
    intros w. unfold accepts. fold fs. split.
    + intros (f' & Hf' & Hp). apply F' in Hf' as [Hf' Hnr].
      assert (G : forall a w f', path st' a w f' ->
                  exists f, path st a w f /\ (f = f' \/ (f' = m /\ In f removes))).
      { clear -E' Hno'. intros a w0 f0 Hp.
        induction Hp as [x|x c x1 w0 x2 Hs Hp IH]; [exists x; split; [constructor|auto]|].
        apply E' in Hs as [[Hs _]|(-> & r & Hr & Hs)].
        - destruct IH as (f & Hpf & Hf). exists f. split; [econstructor; eauto|exact Hf].
        - assert (w0 = [] /\ m = x2) as [-> <-].
          { destruct Hp as [y|y c' y1 w1 y2 Hs' _]; [auto|]. exfalso. eapply Hno'; eauto. }
          exists r. split; [econstructor; [exact Hs|constructor]|auto]. }
      destruct (G _ _ _ Hp) as (f & Hpf & [->|[-> Hf]]).
      * exists f'. auto.
      * exists f. split; [apply (Hre f); auto|exact Hpf].
    + intros (f & Hf & Hp).
      assert (G : forall a w f, path st a w f -> ~ In a removes ->
                  (~ In f removes -> path st' a w f) /\ (In f removes -> path st' a w m)).
      { clear -E' Hno. intros a w0 f0 Hp.
        induction Hp as [x|x c x1 w0 x2 Hs Hp IH]; intros Hx.
        - split; [constructor|contradiction].
        - destruct (in_dec Nat.eq_dec x1 removes) as [H1|H1].
          + assert (w0 = [] /\ x1 = x2) as [-> <-].
            { destruct Hp as [y|y c' y1 w1 y2 Hs' _]; [auto|]. exfalso.
              apply (Hno y (or_introl H1) c' y1 Hs'). }
            split; [intros H; contradiction|]. intros _. econstructor; [|constructor].
            apply E'. right. split; [reflexivity|]. eauto.
          + destruct (IH H1) as [IH1 IH2].
            split; intros H2; (econstructor; [apply E'; left; split; [exact Hs|exact H1]|]).
            * apply IH1, H2.
            * apply IH2, H2. }
      assert (Hi : ~ In (initial this) removes).
      { intros H. apply (Hre _ (or_introl H)). reflexivity. }
      destruct (G _ _ _ Hp Hi) as [G1 G2].
      destruct (in_dec Nat.eq_dec f removes) as [H|H].
      * exists m. split; [apply F'; auto|auto].
      * exists f. split; [apply F'; auto|auto].
Qed.
End Reuse.

(** ** [intersect] *)

Lemma size_allocated_mono st st' :
  (forall a, allocated st a -> allocated st' a) ->
  size (store_nodes st) <= size (store_nodes st').
Proof.
  intros H. rewrite <- !length_allocatedList. apply NoDup_incl_length.
  - unfold allocatedList. apply NoDup_ListNoDup, NoDup_fst_map_to_list.
  - intros a Ha. apply In_allocatedList. apply H. apply In_allocatedList. exact Ha.
Qed.

Lemma newNodeList_spec st :
  exists nl st0,
    newNodeList st = Ok (nl, st0)
    /\ ~ allocated st (initial nl) /\ ~ allocatedSet st (final nl)
    /\ (forall a, allocated st0 a <-> a = initial nl \/ allocated st a)
    /\ owner st0 (initial nl) = nl_id nl
    /\ (forall a, outOf st0 a = outOf st a)
    /\ (forall a, inOf st0 a = inOf st a)
    /\ getSet st0 (final nl) = []
    /\ (forall t, t <> final nl -> getSet st0 t = getSet st t).
Proof.
  unfold newNodeList.
  set (st1 := mkStore (store_nodes st) (store_sets st)
                      (<[NodeList_counter st := 0]> (nodeCounter st))
                      (Datatypes.S (NodeList_counter st))).
  destruct (newSet_spec st1) as (s & st2 & Hrun2 & Hfresh2 & Hal2 & Hset2 & Hnil2 & Hn2).
  destruct (createNode_spec (NodeList_counter st) st2)
    as (r & st3 & Hrun3 & Hfresh3 & Hal3 & Hown3 & _ & Hout3 & Hin3 & Hset3 & _).
  exists (mkNodeList (NodeList_counter st) (mkSubList r s)), st3.
  split; [unfold bind; rewrite Hrun2, Hrun3; reflexivity|]. simpl.
  assert (Ha : forall a, allocated st2 a <-> allocated st a).
  { intros a. unfold allocated. rewrite Hn2. reflexivity. }
  split; [rewrite <- Ha; exact Hfresh3|]. split; [exact Hfresh2|].
  split; [intros a; rewrite Hal3, Ha; reflexivity|]. split; [exact Hown3|].
  split; [|split; [|split]].
  - intros a. rewrite Hout3. unfold outOf, getNode. rewrite Hn2. reflexivity.
  - intros a. rewrite Hin3. unfold inOf, getNode. rewrite Hn2. reflexivity.
  - rewrite Hset3. exact Hnil2.
  - intros t Ht. rewrite Hset3, Hset2. reflexivity.
Qed.

(** The store in which the construction starts: the new node list has its
    initial node and nothing else. *)
Lemma prod_initial st (nl : NodeList) st0 lA lB :
  (forall a b, succ st a b -> allocated st b) ->
  ~ allocated st (initial nl) ->
  (forall a, allocated st0 a <-> a = initial nl \/ allocated st a) ->
  owner st0 (initial nl) = nl_id nl ->
  (forall a, outOf st0 a = outOf st a) ->
  (forall a, inOf st0 a = inOf st a) ->
  getSet st0 (final nl) = [] ->
  prod nl st0 lA lB (allocated st) (fun _ _ => False) (fun _ _ _ _ => False)
       (st0, [(0, initial nl)]).
Proof.
  intros Hcl Hfresh Hal Hown Hout Hin Hfin.
  assert (Hn_out : outOf st0 (initial nl) = []).
  { rewrite Hout. unfold outOf. rewrite unallocated_blank by exact Hfresh. reflexivity. }
  assert (Hn_in : inOf st0 (initial nl) = []).
  { rewrite Hin. unfold inOf. rewrite unallocated_blank by exact Hfresh. reflexivity. }
  assert (HN : forall x, allocated st0 x /\ ~ allocated st x <-> x = initial nl).
  { intros x. rewrite Hal. split; [tauto|]. intros ->. tauto. }
  assert (Hno : forall x, ~ succ st0 x (initial nl)).
  { intros x. unfold succ. rewrite Hout. intros H. apply Hfresh. eapply Hcl; exact H. }
  split; simpl.
  - intros x y. unfold succ. rewrite Hout. intros H. apply Hal. right. eapply Hcl; exact H.
  - reflexivity.
  - intros x Hx. exact Hx.
  - reflexivity.
  - split.
    + intros x Hx. apply HN in Hx as ->. split; [apply Hal; auto|exact Hown].
    + intros x y Hx Hy. apply HN in Hx as ->. unfold succ in Hy. rewrite Hn_out in Hy.
      destruct Hy.
    + intros x y Hy Hn. apply HN in Hn as ->. exfalso. eapply Hno; eauto.
    + intros x y Hy. apply HN in Hy as ->. rewrite Hn_in. simpl. symmetry.
      apply get_None_keys. apply Hno.
    + intros x Hx. apply HN in Hx as ->. rewrite Hn_out. constructor.
    + intros x Hx. apply HN in Hx as ->. rewrite Hn_in. constructor.
    + intros x y S Hx. apply HN in Hx as ->. rewrite Hn_out. intros [].
    + apply HN. reflexivity.
    + rewrite Hfin. intros f [].
    + rewrite Hfin. constructor.
  - intros k v. destruct (k =? 0)%nat eqn:E; simpl; [|destruct k; discriminate].
    destruct k; [|discriminate]. simpl. intros [= <-]. apply HN. reflexivity.
  - intros k k' v. destruct k, k'; simpl; congruence.
  - reflexivity.
  - intros p c q Hp (S & HS & _). exfalso.
    assert (Ha : allocated st0 p).
    { eapply succ_allocated. apply succ_entries. eauto. }
    assert (p = initial nl) as -> by (apply HN; auto).
    rewrite Hn_out in HS. destruct HS.
  - intros a b e1 e2 c [].
  - intros fa fb [].
  - rewrite Hfin. intros f [].
Qed.

Lemma reuseFinals_empty (this : NodeList) st :
  getSet st (final this) = [] ->
  baseOptimizationReuseFinalStates this this st = Ok (tt, st).
Proof.
  intros E. unfold baseOptimizationReuseFinalStates, bind, setElements, gets.
  rewrite E. reflexivity.
Qed.

(** What [intersect] asks of an automaton: its initial node and its set of
    final nodes exist, and the iteration over its nodes meets (and so
    indexes) every final node. *)
Record indexed (st : Store) (a : NFA) : Prop := mkIndexed {
  ix_initial : allocated st (initial (nodes a));
  ix_final : allocatedSet st (final (nodes a));
  ix_reachable : forall f, In f (getSet st (final (nodes a))) ->
                           rtc (succ st) (initial (nodes a)) f
}.

Lemma succ_closed_rtc st (U : nat -> Prop) a b :
  (forall x y, U x -> succ st x y -> U y) -> U a -> rtc (succ st) a b -> U b.
Proof.
  intros H Ha Hr. induction Hr as [|x y z Hxy _ IH]; [exact Ha|]. apply IH. eapply H; eauto.
Qed.

(** C2.  For automata over the same alphabet, in a store whose edges lead
    to nodes of the store and in which both automata are indexed,
    [intersect] returns an automaton, and [test] answers true for a word on
    the result exactly when it answers true for it on both automata; the
    two automata answer after the call as they did before it. *)
Theorem intersect_language (left right : NFA) (st : Store) :
  maxCharacter (options left) = maxCharacter (options right) ->
  (forall a b, succ st a b -> allocated st b) ->
  indexed st left -> indexed st right ->
  exists result st',
    intersect left right st = Ok (result, st')
    /\ forall word,
         (test result word st' = Ok (true, st')
          <-> test left word st = Ok (true, st) /\ test right word st = Ok (true, st))
         /\ (test left word st' = Ok (true, st') <-> test left word st = Ok (true, st))
         /\ (test right word st' = Ok (true, st') <-> test right word st = Ok (true, st)).
Proof.
  intros Hmax Hcl [Li Lf Lr] [Ri Rf Rr].
  unfold intersect. unfold bind at 1, checkOptionsCompatibility.
  rewrite Hmax, Z.eqb_refl. unfold ret at 1.
  destruct (newNodeList_spec st)
    as (nl & st0 & Hnew & Hfresh & Hfreshs & Hal & Hown & Hout & Hin & Hfin & Hsets).
  unfold bind at 1. rewrite Hnew.
  assert (Hsucc0 : forall x y, succ st0 x y <-> succ st x y).
  { intros x y. unfold succ. rewrite Hout. reflexivity. }
  assert (HclU : forall x y, In x (allocatedList st) -> succ st0 x y -> In y (allocatedList st)).
  { intros x y _ Hy. apply In_allocatedList. apply Hsucc0 in Hy. eapply Hcl; eauto. }
  assert (Hsize : length (allocatedList st) <= size (store_nodes st0)).
  { rewrite length_allocatedList. apply size_allocated_mono. intros a Ha. apply Hal. auto. }
  destruct (iterate_spec (nodes left) st0 (allocatedList st))
    as (tlA & HrunA & HclA & HoldA); [apply In_allocatedList, Li|exact HclU|exact Hsize|].
  destruct (iterate_spec (nodes right) st0 (allocatedList st))
    as (tlB & HrunB & HclB & HoldB); [apply In_allocatedList, Ri|exact HclU|exact Hsize|].
  unfold bind at 1. rewrite HrunA. unfold bind at 1. rewrite HrunB.
  unfold bind at 1, setElements at 1, gets at 1. unfold bind at 1, setElements at 1, gets at 1.
  set (lA := initial (nodes left) :: tlA) in *.
  set (lB := initial (nodes right) :: tlB) in *.
  assert (HoldA' : forall a, In a lA -> allocated st a).
  { intros a Ha. apply In_allocatedList, HoldA, Ha. }
  assert (HoldB' : forall b, In b lB -> allocated st b).
  { intros b Hb. apply In_allocatedList, HoldB, Hb. }
  assert (Hold_alloc : forall x, allocated st x -> allocated st0 x).
  { intros x Hx. apply Hal. auto. }
  assert (HfinA : forall f, In f (getSet st0 (final (nodes left))) -> In f lA).
  { intros f Hf. rewrite Hsets in Hf.
    - apply (succ_closed_rtc st0 (fun x => In x lA) (initial (nodes left)) f HclA).
      + left. reflexivity.
      + eapply rtc_succ_mono; [|apply Lr, Hf]. intros x y. apply Hsucc0.
    - intros E. apply Hfreshs. rewrite <- E. exact Lf. }
  assert (HfinB : forall f, In f (getSet st0 (final (nodes right))) -> In f lB).
  { intros f Hf. rewrite Hsets in Hf.
    - apply (succ_closed_rtc st0 (fun x => In x lB) (initial (nodes right)) f HclB).
      + left. reflexivity.
      + eapply rtc_succ_mono; [|apply Rr, Hf]. intros x y. apply Hsucc0.
    - intros E. apply Hfreshs. rewrite <- E. exact Rf. }
  pose proof (prod_initial st nl st0 lA lB Hcl Hfresh Hal Hown Hout Hin Hfin) as P0.
  destruct (add_finals nl st0 lA lB (allocated st) Hold_alloc _ _ _ _ HfinA HfinB P0)
    as (s1 & Hrun1 & P1 & _).
  destruct (add_edges nl st0 lA lB (allocated st) Hold_alloc HoldA' HoldB' HclA HclB _ s1 P1)
    as (s2 & Hrun2 & P2 & _).
  pose proof (product_language nl st0 lA lB (allocated st) HclA HclB
                (nodes left) (nodes right) s2 (ex_intro _ tlA eq_refl) (ex_intro _ tlB eq_refl)
                P2) as Hlang2.
  unfold bind at 1. unfold bind at 1. rewrite Hrun1. cbv beta iota.
  cbv zeta in Hrun2. rewrite Hrun2.
  destruct s2 as [st2 cache2]. simpl in Hlang2.
  pose proof (pr_region _ _ _ _ _ _ _ _ P2) as R2. simpl in R2.
  pose proof (pr_frame _ _ _ _ _ _ _ _ P2) as Hfr2. simpl in Hfr2.
  pose proof (pr_sets _ _ _ _ _ _ _ _ P2) as Hsets2. simpl in Hsets2.
  destruct (removeUnreachable_language nl st2 _ R2) as (st3 & Hrun3 & Hlang3 & Hcase & Hsets3 & Hfr3).
  unfold bind at 1. rewrite Hrun3.
  assert (Hopt : exists st4,
             baseOptimizationReuseFinalStates nl nl st3 = Ok (tt, st4)
             /\ (forall w, accepts st4 nl w <-> accepts st3 nl w)
             /\ (forall t, t <> final nl -> getSet st4 t = getSet st3 t)
             /\ (forall a, allocated st a -> outOf st4 a = outOf st3 a)).
  { destruct Hcase as [Hempty|R3].
    - exists st3. split; [apply reuseFinals_empty; exact Hempty|].
      split; [reflexivity|]. split; reflexivity.
    - destruct (reuseFinals_language nl st3 _ R3) as (st4 & Hrun4 & Hlang4 & Hsets4 & Hfr4).
      exists st4. split; [exact Hrun4|]. split; [exact Hlang4|]. split; [exact Hsets4|].
      intros a Ha. apply Hfr4. tauto. }
  destruct Hopt as (st4 & Hrun4 & Hlang4 & Hsets4 & Hfr4).
  unfold bind at 1. rewrite Hrun4.
  exists (mkNFA nl (options left)), st4. split; [reflexivity|].
  assert (Hframe : forall (a : NFA) w,
             allocated st (initial (nodes a)) -> allocatedSet st (final (nodes a)) ->
             accepts st4 (nodes a) w <-> accepts st (nodes a) w).
  { intros a w Hi Hf. apply (accepts_part (allocated st)).
    - intros x Hx. rewrite Hfr4 by exact Hx. rewrite Hfr3 by tauto.
      rewrite (Hfr2 x Hx). apply Hout.
    - intros x y _ Hy. eapply Hcl; eauto.
    - exact Hi.
    - assert (Hne : final (nodes a) <> final nl).
      { intros E. apply Hfreshs. rewrite <- E. exact Hf. }
      rewrite Hsets4, Hsets3 by exact Hne.
      rewrite (Hsets2 _ Hne). apply Hsets, Hne. }
  assert (Hframe0 : forall (a : NFA) w,
             allocated st (initial (nodes a)) -> allocatedSet st (final (nodes a)) ->
             accepts st0 (nodes a) w <-> accepts st (nodes a) w).
  { intros a w Hi Hf. apply (accepts_part (allocated st)).
    - intros x _. apply Hout.
    - intros x y _ Hy. eapply Hcl; eauto.
    - exact Hi.
    - apply Hsets. intros E. apply Hfreshs. rewrite <- E. exact Hf. }
  intros word.
  rewrite !test_true_accepts. simpl.
  rewrite Hlang4, Hlang3, Hlang2, !Hframe0, !Hframe by assumption.
  tauto.
Qed.

(** ** Checking that an automaton is indexed *)

(** [f] is reached from [a] in at most [fuel] steps. *)
Fixpoint reachb (st : Store) (fuel : nat) (a f : nat) : bool :=
  (a =? f)
  || match fuel with
     | 0 => false
     | Datatypes.S fuel' => existsb (fun b => reachb st fuel' b f) (JsMap.keys (outOf st a))
     end.

Definition indexedb (st : Store) (a : NFA) : bool :=
  allocatedb st (initial (nodes a)) && allocatedSetb st (final (nodes a))
  && forallb (reachb st (size (store_nodes st)) (initial (nodes a)))
             (getSet st (final (nodes a))).

Lemma reachb_sound st fuel : forall a f, reachb st fuel a f = true -> rtc (succ st) a f.
Proof.
  induction fuel as [|fuel IH]; intros a f; simpl; rewrite orb_true_iff.
  - intros [H|H]; [|discriminate]. apply Nat.eqb_eq in H as ->. constructor.
  - intros [H|H]; [apply Nat.eqb_eq in H as ->; constructor|].
    apply existsb_exists in H as (b & Hb & Hr). eapply rtc_l; [exact Hb|]. apply IH, Hr.
Qed.

Lemma indexedb_sound st a : indexedb st a = true -> indexed st a.
Proof.
  unfold indexedb. intros H. apply andb_true_iff in H as [H H3].
  apply andb_true_iff in H as [H1 H2]. rewrite forallb_forall in H3. split.
  - apply allocatedb_sound, H1.
  - apply allocatedSetb_sound, H2.
  - intros f Hf. eapply reachb_sound. apply H3, Hf.
Qed.

(** The automata of the words [ab], [ac] and of the word [ab], side by
    side in one store. *)
Definition twoAutomata : Result (NFA * NFA * Store) :=
  match (a <- fromWords [wordAB; wordAC] options16 ;;
         b <- fromWords [wordAB] options16 ;;
         ret (a, b)) emptyStore with
  | Ok (ab, st) => Ok (ab, st)
  | Err e => Err e
  end.

Definition twoStore : Store :=
  Eval vm_compute in match twoAutomata with Ok (_, st) => st | Err _ => emptyStore end.
Definition twoLeft : NFA :=
  Eval vm_compute in
    match twoAutomata with
    | Ok ((a, _), _) => a
    | Err _ => mkNFA (mkNodeList 0 (mkSubList 0 0)) options16
    end.
Definition twoRight : NFA :=
  Eval vm_compute in
    match twoAutomata with
    | Ok ((_, b), _) => b
    | Err _ => mkNFA (mkNodeList 0 (mkSubList 0 0)) options16
    end.

Lemma intersect_language_witness :
  exists result st',
    intersect twoLeft twoRight twoStore = Ok (result, st')
    /\ forall word,
         (test result word st' = Ok (true, st')
          <-> test twoLeft word twoStore = Ok (true, twoStore)
              /\ test twoRight word twoStore = Ok (true, twoStore))
         /\ (test twoLeft word st' = Ok (true, st')
             <-> test twoLeft word twoStore = Ok (true, twoStore))
         /\ (test twoRight word st' = Ok (true, st')
             <-> test twoRight word twoStore = Ok (true, twoStore)).
Proof.
  apply (intersect_language twoLeft twoRight twoStore).
  - reflexivity.
  - apply good_closed. apply goodb_sound. vm_compute. reflexivity.
  - apply indexedb_sound. vm_compute. reflexivity.
  - apply indexedb_sound. vm_compute. reflexivity.
Defined.

(** * Further properties *)

(** * More of the engine *)

(** ** The invariant of a node list *)

(** The nodes of a node list are the nodes of the store that carry its
    identity; the node list is in order when these nodes form a [region]:
    edges stay among them, every [in] map mirrors the [out] maps, labels
    included, and no label is empty. *)
Definition nodeListInv (this : NodeList) (st : Store) : Prop :=
  region this st (fun x => allocated st x /\ owner st x = nl_id this).

(** Edges lead to nodes of the store. *)
Definition closedStore (st : Store) : Prop := forall a b, succ st a b -> allocated st b.

#[global] Instance CharRange_eq_dec : EqDecision CharSet.CharRange.
Proof. solve_decision. Defined.

#[global] Instance CharSet_eq_dec : EqDecision CharSet.t.
Proof. solve_decision. Defined.

Definition nodesOf (this : NodeList) (st : Store) : list nat :=
  List.filter (fun x => owner st x =? nl_id this) (allocatedList st).

Definition memb (x : nat) (l : list nat) : bool := existsb (Nat.eqb x) l.

Definition closedStoreb (st : Store) : bool :=
  forallb (fun e : nat * NFANode => forallb (allocatedb st) (JsMap.keys (out (snd e))))
          (map_to_list (store_nodes st)).

Definition nodeListInvb (this : NodeList) (st : Store) : bool :=
  let l := nodesOf this st in
  forallb (fun x => forallb (fun y => memb y l) (JsMap.keys (outOf st x))) l
  && forallb (fun x => memb x l
                       || forallb (fun y => negb (memb y l)) (JsMap.keys (outOf st x)))
             (allocatedList st)
  && forallb (fun y =>
                forallb (fun x => memb x l) (JsMap.keys (inOf st y))
                && forallb (fun x => bool_decide (JsMap.get (inOf st y) x
                                                  = JsMap.get (outOf st x) y)) l) l
  && forallb (fun x => nodupb (JsMap.keys (outOf st x)) && nodupb (JsMap.keys (inOf st x))) l
  && forallb (fun x => forallb (fun e : nat * CharSet => negb (CharSet.isEmpty (snd e)))
                               (outOf st x)) l
  && memb (initial this) l
  && forallb (fun f => memb f l) (getSet st (final this))
  && nodupb (getSet st (final this)).

Lemma memb_In x l : memb x l = true <-> In x l.
Proof.
  unfold memb. rewrite existsb_exists. split.
  - intros (y & Hy & E). apply Nat.eqb_eq in E as ->. exact Hy.
  - intros H. exists x. split; [exact H|apply Nat.eqb_refl].
Qed.

Lemma In_nodesOf this st x :
  In x (nodesOf this st) <-> allocated st x /\ owner st x = nl_id this.
Proof.
  unfold nodesOf. rewrite filter_In, In_allocatedList, Nat.eqb_eq. reflexivity.
Qed.

Lemma closedStoreb_sound st : closedStoreb st = true -> closedStore st.
Proof.
  unfold closedStoreb. rewrite forallb_forall. intros H a b Hb.
  destruct (allocated_of_out _ _ _ Hb) as (n & Hn & Hout).
  specialize (H (a, n)). simpl in H.
  rewrite <- list_elem_of_In, elem_of_map_to_list in H. specialize (H Hn).
  rewrite forallb_forall in H. apply allocatedb_sound. apply H. rewrite Hout. exact Hb.
Qed.

Lemma nodeListInvb_sound this st : nodeListInvb this st = true -> nodeListInv this st.
Proof.
  unfold nodeListInvb, nodeListInv. intros H.
  repeat match type of H with
         | _ && _ = true => let H' := fresh "B" in apply andb_true_iff in H as [H H']
         end.
  rename H into B6.
  rewrite forallb_forall in B6, B5, B4, B3, B2, B0.
  apply memb_In in B1. apply nodupb_sound in B.
  assert (HN : forall x, allocated st x /\ owner st x = nl_id this <-> In x (nodesOf this st)).
  { intros x. symmetry. apply In_nodesOf. }
  assert (Hout : forall x y, In x (nodesOf this st) -> succ st x y -> In y (nodesOf this st)).
  { intros x y Hx Hy. specialize (B6 x Hx). rewrite forallb_forall in B6.
    apply memb_In. apply B6. exact Hy. }
  assert (Hinto : forall x y, succ st x y -> In y (nodesOf this st) -> In x (nodesOf this st)).
  { intros x y Hy Hn. assert (Ha : allocated st x) by (eapply succ_allocated; eauto).
    apply In_allocatedList in Ha. specialize (B5 x Ha).
    apply orb_true_iff in B5 as [B5|B5]; [apply memb_In, B5|].
    rewrite forallb_forall in B5. specialize (B5 y Hy).
    apply negb_true_iff in B5. apply memb_In in Hn. congruence. }
  split.
  - intros x Hx. exact Hx.
  - intros x y Hx Hy. apply HN. apply HN in Hx. eauto.
  - intros x y Hy Hn. apply HN. apply HN in Hn. eauto.
  - intros x y Hy. apply HN in Hy. specialize (B4 y Hy).
    apply andb_true_iff in B4 as [K1 K2]. rewrite forallb_forall in K1, K2.
    destruct (in_dec Nat.eq_dec x (nodesOf this st)) as [Hx|Hx].
    + specialize (K2 x Hx). apply bool_decide_eq_true in K2. exact K2.
    + assert (E1 : JsMap.get (inOf st y) x = None).
      { apply get_None_keys. intros Hk. apply Hx. apply memb_In. apply K1. exact Hk. }
      assert (E2 : JsMap.get (outOf st x) y = None).
      { apply get_None_keys. intros Hk. apply Hx. eapply Hinto; eauto. }
      congruence.
  - intros x Hx. apply HN in Hx. specialize (B3 x Hx). apply andb_true_iff in B3 as [K _].
    apply nodupb_sound, K.
  - intros x Hx. apply HN in Hx. specialize (B3 x Hx). apply andb_true_iff in B3 as [_ K].
    apply nodupb_sound, K.
  - intros x y S Hx Hin. apply HN in Hx. specialize (B2 x Hx). rewrite forallb_forall in B2.
    apply negb_true_iff. apply (B2 (y, S)). exact Hin.
  - apply HN. exact B1.
  - intros f Hf. apply HN. apply memb_In. apply B0. exact Hf.
  - exact B.
Qed.

Lemma linkNodes_owners this from to chars st st' :
  linkNodes this from to chars st = Ok (tt, st') ->
  owner st from = nl_id this /\ owner st to = nl_id this.
Proof.
  unfold linkNodes, owner.
  destruct (node_list (getNode st from) =? node_list (getNode st to)) eqn:E1; [|discriminate].
  destruct (node_list (getNode st from) =? nl_id this) eqn:E2; [|discriminate].
  apply Nat.eqb_eq in E1, E2. intros _. split; congruence.
Qed.

Lemma unlinkNodes_owners this from to st st' :
  unlinkNodes this from to st = Ok (tt, st') ->
  owner st from = nl_id this /\ owner st to = nl_id this.
Proof.
  unfold unlinkNodes, owner.
  destruct (node_list (getNode st from) =? node_list (getNode st to)) eqn:E1; [|discriminate].
  destruct (node_list (getNode st from) =? nl_id this) eqn:E2; [|discriminate].
  apply Nat.eqb_eq in E1, E2. intros _. split; congruence.
Qed.

Lemma nodeListInv_linkNodes this from to chars st st' :
  nodeListInv this st -> allocated st from -> allocated st to ->
  linkNodes this from to chars st = Ok (tt, st') -> nodeListInv this st'.
Proof.
  intros R Hf Ht Hrun. destruct (linkNodes_owners _ _ _ _ _ _ Hrun) as [Of Ot].
  unfold nodeListInv in *.
  pose proof (region_linkNodes this st st' _ from to chars Hrun (conj Hf Of) (conj Ht Ot) R) as R'.
  apply linkNodes_effect in Hrun as (_ & _ & Hown & _ & Hal & _).
  eapply region_ext; [|exact R']. intros x. simpl. rewrite Hal, Hown.
  clear -Hf Ht. intuition (subst; intuition).
Qed.

Lemma nodeListInv_unlinkNodes this from to st st' :
  nodeListInv this st -> allocated st from -> allocated st to ->
  unlinkNodes this from to st = Ok (tt, st') -> nodeListInv this st'.
Proof.
  intros R Hf Ht Hrun. destruct (unlinkNodes_owners _ _ _ _ _ Hrun) as [Of Ot].
  unfold nodeListInv in *.
  pose proof (region_unlinkNodes this st st' _ from to Hrun (conj Hf Of) (conj Ht Ot) R) as R'.
  apply unlinkNodes_effect in Hrun as (_ & _ & Hown & _ & Hal & _).
  eapply region_ext; [|exact R']. intros x. simpl. rewrite Hal, Hown.
  clear -Hf Ht. intuition (subst; intuition).
Qed.

Lemma nodeListInv_createNode this st r st' :
  nodeListInv this st -> closedStore st ->
  createNode (nl_id this) st = Ok (r, st') -> nodeListInv this st'.
Proof.
  intros R Hcl Hrun. unfold nodeListInv in *.
  pose proof (region_createNode this st st' _ r Hrun Hcl R) as R'.
  destruct (createNode_spec (nl_id this) st)
    as (r' & st'' & Hrun' & Hfresh & Hal & Hown & Hown' & _).
  rewrite Hrun' in Hrun. injection Hrun as <- <-.
  eapply region_ext; [|exact R']. intros x. simpl. rewrite Hal. split.
  - intros [->|[Ha Ho]]; [split; [auto|exact Hown]|].
    split; [auto|]. rewrite Hown'; [exact Ho|]. intros ->. contradiction.
  - intros [[->|Ha] Ho]; [auto|]. right. split; [exact Ha|].
    rewrite <- Hown'; [exact Ho|]. intros ->. contradiction.
Qed.

Lemma closedStore_linkNodes this from to chars st st' :
  closedStore st -> allocated st to ->
  linkNodes this from to chars st = Ok (tt, st') -> closedStore st'.
Proof.
  intros Hcl Ht Hrun a b. apply linkNodes_effect in Hrun as (Hout & _ & _ & _ & Hal & _).
  unfold succ. rewrite Hout, Hal. destruct (decide (from = a)) as [<-|_].
  - rewrite keys_add. intros [->|H]; [auto|]. right; right. eapply Hcl; exact H.
  - intros H. right; right. eapply Hcl; exact H.
Qed.

Lemma closedStore_unlinkNodes this from to st st' :
  closedStore st -> unlinkNodes this from to st = Ok (tt, st') -> closedStore st'.
Proof.
  intros Hcl Hrun a b. apply unlinkNodes_effect in Hrun as (Hout & _ & _ & _ & Hal & _).
  unfold succ. rewrite Hout, Hal. destruct (decide (from = a)) as [<-|_].
  - rewrite In_keys_delete. intros [_ H]. right; right. eapply Hcl; exact H.
  - intros H. right; right. eapply Hcl; exact H.
Qed.

Lemma closedStore_createNode l st r st' :
  closedStore st -> createNode l st = Ok (r, st') -> closedStore st'.
Proof.
  intros Hcl Hrun a b.
  destruct (createNode_spec l st) as (r' & st'' & Hrun' & _ & Hal & _ & _ & Hout & _).
  rewrite Hrun' in Hrun. injection Hrun as <- <-.
  unfold succ. rewrite Hout, Hal. intros H. right. eapply Hcl; exact H.
Qed.

(** ** Linking and unlinking *)

Lemma delete_set_fresh {V} (m : list (nat * V)) k v :
  JsMap.get m k = None -> JsMap.delete (JsMap.set m k v) k = m.
Proof.
  induction m as [|[k0 v0] tl IH]; simpl.
  - intros _. rewrite Nat.eqb_refl. reflexivity.
  - destruct (k0 =? k) eqn:E; [discriminate|]. intros H. simpl. rewrite E. simpl.
    f_equal. apply IH, H.
Qed.

Lemma delete_add_fresh m to chars :
  JsMap.get m to = None -> JsMap.delete (add m to chars) to = m.
Proof. intros H. unfold add. rewrite H. apply delete_set_fresh, H. Qed.

Lemma store_ext st st' :
  (forall r, allocated st' r <-> allocated st r) ->
  (forall r, getNode st' r = getNode st r) ->
  store_sets st' = store_sets st -> nodeCounter st' = nodeCounter st ->
  NodeList_counter st' = NodeList_counter st ->
  st' = st.
Proof.
  destruct st as [n s c k], st' as [n' s' c' k']. unfold allocated, getNode. simpl.
  intros Ha Hg -> -> ->. f_equal. apply map_eq. intros r.
  specialize (Ha r). specialize (Hg r).
  destruct (n' !! r) as [x'|], (n !! r) as [x|]; simpl in *.
  - congruence.
  - exfalso. destruct Ha as [Ha _]. destruct Ha; eauto. discriminate.
  - exfalso. destruct Ha as [_ Ha]. destruct Ha; eauto. discriminate.
  - reflexivity.
Qed.

Lemma node_eta n : mkNode (node_id n) (node_list n) (out n) (in_ n) = n.
Proof. destruct n. reflexivity. Qed.

(** ** Further properties of the node list primitives *)

(** X1.  [unlinkNodes(from, to)] fails with the cross-list error when the
    two nodes belong to different lists or not to the called one, and with
    the missing-edge error when [from.out] has no entry for [to] (only this
    map is consulted).  Otherwise it succeeds: afterwards [from.out] has no
    entry for [to], [to.in] has none for [from], and every other entry of
    every adjacency map is as before. *)
Theorem unlinkNodes_spec (this : NodeList) (from to : nat) (st : Store) :
  let crossList :=
    node_list (getNode st from) <> node_list (getNode st to)
    \/ node_list (getNode st from) <> nl_id this in
  (crossList -> unlinkNodes this from to st = Err CrossListLink)
  /\ (~ crossList -> JsMap.has (outOf st from) to = false ->
      unlinkNodes this from to st = Err MissingEdge)
  /\ (~ crossList -> JsMap.has (outOf st from) to = true ->
      exists st',
        unlinkNodes this from to st = Ok (tt, st')
        /\ JsMap.get (outOf st' from) to = None
        /\ JsMap.get (inOf st' to) from = None
        /\ (forall a k, (a, k) <> (from, to) ->
                        JsMap.get (outOf st' a) k = JsMap.get (outOf st a) k)
        /\ (forall b k, (b, k) <> (to, from) ->
                        JsMap.get (inOf st' b) k = JsMap.get (inOf st b) k)).
Proof.
  intros crossList. subst crossList. unfold unlinkNodes.
  destruct (node_list (getNode st from) =? node_list (getNode st to)) eqn:E1; simpl.
  - destruct (node_list (getNode st from) =? nl_id this) eqn:E2; simpl.
    + apply Nat.eqb_eq in E1, E2. split; [intros [H|H]; contradiction|].
      split; intros _ ->; [reflexivity|]. simpl.
      eexists. split; [reflexivity|].
      autorewrite with store. rewrite !decide_True by reflexivity.
      rewrite !JsMapFacts.get_delete_eq. split; [reflexivity|]. split; [reflexivity|].
      split.
      * intros a k Hne. autorewrite with store.
        destruct (decide (from = a)) as [<-|Ha]; [|reflexivity].
        apply JsMapFacts.get_delete_ne. congruence.
      * intros b k Hne. autorewrite with store.
        destruct (decide (to = b)) as [<-|Hb]; [|reflexivity].
        apply JsMapFacts.get_delete_ne. congruence.
    + apply Nat.eqb_neq in E2. split; [reflexivity|].
      split; intros H; exfalso; apply H; right; exact E2.
  - apply Nat.eqb_neq in E1. split; [reflexivity|].
    split; intros H; exfalso; apply H; left; exact E1.
Qed.

(** X2.  Linking two nodes of a list that had no edge between them, and
    unlinking them again, gives back the store as it was: the new entries
    come last in the two maps and are the ones that go. *)
Theorem linkNodes_unlinkNodes_roundtrip (this : NodeList) (from to : nat) (chars : CharSet)
    (st : Store) :
  allocated st from -> allocated st to ->
  owner st from = nl_id this -> owner st to = nl_id this ->
  CharSet.isEmpty chars = false ->
  JsMap.get (outOf st from) to = None -> JsMap.get (inOf st to) from = None ->
  (linkNodes this from to chars ;;; unlinkNodes this from to) st = Ok (tt, st).
Proof.
  intros Hf Ht Of Ot Hne Hout Hin.
  destruct (linkNodes_succeeds this from to chars st Of Ot Hne) as (st1 & Hlk).
  pose proof (linkNodes_effect _ _ _ _ _ _ Hlk) as (Hout1 & Hin1 & Hown1 & Hset1 & Hal1 & _).
  destruct (unlinkNodes_succeeds this from to st1) as (st2 & Hul).
  { rewrite Hown1. exact Of. }
  { rewrite Hown1. exact Ot. }
  { rewrite Hout1, decide_True by reflexivity. apply keys_add. auto. }
  unfold bind. rewrite Hlk, Hul. f_equal. f_equal.
  unfold linkNodes in Hlk. unfold owner in Of, Ot. rewrite Of, Ot, Nat.eqb_refl, Hne in Hlk.
  simpl in Hlk. injection Hlk as <-.
  unfold unlinkNodes in Hul.
  destruct (negb _) in Hul; [discriminate|]. destruct (negb _) in Hul; [discriminate|].
  destruct (negb _) in Hul; [discriminate|]. injection Hul as <-.
  apply store_ext; try reflexivity.
  - intros r. repeat (rewrite allocated_setIn || rewrite allocated_setOut).
    split; [intros [->|[->|[->|[->|H]]]]; assumption | tauto].
  - intros r.
    repeat (rewrite ?getNode_setIn, ?getNode_setOut; autorewrite with store; simpl).
    destruct (decide (to = r)) as [Etr|Hto]; destruct (decide (from = to)) as [Eft|Hft];
      destruct (decide (from = r)) as [Efr|Hfr]; try congruence;
      repeat (rewrite ?getNode_setIn, ?getNode_setOut, ?decide_True, ?decide_False by congruence;
              autorewrite with store; simpl);
      rewrite ?decide_True, ?decide_False by congruence;
      rewrite ?delete_add_fresh by assumption; try reflexivity.
    + subst. unfold outOf, inOf. apply node_eta.
    + subst. unfold inOf. apply node_eta.
    + subst. unfold outOf. apply node_eta.
Qed.

Lemma linkNodes_unlinkNodes_roundtrip_witness :
  (linkNodes (nodes twoLeft) 0 3 (CharSet.mk 65535 [CharSet.mkRange 97 99]) ;;;
   unlinkNodes (nodes twoLeft) 0 3) twoStore = Ok (tt, twoStore).
Proof.
  apply (linkNodes_unlinkNodes_roundtrip (nodes twoLeft) 0 3
           (CharSet.mk 65535 [CharSet.mkRange 97 99]) twoStore);
    try (apply allocatedb_sound); vm_compute; reflexivity.
Defined.

(** X3.  The structural invariant of a node list (its nodes are closed under
    the edges in both directions, [in] mirrors [out] entry by entry, no key
    twice, no empty label, initial and final nodes inside) and the closure
    of the store survive [createNode], a successful [linkNodes] and a
    successful [unlinkNodes] on existing nodes. *)
Theorem primitives_keep_invariant (this : NodeList) (st : Store) :
  nodeListInv this st -> closedStore st ->
  (forall r st', createNode (nl_id this) st = Ok (r, st') ->
                 nodeListInv this st' /\ closedStore st')
  /\ (forall from to chars st',
         allocated st from -> allocated st to ->
         linkNodes this from to chars st = Ok (tt, st') ->
         nodeListInv this st' /\ closedStore st')
  /\ (forall from to st',
         allocated st from -> allocated st to ->
         unlinkNodes this from to st = Ok (tt, st') ->
         nodeListInv this st' /\ closedStore st').
Proof.
  intros R Hcl. split; [|split].
  - intros r st' Hrun. split.
    + exact (nodeListInv_createNode _ _ _ _ R Hcl Hrun).
    + exact (closedStore_createNode _ _ _ _ Hcl Hrun).
  - intros from to chars st' Hf Ht Hrun. split.
    + exact (nodeListInv_linkNodes _ _ _ _ _ _ R Hf Ht Hrun).
    + exact (closedStore_linkNodes _ _ _ _ _ _ Hcl Ht Hrun).
  - intros from to st' Hf Ht Hrun. split.
    + exact (nodeListInv_unlinkNodes _ _ _ _ _ R Hf Ht Hrun).
    + exact (closedStore_unlinkNodes _ _ _ _ _ Hcl Hrun).
Qed.

Lemma primitives_keep_invariant_witness :
  (forall r st', createNode (nl_id (nodes twoLeft)) twoStore = Ok (r, st') ->
                 nodeListInv (nodes twoLeft) st' /\ closedStore st')
  /\ (forall from to chars st',
         allocated twoStore from -> allocated twoStore to ->
         linkNodes (nodes twoLeft) from to chars twoStore = Ok (tt, st') ->
         nodeListInv (nodes twoLeft) st' /\ closedStore st')
  /\ (forall from to st',
         allocated twoStore from -> allocated twoStore to ->
         unlinkNodes (nodes twoLeft) from to twoStore = Ok (tt, st') ->
         nodeListInv (nodes twoLeft) st' /\ closedStore st').
Proof.
  apply (primitives_keep_invariant (nodes twoLeft) twoStore).
  - apply nodeListInvb_sound. vm_compute. reflexivity.
  - apply closedStoreb_sound. vm_compute. reflexivity.
Defined.

(** ** Further properties of the NFA methods *)

(** The automaton of no words: a fresh node list. *)
Definition noWordsStore : Store :=
  Eval vm_compute in
    match fromWords [] options16 emptyStore with Ok (_, st) => st | Err _ => emptyStore end.
Definition noWords : NFA :=
  Eval vm_compute in
    match fromWords [] options16 emptyStore with
    | Ok (a, _) => a
    | Err _ => mkNFA (mkNodeList 0 (mkSubList 0 0)) options16
    end.

(** X4.  An automaton whose [isEmpty] is true rejects every word. *)
Theorem isEmpty_rejects_all (this : NFA) (st : Store) :
  isEmpty this st = Ok (true, st) ->
  forall word, test this word st = Ok (false, st).
Proof.
  unfold isEmpty, bind, setSize, gets, ret. intros [= H]. apply size_zero in H.
  intros word. rewrite test_matches. f_equal. f_equal.
  destruct (matches _ _ _ _) eqn:E; [|reflexivity].
  apply matches_path in E as (f & Hf & _). rewrite H in Hf. destruct Hf.
Qed.

Lemma isEmpty_rejects_all_witness :
  isEmpty noWords noWordsStore = Ok (true, noWordsStore)
  /\ forall word, test noWords word noWordsStore = Ok (false, noWordsStore).
Proof.
  split; [vm_compute; reflexivity|].
  apply (isEmpty_rejects_all noWords noWordsStore). vm_compute. reflexivity.
Defined.




(** ** Languages of the transformed automata *)

(** X7.  On a node list that keeps its invariant, [removeUnreachable]
    returns and the list accepts the words it accepted before; the nodes of
    other lists keep their edges. *)
Theorem removeUnreachable_keeps_language (this : NodeList) (st : Store) :
  nodeListInv this st ->
  exists st',
    removeUnreachable this st = Ok (tt, st')
    /\ (forall w, accepts st' this w <-> accepts st this w)
    /\ (forall a, owner st a <> nl_id this -> outOf st' a = outOf st a).
Proof.
  intros R.
  destruct (removeUnreachable_language this st _ R) as (st' & Hrun & Hlang & _ & _ & Hout).
  exists st'. split; [exact Hrun|]. split; [exact Hlang|].
  intros a Ha. apply Hout. intros [_ H]. contradiction.
Qed.

Lemma removeUnreachable_keeps_language_witness :
  exists st',
    removeUnreachable (nodes twoLeft) twoStore = Ok (tt, st')
    /\ (forall w, accepts st' (nodes twoLeft) w <-> accepts twoStore (nodes twoLeft) w)
    /\ (forall a, owner twoStore a <> nl_id (nodes twoLeft) -> outOf st' a = outOf twoStore a).
Proof.
  apply (removeUnreachable_keeps_language (nodes twoLeft) twoStore).
  apply nodeListInvb_sound. vm_compute. reflexivity.
Defined.

(** X8.  On a node list that keeps its invariant,
    [baseOptimizationReuseFinalStates] returns and the list accepts the
    words it accepted before: merging the final nodes without outgoing
    edges into the last of them changes no word. *)
Theorem reuseFinalStates_keeps_language (this : NodeList) (st : Store) :
  nodeListInv this st ->
  exists st',
    baseOptimizationReuseFinalStates this this st = Ok (tt, st')
    /\ (forall w, accepts st' this w <-> accepts st this w)
    /\ (forall a, owner st a <> nl_id this -> outOf st' a = outOf st a).
Proof.
  intros R.
  destruct (reuseFinals_language this st _ R) as (st' & Hrun & Hlang & _ & Hout).
  exists st'. split; [exact Hrun|]. split; [exact Hlang|].
  intros a Ha. apply Hout. intros [_ H]. contradiction.
Qed.

Lemma reuseFinalStates_keeps_language_witness :
  exists st',
    baseOptimizationReuseFinalStates deadEndList deadEndList deadEndStore = Ok (tt, st')
    /\ (forall w, accepts st' deadEndList w <-> accepts deadEndStore deadEndList w)
    /\ (forall a, owner deadEndStore a <> nl_id deadEndList ->
                  outOf st' a = outOf deadEndStore a).
Proof.
  apply (reuseFinalStates_keeps_language deadEndList deadEndStore).
  apply nodeListInvb_sound. vm_compute. reflexivity.
Defined.

(** X9.  [localCopy] returns a copy made of new nodes of the given list and
    a new set of final nodes; the copy accepts the words of the original,
    and every node and set that existed is left as it was. *)
Theorem localCopy_copies (nodeList : NodeList) (toCopy : SubList) (st : Store) :
  good st -> allocated st (initial toCopy) -> allocatedSet st (final toCopy) ->
  exists copy st',
    localCopy nodeList toCopy st = Ok (copy, st')
    /\ (forall w, accepts st' copy w <-> accepts st toCopy w)
    /\ (forall w, accepts st' toCopy w <-> accepts st toCopy w)
    /\ ~ allocated st (initial copy) /\ ~ allocatedSet st (final copy)
    /\ (forall y, rtc (succ st') (initial copy) y ->
                  ~ allocated st y /\ owner st' y = nl_id nodeList)
    /\ (forall a, allocated st a -> outOf st' a = outOf st a /\ owner st' a = owner st a)
    /\ (forall t, allocatedSet st t -> getSet st' t = getSet st t).
Proof.
  intros G Hi Hs.
  destruct (localCopy_spec nodeList toCopy st G Hi Hs)
    as (copy & st' & Hrun & G' & Hold & Hsets & Hfs & Hals & Hni & Hai & Hfin & Hnew & Hlang & _).
  exists copy, st'. split; [exact Hrun|]. split; [exact Hlang|].
  assert (Hkeep : forall t, allocatedSet st t -> getSet st' t = getSet st t).
  { intros t Ht. apply Hsets. intros ->. contradiction. }
  split; [|split; [exact Hni|split; [exact Hfs|split; [|split; [|exact Hkeep]]]]].
  - intros w. apply accepts_frame; auto.
    intros x Hx. apply (Hold x Hx).
  - intros y Hy.
    assert (H : allocated st' y /\ ~ allocated st y).
    { induction Hy as [x|x y z Hxy _ IH]; [split; assumption|].
      apply IH; apply (Hnew x Hai Hni); exact Hxy. }
    destruct H as [H1 H2]. split; [exact H2|]. apply (Hnew y H1 H2).
  - intros a Ha. destruct (Hold a Ha) as (_ & H1 & H2). auto.
Qed.

Lemma localCopy_copies_witness :
  exists copy st',
    localCopy optionalABList optionalABList optionalABStore = Ok (copy, st')
    /\ (forall w, accepts st' copy w <-> accepts optionalABStore optionalABList w)
    /\ (forall w, accepts st' optionalABList w <-> accepts optionalABStore optionalABList w)
    /\ ~ allocated optionalABStore (initial copy)
    /\ ~ allocatedSet optionalABStore (final copy)
    /\ (forall y, rtc (succ st') (initial copy) y ->
                  ~ allocated optionalABStore y /\ owner st' y = nl_id optionalABList)
    /\ (forall a, allocated optionalABStore a ->
                  outOf st' a = outOf optionalABStore a /\ owner st' a = owner optionalABStore a)
    /\ (forall t, allocatedSet optionalABStore t -> getSet st' t = getSet optionalABStore t).
Proof.
  apply (localCopy_copies optionalABList optionalABList optionalABStore).
  - apply goodb_sound. vm_compute. reflexivity.
  - apply allocatedb_sound. vm_compute. reflexivity.
  - apply allocatedSetb_sound. vm_compute. reflexivity.
Defined.

(** X10.  Appending a copy: on a well-formed base and a normalized
    sub-automaton [toCopy], [baseConcat(base, localCopy(toCopy))] returns
    and [base] then accepts exactly the words [u ++ v] with [u] accepted by
    [base] and [v] by [toCopy] before; [toCopy] may be [base] itself. *)
Theorem baseConcat_copy_language (nodeList : NodeList) (base toCopy : SubList) (st : Store) :
  wellFormed st nodeList base ->
  allocated st (initial toCopy) -> allocatedSet st (final toCopy) ->
  (forall x, rtc (succ st) (initial toCopy) x -> ~ succ st x (initial toCopy)) ->
  exists st',
    (c <- localCopy nodeList toCopy ;; baseConcat nodeList base c) st = Ok (tt, st')
    /\ forall w, accepts st' base w <->
                 exists u v, w = u ++ v /\ accepts st base u /\ accepts st toCopy v.
Proof.
  intros W Hi Hs Hnorm. pose proof (wellFormed_rooted _ _ _ W) as R.
  destruct (copy_step nodeList toCopy st base R Hi Hs Hnorm)
    as (c & st1 & Hrun1 & R1 & P1 & A1 & Hold & Hsets & Hlang1 & _).
  destruct (concat_step nodeList st1 base c _ R1 P1 A1) as (st2 & Hrun2 & _ & Hlang2 & _).
  exists st2. split; [unfold bind; rewrite Hrun1; exact Hrun2|].
  intros w. rewrite Hlang2.
  assert (Hbase : forall u, accepts st1 base u <-> accepts st base u).
  { intros u. apply accepts_frame.
    - apply (rt_good _ _ _ R).
    - apply (rt_init _ _ _ R).
    - intros x Hx. apply (Hold x Hx).
    - apply (Hsets _ (rt_set _ _ _ R)). }
  split; intros (u & v & -> & Hu & Hv); exists u, v; (split; [reflexivity|]).
  - split; [apply Hbase, Hu|apply Hlang1, Hv].
  - split; [apply Hbase, Hu|apply Hlang1, Hv].
Qed.

Lemma baseConcat_copy_language_witness :
  exists st',
    (c <- localCopy optionalABList optionalABList ;;
     baseConcat optionalABList optionalABList c) optionalABStore = Ok (tt, st')
    /\ forall w, accepts st' optionalABList w <->
                 exists u v, w = u ++ v /\ accepts optionalABStore optionalABList u
                             /\ accepts optionalABStore optionalABList v.
Proof.
  apply (baseConcat_copy_language optionalABList optionalABList optionalABList optionalABStore).
  - apply wellFormedb_sound. vm_compute. reflexivity.
  - apply allocatedb_sound. vm_compute. reflexivity.
  - apply allocatedSetb_sound. vm_compute. reflexivity.
  - intros x _. apply normalized_no_pred.
    + intros y. apply mirrorb_sound. vm_compute. reflexivity.
    + vm_compute. reflexivity.
Defined.

(** ** basePlus *)

(** The graph after [basePlus]: every final node but the initial one has
    taken a copy of the edges of the initial node [i]. *)
Section PlusPaths.
Variables (st st' : Store) (i : nat) (finals : list nat).
Hypothesis Hstep : forall x c y,
  step st' x c y <-> step st x c y \/ (In x finals /\ x <> i /\ step st i c y).

Let L (w : list Z) : Prop := exists f, In f finals /\ path st i w f.

Lemma plus_old_path x w y : path st x w y -> path st' x w y.
Proof.
  induction 1 as [a|a c b w d Hs _ IH]; [constructor|].
  econstructor; [apply Hstep; left; exact Hs|exact IH].
Qed.

Lemma plus_split x w f :
  path st' x w f ->
  path st x w f
  \/ exists u v g, w = u ++ v /\ path st x u g /\ In g finals /\ g <> i
                   /\ path st' i v f.
Proof.
  induction 1 as [a|a c b w d Hs Hp IH]; [left; constructor|].
  apply Hstep in Hs as [Hs|(Hf & Hne & Hs)].
  - destruct IH as [IH|(u & v & g & -> & Hu & Hg & Hne & Hv)].
    + left. econstructor; eauto.
    + right. exists (c :: u), v, g. split; [reflexivity|].
      split; [econstructor; eauto|auto].
  - right. exists [], (c :: w), a. split; [reflexivity|]. split; [constructor|].
    split; [exact Hf|]. split; [exact Hne|].
    econstructor; [apply Hstep; left; exact Hs|exact Hp].
Qed.

Lemma plus_sound n : forall w f,
  length w <= n -> In f finals -> path st' i w f -> exists k, power (Datatypes.S k) L w.
Proof.
  induction n as [|n IH]; intros w f Hlen Hf Hp.
  - destruct w; [|simpl in Hlen; lia]. apply path_nil_inv in Hp. subst f.
    exists 0. apply (proj2 (power_one L [])). exists i. split; [exact Hf|constructor].
  - destruct (plus_split _ _ _ Hp) as [Hold|(u & v & g & -> & Hu & Hg & Hne & Hv)].
    + exists 0. apply (proj2 (power_one L w)). exists f. auto.
    + assert (Hu' : u <> []) by (intros ->; apply path_nil_inv in Hu; congruence).
      rewrite length_app in Hlen.
      destruct (IH v f) as (k & Hk); [destruct u; [congruence|simpl in Hlen; lia]| | |]; auto.
      exists (Datatypes.S k). exists u, v. split; [reflexivity|]. split; [|exact Hk].
      exists g. auto.
Qed.

Lemma plus_complete k : forall w,
  power (Datatypes.S k) L w -> exists f, In f finals /\ path st' i w f.
Proof.
  induction k as [|k IH]; intros w Hw.
  - apply (proj1 (power_one L w)) in Hw as (f & Hf & Hp). exists f. split; [exact Hf|].
    apply plus_old_path, Hp.
  - destruct Hw as (u & v & -> & (g & Hg & Hu) & Hv).
    apply IH in Hv as (f & Hf & Hv). apply plus_old_path in Hu.
    destruct v as [|c v].
    + apply path_nil_inv in Hv. subst f. rewrite app_nil_r. exists g. auto.
    + exists f. split; [exact Hf|]. eapply path_app; [exact Hu|].
      destruct (decide (g = i)) as [->|Hne]; [exact Hv|].
      apply path_cons_inv in Hv as (y & Hs & Hv).
      econstructor; [|exact Hv]. apply Hstep. right. split; [exact Hg|]. split; [exact Hne|].
      apply Hstep in Hs as [Hs|(_ & Hii & _)]; [exact Hs|congruence].
Qed.

Lemma plus_language w :
  (exists f, In f finals /\ path st' i w f) <-> exists k, power (Datatypes.S k) L w.
Proof.
  split.
  - intros (f & Hf & Hp). eapply plus_sound; eauto.
  - intros (k & Hk). eapply plus_complete; eauto.
Qed.
End PlusPaths.

(** [basePlus] on a rooted sub-automaton. *)
Lemma basePlus_spec nodeList base st :
  rooted nodeList st base ->
  exists st',
    basePlus nodeList base st = Ok (tt, st')
    /\ good st'
    /\ (forall x c y, step st' x c y <->
          step st x c y
          \/ (In x (getSet st (final base)) /\ x <> initial base
              /\ step st (initial base) c y))
    /\ (forall x y, succ st' x y <->
          succ st x y
          \/ (In x (getSet st (final base)) /\ x <> initial base
              /\ succ st (initial base) y))
    /\ (forall x, ~ (In x (getSet st (final base)) /\ x <> initial base) ->
                  outOf st' x = outOf st x)
    /\ (forall a, owner st' a = owner st a)
    /\ (forall a, allocated st a -> allocated st' a)
    /\ (forall t, getSet st' t = getSet st t)
    /\ (forall t, allocatedSet st' t <-> allocatedSet st t).
Proof.
  intros [G Hi Hs Ho Hsu Hf]. unfold basePlus, bind at 1, setElements, gets.
  set (fs := getSet st (final base)) in *. set (bi := initial base) in *.
  destruct (forEach_total
              (fun pre s =>
                 good s
                 /\ (forall x c y, step s x c y <->
                       step st x c y \/ (In x pre /\ x <> bi /\ step st bi c y))
                 /\ (forall x y, succ s x y <->
                       succ st x y \/ (In x pre /\ x <> bi /\ succ st bi y))
                 /\ (forall x, ~ (In x pre /\ x <> bi) -> outOf s x = outOf st x)
                 /\ (forall a, owner s a = owner st a)
                 /\ (forall a, allocated st a -> allocated s a)
                 /\ (forall t, getSet s t = getSet st t)
                 /\ (forall t, allocatedSet s t <-> allocatedSet st t))
              fs
              (fun f =>
                 if f =? bi then ret tt
                 else
                   edges <- gets (fun st => outOf st bi) ;;
                   forEach edges (fun e => linkNodes nodeList f (fst e) (snd e)))
              st) as (st' & Hrun & H).
  - split; [exact G|]. split; [intros x c y; simpl; tauto|].
    split; [intros x y; simpl; tauto|].
    split; [reflexivity|]. split; [reflexivity|]. split; [auto|]. split; reflexivity.
  - intros pre f post s1 E (G1 & St1 & Su1 & Out1 & Own1 & Al1 & Set1 & As1).
    assert (Hfin : In f fs) by (rewrite E; apply in_elt).
    destruct (f =? bi) eqn:Ef.
    + apply Nat.eqb_eq in Ef. subst f. exists s1. split; [reflexivity|].
      split; [exact G1|]. split; [|split; [|split; [|auto]]].
      * intros x c y. rewrite St1, in_app_iff. simpl. clear. intuition congruence.
      * intros x y. rewrite Su1, in_app_iff. simpl. clear. intuition congruence.
      * intros x Hx. apply Out1. intros [H1 H2]. apply Hx. split; [|exact H2].
        apply in_app_iff. auto.
    + apply Nat.eqb_neq in Ef.
      assert (Ebi : outOf s1 bi = outOf st bi).
      { apply Out1. intros [_ H]. congruence. }
      unfold bind, gets. rewrite Ebi.
      destruct (link_all nodeList (map (fun e => (f, e)) (outOf st bi)) s1 G1)
        as (s2 & Hrun2 & G2 & St2 & Su2 & Out2 & Own2 & Al2 & Set2 & As2).
      { intros x y S Hin. apply in_map_iff in Hin as (e & [= <- ->] & He).
        rewrite !Own1. split; [apply (Hf f Hfin)|]. split.
        - apply Hsu. apply JsMapFacts.In_keys. eapply JsMapFacts.In_get. exact He.
        - eapply (good_labels _ G). exact He. }
      rewrite forEach_map in Hrun2. simpl in Hrun2.
      exists s2. split; [exact Hrun2|]. split; [exact G2|].
      split; [|split; [|split; [|split; [|split; [|split]]]]].
      * intros x c y. rewrite St2, St1, in_app_iff. simpl. split.
        -- intros [[H|H]|(S & Hin & Hc)]; [auto|right; tauto|].
           apply in_map_iff in Hin as (e & [= <- ->] & He).
           right. split; [auto|]. split; [exact Ef|]. exists S. simpl. auto.
        -- intros [H|([H|[<-|[]]] & Hne & H')]; [auto|left; right; auto|].
           destruct H' as (S & Hin & Hc). right. exists S. split; [|exact Hc].
           apply in_map_iff. exists (y, S). auto.
      * intros x y. rewrite Su2, Su1, in_app_iff. simpl. split.
        -- intros [[H|H]|(S & Hin)]; [auto|right; tauto|].
           apply in_map_iff in Hin as (e & [= <- ->] & He).
           right. split; [auto|]. split; [exact Ef|]. apply succ_entries. eauto.
        -- intros [H|([H|[<-|[]]] & Hne & H')]; [auto|left; right; auto|].
           apply succ_entries in H' as (S & Hin). right. exists S.
           apply in_map_iff. exists (y, S). auto.
      * intros x Hx. rewrite Out2.
        -- apply Out1. intros [H1 H2]. apply Hx. split; [|exact H2]. apply in_app_iff. auto.
        -- intros e Hin. apply in_map_iff in Hin as (e' & [= <- _] & _).
           apply Hx. split; [apply in_app_iff; right; left; reflexivity|exact Ef].
      * intros a. rewrite Own2. apply Own1.
      * intros a Ha. apply Al2, Al1, Ha.
      * intros t. rewrite Set2. apply Set1.
      * intros t. rewrite As2. apply As1.
  - exists st'. split; [exact Hrun|]. exact H.
Qed.

(** X11.  [basePlus] on a well-formed sub-automaton returns, and the
    sub-automaton then accepts exactly the concatenations of one or more
    words that it accepted before; the initial node need not be free of
    incoming edges for this. *)
Theorem basePlus_language (nodeList : NodeList) (base : SubList) (st : Store) :
  rooted nodeList st base ->
  exists st',
    basePlus nodeList base st = Ok (tt, st')
    /\ forall w, accepts st' base w <-> exists k, power (Datatypes.S k) (accepts st base) w.
Proof.
  intros R.
  destruct (basePlus_spec nodeList base st R)
    as (st' & Hrun & _ & Hstep & _ & _ & _ & _ & Hset & _).
  exists st'. split; [exact Hrun|]. intros w. unfold accepts at 1. rewrite Hset.
  apply (plus_language st st' (initial base) (getSet st (final base)) Hstep w).
Qed.

Lemma basePlus_language_witness :
  exists st',
    basePlus optionalABList optionalABList optionalABStore = Ok (tt, st')
    /\ forall w, accepts st' optionalABList w
                 <-> exists k, power (Datatypes.S k) (accepts optionalABStore optionalABList) w.
Proof.
  apply (basePlus_language optionalABList optionalABList optionalABStore).
  apply wellFormed_rooted, wellFormedb_sound. vm_compute. reflexivity.
Defined.

(** ** fromDFA *)

(** A cached [createNode] leaves the sets of the store alone. *)
Lemma cachedFunc_createNode_sets l key s r s' :
  cachedFunc (createNode l) key s = Ok (r, s') ->
  forall t, getSet (fst s') t = getSet (fst s) t.
Proof.
  unfold cachedFunc. destruct (JsMap.get (snd s) key); [intros [= _ <-]; reflexivity|].
  destruct (createNode_spec l (fst s)) as (r' & st' & Hrun & _ & _ & _ & _ & _ & _ & Hset & _).
  rewrite Hrun. intros [= _ <-]. exact Hset.
Qed.

Lemma onStore_linkNodes_sets {X} this from to chars (s s' : Store * X) :
  onStore (linkNodes this from to chars) s = Ok (tt, s') ->
  forall t, getSet (fst s') t = getSet (fst s) t.
Proof.
  unfold onStore. destruct (linkNodes this from to chars (fst s)) as [[[] st']|] eqn:E;
    [|discriminate].
  intros [= <-]. simpl. apply linkNodes_ok in E as (_ & _ & _ & H). exact H.
Qed.

Lemma fromDFANext_sets dfa nodeList dfaNode s r s' :
  fromDFANext dfa nodeList dfaNode s = Ok (r, s') ->
  forall t, getSet (fst s') t = getSet (fst s) t.
Proof.
  unfold fromDFANext. intros Hrun t.
  apply bind_Ok in Hrun as (transNode & s1 & Htr & Hrun).
  pose proof (cachedFunc_createNode_sets _ _ _ _ _ Htr) as H1.
  destruct (invertCharMap _ _ _) as [byNode|]; [|discriminate].
  apply bind_Ok in Hrun as ([] & s2 & Hloop & [= _ <-]).
  rewrite <- H1.
  refine (forEach_inv (fun _ s2 => getSet (fst s2) t = getSet (fst s1) t) byNode _ s1 s2
            _ _ Hloop); [reflexivity|].
  intros pre e post sa sb _ Hsa Hbody.
  apply bind_Ok in Hbody as (to' & sc & Hto & Hlink).
  rewrite (onStore_linkNodes_sets _ _ _ _ _ _ Hlink), (cachedFunc_createNode_sets _ _ _ _ _ Hto).
  exact Hsa.
Qed.

Definition loopNFA : NFA :=
  Eval vm_compute in
    match fromDFA loopDFA emptyStore with
    | Ok (a, _) => a
    | Err _ => mkNFA (mkNodeList 0 (mkSubList 0 0)) options16
    end.
Definition loopStore : Store :=
  Eval vm_compute in
    match fromDFA loopDFA emptyStore with Ok (_, st) => st | Err _ => emptyStore end.

(** X12.  [fromDFA] never adds a final node: whatever the final states of
    the DFA are, the automaton it returns has an empty set of final nodes, so
    [isEmpty] is true of it and [test] rejects every word. *)
Theorem fromDFA_has_no_final (dfa : DFA) (st : Store) (nfa : NFA) (st' : Store) :
  fromDFA dfa st = Ok (nfa, st') ->
  getSet st' (final (nodes nfa)) = []
  /\ isEmpty nfa st' = Ok (true, st')
  /\ forall word, test nfa word st' = Ok (false, st').
Proof.
  intros Hrun. unfold fromDFA in Hrun.
  apply bind_Ok in Hrun as (nodeList & st0 & Hnew & Hrun).
  destruct (newNodeList_spec st) as (nl & st0' & Hnew' & _ & _ & _ & _ & _ & _ & Hnil & _).
  rewrite Hnew in Hnew'. injection Hnew' as <- <-.
  destruct (DFS _ _ _ _) as [[[] [st1 cache]]|] eqn:HD; [|discriminate].
  injection Hrun as <- <-. simpl.
  assert (E : getSet st1 (final nodeList) = []).
  { unfold DFS in HD.
    assert (H : exists V' : list nat, getSet st1 (final nodeList) = []);
      [|destruct H as [_ H]; exact H].
    refine (DFSLoop_inv (fun _ _ s => getSet (fst s) (final nodeList) = [])
              (fromDFANext dfa nodeList) _ _ _ _ _ _ (st1, cache) _ HD); [auto| |exact Hnil].
    intros V e K s r s' Hs _ Hn. rewrite (fromDFANext_sets _ _ _ _ _ _ Hn). exact Hs. }
  split; [exact E|]. split.
  - unfold isEmpty, bind, setSize, gets, ret. simpl. rewrite E. reflexivity.
  - intros word. rewrite test_matches. f_equal. f_equal. simpl.
    destruct (matches _ _ _ _) eqn:Em; [|reflexivity].
    apply matches_path in Em as (f & Hf & _). rewrite E in Hf. destruct Hf.
Qed.

Lemma fromDFA_has_no_final_witness :
  getSet loopStore (final (nodes loopNFA)) = []
  /\ isEmpty loopNFA loopStore = Ok (true, loopStore)
  /\ forall word, test loopNFA word loopStore = Ok (false, loopStore).
Proof.
  apply (fromDFA_has_no_final loopDFA emptyStore loopNFA loopStore).
  vm_compute. reflexivity.
Defined.

(** ** Moving the edges of a node *)

Section Transfer.
Variable this : NodeList.

(** The loop shared by [baseUnion] and [baseReplaceWith]: the edges that
    leave [from] are led from [onto] instead. *)
Lemma transfer_edges st N onto from :
  region this st N -> N onto -> N from -> onto <> from ->
  exists st',
    transferEdges this onto from st = Ok (tt, st')
    /\ region this st' N
    /\ (forall a c y, step st' a c y <->
                      (step st a c y /\ a <> from) \/ (a = onto /\ step st from c y))
    /\ (forall t, getSet st' t = getSet st t)
    /\ (forall a, ~ N a -> outOf st' a = outOf st a)
    /\ (forall a, allocated st' a <-> allocated st a)
    /\ (forall t, allocatedSet st' t <-> allocatedSet st t).
Proof.
  intros R No Nf Hne. unfold transferEdges, bind at 1, gets.
  destruct (forEach_total
    (fun pre s =>
       region this s N
       /\ (forall a c y, step s a c y <->
             (step st a c y /\ ~ (a = from /\ In y (JsMap.keys pre)))
             \/ (a = onto /\ In y (JsMap.keys pre) /\ step st from c y))
       /\ (forall y, ~ In y (JsMap.keys pre) ->
                     JsMap.get (outOf s from) y = JsMap.get (outOf st from) y)
       /\ (forall t, getSet s t = getSet st t)
       /\ (forall a, ~ N a -> outOf s a = outOf st a)
       /\ (forall a, allocated s a <-> allocated st a)
       /\ (forall t, allocatedSet s t <-> allocatedSet st t))
    (outOf st from)
    (fun e => linkNodes this onto (fst e) (snd e) ;;; unlinkNodes this from (fst e)) st)
    as (st' & Hrun & R' & E' & _ & S' & F' & A' & AS').
  - split; [exact R|]. split; [|split; [|split; [|split; [|split]]]]; try reflexivity; auto.
    intros a c y. simpl. tauto.
  - intros pre [y S] post s El (Rs & Es & Gs & Ss & Fs & As & ASs). simpl.
    assert (Hin : In (y, S) (outOf st from)) by (rewrite El; apply in_app_iff; simpl; auto).
    assert (Hpre : ~ In y (JsMap.keys pre)).
    { pose proof (rg_nodup_out _ _ _ R from Nf) as Hnd. unfold JsMap.keys in Hnd.
      rewrite El, map_app in Hnd. simpl in Hnd. apply NoDup_remove_2 in Hnd.
      intros H. apply Hnd. apply in_app_iff. auto. }
    assert (Hsucc : succ st from y).
    { unfold succ, JsMap.keys. apply in_map_iff. exists (y, S). auto. }
    assert (Ny : N y) by (eapply (rg_out _ _ _ R); eauto).
    assert (Hlab : JsMap.get (outOf st from) y = Some S).
    { apply In_get_NoDup; [apply (rg_nodup_out _ _ _ R from Nf)|exact Hin]. }
    assert (Hlne : CharSet.isEmpty S = false) by (apply (rg_labels _ _ _ R from y S Nf Hin)).
    assert (HS : forall c, step st from c y <-> CharSet.has S c = true).
    { intros c. apply step_label; [apply (rg_nodup_out _ _ _ R from Nf)|exact Hlab]. }
    destruct (linkNodes_succeeds this onto y S s) as (s1 & Hlk);
      [apply (rg_alloc _ _ _ Rs onto No)|apply (rg_alloc _ _ _ Rs y Ny)|exact Hlne|].
    pose proof (region_linkNodes this s s1 N onto y S Hlk No Ny Rs) as R1.
    pose proof (step_linkNodes _ _ _ _ _ _ Hlk) as E1.
    apply linkNodes_effect in Hlk as Hlk'.
    destruct Hlk' as (Hout1 & _ & _ & Hset1 & Hal1 & Has1 & _).
    destruct (unlinkNodes_succeeds this from y s1) as (s2 & Hul);
      [apply (rg_alloc _ _ _ R1 from Nf)|apply (rg_alloc _ _ _ R1 y Ny)| |].
    { apply JsMapFacts.In_keys. exists S. rewrite Hout1, decide_False by exact Hne.
      rewrite Gs by exact Hpre. exact Hlab. }
    pose proof (region_unlinkNodes this s1 s2 N from y Hul Nf Ny R1) as R2.
    pose proof (step_unlinkNodes _ _ _ _ _ Hul) as E2.
    apply unlinkNodes_effect in Hul as Hul'.
    destruct Hul' as (Hout2 & _ & _ & Hset2 & Hal2 & Has2).
    exists s2. split; [unfold bind; rewrite Hlk; exact Hul|].
    split; [exact R2|]. split; [|split; [|split; [|split; [|split]]]].
    + intros a c z. rewrite E2, E1, Es, keys_snoc. simpl.
      specialize (HS c). clear -HS Hne Hpre. intuition (subst; intuition).
    + intros z Hz. rewrite keys_snoc in Hz. simpl in Hz.
      rewrite Hout2, decide_True by reflexivity.
      rewrite JsMapFacts.get_delete_ne by (intros ->; tauto).
      rewrite Hout1, decide_False by exact Hne. apply Gs. tauto.
    + intros t. rewrite Hset2, Hset1. apply Ss.
    + intros a Ha. assert (Hax : from <> a) by (intros <-; contradiction).
      assert (Hao : onto <> a) by (intros <-; contradiction).
      rewrite Hout2, decide_False by exact Hax. rewrite Hout1, decide_False by exact Hao.
      apply Fs, Ha.
    + intros a. rewrite Hal2, Hal1, As.
      pose proof (proj1 (rg_alloc _ _ _ R from Nf)). pose proof (proj1 (rg_alloc _ _ _ R onto No)).
      pose proof (proj1 (rg_alloc _ _ _ R y Ny)).
      clear -H H0 H1. intuition (subst; intuition).
    + intros t. rewrite Has2, Has1. apply ASs.
  - exists st'. split; [exact Hrun|]. split; [exact R'|].
    split; [|split; [exact S'|split; [exact F'|split; [exact A'|exact AS']]]].
    intros a c y. rewrite E'.
    assert (Hk : forall c', step st from c' y -> In y (JsMap.keys (outOf st from))).
    { intros c' Hs. eapply step_succ; eauto. }
    split.
    + intros [[H Hn]|(-> & _ & H)]; [left|right; auto]. split; [exact H|].
      intros ->. apply Hn. split; [reflexivity|eapply Hk; eauto].
    + intros [[H Hn]|[-> H]]; [left; tauto|right]. split; [reflexivity|].
      split; [eapply Hk; eauto|exact H].
Qed.
End Transfer.

(** ** The node list while a copy is made *)

Section CopyRegion.
Variables (this : NodeList) (st : Store) (N : nat -> Prop).

(** The part [N] of the list and the nodes made since the store [st]. *)
Definition grown (s : Store) (x : nat) : Prop := N x \/ (allocated s x /\ ~ allocated st x).

Record copyInv (s : Store * list (nat * nat)) : Prop := mkCopyInv {
  ci_region : region this (fst s) (grown (fst s));
  ci_closed : closedStore (fst s);
  ci_mono : forall a, allocated st a -> allocated (fst s) a;
  ci_cache : forall k v, In (k, v) (snd s) -> allocated (fst s) v /\ ~ allocated st v
}.

Lemma copyInv_translate key s v s' :
  copyInv s -> cachedFunc (createNode (nl_id this)) key s = Ok (v, s') ->
  copyInv s' /\ allocated (fst s') v /\ ~ allocated st v
  /\ (forall a, allocated (fst s) a -> allocated (fst s') a).
Proof.
  intros [R C M K]. unfold cachedFunc. destruct (JsMap.get (snd s) key) as [v0|] eqn:E.
  - intros [= <- <-]. apply JsMapFacts.get_Some_In in E.
    split; [split; assumption|]. destruct (K _ _ E). auto.
  - destruct (createNode (nl_id this) (fst s)) as [[r st1]|] eqn:Hc; [|discriminate].
    intros [= <- <-]. simpl.
    destruct (createNode_spec (nl_id this) (fst s)) as (r' & st1' & Hc' & Hfresh & Hal & _).
    rewrite Hc in Hc'. injection Hc' as <- <-.
    assert (Hr : ~ allocated st r) by (intros H; apply Hfresh, M, H).
    split; [split; simpl|].
    + eapply region_ext; [|exact (region_createNode this (fst s) st1 _ r Hc C R)].
      intros x. unfold grown. rewrite Hal. simpl. clear -Hr. intuition (subst; intuition).
    + exact (closedStore_createNode _ _ _ _ C Hc).
    + intros a Ha. apply Hal. right. apply M, Ha.
    + intros k v' Hin. apply In_set in Hin as [[_ ->]|Hin].
      * split; [apply Hal; auto|exact Hr].
      * destruct (K _ _ Hin) as [H1 H2]. split; [apply Hal; auto|exact H2].
    + split; [apply Hal; auto|]. split; [exact Hr|]. intros a Ha. apply Hal. auto.
Qed.

Lemma copyInv_link s a b S s' :
  copyInv s ->
  allocated (fst s) a -> ~ allocated st a -> allocated (fst s) b -> ~ allocated st b ->
  onStore (linkNodes this a b S) s = Ok (tt, s') ->
  copyInv s' /\ (forall x, allocated (fst s) x -> allocated (fst s') x).
Proof.
  intros [R C M K] Ha Ha' Hb Hb'. unfold onStore.
  destruct (linkNodes this a b S (fst s)) as [[[] st1]|] eqn:Hl; [|discriminate].
  intros [= <-]. simpl.
  pose proof (linkNodes_effect _ _ _ _ _ _ Hl) as (_ & _ & _ & _ & Hal & _).
  assert (E : forall x, allocated st1 x <-> allocated (fst s) x).
  { intros x. rewrite Hal. clear -Ha Hb. intuition (subst; intuition). }
  split; [split; simpl|intros x Hx; apply E, Hx].
  - eapply region_ext; [|refine (region_linkNodes this (fst s) st1 _ a b S Hl _ _ R)].
    + intros x. unfold grown. rewrite E. reflexivity.
    + right. auto.
    + right. auto.
  - exact (closedStore_linkNodes _ _ _ _ _ _ C Hb Hl).
  - intros x Hx. apply E, M, Hx.
  - intros k v Hin. destruct (K _ _ Hin) as [H1 H2]. split; [apply E, H1|exact H2].
Qed.

Lemma copyInv_putSet s t l : copyInv s -> t <> final this -> copyInv (putSet (fst s) t l, snd s).
Proof.
  intros [R C M K] Hne. split; simpl.
  - apply region_putSet; [intros ->; contradiction|exact R].
  - intros a b. unfold succ. autorewrite with store. apply C.
  - exact M.
  - exact K.
Qed.

Lemma localCopyNext_copyInv toCopy final' node s r s' :
  final' <> final this -> copyInv s ->
  localCopyNext this toCopy final' node s = Ok (r, s') -> copyInv s'.
Proof.
  intros Hne I Hrun. unfold localCopyNext in Hrun.
  apply bind_Ok in Hrun as (trans & s1 & Htr & Hrun).
  destruct (copyInv_translate _ _ _ _ I Htr) as (I1 & Ht1 & Ht0 & _).
  apply bind_Ok in Hrun as (isFinal & s1' & Hhas & Hrun).
  unfold onStore, setHas, gets in Hhas. injection Hhas as _ <-.
  apply bind_Ok in Hrun as ([] & s2 & Hadd & Hrun).
  assert (I2 : copyInv s2 /\ allocated (fst s2) trans).
  { destruct isFinal.
    - unfold onStore, setAdd, modify in Hadd. injection Hadd as <-.
      split; [apply (copyInv_putSet (fst s1, snd s1)); [|exact Hne]|exact Ht1].
      destruct s1. exact I1.
    - injection Hadd as <-. destruct s1. auto. }
  clear Hadd. destruct I2 as [I2 Ht2].
  apply bind_Ok in Hrun as (edges & s2' & Hg & Hrun).
  unfold onStore, gets in Hg. injection Hg as <- <-.
  apply bind_Ok in Hrun as ([] & s3 & Hloop & Hrun).
  unfold onStore, gets in Hrun. injection Hrun as _ <-.
  assert (H : copyInv s3 /\ allocated (fst s3) trans);
    [|destruct H as [H _]; destruct s3; exact H].
  refine (forEach_inv (fun _ s => copyInv s /\ allocated (fst s) trans) _ _ _ _ _ _ Hloop).
  - destruct s2. auto.
  - intros pre e post sa sb _ [Ia Hta] Hbody.
    apply bind_Ok in Hbody as (to' & sc & Hto & Hlink).
    destruct (copyInv_translate _ _ _ _ Ia Hto) as (Ic & Hc1 & Hc0 & Hmono).
    destruct (copyInv_link _ _ _ _ _ Ic (Hmono _ Hta) Ht0 Hc1 Hc0 Hlink) as [Ib Hmono'].
    split; [exact Ib|]. apply Hmono', Hmono, Hta.
Qed.
End CopyRegion.

(** [localCopy] keeps the node list in shape: the copy joins its part. *)
Lemma localCopy_region this toCopy st N c st' :
  region this st N -> closedStore st -> allocatedSet st (final this) ->
  localCopy this toCopy st = Ok (c, st') ->
  region this st' (grown st N st') /\ closedStore st'.
Proof.
  intros R C Hfs Hrun. unfold localCopy in Hrun.
  apply bind_Ok in Hrun as (initial' & st1 & Hc & Hrun).
  apply bind_Ok in Hrun as (final' & st2 & Hn & Hrun).
  destruct (DFS _ _ _ _) as [[[] [st3 cache]]|] eqn:HD; [|discriminate].
  injection Hrun as <- <-.
  destruct (createNode_spec (nl_id this) st) as (r' & st1' & Hc' & Hfresh & Hal & _).
  rewrite Hc in Hc'. injection Hc' as <- <-.
  destruct (newSet_spec st1) as (f' & st2' & Hn' & Hf' & _ & _ & _ & Hnodes).
  rewrite Hn in Hn'. injection Hn' as <- <-.
  assert (Hne : final' <> final this).
  { intros ->. apply Hf'.
    destruct (createNode_spec (nl_id this) st) as (r'' & st1'' & Hc'' & _ & _ & _ & _ & _ & _ & _ & Has).
    rewrite Hc in Hc''. injection Hc'' as _ <-. apply Has. exact Hfs. }
  assert (I0 : copyInv this st N (st2, [(initial toCopy, initial')])).
  { unfold newSet in Hn. injection Hn as <- <-.
    apply (copyInv_putSet this st N (st1, [(initial toCopy, initial')])); [|exact Hne].
    split; simpl.
    - eapply region_ext; [|exact (region_createNode this st st1 _ initial' Hc C R)].
      intros x. unfold grown. rewrite Hal. simpl. clear -Hfresh. intuition (subst; intuition).
    - exact (closedStore_createNode _ _ _ _ C Hc).
    - intros a Ha. apply Hal. auto.
    - intros k v [[= _ <-]|[]]. split; [apply Hal; auto|exact Hfresh]. }
  assert (H : exists V' : list nat, copyInv this st N (st3, cache)).
  { unfold DFS in HD.
    refine (DFSLoop_inv (fun _ _ s => copyInv this st N s)
              (localCopyNext this toCopy final') _ _ _ _ _ _ (st3, cache) I0 HD); [auto|].
    intros V e K s r s' Hs _ Hnext. eapply localCopyNext_copyInv; eauto. }
  destruct H as [_ [R3 C3 _ _]]. simpl in *. auto.
Qed.

(** ** baseUnion *)

(** The graph after the edges of the initial node [ci] of the alternative,
    which lives in the part [New], have moved to the initial node [bi] of
    the base. *)
Section UnionPaths.
Variables (st st' : Store) (bi ci : nat) (New : nat -> Prop).
Hypothesis Hstep : forall a c y,
  step st' a c y <-> (step st a c y /\ a <> ci) \/ (a = bi /\ step st ci c y).
Hypothesis Hnb : forall x, ~ succ st x bi.
Hypothesis Hnc : forall x, ~ succ st x ci.
Hypothesis Hclosed : forall x y, New x -> succ st x y -> New y.
Hypothesis Hinto : forall x y, succ st x y -> New y -> New x.
Hypothesis Hci : New ci.
Hypothesis Hbi : ~ New bi.

Lemma union_old x w f :
  ~ New x -> x <> bi -> path st' x w f -> path st x w f /\ ~ New f /\ f <> bi.
Proof.
  intros Hx Hxb Hp. induction Hp as [a|a c b w d Hs _ IH]; [split; [constructor|auto]|].
  apply Hstep in Hs as [[Hs _]|[-> _]]; [|congruence].
  pose proof (step_succ _ _ _ _ Hs) as Hsu.
  destruct IH as (Hp & Hd); [intros H; apply Hx; eapply Hinto; eauto| |].
  - intros ->. eapply Hnb; eauto.
  - split; [econstructor; eauto|exact Hd].
Qed.

Lemma union_new x w f :
  New x -> x <> ci -> path st' x w f -> path st x w f /\ New f /\ f <> ci.
Proof.
  intros Hx Hxc Hp. induction Hp as [a|a c b w d Hs _ IH]; [split; [constructor|auto]|].
  apply Hstep in Hs as [[Hs _]|[-> _]]; [|contradiction].
  pose proof (step_succ _ _ _ _ Hs) as Hsu.
  destruct IH as (Hp & Hd); [eapply Hclosed; eauto| |].
  - intros ->. eapply Hnc; eauto.
  - split; [econstructor; eauto|exact Hd].
Qed.

Lemma union_split w f :
  path st' bi w f ->
  (path st bi w f /\ ~ New f) \/ (path st ci w f /\ New f /\ f <> ci).
Proof.
  intros Hp. inversion Hp as [a|a c b w' d Hs Hp']; subst.
  - left. split; [constructor|exact Hbi].
  - apply Hstep in Hs as [[Hs _]|[_ Hs]]; pose proof (step_succ _ _ _ _ Hs) as Hsu.
    + left. destruct (union_old b w' f) as (H1 & H2 & _); auto.
      * intros H. apply Hbi. eapply Hinto; eauto.
      * intros ->. eapply Hnb; eauto.
      * split; [econstructor; eauto|exact H2].
    + right. destruct (union_new b w' f) as (H1 & H2); auto.
      * eapply Hclosed; eauto.
      * intros ->. eapply Hnc; eauto.
      * split; [econstructor; eauto|exact H2].
Qed.

Lemma union_keeps x w f : x <> ci -> path st x w f -> path st' x w f.
Proof.
  intros Hx Hp. induction Hp as [a|a c b w d Hs _ IH]; [constructor|].
  econstructor; [apply Hstep; left; split; [exact Hs|exact Hx]|].
  apply IH. intros ->. eapply Hnc. eapply step_succ; eauto.
Qed.

Lemma union_moved w f : w <> [] -> path st ci w f -> path st' bi w f /\ f <> ci.
Proof.
  intros Hw Hp. inversion Hp as [a|a c b w' d Hs Hp']; subst; [congruence|].
  assert (Hb : b <> ci) by (intros ->; eapply Hnc; eapply step_succ; eauto).
  split.
  - econstructor; [apply Hstep; right; split; [reflexivity|exact Hs]|].
    apply union_keeps; assumption.
  - destruct (path_enters _ _ _ _ Hp') as [[_ <-]|[x Hx]]; [exact Hb|].
    intros ->. eapply Hnc; eauto.
Qed.

Variables (Fb Fc F' : list nat).
Hypothesis HFb : forall f, In f Fb -> ~ New f.
Hypothesis HFc : forall f, In f Fc -> New f.
Hypothesis HF' : forall f,
  In f F' <-> In f Fb \/ exists n, In n Fc /\ f = if n =? ci then bi else n.

Lemma union_accepts w :
  (exists f, In f F' /\ path st' bi w f)
  <-> (exists f, In f Fb /\ path st bi w f) \/ (exists f, In f Fc /\ path st ci w f).
Proof.
  split.
  - intros (f & Hf & Hp). apply HF' in Hf.
    destruct (union_split _ _ Hp) as [[Hq Hn]|(Hq & Hn & Hne)].
    + destruct Hf as [Hf|(n & Hn' & ->)]; [left; eauto|].
      destruct (Nat.eqb_spec n ci) as [->|Hnc'].
      * right. exists ci. split; [exact Hn'|].
        destruct (path_enters _ _ _ _ Hq) as [[-> _]|[x Hx]]; [constructor|].
        exfalso. eapply Hnb; eauto.
      * exfalso. apply Hn. apply HFc. exact Hn'.
    + destruct Hf as [Hf|(n & Hn' & ->)]; [exfalso; eapply HFb; eauto|].
      destruct (Nat.eqb_spec n ci) as [->|Hnc']; [contradiction|].
      right. eauto.
  - intros [(f & Hf & Hp)|(f & Hf & Hp)].
    + exists f. split; [apply HF'; auto|]. apply union_keeps; [|exact Hp].
      intros ->. contradiction.
    + destruct w as [|c w].
      * apply path_nil_inv in Hp. subst f. exists bi. split; [|constructor].
        apply HF'. right. exists ci. rewrite Nat.eqb_refl. auto.
      * destruct (union_moved (c :: w) f) as [Hq Hne]; [discriminate|exact Hp|].
        exists f. split; [|exact Hq]. apply HF'. right. exists f.
        apply Nat.eqb_neq in Hne. rewrite Hne. auto.
Qed.
End UnionPaths.

Section Union.
Variable this : NodeList.

(** The first loop of [baseUnion] and [baseReplaceWith]: final nodes are
    added to the set of the list. *)
Lemma add_finals_region st N (g : nat -> nat) (fs : list nat) :
  region this st N -> (forall n, In n fs -> N (g n)) ->
  exists st',
    forEach fs (fun n => setAdd (final this) (g n)) st = Ok (tt, st')
    /\ region this st' N
    /\ (forall f, In f (getSet st' (final this)) <->
                  In f (getSet st (final this)) \/ exists n, In n fs /\ f = g n)
    /\ (forall t, t <> final this -> getSet st' t = getSet st t)
    /\ store_nodes st' = store_nodes st.
Proof.
  intros R Hfs.
  destruct (forEach_total
              (fun pre s =>
                 region this s N
                 /\ (forall f, In f (getSet s (final this)) <->
                               In f (getSet st (final this)) \/ exists n, In n pre /\ f = g n)
                 /\ (forall t, t <> final this -> getSet s t = getSet st t)
                 /\ store_nodes s = store_nodes st)
              fs (fun n => setAdd (final this) (g n)) st) as (st' & Hrun & H); [| |eauto].
  - split; [exact R|]. split; [|split; [reflexivity|reflexivity]].
    intros f. split; [auto|]. intros [H|(n & Hn & _)]; [exact H|destruct Hn].
  - intros pre n post s E (Rs & Fs & Ts & Ns).
    exists (putSet s (final this) (JsSet.add (getSet s (final this)) (g n))).
    split; [reflexivity|].
    assert (Hn : In n fs) by (rewrite E; apply in_elt).
    split; [|split; [|split]].
    + apply region_putSet; [|exact Rs]. intros _. split.
      * apply NoDup_set_add. apply (rg_nodup_finals _ _ _ Rs).
      * intros f Hf. apply JsSetFacts.In_add in Hf as [->|Hf]; [apply Hfs, Hn|].
        apply (rg_finals _ _ _ Rs). exact Hf.
    + intros f. rewrite getSet_putSet, decide_True by reflexivity.
      rewrite JsSetFacts.In_add, Fs. split.
      * intros [->|[H|(m & Hm & ->)]]; [|auto|].
        -- right. exists n. split; [apply in_app_iff; simpl; auto|reflexivity].
        -- right. exists m. split; [apply in_app_iff; auto|reflexivity].
      * intros [H|(m & Hm & ->)]; [auto|].
        apply in_app_iff in Hm as [Hm|[<-|[]]]; [right; right; eauto|left; reflexivity].
    + intros t Ht. rewrite getSet_putSet, decide_False by congruence. apply Ts, Ht.
    + exact Ns.
Qed.

(** [baseUnion] of the list with an alternative that lives in a part [New]
    of the list. *)
Lemma baseUnion_language st N (alt : SubList) (New : nat -> Prop) :
  region this st N ->
  (forall x, ~ succ st x (initial this)) -> (forall x, ~ succ st x (initial alt)) ->
  (forall x, New x -> N x) ->
  (forall x y, New x -> succ st x y -> New y) ->
  (forall x y, succ st x y -> New y -> New x) ->
  New (initial alt) -> ~ New (initial this) ->
  (forall f, In f (getSet st (final this)) -> ~ New f) ->
  (forall f, In f (getSet st (final alt)) -> New f) ->
  final alt <> final this ->
  exists st',
    baseUnion this this alt st = Ok (tt, st')
    /\ (forall w, accepts st' this w <-> accepts st this w \/ accepts st alt w)
    /\ (forall a, ~ N a -> outOf st' a = outOf st a)
    /\ (forall t, t <> final this -> getSet st' t = getSet st t).
Proof.
  intros R Hnb Hnc HNew Hcl Hinto Hci Hbi HFb HFc Hsets.
  set (bi := initial this) in *. set (ci := initial alt) in *.
  assert (Hne : bi <> ci) by (intros E; apply Hbi; rewrite E; exact Hci).
  unfold baseUnion, bind at 1, setElements, gets.
  destruct (add_finals_region st N (fun n => if n =? ci then bi else n) (getSet st (final alt)) R)
    as (st1 & Hrun1 & R1 & F1 & T1 & N1).
  { intros n Hn. destruct (n =? ci); [apply (rg_init _ _ _ R)|]. apply HNew, HFc, Hn. }
  assert (Hout1 : forall a, outOf st1 a = outOf st a).
  { intros a. apply outOf_same_nodes. exact N1. }
  destruct (transfer_edges this st1 N bi ci R1) as (st2 & Hrun2 & R2 & E2 & T2 & O2 & _).
  { apply (rg_init _ _ _ R). }
  { apply HNew, Hci. }
  { exact Hne. }
  destruct (reuseFinals_language this st2 N R2) as (st3 & Hrun3 & L3 & T3 & O3).
  exists st3. split.
  { unfold bind. fold ci bi. rewrite Hrun1. fold bi ci. rewrite Hrun2. exact Hrun3. }
  split; [|split].
  - intros w. rewrite L3. unfold accepts at 1. fold bi.
    assert (Hs : forall a c y, step st2 a c y <->
                   (step st a c y /\ a <> ci) \/ (a = bi /\ step st ci c y)).
    { intros a c y. rewrite E2. unfold step. rewrite !Hout1. reflexivity. }
    rewrite (union_accepts st st2 bi ci New Hs Hnb Hnc Hcl Hinto Hci Hbi
               (getSet st (final this)) (getSet st (final alt)) (getSet st2 (final this))
               HFb HFc).
    + reflexivity.
    + intros f. rewrite T2. apply F1.
  - intros a Ha. rewrite O3, O2 by exact Ha. apply Hout1.
  - intros t Ht. rewrite T3, T2 by exact Ht. apply T1, Ht.
Qed.
End Union.

(** [baseUnion] with a copy of a sub-automaton that lives outside the part
    [N] of the list. *)
Lemma union_core (this : NodeList) (toCopy : SubList) st N :
  good st -> region this st N -> allocatedSet st (final this) ->
  (forall x, ~ succ st x (initial this)) ->
  allocated st (initial toCopy) -> allocatedSet st (final toCopy) ->
  (forall x, ~ succ st x (initial toCopy)) ->
  ~ N (initial toCopy) -> final toCopy <> final this ->
  exists st',
    (c <- localCopy this toCopy ;; baseUnion this this c) st = Ok (tt, st')
    /\ (forall w, accepts st' this w <-> accepts st this w \/ accepts st toCopy w)
    /\ (forall w, accepts st' toCopy w <-> accepts st toCopy w).
Proof.
  intros G R Hfs Hnb Hti Htf Hnt HNt Hsets.
  destruct (localCopy_spec this toCopy st G Hti Htf)
    as (c & st1 & Hrun & G1 & Hold & Hkeep & Hfc & Hals & Hni & Hai & Hfin & Hnew & Hlang & Hnorm).
  destruct (localCopy_region this toCopy st N c st1 R (good_closed _ G) Hfs Hrun) as [R1 C1].
  assert (Hbi : allocated st (initial this)) by (apply (rg_alloc _ _ _ R), (rg_init _ _ _ R)).
  assert (Hcf : final c <> final this) by (intros E; apply Hfc; rewrite E; exact Hfs).
  assert (Hct : final toCopy <> final c) by (intros E; apply Hfc; rewrite <- E; exact Htf).
  assert (Hthis : getSet st1 (final this) = getSet st (final this)).
  { apply Hkeep. congruence. }
  assert (Hout : forall x, allocated st x -> outOf st1 x = outOf st x).
  { intros x Hx. apply (Hold x Hx). }
  assert (Hsucc : forall x y, allocated st x -> succ st1 x y -> succ st x y).
  { intros x y Hx. unfold succ. rewrite Hout by exact Hx. auto. }
  destruct (baseUnion_language this st1 (grown st N st1) c
              (fun x => allocated st1 x /\ ~ allocated st x) R1)
    as (st3 & Hrun3 & L3 & O3 & T3).
  - intros x Hx. destruct (decide (allocated st x)) as [Ha|Ha].
    + apply (Hnb x). apply Hsucc; assumption.
    + destruct (Hnew x (succ_allocated _ _ _ Hx) Ha) as [_ Hcl].
      destruct (Hcl _ Hx) as [_ H]. contradiction.
  - apply Hnorm. intros x _. apply Hnt.
  - intros x Hx. right. exact Hx.
  - intros x y [Hx Hx'] Hy. apply (Hnew x Hx Hx'). exact Hy.
  - intros x y Hxy [_ Hy]. split; [eapply succ_allocated; eauto|].
    intros Hx. apply Hy. eapply (good_closed _ G). apply Hsucc; eauto.
  - auto.
  - intros [_ H]. contradiction.
  - intros f Hf [_ H]. apply H. rewrite Hthis in Hf.
    apply (rg_alloc _ _ _ R), (rg_finals _ _ _ R), Hf.
  - intros f Hf. apply Hfin, Hf.
  - exact Hcf.
  - exists st3. split; [unfold bind; rewrite Hrun; exact Hrun3|]. split.
    + intros w. rewrite L3, Hlang.
      rewrite (accepts_frame st st1 this w G Hbi Hout Hthis). reflexivity.
    + intros w.
      rewrite <- (accepts_frame st st1 toCopy w G Hti Hout) by (apply Hkeep; exact Hct).
      apply (accepts_part (fun x => allocated st x /\ ~ N x)).
      * intros x [Hx Hx']. apply O3. intros [H|[_ H]]; contradiction.
      * intros x y [Hx Hx'] Hxy. apply Hsucc in Hxy; [|exact Hx].
        split; [eapply (good_closed _ G); eauto|].
        intros Hy. apply Hx'. eapply (rg_into _ _ _ R); eauto.
      * auto.
      * apply T3. exact Hsets.
Qed.

(** ** union and copy *)

(** A new node list: its part is its initial node. *)
Lemma newNodeList_fresh st :
  closedStore st ->
  exists nl st0,
    newNodeList st = Ok (nl, st0)
    /\ nl_id nl = NodeList_counter st
    /\ region nl st0 (fun x => x = initial nl)
    /\ ~ allocated st (initial nl)
    /\ (forall a, allocated st0 a <-> a = initial nl \/ allocated st a)
    /\ (forall a, outOf st0 a = outOf st a)
    /\ getSet st0 (final nl) = []
    /\ (forall t, t <> final nl -> getSet st0 t = getSet st t)
    /\ allocatedSet st0 (final nl)
    /\ (forall t, allocatedSet st t -> allocatedSet st0 t /\ t <> final nl).
Proof.
  intros Hcl.
  destruct (newNodeList_spec st)
    as (nl & st0 & Hnew & Hfresh & Hfreshs & Hal & Hown & Hout & Hin & Hfin & Hsets).
  exists nl, st0. split; [exact Hnew|].
  assert (Hn_out : outOf st0 (initial nl) = []).
  { rewrite Hout. unfold outOf. rewrite unallocated_blank by exact Hfresh. reflexivity. }
  assert (Hn_in : inOf st0 (initial nl) = []).
  { rewrite Hin. unfold inOf. rewrite unallocated_blank by exact Hfresh. reflexivity. }
  assert (Hno : forall x, ~ succ st0 x (initial nl)).
  { intros x. unfold succ. rewrite Hout. intros H. apply Hfresh. eapply Hcl; exact H. }
  assert (Hid : nl_id nl = NodeList_counter st
                /\ forall t, allocatedSet st0 t <-> t = final nl \/ allocatedSet st t).
  { unfold newNodeList in Hnew.
    apply bind_Ok in Hnew as (f & s1 & Hf & Hnew).
    apply bind_Ok in Hnew as (n & s2 & Hn & [= <- <-]).
    split; [reflexivity|]. simpl.
    unfold newSet in Hf. injection Hf as <- <-.
    destruct (createNode_spec (NodeList_counter st)
                (putSet (mkStore (store_nodes st) (store_sets st)
                                 (<[NodeList_counter st := 0]> (nodeCounter st))
                                 (Datatypes.S (NodeList_counter st)))
                        (fresh (dom (store_sets st))) []))
      as (r & s2' & Hn' & _ & _ & _ & _ & _ & _ & _ & Has).
    rewrite Hn in Hn'. injection Hn' as _ <-.
    intros t. rewrite Has, allocatedSet_putSet. reflexivity. }
  destruct Hid as [Hid Has].
  split; [exact Hid|]. split.
  { split.
    - intros x ->. split; [apply Hal; auto|exact Hown].
    - intros x y -> Hy. unfold succ in Hy. rewrite Hn_out in Hy. destruct Hy.
    - intros x y Hy ->. exfalso. eapply Hno; eauto.
    - intros x y ->. rewrite Hn_in. simpl. symmetry. apply get_None_keys. apply Hno.
    - intros x ->. rewrite Hn_out. constructor.
    - intros x ->. rewrite Hn_in. constructor.
    - intros x y S ->. rewrite Hn_out. intros [].
    - reflexivity.
    - rewrite Hfin. intros f [].
    - rewrite Hfin. constructor. }
  split; [exact Hfresh|]. split; [exact Hal|]. split; [exact Hout|]. split; [exact Hfin|].
  split; [exact Hsets|]. split; [apply Has; auto|].
  intros t Ht. split; [apply Has; auto|]. intros ->. contradiction.
Qed.

(** An automaton in good standing: its node list keeps its invariant, its
    set of final nodes exists, and its initial node has no incoming edge. *)
Record intact (st : Store) (a : NFA) : Prop := mkIntact {
  it_inv : nodeListInv (nodes a) st;
  it_set : allocatedSet st (final (nodes a));
  it_norm : inOf st (initial (nodes a)) = []
}.

Definition intactb (st : Store) (a : NFA) : bool :=
  nodeListInvb (nodes a) st && allocatedSetb st (final (nodes a))
  && match inOf st (initial (nodes a)) with [] => true | _ => false end.

Lemma intactb_sound st a : intactb st a = true -> intact st a.
Proof.
  unfold intactb. intros H. apply andb_true_iff in H as [H H3].
  apply andb_true_iff in H as [H1 H2]. split.
  - apply nodeListInvb_sound, H1.
  - apply allocatedSetb_sound, H2.
  - destruct (inOf st (initial (nodes a))); [reflexivity|discriminate].
Qed.

Lemma intact_no_pred st a : intact st a -> forall x, ~ succ st x (initial (nodes a)).
Proof.
  intros [R _ Hn] x Hx. unfold succ in Hx. apply JsMapFacts.In_keys in Hx as [S HS].
  rewrite <- (rg_mirror _ _ _ R x (initial (nodes a))) in HS.
  - rewrite Hn in HS. discriminate.
  - apply (rg_init _ _ _ R).
Qed.

(** X13.  For two distinct automata in good standing over one alphabet,
    [union] returns; afterwards the called automaton accepts a word exactly
    when one of the two accepted it before, and the argument answers as it
    did before. *)
Theorem union_language (this nfa : NFA) (st : Store) :
  maxCharacter (options this) = maxCharacter (options nfa) ->
  sameNFA nfa this = false ->
  final (nodes nfa) <> final (nodes this) ->
  good st -> intact st this -> intact st nfa ->
  exists st',
    union this nfa st = Ok (tt, st')
    /\ forall word,
         (test this word st' = Ok (true, st')
          <-> test this word st = Ok (true, st) \/ test nfa word st = Ok (true, st))
         /\ (test nfa word st' = Ok (true, st') <-> test nfa word st = Ok (true, st)).
Proof.
  intros Hmax Hdiff Hsets G It In.
  pose proof (it_inv _ _ It) as R. pose proof (it_inv _ _ In) as Rn.
  destruct (union_core (nodes this) (nodes nfa) st _ G R (it_set _ _ It)
              (intact_no_pred _ _ It)) as (st' & Hrun & L1 & L2).
  - apply (rg_alloc _ _ _ Rn), (rg_init _ _ _ Rn).
  - apply (it_set _ _ In).
  - apply (intact_no_pred _ _ In).
  - intros [_ Ho]. unfold sameNFA in Hdiff. apply Nat.eqb_neq in Hdiff. apply Hdiff.
    rewrite <- Ho. symmetry. apply (rg_alloc _ _ _ Rn), (rg_init _ _ _ Rn).
  - exact Hsets.
  - exists st'. split.
    + unfold union. rewrite Hdiff. unfold checkOptionsCompatibility, bind at 1.
      rewrite Hmax, Z.eqb_refl. exact Hrun.
    + intros word. rewrite !test_true_accepts. split; [apply L1|apply L2].
Qed.

Lemma union_language_witness :
  exists st',
    union twoLeft twoRight twoStore = Ok (tt, st')
    /\ forall word,
         (test twoLeft word st' = Ok (true, st')
          <-> test twoLeft word twoStore = Ok (true, twoStore)
              \/ test twoRight word twoStore = Ok (true, twoStore))
         /\ (test twoRight word st' = Ok (true, st')
             <-> test twoRight word twoStore = Ok (true, twoStore)).
Proof.
  apply (union_language twoLeft twoRight twoStore).
  - reflexivity.
  - reflexivity.
  - vm_compute. discriminate.
  - apply goodb_sound. vm_compute. reflexivity.
  - apply intactb_sound. vm_compute. reflexivity.
  - apply intactb_sound. vm_compute. reflexivity.
Defined.

(** X14.  [copy] of an automaton whose initial node has no incoming edge
    returns a new automaton over the same alphabet that accepts exactly the
    words of the original, and the original answers as before. *)
Theorem copy_language (this : NFA) (st : Store) :
  good st ->
  nl_id (nodes this) < NodeList_counter st ->
  allocated st (initial (nodes this)) -> allocatedSet st (final (nodes this)) ->
  (forall x, ~ succ st x (initial (nodes this))) ->
  exists result st',
    copy this st = Ok (result, st')
    /\ options result = options this
    /\ forall word,
         (test result word st' = Ok (true, st') <-> test this word st = Ok (true, st))
         /\ (test this word st' = Ok (true, st') <-> test this word st = Ok (true, st)).
Proof.
  intros G Hid Hi Hs Hnorm.
  destruct (newNodeList_fresh st (good_closed _ G))
    as (nl & st0 & Hnew & Hnl & R0 & Hfresh & Hal & Hout & Hfin & Hsets & Has & Hmono).
  assert (G0 : good st0).
  { apply (good_same_out st st0); [exact Hout| |exact G]. intros a Ha. apply Hal. auto. }
  assert (Hsucc : forall x y, succ st0 x y <-> succ st x y).
  { intros x y. unfold succ. rewrite Hout. reflexivity. }
  destruct (union_core nl (nodes this) st0 _ G0 R0 Has) as (st' & Hrun & L1 & L2).
  - intros x Hx. apply Hsucc in Hx. apply Hfresh. eapply (good_closed _ G); eauto.
  - apply Hal. auto.
  - apply (Hmono _ Hs).
  - intros x Hx. apply Hsucc in Hx. eapply Hnorm; eauto.
  - intros E. apply Hfresh. rewrite <- E. exact Hi.
  - apply (Hmono _ Hs).
  - assert (Hkeep : forall w, accepts st0 (nodes this) w <-> accepts st (nodes this) w).
    { intros w. apply accepts_frame; auto. apply Hsets. apply (Hmono _ Hs). }
    exists (mkNFA nl (options this)), st'. split; [|split; [reflexivity|]].
    + unfold copy, bind at 1. rewrite Hnew. unfold bind at 1, union, sameNFA. simpl.
      replace (nl_id (nodes this) =? nl_id nl) with false
        by (symmetry; apply Nat.eqb_neq; lia).
      unfold checkOptionsCompatibility, bind at 1. rewrite Z.eqb_refl. unfold ret at 1.
      unfold bind in Hrun |- *.
      destruct (localCopy nl (nodes this) st0) as [[c s1]|]; [|discriminate].
      rewrite Hrun. reflexivity.
    + intros word. rewrite !test_true_accepts. simpl. split.
      * rewrite L1, Hkeep. split; [|auto]. intros [(f & Hf & _)|H]; [|exact H].
        rewrite Hfin in Hf. destruct Hf.
      * rewrite L2. apply Hkeep.
Qed.

Lemma copy_language_witness :
  exists result st',
    copy twoLeft twoStore = Ok (result, st')
    /\ options result = options twoLeft
    /\ forall word,
         (test result word st' = Ok (true, st')
          <-> test twoLeft word twoStore = Ok (true, twoStore))
         /\ (test twoLeft word st' = Ok (true, st')
             <-> test twoLeft word twoStore = Ok (true, twoStore)).
Proof.
  apply (copy_language twoLeft twoStore).
  - apply goodb_sound. vm_compute. reflexivity.
  - vm_compute. lia.
  - apply allocatedb_sound. vm_compute. reflexivity.
  - apply allocatedSetb_sound. vm_compute. reflexivity.
  - apply intact_no_pred. apply intactb_sound. vm_compute. reflexivity.
Defined.

(** ** fromWords *)

Lemma toInteger_ofZ z : toInteger (ofZ z) = z.
Proof.
  unfold toInteger, ofZ, inject_Z, Qred.
  pose proof (Z.ggcd_gcd z 1) as Hg. pose proof (Z.ggcd_correct_divisors z 1) as Hd.
  destruct (Z.ggcd z 1) as [g [a b]]. simpl in *.
  rewrite Z.gcd_1_r in Hg. subst g. destruct Hd as [Ha _]. simpl. lia.
Qed.

Lemma findEdge_Some edges c y :
  findEdge edges c = Some y -> exists S, In (y, S) edges /\ CharSet.has S c = true.
Proof.
  induction edges as [|[to chars] tl IH]; simpl; [discriminate|].
  destruct (CharSet.has chars c) eqn:E.
  - intros [= <-]. eauto.
  - intros H. destruct (IH H) as (S & HS & Hc). eauto.
Qed.

Lemma findEdge_None edges c :
  findEdge edges c = None -> forall y S, In (y, S) edges -> CharSet.has S c = false.
Proof.
  induction edges as [|[to chars] tl IH]; simpl; [intros _ y S []|].
  destruct (CharSet.has chars c) eqn:E; [discriminate|].
  intros H y S [[= <- <-]|Hin]; [exact E|eauto].
Qed.

(** The label of the edge that [getNext] makes holds the character alone. *)
Lemma singleton_label m c :
  (c <= m)%Z ->
  exists S, CharSet.unionRanges (CharSet.empty m) [CharSet.mkRange c c] = Some S
            /\ CharSet.isEmpty S = false
            /\ forall c', CharSet.has S c' = true <-> c' = c.
Proof.
  intros H. unfold CharSet.unionRanges, CharSet.validRange. simpl.
  rewrite Z.leb_refl. simpl. replace (c <=? m)%Z with true by (symmetry; apply Z.leb_le, H).
  simpl. eexists. split; [reflexivity|]. split; [reflexivity|].
  intros c'. unfold CharSet.has, CharSet.inRange. simpl.
  rewrite orb_false_r, andb_true_iff, !Z.leb_le. lia.
Qed.

Lemma path_snoc st a w c b :
  path st a (w ++ [c]) b <-> exists x, path st a w x /\ step st x c b.
Proof.
  revert a. induction w as [|d w IH]; intros a; simpl.
  - split.
    + intros Hp. apply path_cons_inv in Hp as (x & Hs & Hp). apply path_nil_inv in Hp.
      subst x. exists a. split; [constructor|exact Hs].
    + intros (x & Hp & Hs). apply path_nil_inv in Hp. subst x.
      econstructor; [exact Hs|constructor].
  - split.
    + intros Hp. apply path_cons_inv in Hp as (x & Hs & Hp).
      apply IH in Hp as (y & Hp & Hs'). exists y. split; [econstructor; eauto|exact Hs'].
    + intros (x & Hp & Hs). apply path_cons_inv in Hp as (y & Hs' & Hp).
      econstructor; [exact Hs'|]. apply IH. eauto.
Qed.

Section Trie.
Variables (nl : NodeList) (options : NFAOptions).

(** The prefix tree that [fromWords] builds: the nodes [N] of the list,
    each reached from the initial node by the word [wo] of the node and by
    no other, and the final nodes are the nodes of the words [ws]. *)
Record trie (st : Store) (N : nat -> Prop) (wo : nat -> list Z) (ws : list (list Z))
  : Prop := mkTrie {
  t_region : region nl st N;
  t_closed : closedStore st;
  t_set : allocatedSet st (final nl);
  t_init : wo (initial nl) = [];
  t_step : forall x c y, N x -> step st x c y -> wo y = wo x ++ [c];
  t_inj : forall x y, N x -> N y -> wo x = wo y -> x = y;
  t_reach : forall x, N x -> path st (initial nl) (wo x) x;
  t_finals : forall w, In w ws <-> exists f, In f (getSet st (final nl)) /\ wo f = w
}.

Lemma trie_path st N wo ws a w x :
  trie st N wo ws -> N a -> path st a w x -> N x /\ wo x = wo a ++ w.
Proof.
  intros T Ha Hp. induction Hp as [a|a c b w d Hs _ IH].
  - split; [exact Ha|]. rewrite app_nil_r. reflexivity.
  - assert (Hb : N b).
    { eapply (rg_out _ _ _ (t_region _ _ _ _ T)); [exact Ha|]. eapply step_succ; eauto. }
    destruct (IH Hb) as [Hd E]. split; [exact Hd|].
    rewrite E, (t_step _ _ _ _ T a c b Ha Hs), <- app_assoc. reflexivity.
Qed.

Lemma trie_language st N wo ws w :
  trie st N wo ws -> accepts st nl w <-> In w ws.
Proof.
  intros T. rewrite (t_finals _ _ _ _ T). unfold accepts.
  pose proof (rg_init _ _ _ (t_region _ _ _ _ T)) as Hi.
  split; intros (f & Hf & H); exists f; (split; [exact Hf|]).
  - destruct (trie_path _ _ _ _ _ _ _ T Hi H) as [_ E].
    rewrite E, (t_init _ _ _ _ T). reflexivity.
  - subst w. apply (t_reach _ _ _ _ T).
    apply (rg_finals _ _ _ (t_region _ _ _ _ T)). exact Hf.
Qed.

(** One step down the tree. *)
Lemma getNext_trie st N wo ws x c :
  trie st N wo ws -> N x -> (c <= maxCharacter options)%Z ->
  exists y st' N' wo',
    getNext nl options x (ofZ c) st = Ok (y, st')
    /\ trie st' N' wo' ws /\ N' y /\ wo' y = wo x ++ [c]
    /\ (forall t, getSet st' t = getSet st t).
Proof.
  intros T Hx Hc. pose proof (t_region _ _ _ _ T) as R.
  unfold getNext. rewrite greaterThan_ofZ by exact Hc. rewrite isInteger_ofZ. cbn [negb].
  rewrite toInteger_ofZ. unfold bind at 1, gets.
  destruct (findEdge (outOf st x) c) as [y|] eqn:E.
  - apply findEdge_Some in E as (S & HS & Hh).
    assert (Hs : step st x c y) by (exists S; auto).
    exists y, st, N, wo. split; [reflexivity|]. split; [exact T|].
    split; [eapply (rg_out _ _ _ R); [exact Hx|eapply step_succ; eauto]|].
    split; [apply (t_step _ _ _ _ T); assumption|reflexivity].
  - assert (Hno : forall y, ~ step st x c y).
    { intros y (S & HS & Hh). rewrite (findEdge_None _ _ E y S HS) in Hh. discriminate. }
    destruct (createNode_spec (nl_id nl) st)
      as (r & st1 & Hrun1 & Hfresh & Hal1 & Hown1 & Hown1' & Hout1 & Hin1 & Hset1 & Has1).
    destruct (singleton_label _ _ Hc) as (S & HS & Hne & Hhas).
    unfold bind at 1. rewrite Hrun1, HS.
    pose proof (region_createNode nl st st1 N r Hrun1 (t_closed _ _ _ _ T) R) as R1.
    pose proof (closedStore_createNode _ _ _ _ (t_closed _ _ _ _ T) Hrun1) as C1.
    assert (Hxa : allocated st x) by apply (rg_alloc _ _ _ R x Hx).
    assert (Hxr : x <> r) by (intros ->; contradiction).
    destruct (linkNodes_succeeds nl x r S st1) as (st2 & Hrun2).
    { rewrite Hown1' by exact Hxr. apply (rg_alloc _ _ _ R x Hx). }
    { exact Hown1. }
    { exact Hne. }
    assert (R2 : region nl st2 (fun z => z = r \/ N z)).
    { refine (region_linkNodes nl st1 st2 _ x r S Hrun2 _ _ R1); auto. }
    assert (C2 : closedStore st2).
    { refine (closedStore_linkNodes _ _ _ _ _ _ C1 _ Hrun2). apply Hal1. auto. }
    pose proof (step_linkNodes _ _ _ _ _ _ Hrun2) as E2.
    pose proof (linkNodes_effect _ _ _ _ _ _ Hrun2) as (_ & _ & _ & Hset2 & _ & Has2 & _).
    assert (Hstep : forall a c' y, step st2 a c' y <->
                      step st a c' y \/ (a = x /\ y = r /\ c' = c)).
    { intros a c' y. rewrite E2, Hhas. unfold step. rewrite Hout1. reflexivity. }
    assert (Hlift : forall a w b, path st a w b -> path st2 a w b).
    { intros a w b Hp. induction Hp as [a|a c' b w d Hs _ IH]; [constructor|].
      econstructor; [apply Hstep; left; exact Hs|exact IH]. }
    assert (Hr_out : forall c' y, ~ step st r c' y).
    { intros c' y (S' & HS' & _). unfold outOf in HS'.
      rewrite unallocated_blank in HS' by exact Hfresh. destruct HS'. }
    set (wo' := fun z => if decide (z = r) then wo x ++ [c] else wo z).
    assert (Hwo : forall z, N z -> wo' z = wo z).
    { intros z Hz. unfold wo'. destruct (decide (z = r)) as [->|_]; [|reflexivity].
      exfalso. apply Hfresh. apply (rg_alloc _ _ _ R r Hz). }
    assert (Hwr : wo' r = wo x ++ [c]).
    { unfold wo'. rewrite decide_True by reflexivity. reflexivity. }
    assert (Hnone : forall z, N z -> wo z <> wo x ++ [c]).
    { intros z Hz Ez. pose proof (t_reach _ _ _ _ T z Hz) as Hp. rewrite Ez in Hp.
      apply path_snoc in Hp as (x' & Hp & Hs).
      destruct (trie_path _ _ _ _ _ _ _ T (rg_init _ _ _ R) Hp) as [Hx' Ex'].
      rewrite (t_init _ _ _ _ T) in Ex'. simpl in Ex'.
      assert (x' = x) as -> by (apply (t_inj _ _ _ _ T); auto).
      eapply Hno; eauto. }
    exists r, st2, (fun z => z = r \/ N z), wo'.
    split; [unfold bind; rewrite Hrun2; reflexivity|].
    split; [|split; [auto|split; [exact Hwr|intros t; rewrite Hset2; apply Hset1]]].
    split.
    + exact R2.
    + exact C2.
    + apply Has2, Has1. apply (t_set _ _ _ _ T).
    + rewrite Hwo by apply (rg_init _ _ _ R). apply (t_init _ _ _ _ T).
    + intros a c' y Ha Hs. apply Hstep in Hs as [Hs|(-> & -> & ->)].
      * destruct Ha as [->|Ha]; [exfalso; eapply Hr_out; eauto|].
        assert (Hy : N y) by (eapply (rg_out _ _ _ R); [exact Ha|eapply step_succ; eauto]).
        rewrite !Hwo by assumption. apply (t_step _ _ _ _ T); assumption.
      * rewrite Hwr, Hwo by exact Hx. reflexivity.
    + intros a b [->|Ha] [->|Hb]; [reflexivity| | |].
      * rewrite Hwr, Hwo by exact Hb. intros Ew. exfalso. apply (Hnone b Hb). auto.
      * rewrite Hwr, Hwo by exact Ha. intros Ew. exfalso. apply (Hnone a Ha). auto.
      * rewrite !Hwo by assumption. apply (t_inj _ _ _ _ T); assumption.
    + intros a [->|Ha].
      * rewrite Hwr. apply path_snoc. exists x. split.
        -- apply Hlift. apply (t_reach _ _ _ _ T x Hx).
        -- apply Hstep. auto.
      * rewrite Hwo by exact Ha. apply Hlift. apply (t_reach _ _ _ _ T a Ha).
    + intros w. rewrite (t_finals _ _ _ _ T), Hset2, Hset1.
      split; intros (f & Hf & Hw); exists f; (split; [exact Hf|]).
      * rewrite Hwo; [exact Hw|]. apply (rg_finals _ _ _ R f Hf).
      * rewrite Hwo in Hw; [exact Hw|]. apply (rg_finals _ _ _ R f Hf).
Qed.

(** The walk of one word. *)
Lemma walkWord_trie (u : list Z) : forall st N wo ws x,
  trie st N wo ws -> N x -> (forall c, In c u -> (c <= maxCharacter options)%Z) ->
  exists y st' N' wo',
    walkWord nl options x (map ofZ u) st = Ok (y, st')
    /\ trie st' N' wo' ws /\ N' y /\ wo' y = wo x ++ u
    /\ (forall t, getSet st' t = getSet st t).
Proof.
  induction u as [|c u IH]; intros st N wo ws x T Hx Hu.
  - exists x, st, N, wo. rewrite app_nil_r. simpl. auto.
  - destruct (getNext_trie st N wo ws x c T Hx) as (y & st1 & N1 & wo1 & Hrun & T1 & Hy & Ey & Hs1).
    { apply Hu. left. reflexivity. }
    destruct (IH st1 N1 wo1 ws y T1 Hy) as (z & st2 & N2 & wo2 & Hrun2 & T2 & Hz & Ez & Hs2).
    { intros c' Hc'. apply Hu. right. exact Hc'. }
    exists z, st2, N2, wo2. split; [simpl; unfold bind; rewrite Hrun; exact Hrun2|].
    split; [exact T2|]. split; [exact Hz|]. split.
    + rewrite Ez, Ey, <- app_assoc. reflexivity.
    + intros t. rewrite Hs2. apply Hs1.
Qed.

(** The loop over the words. *)
Lemma words_trie (words : list (list Z)) : forall st N wo ws,
  trie st N wo ws ->
  (forall w c, In w words -> In c w -> (c <= maxCharacter options)%Z) ->
  exists st' N' wo',
    forEach (map (map ofZ) words) (fun word =>
      node <- walkWord nl options (initial nl) word ;;
      setAdd (final nl) node) st = Ok (tt, st')
    /\ trie st' N' wo' (ws ++ words).
Proof.
  induction words as [|u words IH]; intros st N wo ws T Hw.
  - exists st, N, wo. rewrite app_nil_r. split; [reflexivity|exact T].
  - destruct (walkWord_trie u st N wo ws (initial nl) T (rg_init _ _ _ (t_region _ _ _ _ T)))
      as (y & st1 & N1 & wo1 & Hrun & T1 & Hy & Ey & Hs1).
    { intros c Hc. apply (Hw u c); [left; reflexivity|exact Hc]. }
    rewrite (t_init _ _ _ _ T) in Ey. simpl in Ey.
    set (st2 := putSet st1 (final nl) (JsSet.add (getSet st1 (final nl)) y)).
    assert (T2 : trie st2 N1 wo1 (ws ++ [u])).
    { destruct T1 as [R1 C1 S1 I1 St1 J1 P1 F1]. split.
      - apply region_putSet; [|exact R1]. intros _. split.
        + apply NoDup_set_add. apply (rg_nodup_finals _ _ _ R1).
        + intros f Hf. apply JsSetFacts.In_add in Hf as [->|Hf]; [exact Hy|].
          apply (rg_finals _ _ _ R1 f Hf).
      - intros a b. unfold succ, st2. autorewrite with store. apply C1.
      - apply allocatedSet_putSet. auto.
      - exact I1.
      - intros a c b Ha. unfold step, st2. autorewrite with store. apply St1, Ha.
      - exact J1.
      - intros a Ha. eapply path_same_nodes; [|apply P1, Ha]. reflexivity.
      - intros w. unfold st2. rewrite getSet_putSet, decide_True by reflexivity.
        rewrite in_app_iff, F1. simpl. split.
        + intros [(f & Hf & E)|[<-|[]]].
          * exists f. split; [apply JsSetFacts.In_add; auto|exact E].
          * exists y. split; [apply JsSetFacts.In_add; auto|exact Ey].
        + intros (f & Hf & E). apply JsSetFacts.In_add in Hf as [->|Hf].
          * right. left. rewrite <- E. symmetry. exact Ey.
          * left. eauto. }
    destruct (IH st2 N1 wo1 (ws ++ [u]) T2) as (st' & N' & wo' & Hrun' & T').
    { intros w c Hin. apply Hw. right. exact Hin. }
    exists st', N', wo'. split.
    + simpl. unfold bind at 1. unfold bind at 1. rewrite Hrun.
      unfold setAdd, modify. fold st2. exact Hrun'.
    + rewrite <- app_assoc in T'. exact T'.
Qed.
End Trie.

(** X15.  [fromWords], given words of integers none of which exceeds
    [maxCharacter], returns an automaton that accepts exactly the given
    words: [test] answers true on a word if and only if it is one of them. *)
Theorem fromWords_language (words : list (list Z)) (options : NFAOptions) (st : Store) :
  closedStore st ->
  (forall w c, In w words -> In c w -> (c <= maxCharacter options)%Z) ->
  exists nfa st',
    fromWords (map (map ofZ) words) options st = Ok (nfa, st')
    /\ forall word, test nfa word st' = Ok (true, st') <-> In word words.
Proof.
  intros Hcl Hw.
  destruct (newNodeList_fresh st Hcl)
    as (nl & st0 & Hnew & _ & R0 & Hfresh & Hal & Hout & Hfin & _ & Has & _).
  assert (C0 : closedStore st0).
  { intros a b. unfold succ. rewrite Hout. intros H. apply Hal. right. eapply Hcl; exact H. }
  assert (Hn_out : outOf st0 (initial nl) = []).
  { rewrite Hout. unfold outOf. rewrite unallocated_blank by exact Hfresh. reflexivity. }
  assert (T0 : trie nl st0 (fun x => x = initial nl) (fun _ => []) []).
  { split; auto.
    - intros x c y -> (S & HS & _). rewrite Hn_out in HS. destruct HS.
    - intros x y -> ->. reflexivity.
    - intros x ->. constructor.
    - intros w. rewrite Hfin. split; [intros []|intros (f & [] & _)]. }
  destruct (words_trie nl options words st0 _ _ [] T0 Hw) as (st1 & N1 & wo1 & Hrun1 & T1).
  simpl in T1.
  destruct (reuseFinals_language nl st1 N1 (t_region _ _ _ _ _ T1)) as (st2 & Hrun2 & L2 & _).
  exists (mkNFA nl options), st2. split.
  - unfold fromWords. unfold bind at 1. rewrite Hnew. unfold bind at 1. rewrite Hrun1.
    unfold bind at 1. rewrite Hrun2. reflexivity.
  - intros word. rewrite test_true_accepts. simpl. rewrite L2.
    apply (trie_language nl st1 N1 wo1 words word T1).
Qed.

Lemma fromWords_language_witness :
  exists nfa st',
    fromWords (map (map ofZ) [[97; 98]; [97; 99]; []; [97; 98]]%Z) options16 emptyStore
    = Ok (nfa, st')
    /\ forall word, test nfa word st' = Ok (true, st')
                    <-> In word [[97; 98]; [97; 99]; []; [97; 98]]%Z.
Proof.
  apply (fromWords_language [[97; 98]; [97; 99]; []; [97; 98]]%Z options16 emptyStore).
  - apply closedStoreb_sound. vm_compute. reflexivity.
  - intros w c Hw Hc. simpl in Hw.
    repeat (destruct Hw as [<-|Hw]; [simpl in Hc; unfold maxCharacter, options16; lia|]).
    destruct Hw.
Defined.

(** ** The iterator, once more *)

(** The loop yields no node twice, and only nodes of a set [P] that holds
    the nodes to visit and is closed under the edges. *)
Lemma iterLoop_sound st (P : nat -> Prop) :
  (forall x y, P x -> succ st x y -> P y) ->
  forall fuel toVisit visited l,
    List.NoDup visited -> (forall x, In x visited -> P x) -> (forall x, In x toVisit -> P x) ->
    iterLoop fuel st toVisit visited visited = Ok l ->
    List.NoDup l /\ forall x, In x l -> P x.
Proof.
  intros HP. induction fuel as [|fuel IH]; intros toVisit visited l Hnd Hv Ht Hrun.
  - destruct toVisit; [|discriminate]. injection Hrun as <-. auto.
  - destruct toVisit as [|t0 tl] eqn:Et.
    + injection Hrun as <-. auto.
    + rewrite <- Et in *.
      destruct (iterLevel_spec st toVisit visited visited [])
        as (news & nv & Hlev & Hnd' & Hsub & _ & Hnv).
      rewrite Et in Hrun at 1. rewrite iterLoop_cons, <- Et, Hlev in Hrun.
      apply (IH nv (visited ++ news) l); [auto| | |exact Hrun].
      * intros x Hx. apply in_app_iff in Hx as [Hx|Hx]; [auto|]. apply Ht, Hsub, Hx.
      * intros y Hy. apply Hnv in Hy as [[]|(x & Hx & Hy)].
        eapply HP; [|exact Hy]. apply Ht, Hsub, Hx.
Qed.

(** X16.  In a store whose edges lead to existing nodes, iterating a node
    list returns the initial node first and then, each exactly once, the
    nodes reachable from it along the edges, and no other node; the store
    stays as it is. *)
Theorem iterate_reachable (this : NodeList) (st : Store) :
  closedStore st -> allocated st (initial this) ->
  exists l,
    iterate this st = Ok (initial this :: l, st)
    /\ List.NoDup (initial this :: l)
    /\ forall x, In x (initial this :: l) <-> rtc (succ st) (initial this) x.
Proof.
  intros Hcl Hi.
  destruct (iterate_spec this st (allocatedList st)) as (l & Hrun & Hclosed & _).
  - apply In_allocatedList, Hi.
  - intros x y _ Hy. apply In_allocatedList. eapply Hcl; eauto.
  - rewrite length_allocatedList. lia.
  - exists l. split; [exact Hrun|].
    assert (H : List.NoDup (initial this :: l)
                /\ forall x, In x (initial this :: l) -> rtc (succ st) (initial this) x).
    { unfold iterate in Hrun.
      destruct (iterLoop _ _ _ _ _) as [l'|] eqn:E; [|discriminate].
      injection Hrun as ->.
      apply (iterLoop_sound st (rtc (succ st) (initial this))) in E; auto.
      - intros x y Hx Hy. eapply rtc_r; eauto.
      - constructor.
      - intros x [].
      - intros x [<-|[]]. constructor. }
    destruct H as [Hnd Hreach]. split; [exact Hnd|]. intros x. split; [apply Hreach|].
    intros Hr.
    refine (succ_closed_rtc st (fun z => In z (initial this :: l)) _ _ Hclosed _ Hr).
    left. reflexivity.
Qed.

Lemma iterate_reachable_witness :
  exists l,
    iterate (nodes twoLeft) twoStore = Ok (initial (nodes twoLeft) :: l, twoStore)
    /\ List.NoDup (initial (nodes twoLeft) :: l)
    /\ forall x, In x (initial (nodes twoLeft) :: l)
                 <-> rtc (succ twoStore) (initial (nodes twoLeft)) x.
Proof.
  apply (iterate_reachable (nodes twoLeft) twoStore).
  - apply closedStoreb_sound. vm_compute. reflexivity.
  - apply allocatedb_sound. vm_compute. reflexivity.
Defined.

(** ** What a transformer leaves alone *)

Section Frame.
Variable nodeList : NodeList.

(** [frame b st0 st]: between the stores [st0] and [st] a transformer has
    worked on the sub-automaton [b].  Nodes stay and keep their list, new
    nodes belong to the node list, the edges that leave a node other than
    the initial and the final nodes of [b] are as they were, no edge has been
    added that enters a node of [st0], the other sets are as they were, and
    the final nodes of [b] are former ones, its initial node or new nodes. *)
Record frame (b : SubList) (st0 st : Store) : Prop := mkFrame {
  fr_alloc : forall a, allocated st0 a -> allocated st a;
  fr_owner : forall a, allocated st0 a -> owner st a = owner st0 a;
  fr_new : forall a, allocated st a -> ~ allocated st0 a -> owner st a = nl_id nodeList;
  fr_out : forall a, allocated st0 a -> a <> initial b -> ~ In a (getSet st0 (final b)) ->
                     outOf st a = outOf st0 a;
  fr_into : forall x y, succ st x y -> allocated st0 y -> succ st0 x y;
  fr_sets : forall t, allocatedSet st0 t -> t <> final b -> getSet st t = getSet st0 t;
  fr_aset : forall t, allocatedSet st0 t -> allocatedSet st t;
  fr_finals : forall f, In f (getSet st (final b)) ->
                        In f (getSet st0 (final b)) \/ f = initial b \/ ~ allocated st0 f
}.

Lemma frame_refl b st : frame b st st.
Proof.
  split; auto.
  - intros a Ha Hn. contradiction.
Qed.

(** The part of the sub-automaton that was worked on takes in the new
    nodes. *)
Lemma frame_part_self b st st' Nb :
  good st -> part nodeList st b Nb -> rooted nodeList st' b -> frame b st st' ->
  part nodeList st' b (fun y => Nb y \/ (allocated st' y /\ ~ allocated st y)).
Proof.
  intros G [P1 P2 P3 P4 P5 P6 P7] R' [F1 F2 F3 F4 F5 F6 F7 F8]. split.
  - intros y [Hy|[Hy Hy0]].
    + destruct (P1 y Hy) as [Ha Ho]. split; [auto|]. rewrite F2; auto.
    + split; [exact Hy|]. apply F3; assumption.
  - intros x y Hx Hxy. destruct (decide (allocated st y)) as [Hy|Hy].
    + left. pose proof (F5 _ _ Hxy Hy) as Hxy0.
      destruct Hx as [Hx|[_ Hx]]; [eapply P2; eauto|].
      exfalso. apply Hx. eapply succ_allocated; eauto.
    + right. split; [|exact Hy]. eapply (good_closed _ (rt_good _ _ _ R')); eauto.
  - intros x y Hxy [Hy|[Hy Hy0]].
    + left. apply (P3 x y); [|exact Hy]. apply F5; [exact Hxy|]. apply (P1 y Hy).
    + destruct (decide (allocated st x)) as [Hx|Hx].
      * left. destruct (decide (x = initial b)) as [->|Hxi]; [exact P4|].
        destruct (in_dec Nat.eq_dec x (getSet st (final b))) as [Hxf|Hxf]; [apply P5, Hxf|].
        exfalso. apply Hy0. unfold succ in Hxy. rewrite F4 in Hxy by assumption.
        eapply good_closed; eauto.
      * right. split; [eapply succ_allocated; eauto|exact Hx].
  - left. exact P4.
  - intros f Hf. destruct (F8 f Hf) as [H|[->|H]]; [left; apply P5, H|left; exact P4|].
    right. split; [apply (rt_finals _ _ _ R' f Hf)|exact H].
  - apply F7, P6.
  - intros x Hx. apply (P7 x). apply F5; [exact Hx|]. apply (P1 _ P4).
Qed.

(** A part that keeps out of the sub-automaton that was worked on is as it
    was. *)
Lemma frame_part_other b st st' s N :
  part nodeList st s N -> apart st b s N -> frame b st st' ->
  part nodeList st' s N /\ apart st' b s N
  /\ forall w, accepts st' s w <-> accepts st s w.
Proof.
  intros [P1 P2 P3 P4 P5 P6 P7] [A1 A2 A3] [F1 F2 F3 F4 F5 F6 F7 F8].
  assert (Hout : forall x, N x -> outOf st' x = outOf st x).
  { intros x Hx. apply F4.
    - apply (P1 x Hx).
    - intros ->. contradiction.
    - intros H. apply (A2 x H). exact Hx. }
  assert (Hset : getSet st' (final s) = getSet st (final s)).
  { apply F6; [exact P6|congruence]. }
  split; [|split].
  - split.
    + intros y Hy. destruct (P1 y Hy) as [Ha Ho]. split; [auto|]. rewrite F2; auto.
    + intros x y Hx Hxy. apply (P2 x y Hx). unfold succ in *. rewrite <- Hout; auto.
    + intros x y Hxy Hy. apply (P3 x y); [|exact Hy]. apply F5; [exact Hxy|apply (P1 y Hy)].
    + exact P4.
    + intros f Hf. rewrite Hset in Hf. apply P5, Hf.
    + apply F7, P6.
    + intros x Hx. apply (P7 x). apply F5; [exact Hx|apply (P1 _ P4)].
  - split; [exact A1| |exact A3].
    intros f Hf Hn. destruct (F8 f Hf) as [H|[->|H]].
    + apply (A2 f H Hn).
    + contradiction.
    + apply H. apply (P1 f Hn).
  - intros w. apply (accepts_part N); auto.
Qed.

(** A rooted sub-automaton outside the part that was worked on is as it
    was. *)
Lemma frame_rooted_other b st st' Nb b0 :
  rooted nodeList st b0 -> part nodeList st b Nb -> apart st b0 b Nb ->
  frame b st st' -> good st' ->
  rooted nodeList st' b0
  /\ apart st' b0 b (fun y => Nb y \/ (allocated st' y /\ ~ allocated st y))
  /\ (forall w, accepts st' b0 w <-> accepts st b0 w)
  /\ ((forall x, ~ succ st x (initial b0)) -> forall x, ~ succ st' x (initial b0)).
Proof.
  intros [G Hi Hs Ho Hsu Hf] [P1 P2 P3 P4 P5 P6 P7] [A1 A2 A3] [F1 F2 F3 F4 F5 F6 F7 F8] G'.
  assert (Hout : forall x, allocated st x -> ~ Nb x -> outOf st' x = outOf st x).
  { intros x Hx Hn. apply F4; [exact Hx| |].
    - intros ->. contradiction.
    - intros H. apply Hn. apply P5, H. }
  assert (Hset : getSet st' (final b0) = getSet st (final b0)) by (apply F6; assumption).
  split; [|split; [|split]].
  - split.
    + exact G'.
    + auto.
    + auto.
    + rewrite F2; auto.
    + intros o Hso. unfold succ in Hso. rewrite Hout in Hso by assumption.
      rewrite F2; [auto|]. eapply good_closed; eauto.
    + intros f Hff. rewrite Hset in Hff. destruct (Hf f Hff) as [Ha Hown].
      split; [auto|]. rewrite F2; auto.
  - split.
    + intros [H|[_ H]]; contradiction.
    + intros f Hff. rewrite Hset in Hff. intros [H|[_ H]].
      * apply (A2 f Hff H).
      * apply H. apply (Hf f Hff).
    + exact A3.
  - intros w. apply (accepts_part (fun x => allocated st x /\ ~ Nb x)).
    + intros x [Hx Hn]. apply Hout; assumption.
    + intros x y [Hx Hn] Hxy. split; [eapply good_closed; eauto|].
      intros Hy. apply Hn. eapply P3; eauto.
    + auto.
    + exact Hset.
  - intros Hnorm x Hx. apply (Hnorm x). apply F5; assumption.
Qed.
End Frame.

(** ** The transformers make no node but by [createNode] *)

Lemma linkNodes_no_new (A : nat -> Prop) this from to chars s s' :
  (forall a, allocated s a -> A a) -> A from -> A to ->
  linkNodes this from to chars s = Ok (tt, s') -> forall a, allocated s' a -> A a.
Proof.
  intros H Hf Ht Hrun a Ha. apply linkNodes_effect in Hrun as (_ & _ & _ & _ & Hal & _).
  apply Hal in Ha as [->|[->|Ha]]; auto.
Qed.

Lemma unlinkNodes_no_new (A : nat -> Prop) this from to s s' :
  (forall a, allocated s a -> A a) -> A from -> A to ->
  unlinkNodes this from to s = Ok (tt, s') -> forall a, allocated s' a -> A a.
Proof.
  intros H Hf Ht Hrun a Ha. apply unlinkNodes_effect in Hrun as (_ & _ & _ & _ & Hal & _).
  apply Hal in Ha as [->|[->|Ha]]; auto.
Qed.

Lemma baseMakeEmpty_no_new nodeList base st st' :
  allocated st (initial base) -> closedStore st ->
  baseMakeEmpty nodeList base st = Ok (tt, st') ->
  forall a, allocated st' a -> allocated st a.
Proof.
  intros Hi Hcl Hrun. unfold baseMakeEmpty in Hrun.
  apply bind_Ok in Hrun as (outs & s0 & Hg & Hrun). unfold gets in Hg. injection Hg as <- <-.
  apply bind_Ok in Hrun as ([] & s1 & Hloop & Hclear).
  unfold setClear, modify in Hclear. injection Hclear as <-.
  assert (H : forall a, allocated s1 a -> allocated st a).
  { refine (forEach_inv (fun _ s => forall a, allocated s a -> allocated st a) _ _ _ _ _ _ Hloop);
      [auto|].
    intros pre o post sa sb E Hsa Hbody.
    refine (unlinkNodes_no_new (allocated st) _ _ _ _ _ Hsa Hi _ Hbody).
    apply (Hcl (initial base)). unfold succ. rewrite E. apply in_elt. }
  intros a Ha. apply H. apply (allocated_same_nodes s1 (putSet s1 (final base) [])) in Ha;
    [exact Ha|reflexivity].
Qed.

Lemma forEach_setAdd_nodes (l : list nat) (body : nat -> M Store unit) st st' :
  (forall x s s', body x s = Ok (tt, s') -> store_nodes s' = store_nodes s) ->
  forEach l body st = Ok (tt, st') -> store_nodes st' = store_nodes st.
Proof.
  intros Hb Hrun.
  refine (forEach_inv (fun _ s => store_nodes s = store_nodes st) _ _ _ _ _ _ Hrun);
    [reflexivity|].
  intros pre x post sa sb _ Hsa Hbody. rewrite (Hb _ _ _ Hbody). exact Hsa.
Qed.

Lemma baseConcat_no_new nodeList base after st st' :
  allocated st (initial base) -> allocated st (initial after) -> closedStore st ->
  (forall f, In f (getSet st (final base)) -> allocated st f) ->
  baseConcat nodeList base after st = Ok (tt, st') ->
  forall a, allocated st' a -> allocated st a.
Proof.
  intros Hbi Hai Hcl Hbf Hrun. unfold baseConcat in Hrun.
  apply bind_Ok in Hrun as (nb & s0 & Hg & Hrun). unfold setSize, gets in Hg.
  injection Hg as <- <-.
  destruct (JsSet.size (getSet st (final base)) =? 0); [injection Hrun as <-; auto|].
  apply bind_Ok in Hrun as (na & s0 & Hg & Hrun). unfold setSize, gets in Hg.
  injection Hg as <- <-.
  destruct (JsSet.size (getSet st (final after)) =? 0);
    [exact (baseMakeEmpty_no_new nodeList base st st' Hbi Hcl Hrun)|].
  apply bind_Ok in Hrun as (edges & s0 & Hg & Hrun). unfold gets in Hg. injection Hg as <- <-.
  apply bind_Ok in Hrun as (bfs & s0 & Hg & Hrun). unfold setElements, gets in Hg.
  injection Hg as <- <-.
  apply bind_Ok in Hrun as ([] & s1 & Hlink & Hrun).
  apply bind_Ok in Hrun as ([] & s2 & Hunlink & Hrun).
  apply bind_Ok in Hrun as (aif & s2' & Hg & Hrun). unfold setHas, gets in Hg.
  injection Hg as _ <-.
  apply bind_Ok in Hrun as ([] & s3 & Hclear & Hrun).
  apply bind_Ok in Hrun as (afs & s3' & Hg & Hrun). unfold setElements, gets in Hg.
  injection Hg as <- <-.
  assert (He : forall e, In e (outOf st (initial after)) -> allocated st (fst e)).
  { intros e He. apply (Hcl (initial after)). unfold succ, JsMap.keys. apply in_map. exact He. }
  assert (H1 : forall a, allocated s1 a -> allocated st a).
  { refine (forEach_inv (fun _ s => forall a, allocated s a -> allocated st a) _ _ _ _ _ _ Hlink);
      [auto|].
    intros pre f post sa sb E Hsa Hbody.
    refine (forEach_inv (fun _ s => forall a, allocated s a -> allocated st a) _ _ _ _ _ _ Hbody);
      [exact Hsa|].
    intros pre' e post' sc sd E' Hsc Hb.
    refine (linkNodes_no_new (allocated st) _ _ _ _ _ _ Hsc _ _ Hb).
    - apply Hbf. rewrite E. apply in_elt.
    - apply He. rewrite E'. apply in_elt. }
  assert (H2 : forall a, allocated s2 a -> allocated st a).
  { refine (forEach_inv (fun _ s => forall a, allocated s a -> allocated st a) _ _ _ _ _ _ Hunlink);
      [exact H1|].
    intros pre e post sa sb E Hsa Hbody.
    refine (unlinkNodes_no_new (allocated st) _ _ _ _ _ Hsa Hai _ Hbody).
    apply He. rewrite E. apply in_elt. }
  assert (N3 : store_nodes s3 = store_nodes s2).
  { destruct aif; [injection Hclear as <-; reflexivity|].
    unfold setClear, modify in Hclear. injection Hclear as <-. reflexivity. }
  assert (N4 : store_nodes st' = store_nodes s3).
  { refine (forEach_setAdd_nodes _ _ _ _ _ Hrun). intros x s s' Hb.
    destruct (x =? initial after); [injection Hb as <-; reflexivity|].
    unfold setAdd, modify in Hb. injection Hb as <-. reflexivity. }
  intros a Ha. apply H2. apply (allocated_same_nodes st' s2); [|exact Ha].
  rewrite <- N4 in N3. symmetry. exact N3.
Qed.

(** ** Frames of the steps of the transformers *)

Section Steps.
Variable nodeList : NodeList.

Lemma frame_step b st0 st st' :
  frame nodeList b st0 st ->
  (forall a, allocated st a -> allocated st' a) ->
  (forall a, allocated st a -> owner st' a = owner st a) ->
  (forall a, allocated st' a -> ~ allocated st a -> owner st' a = nl_id nodeList) ->
  (forall a, allocated st0 a -> a <> initial b -> ~ In a (getSet st0 (final b)) ->
             outOf st' a = outOf st a) ->
  (forall x y, succ st' x y -> allocated st0 y -> succ st x y) ->
  (forall t, allocatedSet st0 t -> t <> final b -> getSet st' t = getSet st t) ->
  (forall t, allocatedSet st t -> allocatedSet st' t) ->
  (forall f, In f (getSet st' (final b)) ->
             In f (getSet st (final b)) \/ In f (getSet st0 (final b))
             \/ f = initial b \/ ~ allocated st0 f) ->
  frame nodeList b st0 st'.
Proof.
  intros [F1 F2 F3 F4 F5 F6 F7 F8] S1 S2 S3 S4 S5 S6 S7 S8. split.
  - auto.
  - intros a Ha. rewrite S2; auto.
  - intros a Ha Ha0. destruct (decide (allocated st a)) as [H|H].
    + rewrite S2 by exact H. apply F3; assumption.
    + apply S3; assumption.
  - intros a Ha Hi Hf. rewrite S4 by assumption. apply F4; assumption.
  - intros x y Hxy Hy. apply F5; [|exact Hy]. apply S5; assumption.
  - intros t Ht Hne. rewrite S6 by assumption. apply F6; assumption.
  - auto.
  - intros f Hf. destruct (S8 f Hf) as [H|H]; [apply F8, H|exact H].
Qed.

Lemma frame_localCopy b st0 st toCopy c st1 :
  frame nodeList b st0 st -> good st ->
  allocated st (initial toCopy) -> allocatedSet st (final toCopy) ->
  allocatedSet st (final b) ->
  localCopy nodeList toCopy st = Ok (c, st1) -> frame nodeList b st0 st1.
Proof.
  intros F G Hti Htf Hbs Hrun.
  destruct (localCopy_spec nodeList toCopy st G Hti Htf)
    as (c' & st1' & Hrun' & G1 & Hold & Hkeep & Hfc & Hals & Hni & Hai & Hfin & Hnew & _).
  rewrite Hrun in Hrun'. injection Hrun' as <- <-.
  assert (Hset : forall t, allocatedSet st t -> getSet st1 t = getSet st t).
  { intros t Ht. apply Hkeep. intros ->. contradiction. }
  apply (frame_step b st0 st st1 F).
  - intros a Ha. apply (Hold a Ha).
  - intros a Ha. apply (Hold a Ha).
  - intros a Ha Ha0. apply (Hnew a Ha Ha0).
  - intros a Ha _ _. apply (Hold a). apply (fr_alloc _ _ _ _ F a Ha).
  - intros x y Hxy Hy. destruct (decide (allocated st x)) as [Hx|Hx].
    + unfold succ in *. destruct (Hold x Hx) as (_ & <- & _). exact Hxy.
    + exfalso. destruct (Hnew x (succ_allocated _ _ _ Hxy) Hx) as [_ Hcl].
      destruct (Hcl _ Hxy) as [_ H]. apply H. apply (fr_alloc _ _ _ _ F y Hy).
  - intros t Ht _. apply Hset. apply (fr_aset _ _ _ _ F t Ht).
  - intros t Ht. apply Hals. auto.
  - intros f Hf. left. rewrite Hset in Hf by exact Hbs. exact Hf.
Qed.

Lemma frame_baseConcat b st0 st c N st' :
  frame nodeList b st0 st -> rooted nodeList st b -> part nodeList st c N ->
  apart st b c N -> (forall y, N y -> ~ allocated st0 y) ->
  baseConcat nodeList b c st = Ok (tt, st') -> frame nodeList b st0 st'.
Proof.
  intros F [G Hi Hs Ho Hsu Hf] [P1 P2 P3 P4 P5 P6 P7] [A1 A2 A3] Hnew Hrun.
  destruct (baseConcat_spec nodeList b c st N G A3 Hs Ho Hsu)
    as (st'' & Hrun' & G' & _ & Hown & Hal & Hset & Hals & Hfin & Hout & Hsucc & _); auto.
  { intros f Hff. apply (Hf f Hff). }
  { intros y Hy. apply (P1 y Hy). }
  rewrite Hrun in Hrun'. injection Hrun' as <-.
  assert (Hno : forall a, allocated st' a -> allocated st a).
  { apply (baseConcat_no_new nodeList b c st st'); auto.
    - apply (P1 _ P4).
    - exact (good_closed _ G).
    - intros f Hff. apply (Hf f Hff). }
  apply (frame_step b st0 st st' F).
  - exact Hal.
  - intros a _. apply Hown.
  - intros a Ha Ha0. exfalso. auto.
  - intros a Ha Hai Haf. apply Hout.
    + exact Hai.
    + intros ->. apply (Hnew _ P4). exact Ha.
    + intros H. destruct (fr_finals _ _ _ _ F a H) as [H'|[H'|H']]; auto.
  - intros x y Hxy Hy. destruct (Hsucc _ _ Hxy) as [H|[H _]]; [exact H|].
    exfalso. apply (Hnew y H). exact Hy.
  - intros t _ Ht. apply Hset. congruence.
  - intros t Ht. apply Hals. exact Ht.
  - intros f Hff. destruct (Hfin f Hff) as [H|H]; [auto|].
    right. right. right. apply Hnew. apply P5. exact H.
Qed.

Lemma frame_baseMakeEmpty b st0 st st' :
  frame nodeList b st0 st -> rooted nodeList st b ->
  baseMakeEmpty nodeList b st = Ok (tt, st') -> frame nodeList b st0 st'.
Proof.
  intros F [G Hi Hs Ho Hsu Hf] Hrun.
  destruct (baseMakeEmpty_spec nodeList b st G Ho Hsu)
    as (st'' & Hrun' & G' & Hout & Hown & Hal & Hset & Hals).
  rewrite Hrun in Hrun'. injection Hrun' as <-.
  pose proof (baseMakeEmpty_no_new nodeList b st st' Hi (good_closed _ G) Hrun) as Hno.
  apply (frame_step b st0 st st' F).
  - exact Hal.
  - intros a _. apply Hown.
  - intros a Ha Ha0. exfalso. auto.
  - intros a _ Hai _. rewrite Hout, decide_False by exact Hai. reflexivity.
  - intros x y Hxy _. unfold succ in *. rewrite Hout in Hxy.
    destruct (decide (x = initial b)); [destruct Hxy|exact Hxy].
  - intros t _ Ht. rewrite Hset, decide_False by congruence. reflexivity.
  - intros t Ht. apply Hals. auto.
  - intros f Hff. rewrite Hset, decide_True in Hff by reflexivity. destruct Hff.
Qed.

Lemma frame_putSet b st0 st l :
  frame nodeList b st0 st ->
  (forall f, In f l -> In f (getSet st (final b)) \/ In f (getSet st0 (final b))
                       \/ f = initial b \/ ~ allocated st0 f) ->
  frame nodeList b st0 (putSet st (final b) l).
Proof.
  intros F Hl. apply (frame_step b st0 st _ F).
  - intros a Ha. apply (allocated_same_nodes st); [reflexivity|exact Ha].
  - intros a _. apply owner_same_nodes. reflexivity.
  - intros a Ha Ha0. exfalso. apply Ha0.
    apply (allocated_same_nodes (putSet st (final b) l) st); [reflexivity|exact Ha].
  - intros a _ _ _. apply outOf_same_nodes. reflexivity.
  - intros x y Hxy _. unfold succ in *. autorewrite with store in Hxy. exact Hxy.
  - intros t _ Ht. rewrite getSet_putSet, decide_False by congruence. reflexivity.
  - intros t Ht. apply allocatedSet_putSet. auto.
  - intros f Hff. rewrite getSet_putSet, decide_True in Hff by reflexivity. auto.
Qed.
End Steps.

(** ** The shape of the graph after baseRepeat *)

Section RepeatShape.
Variables (nodeList : NodeList) (base : SubList).

(** One round: a copy of the part [copy] is appended to the base. *)
Lemma round_shape st0 st copy Rc st' :
  rooted nodeList st base -> part nodeList st copy Rc -> apart st base copy Rc ->
  frame nodeList base st0 st ->
  (c <- localCopy nodeList copy ;; baseConcat nodeList base c) st = Ok (tt, st') ->
  rooted nodeList st' base /\ part nodeList st' copy Rc /\ apart st' base copy Rc
  /\ frame nodeList base st0 st'.
Proof.
  intros R P A F Hrun.
  pose proof (rt_good _ _ _ R) as G.
  assert (Hci : allocated st (initial copy)).
  { apply (pt_alloc _ _ _ _ P). apply (pt_init _ _ _ _ P). }
  destruct (copy_step nodeList copy st base R Hci (pt_set _ _ _ _ P))
    as (c & st1 & Hrun1 & R1 & Pc & Ac & Hfr & Hsets & _ & Hother).
  { intros x _. apply (pt_norm _ _ _ _ P). }
  unfold bind in Hrun. rewrite Hrun1 in Hrun.
  pose proof (Hother copy Rc P) as P1.
  assert (Hb1 : getSet st1 (final base) = getSet st (final base)).
  { apply Hsets. apply (rt_set _ _ _ R). }
  assert (A1 : apart st1 base copy Rc).
  { destruct A as [A1 A2 A3]. split; [exact A1| |exact A3]. rewrite Hb1. exact A2. }
  destruct (concat_step nodeList st1 base c _ R1 Pc Ac)
    as (st2 & Hrun2 & R2 & _ & _ & _ & _ & Hother2).
  rewrite Hrun in Hrun2. injection Hrun2 as <-.
  destruct (Hother2 copy Rc P1) as (P2 & A2 & _); [|exact A1|].
  { intros y [_ Hy] Hr. apply Hy. apply (pt_alloc _ _ _ _ P). exact Hr. }
  split; [exact R2|]. split; [exact P2|]. split; [exact A2|].
  assert (F1 : frame nodeList base st0 st1).
  { apply (frame_localCopy nodeList base st0 st copy c st1 F G Hci (pt_set _ _ _ _ P)
             (rt_set _ _ _ R) Hrun1). }
  apply (frame_baseConcat nodeList base st0 st1 c _ st' F1 R1 Pc Ac); [|exact Hrun].
  intros y [_ Hy] Hy0. apply Hy. apply (fr_alloc _ _ _ _ F y Hy0).
Qed.

Lemma rounds_shape st0 copy Rc k : forall st st',
  rooted nodeList st base -> part nodeList st copy Rc -> apart st base copy Rc ->
  frame nodeList base st0 st ->
  repeatM k (c <- localCopy nodeList copy ;; baseConcat nodeList base c) st = Ok (tt, st') ->
  rooted nodeList st' base /\ part nodeList st' copy Rc /\ apart st' base copy Rc
  /\ frame nodeList base st0 st'.
Proof.
  induction k as [|k IH]; intros st st' R P A F Hrun.
  - injection Hrun as <-. auto.
  - simpl in Hrun. apply bind_Ok in Hrun as ([] & st1 & Hr1 & Hrun).
    destruct (round_shape st0 st copy Rc st1 R P A F Hr1) as (R1 & P1 & A1 & F1).
    apply (IH st1 st' R1 P1 A1 F1 Hrun).
Qed.

(** The nodes that may be final after the work on the base. *)
Definition finalish (st0 st : Store) (g : nat) : Prop :=
  (In g (getSet st0 (final base)) \/ g = initial base \/ ~ allocated st0 g)
  /\ allocated st g /\ owner st g = nl_id nodeList.

Lemma finalish_frame st0 st st' g :
  frame nodeList base st st' -> finalish st0 st g -> finalish st0 st' g.
Proof.
  intros F (H1 & H2 & H3). split; [exact H1|]. split.
  - apply (fr_alloc _ _ _ _ F g H2).
  - rewrite (fr_owner _ _ _ _ F g H2). exact H3.
Qed.

Lemma collect_shape st0 copy Rc k : forall st st' realFinal realFinal',
  rooted nodeList st base -> part nodeList st copy Rc -> apart st base copy Rc ->
  frame nodeList base st0 st ->
  (forall g, In g realFinal -> finalish st0 st g) ->
  repeatCollect nodeList base copy k realFinal st = Ok (realFinal', st') ->
  rooted nodeList st' base /\ part nodeList st' copy Rc /\ apart st' base copy Rc
  /\ frame nodeList base st0 st'
  /\ (forall g, In g realFinal' -> finalish st0 st' g).
Proof.
  induction k as [|k IH]; intros st st' rf rf' R P A F Hrf Hrun.
  - injection Hrun as <- <-. auto.
  - simpl in Hrun.
    apply bind_Ok in Hrun as (c & s1 & Hc & Hrun).
    apply bind_Ok in Hrun as ([] & st1 & Hcat & Hrun).
    apply bind_Ok in Hrun as (fs & s2 & Hg & Hrun).
    unfold setElements, gets in Hg. injection Hg as <- <-.
    assert (Hr1 : (c <- localCopy nodeList copy ;; baseConcat nodeList base c) st
                  = Ok (tt, st1)).
    { unfold bind. rewrite Hc. exact Hcat. }
    destruct (round_shape st0 st copy Rc st1 R P A F Hr1) as (R1 & P1 & A1 & F1).
    destruct (round_shape st st copy Rc st1 R P A (frame_refl _ _ _) Hr1) as (_ & _ & _ & F').
    refine (IH st1 st' _ rf' R1 P1 A1 F1 _ Hrun).
    intros g Hg. apply JsSetFacts.In_addAll in Hg as [Hg|Hg].
    + split; [apply (fr_finals _ _ _ _ F1 g Hg)|]. apply (rt_finals _ _ _ R1 g Hg).
    + apply (finalish_frame st0 st st1 g F'). apply Hrf, Hg.
Qed.

(** Filling the set of final nodes from the collected ones. *)
Lemma fill_shape st0 st3 (l : list nat) st' :
  rooted nodeList st3 base -> frame nodeList base st0 st3 ->
  (forall g, In g l -> finalish st0 st3 g) ->
  forEach l (fun f => setAdd (final base) f) (putSet st3 (final base) []) = Ok (tt, st') ->
  rooted nodeList st' base /\ frame nodeList base st0 st'.
Proof.
  intros R F Hl Hrun.
  assert (H : store_nodes st' = store_nodes st3
              /\ frame nodeList base st0 st'
              /\ (forall f, In f (getSet st' (final base)) -> In f l)
              /\ allocatedSet st' (final base)).
  { refine (forEach_inv
              (fun _ s => store_nodes s = store_nodes st3
                          /\ frame nodeList base st0 s
                          /\ (forall f, In f (getSet s (final base)) -> In f l)
                          /\ allocatedSet s (final base)) _ _ _ _ _ _ Hrun).
    - split; [reflexivity|]. split; [|split].
      + apply frame_putSet; [exact F|]. intros f [].
      + intros f. rewrite getSet_putSet, decide_True by reflexivity. intros [].
      + apply allocatedSet_putSet. auto.
    - intros pre x post sa sb E (Na & Fa & La & Sa) Hb.
      unfold setAdd, modify in Hb. injection Hb as <-.
      assert (Hx : In x l) by (rewrite E; apply in_elt).
      split; [exact Na|]. split; [|split].
      + apply frame_putSet; [exact Fa|]. intros f Hf.
        apply JsSetFacts.In_add in Hf as [->|Hf]; [|auto].
        right. apply (Hl x Hx).
      + intros f. rewrite getSet_putSet, decide_True by reflexivity.
        intros Hf. apply JsSetFacts.In_add in Hf as [->|Hf]; auto.
      + apply allocatedSet_putSet. auto. }
  destruct H as (Hn & F' & Hfin & Hset). split; [|exact F'].
  destruct R as [G Hi Hs Ho Hsu Hf]. split.
  - eapply good_same_nodes; eauto.
  - apply (allocated_same_nodes st3 st'); auto.
  - exact Hset.
  - rewrite (owner_same_nodes st3 st') by exact Hn. exact Ho.
  - intros o Hso. rewrite (owner_same_nodes st3 st') by exact Hn. apply Hsu.
    unfold succ in *. rewrite <- (outOf_same_nodes st3 st') by exact Hn. exact Hso.
  - intros f Hff. destruct (Hl f (Hfin f Hff)) as (_ & Ha & Hown). split.
    + apply (allocated_same_nodes st3 st'); auto.
    + rewrite (owner_same_nodes st3 st') by exact Hn. exact Hown.
Qed.

(** When [baseRepeat] returns, the base is rooted as before and the rest
    of the store is as the frame says. *)
Lemma baseRepeat_shape n st st' :
  rooted nodeList st base -> (forall x, ~ succ st x (initial base)) ->
  baseRepeat nodeList base n st = Ok (tt, st') ->
  rooted nodeList st' base /\ frame nodeList base st st'.
Proof.
  intros R Hnp Hrun. pose proof (rt_good _ _ _ R) as G.
  set (bi := initial base) in *.
  unfold baseRepeat in Hrun.
  destruct (n =? 0).
  { apply bind_Ok in Hrun as ([] & st1 & Hme & Hadd).
    unfold setAdd, modify in Hadd. injection Hadd as <-.
    destruct (baseMakeEmpty_spec nodeList base st G (rt_owner _ _ _ R) (rt_succ _ _ _ R))
      as (st1' & Hrun' & G1 & Hout & Hown & Hal & Hset & Hals).
    rewrite Hme in Hrun'. injection Hrun' as <-.
    pose proof (frame_baseMakeEmpty nodeList base st st st1 (frame_refl _ _ _) R Hme) as F1.
    assert (E1 : getSet st1 (final base) = []) by (rewrite Hset, decide_True; reflexivity).
    rewrite E1. split.
    - split.
      + eapply good_same_nodes; [|exact G1]. reflexivity.
      + apply (allocated_same_nodes st1); [reflexivity|]. apply Hal, (rt_init _ _ _ R).
      + apply allocatedSet_putSet. auto.
      + rewrite (owner_same_nodes st1) by reflexivity. rewrite Hown. apply (rt_owner _ _ _ R).
      + intros o Hso. unfold succ in Hso. autorewrite with store in Hso.
        rewrite Hout, decide_True in Hso by reflexivity. destruct Hso.
      + intros f. rewrite getSet_putSet, decide_True by reflexivity.
        intros [<-|[]]. split.
        * apply (allocated_same_nodes st1); [reflexivity|]. apply Hal, (rt_init _ _ _ R).
        * rewrite (owner_same_nodes st1) by reflexivity. rewrite Hown.
          apply (rt_owner _ _ _ R).
    - apply frame_putSet; [exact F1|]. intros f [<-|[]]. auto. }
  destruct (n =? 1).
  { injection Hrun as <-. split; [exact R|apply frame_refl]. }
  apply bind_Ok in Hrun as (size & s0 & Hg & Hrun). unfold setSize, gets in Hg.
  injection Hg as <- <-.
  apply bind_Ok in Hrun as (iif & s0 & Hg & Hrun). unfold setHas, gets in Hg.
  injection Hg as <- <-.
  set (finals := getSet st (final base)) in *.
  destruct ((JsSet.size finals =? 1) && JsSet.has finals (initial base)).
  { injection Hrun as <-. split; [exact R|apply frame_refl]. }
  destruct (JsSet.size finals =? 0).
  { injection Hrun as <-. split; [exact R|apply frame_refl]. }
  destruct (JsSet.has finals (initial base)) eqn:Eh; cbn [negb] in Hrun.
  2:{ apply bind_Ok in Hrun as (copy & st1 & Hc & Hrun).
      apply bind_Ok in Hrun as ([] & st2 & Hrounds & Hcat).
      destruct (copy_step nodeList base st base R (rt_init _ _ _ R) (rt_set _ _ _ R))
        as (copy' & st1' & Hrun1 & R1 & P1 & A1 & _).
      { intros x _. apply Hnp. }
      rewrite Hc in Hrun1. injection Hrun1 as <- <-.
      pose proof (frame_localCopy nodeList base st st base copy st1 (frame_refl _ _ _) G
                    (rt_init _ _ _ R) (rt_set _ _ _ R) (rt_set _ _ _ R) Hc) as F1.
      destruct (rounds_shape st copy _ _ st1 st2 R1 P1 A1 F1 Hrounds) as (R2 & P2 & A2 & F2).
      destruct (concat_step nodeList st2 base copy _ R2 P2 A2) as (st3 & Hrun3 & R3 & _).
      rewrite Hcat in Hrun3. injection Hrun3 as <-.
      split; [exact R3|].
      apply (frame_baseConcat nodeList base st st2 copy _ st' F2 R2 P2 A2); [|exact Hcat].
      intros y [_ Hy]. exact Hy. }
  apply bind_Ok in Hrun as (rf & s0 & Hg & Hrun). unfold setElements, gets in Hg.
  injection Hg as <- <-. fold finals in Hrun.
  apply bind_Ok in Hrun as ([] & sta & Hdel & Hrun).
  unfold setDelete, modify in Hdel. injection Hdel as <-. fold finals in Hrun.
  set (sta := putSet st (final base) (JsSet.delete finals (initial base))) in *.
  assert (Na : store_nodes sta = store_nodes st) by reflexivity.
  assert (Fa : getSet sta (final base) = JsSet.delete finals bi).
  { unfold sta. rewrite getSet_putSet, decide_True by reflexivity. reflexivity. }
  assert (Ra : rooted nodeList sta base).
  { apply (rooted_same_nodes nodeList st sta); auto.
    - unfold sta. apply allocatedSet_putSet. auto.
    - intros f. rewrite Fa. intros Hf. apply JsSetFacts.In_delete in Hf. apply Hf. }
  assert (Fra : frame nodeList base st sta).
  { apply frame_putSet; [apply frame_refl|]. intros f Hf.
    apply JsSetFacts.In_delete in Hf. left. apply Hf. }
  apply bind_Ok in Hrun as (copy & st1 & Hc & Hrun).
  apply bind_Ok in Hrun as (rf2 & st2 & Hcol & Hrun).
  apply bind_Ok in Hrun as ([] & st3 & Hcat & Hrun).
  apply bind_Ok in Hrun as (fs & s0 & Hg & Hrun). unfold setElements, gets in Hg.
  injection Hg as <- <-.
  apply bind_Ok in Hrun as ([] & stc & Hclr & Hrun).
  unfold setClear, modify in Hclr. injection Hclr as <-.
  destruct (copy_step nodeList base sta base Ra (rt_init _ _ _ Ra) (rt_set _ _ _ Ra))
    as (copy' & st1' & Hrun1 & R1 & P1 & A1 & Hfr & _).
  { intros x _ Hx. apply (Hnp x). unfold succ in *.
    rewrite <- (outOf_same_nodes st sta) by exact Na. exact Hx. }
  rewrite Hc in Hrun1. injection Hrun1 as <- <-.
  pose proof (frame_localCopy nodeList base st sta base copy st1 Fra (rt_good _ _ _ Ra)
                (rt_init _ _ _ Ra) (rt_set _ _ _ Ra) (rt_set _ _ _ Ra) Hc) as F1.
  assert (Hrf1 : forall g, In g finals -> finalish st st1 g).
  { intros g Hg. apply (finalish_frame st st st1 g F1).
    split; [left; exact Hg|]. apply (rt_finals _ _ _ R g Hg). }
  destruct (collect_shape st copy _ _ st1 st2 finals rf2 R1 P1 A1 F1 Hrf1 Hcol)
    as (R2 & P2 & A2 & F2 & Hrf2).
  destruct (concat_step nodeList st2 base copy _ R2 P2 A2)
    as (st3' & Hrun3 & R3 & _ & Hmono3 & _).
  rewrite Hcat in Hrun3. injection Hrun3 as <-.
  assert (F3 : frame nodeList base st st3).
  { apply (frame_baseConcat nodeList base st st2 copy _ st3 F2 R2 P2 A2); [|exact Hcat].
    intros y [_ Hy] Hy0. apply Hy. apply (allocated_same_nodes st sta); auto. }
  assert (Hown3 : forall a, owner st3 a = owner st2 a).
  { destruct R2 as [G2 Hi2 Hs2 Ho2 Hsu2 Hf2]. destruct P2 as [Q1 Q2 Q3 Q4 Q5 Q6 Q7].
    destruct A2 as [B1 B2 B3].
    destruct (baseConcat_spec nodeList base copy st2
                (fun y => allocated st1 y /\ ~ allocated sta y) G2 B3 Hs2 Ho2 Hsu2)
      as (st3' & Hrun3 & _ & _ & Hown & _); auto.
    { intros f Hff. apply (Hf2 f Hff). }
    { intros y Hy. apply (Q1 y Hy). }
    rewrite Hcat in Hrun3. injection Hrun3 as <-. exact Hown. }
  refine (fill_shape st st3 _ st' R3 F3 _ Hrun).
  intros g Hg. apply JsSetFacts.In_addAll in Hg as [Hg|Hg].
  - split; [apply (fr_finals _ _ _ _ F3 g Hg)|]. apply (rt_finals _ _ _ R3 g Hg).
  - destruct (Hrf2 g Hg) as (H1 & H2 & H3). split; [exact H1|]. split; [auto|].
    rewrite Hown3. exact H3.
Qed.
End RepeatShape.

(** ** baseRepeat on a rooted sub-automaton *)

(** The language after [baseRepeat], for a rooted sub-automaton whose
    initial node has no incoming edge. *)
Lemma baseRepeat_language (nodeList : NodeList) (base : SubList) (n : nat) (st : Store) :
  rooted nodeList st base ->
  (forall x, ~ succ st x (initial base)) ->
  exists st',
    baseRepeat nodeList base n st = Ok (tt, st')
    /\ forall w, accepts st' base w <-> power n (accepts st base) w.
Proof.
  intros R Hnp.
  pose proof (rt_good _ _ _ R) as G.
  set (bi := initial base) in *.
  assert (Hloop : forall w, path st bi w bi <-> w = []).
  { intros w. split; [|intros ->; constructor]. intros Hp.
    destruct (path_enters _ _ _ _ Hp) as [[H _]|[x Hx]]; [exact H|]. exfalso. eapply Hnp; eauto. }
  unfold baseRepeat.
  destruct (n =? 0) eqn:E0.
  { (* n = 0 *)
    apply Nat.eqb_eq in E0. subst n.
    destruct (baseMakeEmpty_spec nodeList base st G (rt_owner _ _ _ R) (rt_succ _ _ _ R))
      as (st1 & Hrun & _ & Hout & _ & _ & Hset & _).
    eexists. split; [unfold bind; rewrite Hrun; reflexivity|].
    intros w. unfold accepts. simpl.
    rewrite getSet_putSet, decide_True by reflexivity.
    rewrite Hset, decide_True by reflexivity. simpl. fold bi. split.
    - intros (f & _ & Hp). apply path_same_nodes with (st := st1) in Hp; [|reflexivity].
      apply (path_no_out st1 bi w f); [|exact Hp]. rewrite Hout, decide_True; reflexivity.
    - intros ->. exists bi. split; [auto|constructor]. }
  destruct (n =? 1) eqn:E1.
  { apply Nat.eqb_eq in E1. subst n. exists st. split; [reflexivity|].
    intros w. symmetry. apply power_one. }
  apply Nat.eqb_neq in E0, E1.
  destruct n as [|[|k]]; [congruence|congruence|]. clear E0 E1.
  replace (Datatypes.S (Datatypes.S k) - 2) with k by lia.
  unfold bind at 1, setSize at 1, gets. unfold bind at 1, setHas at 1, gets.
  set (finals := getSet st (final base)) in *.
  destruct ((JsSet.size finals =? 1) && JsSet.has finals (initial base)) eqn:Eeps.
  { (* the empty word alone *)
    apply andb_true_iff in Eeps as [Es Eh]. apply Nat.eqb_eq in Es.
    pose proof (singleton_set _ _ Es Eh) as Ef.
    exists st. split; [reflexivity|]. intros w. rewrite power_epsilon.
    - unfold accepts. fold finals bi. rewrite Ef. split.
      + intros (f & [<-|[]] & Hp). apply Hloop. exact Hp.
      + intros ->. exists bi. split; [left; reflexivity|constructor].
    - intros u. unfold accepts. fold finals bi. rewrite Ef. split.
      + intros (f & [<-|[]] & Hp). apply Hloop. exact Hp.
      + intros ->. exists bi. split; [left; reflexivity|constructor]. }
  destruct (JsSet.size finals =? 0) eqn:Ez.
  { (* no word *)
    apply size_zero in Ez. exists st. split; [reflexivity|]. intros w.
    assert (Hnone : forall u, ~ accepts st base u).
    { intros u (f & Hf & _). fold finals in Hf. rewrite Ez in Hf. destruct Hf. }
    split; [intros H; exfalso; eapply Hnone; eauto|].
    intros H. exfalso. eapply power_empty; eauto. }
  destruct (JsSet.has finals (initial base)) eqn:Eh; cbn [negb].
  2:{ (* the initial node is not final *)
    destruct (copy_step nodeList base st base R (rt_init _ _ _ R) (rt_set _ _ _ R))
      as (copy & st1 & Hrun1 & R1 & P1 & A1 & Hfr & Hsets & Hlang & _).
    { intros x _. apply Hnp. }
    unfold bind at 1. rewrite Hrun1.
    assert (Hb1 : forall w, accepts st1 base w <-> power 1 (accepts st base) w).
    { intros w. rewrite power_one. apply accepts_frame; auto.
      - apply (rt_init _ _ _ R).
      - intros x Hx. apply Hfr. exact Hx.
      - apply Hsets. apply (rt_set _ _ _ R). }
    destruct (repeat_rounds nodeList base copy _ (accepts st base) k st1 1 R1 P1 A1 Hlang Hb1)
      as (st2 & Hrun2 & R2 & P2 & A2 & Hc2 & Hb2).
    unfold bind at 1. rewrite Hrun2.
    destruct (concat_step nodeList st2 base copy _ R2 P2 A2) as (st3 & Hrun3 & _ & Hlang3 & _).
    exists st3. split; [exact Hrun3|]. intros w. rewrite Hlang3.
    rewrite power_snoc. change (Datatypes.S k) with (1 + k).
    split; intros (u & v & -> & Hu & Hv); exists u, v; (split; [reflexivity|]); split;
      try (apply Hb2; exact Hu); apply Hc2; exact Hv. }
  (* the initial node is final: the real final states are collected *)
  apply JsSetFacts.set_has_true in Eh.
  unfold bind at 1, setElements at 1, gets. unfold bind at 1, setDelete at 1, modify.
  fold finals.
  set (sta := putSet st (final base) (JsSet.delete finals (initial base))).
  assert (Na : store_nodes sta = store_nodes st) by reflexivity.
  assert (Fa : getSet sta (final base) = JsSet.delete finals bi).
  { unfold sta. rewrite getSet_putSet, decide_True by reflexivity. reflexivity. }
  assert (Ra : rooted nodeList sta base).
  { apply (rooted_same_nodes nodeList st sta); auto.
    - unfold sta. apply allocatedSet_putSet. auto.
    - intros f. rewrite Fa. intros Hf. apply JsSetFacts.In_delete in Hf. apply Hf. }
  set (L' := accepts sta base).
  assert (HL : forall u, accepts st base u <-> u = [] \/ L' u).
  { intros u. unfold L', accepts. fold finals bi. rewrite Fa. split.
    - intros (f & Hf & Hp). destruct (decide (f = bi)) as [->|Hne].
      + left. apply Hloop. exact Hp.
      + right. exists f. split; [apply JsSetFacts.In_delete; auto|].
        apply (path_same_nodes st sta); auto.
    - intros [->|(f & Hf & Hp)].
      + exists bi. split; [exact Eh|constructor].
      + exists f. apply JsSetFacts.In_delete in Hf as [_ Hf]. split; [exact Hf|].
        apply (path_same_nodes st sta) in Hp; auto. }
  destruct (copy_step nodeList base sta base Ra (rt_init _ _ _ Ra) (rt_set _ _ _ Ra))
    as (copy & st1 & Hrun1 & R1 & P1 & A1 & Hfr & Hsets & Hlang & _).
  { intros x _ Hx. apply (Hnp x). unfold succ in *.
    rewrite <- (outOf_same_nodes st sta) by exact Na. exact Hx. }
  unfold bind at 1. rewrite Hrun1.
  assert (Hb1 : forall w, accepts st1 base w <-> power 1 L' w).
  { intros w. rewrite power_one. apply accepts_frame; auto.
    - apply (rt_good _ _ _ Ra).
    - apply (rt_init _ _ _ Ra).
    - intros x Hx. apply Hfr. exact Hx.
    - apply Hsets. apply (rt_set _ _ _ Ra). }
  assert (Hcol1 : collected base (fun y => allocated st1 y /\ ~ allocated sta y) L' st1 1 finals).
  { split; [exact Eh|]. split.
    - intros g Hg. destruct (rt_finals _ _ _ R g Hg) as (Hga & _).
      apply (allocated_same_nodes st sta) in Hga; [|exact Na].
      split; [apply Hfr; exact Hga|]. intros [_ H]. contradiction.
    - intros w. rewrite <- (power_optional 1 (accepts st base) L' w HL), power_one.
      unfold accepts. fold finals bi. split; intros (g & Hg & Hp); exists g; (split; [exact Hg|]).
      + apply (path_same_nodes st sta); [exact Na|].
        apply (path_frame sta st1) in Hp; auto.
        * apply (rt_good _ _ _ Ra).
        * apply (rt_init _ _ _ Ra).
        * intros x Hx. apply Hfr. exact Hx.
      + apply (path_frame sta st1); auto.
        * apply (rt_good _ _ _ Ra).
        * apply (rt_init _ _ _ Ra).
        * intros x Hx. apply Hfr. exact Hx.
        * apply (path_same_nodes st sta); auto. }
  destruct (collect_rounds nodeList base copy _ L' k st1 1 finals R1 P1 A1 Hlang Hb1 Hcol1)
    as (st2 & rf2 & Hrun2 & R2 & P2 & A2 & Hc2 & Hb2 & Hcol2).
  unfold bind at 1. rewrite Hrun2.
  destruct (concat_step nodeList st2 base copy _ R2 P2 A2)
    as (st3 & Hrun3 & R3 & Hlang3 & Hmono3 & Hfin3 & Hold3 & _).
  unfold bind at 1. rewrite Hrun3.
  assert (Hb3 : forall w, accepts st3 base w <-> power (Datatypes.S (1 + k)) L' w).
  { intros w. rewrite Hlang3, power_snoc.
    split; intros (u & v & -> & Hu & Hv); exists u, v; (split; [reflexivity|]); split;
      try (apply Hb2; exact Hu); apply Hc2; exact Hv. }
  assert (Hcol2' : collected base (fun _ => False) L' st2 (1 + k) rf2).
  { destruct Hcol2 as (H1 & H2 & H3). split; [exact H1|]. split; [|exact H3].
    intros g Hg. split; [apply (H2 g Hg)|tauto]. }
  assert (Hcol3 : collected base (fun _ => False) L' st3
                    (Datatypes.S (1 + k)) (addAll rf2 (getSet st3 (final base)))).
  { apply (collected_step base _ L' st2 st3 _ rf2 Hcol2' Hb3 Hmono3).
    - intros g Hg. split; [apply (rt_finals _ _ _ R3); exact Hg|tauto].
    - destruct Hold3 as [Hold|[Hempty Hnone]].
      + left. intros w g Hg. apply Hold. apply Hcol2. exact Hg.
      + right. split; [exact Hempty|]. intros v Hv. apply (Hnone v). apply Hc2. exact Hv. }
  unfold bind at 1, setElements at 1, gets. unfold bind at 1, setClear at 1, modify.
  set (stc := putSet st3 (final base) []).
  destruct (setAdd_all (final base) (addAll rf2 (getSet st3 (final base))) stc)
    as (st5 & Hrun5 & Hfin5 & Hn5).
  exists st5. split; [exact Hrun5|]. intros w.
  rewrite (power_optional _ (accepts st base) L' w HL).
  destruct Hcol3 as (_ & _ & <-). unfold accepts. fold bi.
  assert (Hnodes : store_nodes st5 = store_nodes st3) by (rewrite Hn5; reflexivity).
  assert (Hset5 : forall g, In g (getSet st5 (final base))
                            <-> In g (addAll rf2 (getSet st3 (final base)))).
  { intros g. rewrite Hfin5. unfold stc. rewrite getSet_putSet, decide_True by reflexivity.
    simpl. tauto. }
  split; intros (g & Hg & Hp); exists g; (split; [apply Hset5; exact Hg|]).
  - apply (path_same_nodes st3 st5); auto.
  - apply (path_same_nodes st3 st5); auto.
Qed.

(** ** Repeating beside and inside other sub-automata *)

Section RepeatParts.
Variable nodeList : NodeList.

Lemma part_rooted st c N : good st -> part nodeList st c N -> rooted nodeList st c.
Proof.
  intros G [P1 P2 P3 P4 P5 P6 P7]. split.
  - exact G.
  - apply (P1 _ P4).
  - exact P6.
  - apply (P1 _ P4).
  - intros o Ho. apply (P1 o). eapply P2; eauto.
  - intros f Hf. apply P1, P5, Hf.
Qed.

(** [baseRepeat] in full: the language, the shape and the frame. *)
Lemma baseRepeat_full base n st :
  rooted nodeList st base -> (forall x, ~ succ st x (initial base)) ->
  exists st',
    baseRepeat nodeList base n st = Ok (tt, st')
    /\ (forall w, accepts st' base w <-> power n (accepts st base) w)
    /\ rooted nodeList st' base
    /\ (forall x, ~ succ st' x (initial base))
    /\ frame nodeList base st st'.
Proof.
  intros R Hnp.
  destruct (baseRepeat_language nodeList base n st R Hnp) as (st' & Hrun & Hlang).
  destruct (baseRepeat_shape nodeList base n st st' R Hnp Hrun) as [R' F].
  exists st'. split; [exact Hrun|]. split; [exact Hlang|]. split; [exact R'|].
  split; [|exact F].
  intros x Hx. apply (Hnp x). apply (fr_into _ _ _ _ F); [exact Hx|apply (rt_init _ _ _ R)].
Qed.

(** Repeating a rooted sub-automaton beside a part. *)
Lemma repeat_beside base n st c N :
  rooted nodeList st base -> (forall x, ~ succ st x (initial base)) ->
  part nodeList st c N -> apart st base c N ->
  exists st',
    baseRepeat nodeList base n st = Ok (tt, st')
    /\ (forall w, accepts st' base w <-> power n (accepts st base) w)
    /\ rooted nodeList st' base
    /\ part nodeList st' c N /\ apart st' base c N
    /\ (forall w, accepts st' c w <-> accepts st c w)
    /\ (forall x, ~ succ st' x (initial base)).
Proof.
  intros R Hnp P A.
  destruct (baseRepeat_full base n st R Hnp) as (st' & Hrun & Hlang & R' & Hn' & F).
  destruct (frame_part_other nodeList base st st' c N P A F) as (P' & A' & Hc).
  exists st'. auto 10.
Qed.

(** Repeating a part beside a rooted sub-automaton. *)
Lemma repeat_inside b0 c n st N :
  rooted nodeList st b0 -> part nodeList st c N -> apart st b0 c N ->
  exists st' N',
    baseRepeat nodeList c n st = Ok (tt, st')
    /\ (forall w, accepts st' c w <-> power n (accepts st c) w)
    /\ rooted nodeList st' b0
    /\ part nodeList st' c N' /\ apart st' b0 c N'
    /\ (forall w, accepts st' b0 w <-> accepts st b0 w)
    /\ ((forall x, ~ succ st x (initial b0)) -> forall x, ~ succ st' x (initial b0)).
Proof.
  intros R P A. pose proof (rt_good _ _ _ R) as G.
  destruct (baseRepeat_full c n st (part_rooted st c N G P) (pt_norm _ _ _ _ P))
    as (st' & Hrun & Hlang & Rc' & _ & F).
  pose proof (frame_part_self nodeList c st st' N G P Rc' F) as P'.
  destruct (frame_rooted_other nodeList c st st' N b0 R P A F (rt_good _ _ _ Rc'))
    as (R' & A' & Hb & Hn).
  exists st', (fun y => N y \/ (allocated st' y /\ ~ allocated st y)). auto 10.
Qed.
End RepeatParts.

(** ** Languages of quantifiers *)

Lemma power_add a b (L : list Z -> Prop) w :
  power (a + b) L w <-> exists u v, w = u ++ v /\ power a L u /\ power b L v.
Proof.
  revert w. induction a as [|a IH]; intros w; simpl.
  - split.
    + intros H. exists [], w. auto.
    + intros (u & v & -> & -> & H). exact H.
  - split.
    + intros (u & v & -> & Hu & Hv). apply IH in Hv as (v1 & v2 & -> & Hv1 & Hv2).
      exists (u ++ v1), v2. split; [apply app_assoc|]. split; [|exact Hv2].
      exists u, v1. auto.
    + intros (u & v & -> & (u1 & u2 & -> & Hu1 & Hu2) & Hv).
      exists u1, (u2 ++ v). split; [symmetry; apply app_assoc|]. split; [exact Hu1|].
      apply IH. exists u2, v. auto.
Qed.

Lemma power_mono (L : list Z -> Prop) k m w :
  L [] -> k <= m -> power k L w -> power m L w.
Proof.
  intros He Hle Hp. induction Hle as [|m Hle IH]; [exact Hp|].
  exists [], w. auto.
Qed.

(** The upper bound of a quantifier holds of a number of repetitions. *)
Definition withinBound (k : nat) (max : bound) : Prop :=
  match max with Finite m => k <= m | Infinity => True end.

(** The words that a quantifier [{min,max}] makes of the language [L]. *)
Definition quantified (min : nat) (max : bound) (L : list Z -> Prop) (w : list Z) : Prop :=
  exists k, min <= k /\ withinBound k max /\ power k L w.

Section QuantifySteps.
Variable nodeList : NodeList.

(** The initial node joins the final nodes: the empty word is accepted
    too. *)
Lemma add_initial st s :
  rooted nodeList st s -> (forall x, ~ succ st x (initial s)) ->
  let st' := putSet st (final s) (JsSet.add (getSet st (final s)) (initial s)) in
  rooted nodeList st' s
  /\ (forall x, ~ succ st' x (initial s))
  /\ (forall w, accepts st' s w <-> w = [] \/ accepts st s w).
Proof.
  intros R Hnp st'. destruct R as [G Hi Hs Ho Hsu Hf].
  assert (Hn : store_nodes st' = store_nodes st) by reflexivity.
  assert (Hset : forall f, In f (getSet st' (final s))
                           <-> f = initial s \/ In f (getSet st (final s))).
  { intros f. unfold st'. rewrite getSet_putSet, decide_True by reflexivity.
    apply JsSetFacts.In_add. }
  split; [|split].
  - split.
    + eapply good_same_nodes; eauto.
    + apply (allocated_same_nodes st st'); auto.
    + apply allocatedSet_putSet. auto.
    + rewrite (owner_same_nodes st st') by exact Hn. exact Ho.
    + intros o Hso. rewrite (owner_same_nodes st st') by exact Hn. apply Hsu.
      unfold succ in *. rewrite <- (outOf_same_nodes st st') by exact Hn. exact Hso.
    + intros f Hff. rewrite (owner_same_nodes st st') by exact Hn.
      apply Hset in Hff as [->|Hff].
      * split; [apply (allocated_same_nodes st st'); auto|exact Ho].
      * destruct (Hf f Hff). split; [apply (allocated_same_nodes st st'); auto|auto].
  - intros x Hx. apply (Hnp x). unfold succ in *.
    rewrite <- (outOf_same_nodes st st') by exact Hn. exact Hx.
  - intros w. unfold accepts. split.
    + intros (f & Hff & Hp). apply (path_same_nodes st st') in Hp; [|exact Hn].
      apply Hset in Hff as [->|Hff]; [|right; eauto].
      left. destruct (path_enters _ _ _ _ Hp) as [[H _]|[x Hx]]; [exact H|].
      exfalso. eapply Hnp; eauto.
    + intros [->|(f & Hff & Hp)].
      * exists (initial s). split; [apply Hset; auto|constructor].
      * exists f. split; [apply Hset; auto|]. apply (path_same_nodes st st'); auto.
Qed.

Lemma putSet_part st c N l :
  part nodeList st c N -> (forall f, In f l -> N f) ->
  part nodeList (putSet st (final c) l) c N.
Proof.
  intros [P1 P2 P3 P4 P5 P6 P7] Hl.
  set (st' := putSet st (final c) l).
  assert (Hn : store_nodes st' = store_nodes st) by reflexivity.
  assert (Hs : forall x y, succ st' x y <-> succ st x y).
  { intros x y. unfold succ. rewrite (outOf_same_nodes st st') by exact Hn. reflexivity. }
  split.
  - intros y Hy. destruct (P1 y Hy). split.
    + apply (allocated_same_nodes st st'); auto.
    + rewrite (owner_same_nodes st st') by exact Hn. assumption.
  - intros x y Hx Hxy. apply Hs in Hxy. eauto.
  - intros x y Hxy Hy. apply Hs in Hxy. eauto.
  - exact P4.
  - intros f. unfold st'. rewrite getSet_putSet, decide_True by reflexivity. apply Hl.
  - apply allocatedSet_putSet. auto.
  - intros x Hx. apply Hs in Hx. eapply P7; eauto.
Qed.

Lemma putSet_beside st b0 c N l :
  rooted nodeList st b0 -> apart st b0 c N ->
  let st' := putSet st (final c) l in
  rooted nodeList st' b0 /\ apart st' b0 c N
  /\ (forall w, accepts st' b0 w <-> accepts st b0 w)
  /\ ((forall x, ~ succ st x (initial b0)) -> forall x, ~ succ st' x (initial b0)).
Proof.
  intros R [A1 A2 A3] st'.
  assert (Hn : store_nodes st' = store_nodes st) by reflexivity.
  assert (Hset : getSet st' (final b0) = getSet st (final b0)).
  { unfold st'. rewrite getSet_putSet, decide_False by congruence. reflexivity. }
  split; [|split; [|split]].
  - apply (rooted_same_nodes nodeList st st'); auto.
    + apply allocatedSet_putSet. right. apply (rt_set _ _ _ R).
    + intros f. rewrite Hset. auto.
  - split; [exact A1| |exact A3]. rewrite Hset. exact A2.
  - intros w. unfold accepts. rewrite Hset.
    split; intros (f & Hf & Hp); exists f; (split; [exact Hf|]).
    + apply (path_same_nodes st st'); auto.
    + apply (path_same_nodes st st'); auto.
  - intros Hnp x Hx. apply (Hnp x). unfold succ in *.
    rewrite <- (outOf_same_nodes st st') by exact Hn. exact Hx.
Qed.

(** [basePlus] on a part beside a rooted sub-automaton. *)
Lemma plus_inside b0 c st N :
  rooted nodeList st b0 -> part nodeList st c N -> apart st b0 c N ->
  exists st',
    basePlus nodeList c st = Ok (tt, st')
    /\ (forall w, accepts st' c w <-> exists k, power (Datatypes.S k) (accepts st c) w)
    /\ rooted nodeList st' b0
    /\ part nodeList st' c N /\ apart st' b0 c N
    /\ (forall w, accepts st' b0 w <-> accepts st b0 w)
    /\ ((forall x, ~ succ st x (initial b0)) -> forall x, ~ succ st' x (initial b0)).
Proof.
  intros R P A. pose proof (rt_good _ _ _ R) as G.
  pose proof (part_rooted nodeList st c N G P) as Rc.
  destruct (basePlus_spec nodeList c st Rc)
    as (st' & Hrun & G' & Hstep & Hsucc & Hout & Hown & Hal & Hset & Hals).
  destruct R as [_ Hi Hs Ho Hsu Hf]. destruct P as [P1 P2 P3 P4 P5 P6 P7].
  destruct A as [A1 A2 A3].
  assert (Hkeep : forall x, ~ N x -> outOf st' x = outOf st x).
  { intros x Hx. apply Hout. intros [H _]. apply Hx. apply P5, H. }
  exists st'. split; [exact Hrun|]. split; [|split; [|split; [|split; [|split]]]].
  - intros w. unfold accepts at 1. rewrite Hset.
    apply (plus_language st st' (initial c) (getSet st (final c)) Hstep w).
  - split.
    + exact G'.
    + auto.
    + apply Hals. exact Hs.
    + rewrite Hown. exact Ho.
    + intros o Hso. rewrite Hown. apply Hsu. unfold succ in *.
      rewrite <- Hkeep by exact A1. exact Hso.
    + intros f. rewrite Hset, Hown. intros Hff. destruct (Hf f Hff). auto.
  - split.
    + intros y Hy. rewrite Hown. destruct (P1 y Hy). auto.
    + intros x y Hx Hxy. apply Hsucc in Hxy as [H|(_ & _ & H)]; eauto.
    + intros x y Hxy Hy. apply Hsucc in Hxy as [H|(H & _ & _)]; eauto.
    + exact P4.
    + intros f. rewrite Hset. apply P5.
    + apply Hals. exact P6.
    + intros x Hx. apply Hsucc in Hx as [H|(_ & _ & H)]; eapply P7; eauto.
  - split; [exact A1| |exact A3]. intros f. rewrite Hset. apply A2.
  - intros w. apply (accepts_part (fun x => allocated st x /\ ~ N x)).
    + intros x [_ Hx]. apply Hkeep, Hx.
    + intros x y [Hx Hn] Hxy. split; [eapply good_closed; eauto|].
      intros Hy. apply Hn. eapply P3; eauto.
    + auto.
    + apply Hset.
  - intros Hnp x Hx. apply Hsucc in Hx as [H|(_ & _ & H)].
    + eapply Hnp; eauto.
    + apply A1. eapply P2; eauto.
Qed.
End QuantifySteps.

(** ** The algebra of quantified languages *)

Definition optional (L : list Z -> Prop) (w : list Z) : Prop := w = [] \/ L w.

Lemma quantified_ext min max (L L' : list Z -> Prop) w :
  (forall u, L u <-> L' u) -> quantified min max L w <-> quantified min max L' w.
Proof.
  intros E. unfold quantified.
  split; intros (k & H1 & H2 & H3); exists k; (split; [exact H1|split; [exact H2|]]);
    apply (power_ext k L L' w E); exact H3.
Qed.

Lemma quantified_epsilon min max (L : list Z -> Prop) w :
  L [] -> withinBound min max -> quantified min max L w <-> quantified 0 max L w.
Proof.
  intros He Hb. unfold quantified. split.
  - intros (k & _ & H2 & H3). exists k. split; [lia|auto].
  - intros (k & _ & H2 & H3). destruct (le_lt_dec min k) as [Hle|Hlt].
    + exists k. auto.
    + exists min. split; [lia|]. split; [exact Hb|]. apply (power_mono L k min); auto. lia.
Qed.

Lemma quantified_exact n (L : list Z -> Prop) w :
  quantified n (Finite n) L w <-> power n L w.
Proof.
  unfold quantified. simpl. split.
  - intros (k & H1 & H2 & H3). assert (k = n) as -> by lia. exact H3.
  - intros H. exists n. auto.
Qed.

Lemma quantified_finite min M (L : list Z -> Prop) w :
  min <= M ->
  quantified min (Finite M) L w
  <-> exists u v, w = u ++ v /\ power min L u /\ power (M - min) (optional L) v.
Proof.
  intros Hle. unfold quantified. simpl. split.
  - intros (k & H1 & H2 & H3). replace k with (min + (k - min)) in H3 by lia.
    apply power_add in H3 as (u & v & -> & Hu & Hv). exists u, v.
    split; [reflexivity|]. split; [exact Hu|].
    apply (power_optional (M - min) (optional L) L v); [reflexivity|].
    exists (k - min). split; [lia|exact Hv].
  - intros (u & v & -> & Hu & Hv).
    apply (power_optional (M - min) (optional L) L v) in Hv; [|reflexivity].
    destruct Hv as (j & Hj & Hv). exists (min + j). split; [lia|]. split; [lia|].
    apply power_add. exists u, v. auto.
Qed.

Lemma quantified_unbounded min (L : list Z -> Prop) w :
  quantified (Datatypes.S min) Infinity L w
  <-> exists u v, w = u ++ v /\ power min L u /\ exists k, power (Datatypes.S k) L v.
Proof.
  unfold quantified. simpl. split.
  - intros (k & H1 & _ & H3). replace k with (min + (k - min)) in H3 by lia.
    apply power_add in H3 as (u & v & -> & Hu & Hv). exists u, v.
    split; [reflexivity|]. split; [exact Hu|]. exists (k - min - 1).
    replace (k - min) with (Datatypes.S (k - min - 1)) in Hv by lia. exact Hv.
  - intros (u & v & -> & Hu & (k & Hv)). exists (min + Datatypes.S k).
    split; [lia|]. split; [exact I|]. apply power_add. exists u, v. auto.
Qed.

Lemma quantified_star (L : list Z -> Prop) w :
  quantified 0 Infinity L w <-> exists k, power (Datatypes.S k) (optional L) w.
Proof.
  unfold quantified. simpl. split.
  - intros (k & _ & _ & H). exists k.
    apply (power_optional (Datatypes.S k) (optional L) L w); [reflexivity|].
    exists k. split; [lia|exact H].
  - intros (k & H).
    apply (power_optional (Datatypes.S k) (optional L) L w) in H; [|reflexivity].
    destruct H as (j & _ & H). exists j. split; [lia|]. split; [exact I|exact H].
Qed.

Lemma optional_absorb (L : list Z -> Prop) u : L [] -> optional L u <-> L u.
Proof. intros He. unfold optional. split; [intros [->|H]; assumption|auto]. Qed.

Lemma optional_twice (L : list Z -> Prop) u : optional (optional L) u <-> optional L u.
Proof. unfold optional. tauto. Qed.

(** ** The branches of baseQuantify, as languages *)

Lemma quantified_option (L : list Z -> Prop) w :
  quantified 0 (Finite 1) L w <-> optional L w.
Proof.
  unfold quantified, optional. simpl. split.
  - intros (k & _ & Hk & H). destruct k as [|[|k]]; [left; exact H| |lia].
    right. apply (proj1 (power_one L w)). exact H.
  - intros [->|H].
    + exists 0. simpl. auto.
    + exists 1. split; [lia|]. split; [lia|]. apply (proj2 (power_one L w)). exact H.
Qed.

Lemma quantified_plus (L : list Z -> Prop) w :
  quantified 1 Infinity L w <-> exists k, power (Datatypes.S k) L w.
Proof.
  unfold quantified. simpl. split.
  - intros (k & Hk & _ & H). destruct k as [|k]; [lia|]. exists k. exact H.
  - intros (k & H). exists (Datatypes.S k). split; [lia|]. split; [exact I|exact H].
Qed.

Section Branches.
Variable L L1 : list Z -> Prop.
Variable e : bool.
Variable min : nat.
Hypothesis He : e = true <-> L [].
Hypothesis HL1 : forall w, L1 w <-> if negb e && ((if e then 0 else min) =? 0) then optional L w else L w.

Lemma branch_language w :
  L1 w <-> if (min =? 0) || e then optional L w else L w.
Proof.
  rewrite HL1. destruct e eqn:E; simpl.
  - rewrite orb_true_r. symmetry. apply optional_absorb, He. reflexivity.
  - rewrite orb_false_r. reflexivity.
Qed.

Lemma branch_one w : min <= 1 -> L1 w <-> quantified min (Finite 1) L w.
Proof.
  pose proof branch_language as BL. pose proof He as He'.
  intros Hle. rewrite BL. destruct e eqn:E.
  - rewrite orb_true_r.
    rewrite (quantified_epsilon min (Finite 1) L w (proj1 He' eq_refl) Hle).
    symmetry. apply quantified_option.
  - rewrite orb_false_r. destruct min as [|[|m]]; [| |lia]; simpl.
    + symmetry. apply quantified_option.
    + rewrite quantified_exact. symmetry. apply power_one.
Qed.

Lemma branch_same M w :
  M <> 0 -> (if e then 0 else min) = M -> power (if e then 0 else min) L1 w <-> quantified min (Finite M) L w.
Proof.
  pose proof branch_language as BL. pose proof He as He'.
  intros HM Hm. destruct e eqn:E; [congruence|]. subst M.
  rewrite quantified_exact. apply power_ext. intros u. rewrite BL.
  rewrite orb_false_r. destruct min; [congruence|reflexivity].
Qed.

Lemma branch_range M w :
  min <= M ->
  (exists u v, w = u ++ v /\ power (if e then 0 else min) L1 u /\ power (M - (if e then 0 else min)) (optional L1) v)
  <-> quantified min (Finite M) L w.
Proof.
  pose proof branch_language as BL. pose proof He as He'.
  intros Hle.
  assert (E1 : forall n u, power n L1 u
                 <-> power n (fun x => if (min =? 0) || e then optional L x else L x) u).
  { intros n u. apply power_ext. intros x. apply BL. }
  assert (E2 : forall n u, power n (optional L1) u <-> power n (optional L) u).
  { intros n u. apply power_ext. intros x. unfold optional at 1. rewrite BL.
    destruct ((min =? 0) || e); unfold optional; tauto. }
  destruct e eqn:E.
  - rewrite (quantified_epsilon min (Finite M) L w (proj1 He' eq_refl) Hle).
    rewrite (quantified_finite 0 M L w) by lia.
    split; intros (u & v & -> & Hu & Hv); exists u, v; (split; [reflexivity|]);
      (split; [exact Hu|]); apply E2; exact Hv.
  - rewrite (quantified_finite min M L w) by lia.
    split; intros (u & v & -> & Hu & Hv); exists u, v; (split; [reflexivity|]).
    + split; [|apply E2; exact Hv]. apply E1 in Hu. rewrite orb_false_r in Hu.
      destruct min; [exact Hu|exact Hu].
    + split; [|apply E2; exact Hv]. apply E1. rewrite orb_false_r.
      destruct min; [exact Hu|exact Hu].
Qed.

Lemma branch_many w :
  1 < (if e then 0 else min) ->
  (exists u v, w = u ++ v /\ power ((if e then 0 else min) - 1) L1 u
               /\ exists k, power (Datatypes.S k) L1 v)
  <-> quantified min Infinity L w.
Proof.
  pose proof branch_language as BL. pose proof He as He'.
  intros Hlt. destruct e eqn:E; [lia|].
  assert (E1 : forall n u, power n L1 u <-> power n L u).
  { intros n u. apply power_ext. intros x. rewrite BL, orb_false_r.
    destruct min; [lia|reflexivity]. }
  assert (Hq : quantified min Infinity L w
               <-> quantified (Datatypes.S (min - 1)) Infinity L w)
    by (replace (Datatypes.S (min - 1)) with min by lia; reflexivity).
  rewrite Hq, quantified_unbounded. simpl Nat.sub.
  split; intros (u & v & -> & Hu & k & Hv); exists u, v; (split; [reflexivity|]);
    (split; [apply E1; exact Hu|]); exists k;
    apply (E1 (Datatypes.S k) v); exact Hv.
Qed.

Lemma branch_plus w :
  (if e then 0 else min) <= 1 ->
  (exists k, power (Datatypes.S k) L1 w) <-> quantified min Infinity L w.
Proof.
  pose proof branch_language as BL. pose proof He as He'.
  intros Hle.
  assert (E1 : forall n u, power n L1 u
                 <-> power n (fun x => if (min =? 0) || e then optional L x else L x) u).
  { intros n u. apply power_ext. intros x. apply BL. }
  destruct e eqn:E.
  - rewrite (quantified_epsilon min Infinity L w (proj1 He' eq_refl) I).
    rewrite quantified_star.
    split; intros (k & H); exists k; apply E1 in H || apply E1; rewrite orb_true_r in *; exact H.
  - destruct min as [|[|m]]; [| |lia].
    + rewrite quantified_star.
      split; intros (k & H); exists k; apply E1 in H || apply E1; exact H.
    + rewrite quantified_plus.
      split; intros (k & H); exists k; apply E1 in H || apply E1; exact H.
Qed.
End Branches.

(** ** baseQuantify *)

Section Quantify.
Variable nodeList : NodeList.

(** A copy beside the base: the base is as it was. *)
Lemma copy_beside base st :
  rooted nodeList st base -> (forall x, ~ succ st x (initial base)) ->
  exists c st1 N,
    localCopy nodeList base st = Ok (c, st1)
    /\ rooted nodeList st1 base /\ part nodeList st1 c N /\ apart st1 base c N
    /\ (forall x, ~ succ st1 x (initial base))
    /\ (forall w, accepts st1 base w <-> accepts st base w)
    /\ (forall w, accepts st1 c w <-> accepts st base w).
Proof.
  intros R Hnp. pose proof (rt_good _ _ _ R) as G.
  destruct (copy_step nodeList base st base R (rt_init _ _ _ R) (rt_set _ _ _ R))
    as (c & st1 & Hrun1 & R1 & P1 & A1 & Hfr & Hsets & Hlang1 & _).
  { intros x _. apply Hnp. }
  exists c, st1, (fun y => allocated st1 y /\ ~ allocated st y).
  split; [exact Hrun1|]. split; [exact R1|]. split; [exact P1|]. split; [exact A1|].
  split; [|split; [|exact Hlang1]].
  - intros x Hx. destruct (decide (allocated st x)) as [Ha|Ha].
    + apply (Hnp x). unfold succ in *. destruct (Hfr x Ha) as (_ & <- & _). exact Hx.
    + apply (ap_init _ _ _ _ A1). apply (pt_closed _ _ _ _ P1 x); [|exact Hx].
      split; [eapply succ_allocated; eauto|exact Ha].
  - intros w. apply accepts_frame; auto.
    + apply (rt_init _ _ _ R).
    + intros x Hx. apply Hfr. exact Hx.
    + apply Hsets. apply (rt_set _ _ _ R).
Qed.

(** [baseConcat] leads no edge into the initial node of the base. *)
Lemma concat_norm base after st N st' :
  rooted nodeList st base -> part nodeList st after N -> apart st base after N ->
  (forall x, ~ succ st x (initial base)) ->
  baseConcat nodeList base after st = Ok (tt, st') ->
  forall x, ~ succ st' x (initial base).
Proof.
  intros [G Hi Hs Ho Hsu Hf] [P1 P2 P3 P4 P5 P6 P7] [A1 A2 A3] Hnp Hrun.
  destruct (baseConcat_spec nodeList base after st N G A3 Hs Ho Hsu)
    as (st'' & Hrun' & _ & _ & _ & _ & _ & _ & _ & _ & Hsucc & _); auto.
  { intros f Hff. apply (Hf f Hff). }
  { intros y Hy. apply (P1 y Hy). }
  rewrite Hrun in Hrun'. injection Hrun' as <-.
  intros x Hx. apply Hsucc in Hx as [Hx|[Hx _]]; [exact (Hnp x Hx)|exact (A1 Hx)].
Qed.

(** The branch [{m,n}] with [m < n]: [a{m}(a|){n-m}]. *)
Lemma quantify_bounded base st m d :
  rooted nodeList st base -> (forall x, ~ succ st x (initial base)) ->
  exists st',
    (copy <- localCopy nodeList base ;;
     setAdd (final copy) (initial copy) ;;;
     baseRepeat nodeList copy d ;;;
     baseRepeat nodeList base m ;;;
     baseConcat nodeList base copy) st = Ok (tt, st')
    /\ (forall w, accepts st' base w <->
          exists u v, w = u ++ v /\ power m (accepts st base) u
                      /\ power d (optional (accepts st base)) v)
    /\ (forall x, ~ succ st' x (initial base)).
Proof.
  intros R Hnp.
  destruct (copy_beside base st R Hnp) as (c & st1 & N & Hrun1 & R1 & P1 & A1 & Hn1 & Hb1 & Hc1).
  set (st2 := putSet st1 (final c) (JsSet.add (getSet st1 (final c)) (initial c))).
  assert (P2 : part nodeList st2 c N).
  { apply putSet_part; [exact P1|]. intros f Hf.
    apply JsSetFacts.In_add in Hf as [->|Hf]; [apply (pt_init _ _ _ _ P1)|].
    apply (pt_finals _ _ _ _ P1 f Hf). }
  destruct (putSet_beside nodeList st1 base c N
              (JsSet.add (getSet st1 (final c)) (initial c)) R1 A1) as (R2 & A2 & Hb2 & Hn2).
  fold st2 in R2, A2, Hb2, Hn2. specialize (Hn2 Hn1).
  destruct (add_initial nodeList st1 c (part_rooted nodeList st1 c N (rt_good _ _ _ R1) P1)
              (pt_norm _ _ _ _ P1)) as (_ & _ & Hc2).
  fold st2 in Hc2.
  destruct (repeat_inside nodeList base c d st2 N R2 P2 A2)
    as (st3 & N3 & Hrun3 & Hc3 & R3 & P3 & A3 & Hb3 & Hn3).
  specialize (Hn3 Hn2).
  destruct (repeat_beside nodeList base m st3 c N3 R3 Hn3 P3 A3)
    as (st4 & Hrun4 & Hb4 & R4 & P4 & A4 & Hc4 & Hn4).
  destruct (concat_step nodeList st4 base c N3 R4 P4 A4) as (st5 & Hrun5 & _ & Hlang5 & _).
  exists st5. split.
  { unfold bind at 1. rewrite Hrun1. unfold bind at 1, setAdd at 1, modify. fold st2.
    unfold bind at 1. rewrite Hrun3. unfold bind at 1. rewrite Hrun4. exact Hrun5. }
  split; [|exact (concat_norm base c st4 N3 st5 R4 P4 A4 Hn4 Hrun5)].
  intros w. rewrite Hlang5.
  assert (E1 : forall u, accepts st4 base u <-> power m (accepts st base) u).
  { intros u. rewrite Hb4. apply power_ext. intros x. rewrite Hb3, Hb2, Hb1. reflexivity. }
  assert (E2 : forall v, accepts st4 c v <-> power d (optional (accepts st base)) v).
  { intros v. rewrite Hc4, Hc3. apply power_ext. intros x. rewrite Hc2. unfold optional.
    rewrite Hc1. reflexivity. }
  split; intros (u & v & -> & Hu & Hv); exists u, v; (split; [reflexivity|]); split;
    try (apply E1; exact Hu); apply E2; exact Hv.
Qed.

(** The branch [{m,}] with [m > 1]: [a{m-1}a+]. *)
Lemma quantify_open base st m :
  rooted nodeList st base -> (forall x, ~ succ st x (initial base)) ->
  exists st',
    (copy <- localCopy nodeList base ;;
     basePlus nodeList copy ;;;
     baseRepeat nodeList base m ;;;
     baseConcat nodeList base copy) st = Ok (tt, st')
    /\ (forall w, accepts st' base w <->
          exists u v, w = u ++ v /\ power m (accepts st base) u
                      /\ exists k, power (Datatypes.S k) (accepts st base) v)
    /\ (forall x, ~ succ st' x (initial base)).
Proof.
  intros R Hnp.
  destruct (copy_beside base st R Hnp) as (c & st1 & N & Hrun1 & R1 & P1 & A1 & Hn1 & Hb1 & Hc1).
  destruct (plus_inside nodeList base c st1 N R1 P1 A1)
    as (st2 & Hrun2 & Hc2 & R2 & P2 & A2 & Hb2 & Hn2).
  specialize (Hn2 Hn1).
  destruct (repeat_beside nodeList base m st2 c N R2 Hn2 P2 A2)
    as (st3 & Hrun3 & Hb3 & R3 & P3 & A3 & Hc3 & Hn3).
  destruct (concat_step nodeList st3 base c N R3 P3 A3) as (st4 & Hrun4 & _ & Hlang4 & _).
  exists st4. split.
  { unfold bind at 1. rewrite Hrun1. unfold bind at 1. rewrite Hrun2.
    unfold bind at 1. rewrite Hrun3. exact Hrun4. }
  split; [|exact (concat_norm base c st3 N st4 R3 P3 A3 Hn3 Hrun4)].
  intros w. rewrite Hlang4.
  assert (E1 : forall u, accepts st3 base u <-> power m (accepts st base) u).
  { intros u. rewrite Hb3. apply power_ext. intros x. rewrite Hb2, Hb1. reflexivity. }
  assert (E2 : forall v, accepts st3 c v <-> exists k, power (Datatypes.S k) (accepts st base) v).
  { intros v. rewrite Hc3, Hc2. split; intros (k & Hk); exists k;
      apply (power_ext (Datatypes.S k) (accepts st1 c) (accepts st base) v Hc1); exact Hk. }
  split; intros (u & v & -> & Hu & Hv); exists u, v; (split; [reflexivity|]); split;
    try (apply E1; exact Hu); apply E2; exact Hv.
Qed.
End Quantify.

Section QuantifyLanguage.
Variable nodeList : NodeList.

(** [baseQuantify] on a rooted sub-automaton without an edge into its
    initial node, for bounds [min <= max]. *)
Lemma baseQuantify_language base min max st :
  rooted nodeList st base -> (forall x, ~ succ st x (initial base)) ->
  withinBound min max ->
  exists st',
    baseQuantify nodeList base min max st = Ok (tt, st')
    /\ (forall w, accepts st' base w <-> quantified min max (accepts st base) w)
    /\ (forall x, ~ succ st' x (initial base)).
Proof.
  intros R Hnp Hb.
  assert (H0 : max = Finite 0 \/ max <> Finite 0)
    by (destruct max as [[|M]|]; [left; reflexivity|right; discriminate|right; discriminate]).
  destruct H0 as [->|Hm0].
  { simpl in Hb. assert (min = 0) as -> by lia.
    destruct (baseRepeat_full nodeList base 0 st R Hnp) as (st' & Hrun & Hlang & _ & Hn' & _).
    exists st'. split; [exact Hrun|]. split; [|exact Hn']. intros w. rewrite Hlang. symmetry.
    apply quantified_exact. }
  set (L := accepts st base).
  set (e := JsSet.has (getSet st (final base)) (initial base)).
  assert (He : e = true <-> L []).
  { unfold e, L, accepts. rewrite JsSetFacts.set_has_true. split.
    - intros H. exists (initial base). split; [exact H|constructor].
    - intros (f & Hf & Hp). apply path_nil_inv in Hp. subst f. exact Hf. }
  set (min' := if e then 0 else min).
  set (st1 := if negb e && (min' =? 0)
              then putSet st (final base) (JsSet.add (getSet st (final base)) (initial base))
              else st).
  assert (H1 : rooted nodeList st1 base /\ (forall x, ~ succ st1 x (initial base))
               /\ forall w, accepts st1 base w
                            <-> if negb e && (min' =? 0) then optional L w else L w).
  { unfold st1. destruct (negb e && (min' =? 0)).
    - exact (add_initial nodeList st base R Hnp).
    - split; [exact R|]. split; [exact Hnp|]. reflexivity. }
  destruct H1 as (R1 & Hn1 & HL1).
  destruct max as [M|].
  - (* a finite bound *)
    simpl in Hb.
    destruct M as [|[|M]]; [congruence| |].
    + exists st1. split.
      { unfold baseQuantify, bind at 1, setHas, gets. fold e. cbv zeta. fold min'.
        unfold bind, setAdd, modify, ret, st1. destruct (negb e && (min' =? 0)); reflexivity. }
      split; [|exact Hn1].
      intros w. apply (branch_one L (accepts st1 base) e min He HL1 w Hb).
    + destruct (min' =? Datatypes.S (Datatypes.S M)) eqn:Em.
      * pose proof Em as Em'. apply Nat.eqb_eq in Em.
        destruct (baseRepeat_full nodeList base min' st1 R1 Hn1)
          as (st' & Hrun & Hlang & _ & Hn' & _).
        exists st'. split.
        { unfold baseQuantify, bind at 1, setHas, gets. fold e. cbv zeta. fold min'.
          rewrite Em'. rewrite <- Hrun.
          unfold bind, setAdd, modify, ret, st1. destruct (negb e && (min' =? 0)); reflexivity. }
        split; [|exact Hn'].
        intros w. rewrite Hlang.
        apply (branch_same L (accepts st1 base) e min He HL1 _ w); [lia|exact Em].
      * destruct (quantify_bounded nodeList base st1 min' (Datatypes.S (Datatypes.S M) - min')
                    R1 Hn1) as (st' & Hrun & Hlang & Hn').
        exists st'. split.
        { unfold baseQuantify, bind at 1, setHas, gets. fold e. cbv zeta. fold min'.
          rewrite Em. rewrite <- Hrun.
          unfold bind at 1, setAdd at 1, modify, ret, st1.
          destruct (negb e && (min' =? 0)); reflexivity. }
        split; [|exact Hn'].
        intros w. rewrite Hlang.
        apply (branch_range L (accepts st1 base) e min He HL1 _ w Hb).
  - (* no upper bound *)
    destruct (1 <? min') eqn:Em.
    + apply Nat.ltb_lt in Em.
      destruct (quantify_open nodeList base st1 (min' - 1) R1 Hn1)
        as (st' & Hrun & Hlang & Hn').
      exists st'. split.
      { unfold baseQuantify, bind at 1, setHas, gets. fold e. cbv zeta. fold min'.
        rewrite (proj2 (Nat.ltb_lt 1 min') Em). rewrite <- Hrun.
        unfold bind at 1, setAdd at 1, modify, ret, st1.
        destruct (negb e && (min' =? 0)); reflexivity. }
      split; [|exact Hn'].
      intros w. rewrite Hlang.
      apply (branch_many L (accepts st1 base) e min He HL1 w Em).
    + apply Nat.ltb_ge in Em.
      destruct (basePlus_spec nodeList base st1 R1)
        as (st' & Hrun & _ & Hstep & Hsucc & _ & _ & _ & Hset & _).
      exists st'. split.
      { unfold baseQuantify, bind at 1, setHas, gets. fold e. cbv zeta. fold min'.
        rewrite (proj2 (Nat.ltb_ge 1 min') Em). rewrite <- Hrun.
        unfold bind at 1, setAdd at 1, modify, ret, st1.
        destruct (negb e && (min' =? 0)); reflexivity. }
      split.
      2:{ intros x Hx. apply Hsucc in Hx as [Hx|(_ & _ & Hx)]; exact (Hn1 _ Hx). }
      intros w. unfold accepts at 1. rewrite Hset.
      rewrite (plus_language st1 st' (initial base) (getSet st1 (final base)) Hstep w).
      apply (branch_plus L (accepts st1 base) e min He HL1 w Em).
Qed.
End QuantifyLanguage.

(** X17.  [quantify(min, max)] with [0 <= min <= max], [max] possibly
    infinite, on a well-formed and normalized automaton returns; afterwards
    the automaton accepts exactly the concatenations of [k] words that it
    accepted before, for the numbers [k] from [min] to [max]. *)
Theorem quantify_language (this : NFA) (min : Z) (max : option Z) (st : Store) :
  wellFormed st (nodes this) (nodes this) ->
  normalized st (nodes this) ->
  (0 <= min)%Z ->
  (forall m, max = Some m -> (min <= m)%Z) ->
  exists st',
    quantify this min max st = Ok (tt, st')
    /\ forall word,
         test this word st' = Ok (true, st')
         <-> exists k, (min <= Z.of_nat k)%Z
                       /\ (forall m, max = Some m -> (Z.of_nat k <= m)%Z)
                       /\ power k (fun w => test this w st = Ok (true, st)) word.
Proof.
  intros W Hnorm Hmin Hmax.
  pose proof (wellFormed_rooted _ _ _ W) as R.
  pose proof (normalized_no_pred _ _ (wf_mirror _ _ _ W) Hnorm) as Hnp.
  set (bmax := match max with Some m => Finite (Z.to_nat m) | None => Infinity end).
  assert (Hb : withinBound (Z.to_nat min) bmax).
  { unfold bmax. destruct max as [m|]; simpl; [|exact I].
    specialize (Hmax m eq_refl). lia. }
  destruct (baseQuantify_language (nodes this) (nodes this) (Z.to_nat min) bmax st R Hnp Hb)
    as (st' & Hrun & Hlang & _).
  exists st'. split.
  { unfold quantify.
    assert (E : (match max with
                 | Some m => (min <? 0)%Z || (m <? min)%Z
                 | None => (min <? 0)%Z
                 end) = false).
    { destruct max as [m|].
      - specialize (Hmax m eq_refl). apply orb_false_iff. split; apply Z.ltb_ge; lia.
      - apply Z.ltb_ge. lia. }
    rewrite E. exact Hrun. }
  intros word. rewrite test_true_accepts, Hlang. unfold quantified.
  split; intros (k & H1 & H2 & H3); exists k.
  - split; [lia|]. split.
    + intros m ->. simpl in H2. specialize (Hmax m eq_refl). lia.
    + apply (power_ext k (accepts st (nodes this))
               (fun w => test this w st = Ok (true, st)) word); [|exact H3].
      intros u. symmetry. apply test_true_accepts.
  - split; [lia|]. split.
    + unfold bmax. destruct max as [m|]; simpl; [|exact I]. specialize (H2 m eq_refl). lia.
    + apply (power_ext k (accepts st (nodes this))
               (fun w => test this w st = Ok (true, st)) word); [|exact H3].
      intros u. symmetry. apply test_true_accepts.
Qed.

Lemma quantify_language_witness :
  exists st',
    quantify (mkNFA deadEndList options16) 2%Z (Some 4%Z) deadEndStore = Ok (tt, st')
    /\ forall word,
         test (mkNFA deadEndList options16) word st' = Ok (true, st')
         <-> exists k, (2 <= Z.of_nat k)%Z
                       /\ (forall m, Some 4%Z = Some m -> (Z.of_nat k <= m)%Z)
                       /\ power k (fun w => test (mkNFA deadEndList options16) w deadEndStore
                                            = Ok (true, deadEndStore)) word.
Proof.
  apply (quantify_language (mkNFA deadEndList options16) 2%Z (Some 4%Z) deadEndStore).
  - apply wellFormedb_sound. vm_compute. reflexivity.
  - vm_compute. reflexivity.
  - lia.
  - intros m [= <-]. lia.
Defined.

(** X18.  [concat] of a well-formed, normalized automaton with itself
    returns, and afterwards the automaton accepts exactly the
    concatenations of two words that it accepted before. *)
Theorem concat_self_language (this : NFA) (st : Store) :
  wellFormed st (nodes this) (nodes this) ->
  normalized st (nodes this) ->
  exists st',
    concat this this st = Ok (tt, st')
    /\ forall word,
         test this word st' = Ok (true, st')
         <-> exists u v, word = u ++ v
                         /\ test this u st = Ok (true, st)
                         /\ test this v st = Ok (true, st).
Proof.
  intros W Hnorm.
  pose proof (wellFormed_rooted _ _ _ W) as R.
  pose proof (normalized_no_pred _ _ (wf_mirror _ _ _ W) Hnorm) as Hnp.
  destruct (baseQuantify_language (nodes this) (nodes this) 2 (Finite 2) st R Hnp)
    as (st' & Hrun & Hlang & _); [simpl; lia|].
  exists st'. split.
  { unfold concat, sameNFA. rewrite Nat.eqb_refl. exact Hrun. }
  intros word. rewrite test_true_accepts, Hlang, quantified_exact. simpl.
  split.
  - intros (u & v & -> & Hu & v1 & v2 & -> & Hv & ->). exists u, v1.
    rewrite app_nil_r, !test_true_accepts. auto.
  - intros (u & v & -> & Hu & Hv). rewrite test_true_accepts in Hu, Hv.
    exists u, v. split; [reflexivity|]. split; [exact Hu|].
    exists v, []. rewrite app_nil_r. auto.
Qed.

Lemma concat_self_language_witness :
  exists st',
    concat (mkNFA optionalABList options16) (mkNFA optionalABList options16) optionalABStore
    = Ok (tt, st')
    /\ forall word,
         test (mkNFA optionalABList options16) word st' = Ok (true, st')
         <-> exists u v, word = u ++ v
                         /\ test (mkNFA optionalABList options16) u optionalABStore
                            = Ok (true, optionalABStore)
                         /\ test (mkNFA optionalABList options16) v optionalABStore
                            = Ok (true, optionalABStore).
Proof.
  apply (concat_self_language (mkNFA optionalABList options16) optionalABStore).
  - apply wellFormedb_sound. vm_compute. reflexivity.
  - vm_compute. reflexivity.
Defined.

(** * From an expression to an automaton *)

(** Modelled from the spec: the syntax tree of [ast.ts] is not part of the
    sources at hand.  A concatenation is the sequence of its elements, an
    element is an alternation, a quantifier, a character class or an
    assertion, and an expression is a sequence of alternatives.  Of an
    assertion the compiler reads the type only.  The bounds of a quantifier
    are natural numbers, the upper one possibly infinite. *)
#[local] Unset Elimination Schemes.
Inductive Element :=
| Alternation (alternatives : list (list Element))
| Assertion
| CharacterClass (characters : CharSet)
| Quantifier (alternatives : list (list Element)) (min : nat) (max : bound).

#[local] Set Elimination Schemes.

Definition Concatenation : Type := list Element.

Record Expression := mkExpression { alternatives : list Concatenation }.

(** The three kinds of argument of [fromRegex]. *)
Inductive RegexValue :=
| OfConcatenation (concat : Concatenation)
| OfExpression (expression : Expression)
| OfAlternatives (alternatives : list Concatenation).

(** ** The compiler's monad *)

(** The compiler fails as the engine does, or on an assertion. *)
Inductive Failure :=
| EngineError (e : error)
| Unsupported.        (* 'Assertions are not supported yet.' *)

Inductive Outcome (A : Type) :=
| Done (a : A)
| Failed (f : Failure).
Arguments Done {A} a.
Arguments Failed {A} f.

Definition B (A : Type) : Type := Store -> Outcome (A * Store).

Definition retB {A} (a : A) : B A := fun st => Done (a, st).
Definition failB {A} (f : Failure) : B A := fun _ => Failed f.
Definition bindB {A C} (m : B A) (k : A -> B C) : B C :=
  fun st => match m st with
            | Done (a, st') => k a st'
            | Failed f => Failed f
            end.
Definition lift {A} (m : M Store A) : B A :=
  fun st => match m st with
            | Ok r => Done r
            | Err e => Failed (EngineError e)
            end.

Notation "x <~ m ;; k" := (bindB m (fun x => k))
  (at level 100, m at next level, right associativity).
Notation "m ;;~ k" := (bindB m (fun _ => k))
  (at level 100, right associativity).

(** ** createNodeList *)

Section Handlers.
Variables (nodeList : NodeList) (options : NFAOptions).

(** [{ initial: nodeList.createNode(), final: new Set<NFANode>() }] *)
Definition newSubList : M Store SubList :=
  initial' <- createNode (nl_id nodeList) ;;
  final' <- newSet ;;
  ret (mkSubList initial' final').

(** The case [CharacterClass] of [handleElement]. *)
Definition handleCharacterClass (chars : CharSet) (base : SubList) : M Store unit :=
  if negb (CharSet.maximum chars =? maxCharacter options)%Z then throw AlphabetMismatch
  else if CharSet.isEmpty chars then
    (* the whole concatenation can't go anywhere *)
    baseMakeEmpty nodeList base
  else
    s <- createNode (nl_id nodeList) ;;
    fs <- setElements (final base) ;;
    forEach fs (fun f => linkNodes nodeList f s chars) ;;;
    setClear (final base) ;;;
    setAdd (final base) s.

Section Lists.
Variable handleElement : Element -> SubList -> B unit.

(** The loop of [handleConcatenation]; it stops as soon as the base has no
    final node. *)
Fixpoint handleElements (elements : list Element) (base : SubList) : B unit :=
  match elements with
  | [] => retB tt
  | element :: rest =>
      size <~ lift (setSize (final base)) ;;
      if size =? 0 then retB tt
      else handleElement element base ;;~ handleElements rest base
  end.

Definition handleConcatenation (concatenation : Concatenation) : B SubList :=
  base <~ lift newSubList ;;
  lift (setAdd (final base) (initial base)) ;;~
  handleElements concatenation base ;;~
  retB base.

(** The loop of [handleAlternation] over the alternatives after the
    first. *)
Fixpoint handleAlternatives (alternatives : list Concatenation) (base : SubList) : B unit :=
  match alternatives with
  | [] => retB tt
  | alternative :: rest =>
      sub <~ handleConcatenation alternative ;;
      lift (baseUnion nodeList base sub) ;;~
      handleAlternatives rest base
  end.

Definition handleAlternation (alternatives : list Concatenation) : B SubList :=
  match alternatives with
  | [] => lift newSubList
  | first :: rest =>
      base <~ handleConcatenation first ;;
      handleAlternatives rest base ;;~
      retB base
  end.

Definition handleQuantifier (alternatives : list Concatenation) (min : nat) (max : bound)
  : B SubList :=
  base <~ handleAlternation alternatives ;;
  lift (baseQuantify nodeList base min max) ;;~
  retB base.
End Lists.

Fixpoint handleElement (element : Element) (base : SubList) {struct element} : B unit :=
  match element with
  | Alternation alternatives =>
      sub <~ handleAlternation handleElement alternatives ;;
      lift (baseConcat nodeList base sub)
  | Assertion => failB Unsupported
  | CharacterClass chars => lift (handleCharacterClass chars base)
  | Quantifier alternatives min max =>
      sub <~ handleQuantifier handleElement alternatives min max ;;
      lift (baseConcat nodeList base sub)
  end.
End Handlers.

Definition createNodeList (expression : list Concatenation) (options : NFAOptions)
  : B NodeList :=
  nodeList <~ lift newNodeList ;;
  replacement <~ handleAlternation nodeList (handleElement nodeList options) expression ;;
  lift (baseReplaceWith nodeList nodeList replacement) ;;~
  retB nodeList.

Definition fromRegex (value : RegexValue) (options : NFAOptions) : B NFA :=
  nodeList <~ match value with
              | OfAlternatives alternatives => createNodeList alternatives options
              | OfConcatenation concat => createNodeList [concat] options
              | OfExpression expression => createNodeList (alternatives expression) options
              end ;;
  retB (mkNFA nodeList options).

(** ** The words of an expression *)

Section Words.
Variable wordsOf : Element -> list Z -> Prop.

Fixpoint concatWords (elements : list Element) (w : list Z) : Prop :=
  match elements with
  | [] => w = []
  | element :: rest => exists u v, w = u ++ v /\ wordsOf element u /\ concatWords rest v
  end.

Fixpoint alternationWords (alternatives : list Concatenation) (w : list Z) : Prop :=
  match alternatives with
  | [] => False
  | alternative :: rest => concatWords alternative w \/ alternationWords rest w
  end.
End Words.

Fixpoint elementWords (element : Element) (w : list Z) {struct element} : Prop :=
  match element with
  | Alternation alternatives => alternationWords elementWords alternatives w
  | Assertion => False
  | CharacterClass chars => exists c, w = [c] /\ CharSet.has chars c = true
  | Quantifier alternatives min max =>
      quantified min max (alternationWords elementWords alternatives) w
  end.

Definition regexWords (value : RegexValue) : list Z -> Prop :=
  alternationWords elementWords
    match value with
    | OfAlternatives alternatives => alternatives
    | OfConcatenation concat => [concat]
    | OfExpression expression => alternatives expression
    end.

(** What the compiler accepts: no assertion, character classes over the
    alphabet of the options, and quantifiers with [min <= max]. *)
Section Supported.
Variable options : NFAOptions.

Section All.
Variable P : Element -> Prop.

Fixpoint allElements (elements : list Element) : Prop :=
  match elements with
  | [] => True
  | element :: rest => P element /\ allElements rest
  end.

Fixpoint allAlternatives (alternatives : list Concatenation) : Prop :=
  match alternatives with
  | [] => True
  | alternative :: rest => allElements alternative /\ allAlternatives rest
  end.
End All.

Fixpoint supported (element : Element) {struct element} : Prop :=
  match element with
  | Alternation alternatives => allAlternatives supported alternatives
  | Assertion => False
  | CharacterClass chars => CharSet.maximum chars = maxCharacter options
  | Quantifier alternatives min max =>
      allAlternatives supported alternatives /\ withinBound min max
  end.
End Supported.

Definition supportedValue (options : NFAOptions) (value : RegexValue) : Prop :=
  allAlternatives (supported options)
    match value with
    | OfAlternatives alternatives => alternatives
    | OfConcatenation concat => [concat]
    | OfExpression expression => alternatives expression
    end.

(** Induction over an element and the elements below it. *)
Section ElementInduction.
Variable P : Element -> Prop.
Hypothesis HAlternation : forall alternatives,
  allAlternatives P alternatives -> P (Alternation alternatives).
Hypothesis HAssertion : P Assertion.
Hypothesis HCharacterClass : forall chars, P (CharacterClass chars).
Hypothesis HQuantifier : forall alternatives min max,
  allAlternatives P alternatives -> P (Quantifier alternatives min max).

Fixpoint Element_induction (element : Element) : P element :=
  let elements :=
    fix elements (l : list Element) : allElements P l :=
      match l with
      | [] => I
      | e :: rest => conj (Element_induction e) (elements rest)
      end in
  let alts :=
    fix alts (l : list Concatenation) : allAlternatives P l :=
      match l with
      | [] => I
      | c :: rest => conj (elements c) (alts rest)
      end in
  match element with
  | Alternation alternatives => HAlternation alternatives (alts alternatives)
  | Assertion => HAssertion
  | CharacterClass chars => HCharacterClass chars
  | Quantifier alternatives min max => HQuantifier alternatives min max (alts alternatives)
  end.
End ElementInduction.

(** ** The part of the store that a construction makes *)

(** Nodes and sets are only ever added. *)
Definition grows (st st' : Store) : Prop :=
  (forall a, allocated st a -> allocated st' a)
  /\ (forall t, allocatedSet st t -> allocatedSet st' t).

Lemma grows_refl st : grows st st.
Proof. split; auto. Qed.

Lemma grows_trans st1 st2 st3 : grows st1 st2 -> grows st2 st3 -> grows st1 st3.
Proof. intros [A1 B1] [A2 B2]. split; auto. Qed.

Section Built.
Variables (nodeList : NodeList) (s0 : Store).

(** The nodes made since the store [s0]. *)
Definition made (st : Store) (x : nat) : Prop := allocated st x /\ ~ allocated s0 x.

(** What was there in [s0] is as it was.  The nodes made since belong to
    the node list; edges stay among them, their [in] maps mirror the [out]
    maps, a map has a key once and no label is empty.  The sets made since
    hold nodes made since, each once. *)
Record built (st : Store) : Prop := mkBuilt {
  bt_mono : forall a, allocated s0 a -> allocated st a;
  bt_out : forall a, allocated s0 a -> outOf st a = outOf s0 a;
  bt_owner : forall a, allocated s0 a -> owner st a = owner s0 a;
  bt_smono : forall t, allocatedSet s0 t -> allocatedSet st t;
  bt_sets : forall t, allocatedSet s0 t -> getSet st t = getSet s0 t;
  bt_own : forall x, made st x -> owner st x = nl_id nodeList;
  bt_succ : forall x y, made st x -> succ st x y -> made st y;
  bt_pred : forall x y, succ st x y -> made st y -> made st x;
  bt_mirror : forall x y, made st y -> JsMap.get (inOf st y) x = JsMap.get (outOf st x) y;
  bt_nodup_out : forall x, made st x -> List.NoDup (JsMap.keys (outOf st x));
  bt_nodup_in : forall x, made st x -> List.NoDup (JsMap.keys (inOf st x));
  bt_labels : forall x y S, made st x -> In (y, S) (outOf st x) -> CharSet.isEmpty S = false;
  bt_new_sets : forall t, ~ allocatedSet s0 t ->
                  List.NoDup (getSet st t) /\ forall f, In f (getSet st t) -> made st f
}.

Lemma made_grows st st' x : grows st st' -> made st x -> made st' x.
Proof. intros [G _] [H1 H2]. split; auto. Qed.

Lemma made_ext st st' :
  (forall a, allocated st' a <-> allocated st a) -> forall x, made st' x <-> made st x.
Proof. intros E x. unfold made. rewrite E. reflexivity. Qed.

Lemma madeSet_grows st st' t :
  built st -> grows st st' -> allocatedSet st t -> ~ allocatedSet s0 t -> allocatedSet st' t.
Proof. intros _ [_ G] H _. auto. Qed.

Hypothesis closed0 : closedStore s0.

Lemma built_refl : built s0.
Proof.
  split; try (intros; reflexivity); try (intros; assumption).
  - intros x [H1 H2]. contradiction.
  - intros x y [H1 H2]. contradiction.
  - intros x y Hxy [H1 H2]. exfalso. apply H2. eapply closed0; eauto.
  - intros x y [H1 H2]. contradiction.
  - intros x [H1 H2]. contradiction.
  - intros x [H1 H2]. contradiction.
  - intros x y S [H1 H2]. contradiction.
  - intros t Ht. unfold getSet, allocatedSet in *.
    destruct (store_sets s0 !! t); [exfalso; apply Ht; eauto|].
    simpl. split; [constructor|intros f []].
Qed.

Lemma built_closed st : built st -> closedStore st.
Proof.
  intros B x y Hxy. destruct (decide (allocated s0 x)) as [Hx|Hx].
  - apply (bt_mono _ B). unfold succ in Hxy. rewrite (bt_out _ B x Hx) in Hxy.
    eapply closed0; eauto.
  - apply (bt_succ _ B x y); [|exact Hxy]. split; [eapply succ_allocated; eauto|exact Hx].
Qed.

(** The made nodes as a [region], around any made node and made set. *)
Lemma built_region st i t :
  built st -> made st i -> ~ allocatedSet s0 t ->
  region (mkNodeList (nl_id nodeList) (mkSubList i t)) st (made st).
Proof.
  intros B Hi Ht. split; simpl.
  - intros x Hx. split; [apply Hx|apply (bt_own _ B x Hx)].
  - apply (bt_succ _ B).
  - apply (bt_pred _ B).
  - apply (bt_mirror _ B).
  - apply (bt_nodup_out _ B).
  - apply (bt_nodup_in _ B).
  - apply (bt_labels _ B).
  - exact Hi.
  - apply (bt_new_sets _ B t Ht).
  - apply (bt_new_sets _ B t Ht).
Qed.

(** A set that [s0] does not have. *)
Definition spareSet : nat := fresh (dom (store_sets s0)).

Lemma spareSet_new : ~ allocatedSet s0 spareSet.
Proof.
  unfold allocatedSet, spareSet. intros [l Hl].
  apply (is_fresh (dom (store_sets s0))). apply elem_of_dom. eauto.
Qed.

(** Back from a region, when the rest of the store is as it was. *)
Lemma region_built st st' i t :
  built st ->
  region (mkNodeList (nl_id nodeList) (mkSubList i t)) st' (made st') ->
  (forall a, allocated st a -> allocated st' a) ->
  (forall a, allocated s0 a -> outOf st' a = outOf st a) ->
  (forall a, allocated s0 a -> owner st' a = owner st a) ->
  (forall t, allocatedSet st t -> allocatedSet st' t) ->
  (forall t, allocatedSet s0 t -> getSet st' t = getSet st t) ->
  (forall t, ~ allocatedSet s0 t ->
             List.NoDup (getSet st' t) /\ forall f, In f (getSet st' t) -> made st' f) ->
  built st'.
Proof.
  intros B R Ha Ho Hw Hs Hg Hn. split.
  - intros a H. apply Ha, (bt_mono _ B a H).
  - intros a H. rewrite (Ho a H). apply (bt_out _ B a H).
  - intros a H. rewrite (Hw a H). apply (bt_owner _ B a H).
  - intros u H. apply Hs, (bt_smono _ B u H).
  - intros u H. rewrite (Hg u H). apply (bt_sets _ B u H).
  - intros x Hx. apply (rg_alloc _ _ _ R x Hx).
  - apply (rg_out _ _ _ R).
  - apply (rg_into _ _ _ R).
  - apply (rg_mirror _ _ _ R).
  - apply (rg_nodup_out _ _ _ R).
  - apply (rg_nodup_in _ _ _ R).
  - apply (rg_labels _ _ _ R).
  - exact Hn.
Qed.

Lemma built_linkNodes st st' from to chars :
  built st -> made st from -> made st to ->
  linkNodes nodeList from to chars st = Ok (tt, st') ->
  built st' /\ grows st st'.
Proof.
  intros B Hf Ht Hrun.
  pose proof (built_region st from spareSet B Hf spareSet_new) as R.
  pose proof (region_linkNodes (mkNodeList (nl_id nodeList) (mkSubList from spareSet))
                st st' _ from to chars Hrun Hf Ht R) as R'.
  apply linkNodes_effect in Hrun as (Hout & _ & Hown & Hset & Hal & Has & _).
  assert (E : forall a, allocated st' a <-> allocated st a).
  { intros a. rewrite Hal. destruct Hf as [Hf _]. destruct Ht as [Ht _].
    clear -Hf Ht. intuition (subst; intuition). }
  split; [|split; [intros a; apply E|intros t; apply Has]].
  apply (region_built st st' from spareSet B).
  - eapply region_ext; [|exact R']. intros x. symmetry. apply made_ext, E.
  - intros a. apply E.
  - intros a Ha. rewrite Hout. destruct (decide (from = a)) as [<-|_]; [|reflexivity].
    destruct Hf as [_ Hf]. contradiction.
  - intros a _. apply Hown.
  - intros t. apply Has.
  - intros t _. apply Hset.
  - intros t Hnt. rewrite Hset. destruct (bt_new_sets _ B t Hnt) as [H1 H2].
    split; [exact H1|]. intros f Hff. apply (proj2 (made_ext st st' E f)). apply H2, Hff.
Qed.

Lemma built_unlinkNodes st st' from to :
  built st -> made st from -> made st to ->
  unlinkNodes nodeList from to st = Ok (tt, st') ->
  built st' /\ grows st st'.
Proof.
  intros B Hf Ht Hrun.
  pose proof (built_region st from spareSet B Hf spareSet_new) as R.
  pose proof (region_unlinkNodes (mkNodeList (nl_id nodeList) (mkSubList from spareSet))
                st st' _ from to Hrun Hf Ht R) as R'.
  apply unlinkNodes_effect in Hrun as (Hout & _ & Hown & Hset & Hal & Has).
  assert (E : forall a, allocated st' a <-> allocated st a).
  { intros a. rewrite Hal. destruct Hf as [Hf _]. destruct Ht as [Ht _].
    clear -Hf Ht. intuition (subst; intuition). }
  split; [|split; [intros a; apply E|intros t; apply Has]].
  apply (region_built st st' from spareSet B).
  - eapply region_ext; [|exact R']. intros x. symmetry. apply made_ext, E.
  - intros a. apply E.
  - intros a Ha. rewrite Hout. destruct (decide (from = a)) as [<-|_]; [|reflexivity].
    destruct Hf as [_ Hf]. contradiction.
  - intros a _. apply Hown.
  - intros t. apply Has.
  - intros t _. apply Hset.
  - intros t Hnt. rewrite Hset. destruct (bt_new_sets _ B t Hnt) as [H1 H2].
    split; [exact H1|]. intros f Hff. apply (proj2 (made_ext st st' E f)). apply H2, Hff.
Qed.

Lemma built_createNode st r st' :
  built st -> createNode (nl_id nodeList) st = Ok (r, st') ->
  built st' /\ grows st st' /\ made st' r /\ ~ allocated st r.
Proof.
  intros B Hrun.
  destruct (createNode_spec (nl_id nodeList) st)
    as (r' & st'' & Hrun' & Hfresh & Hal & Hown & Hown' & Hout & Hin & Hset & Has).
  rewrite Hrun in Hrun'. injection Hrun' as <- <-.
  pose proof (built_closed st B) as C.
  assert (Hr0 : ~ allocated s0 r) by (intros H; apply Hfresh, (bt_mono _ B r H)).
  assert (Hm : forall x, made st' x <-> x = r \/ made st x).
  { intros x. unfold made. rewrite Hal. clear -Hr0. intuition (subst; intuition). }
  assert (Hor : outOf st r = []).
  { unfold outOf. rewrite unallocated_blank by exact Hfresh. reflexivity. }
  assert (Hir : inOf st r = []).
  { unfold inOf. rewrite unallocated_blank by exact Hfresh. reflexivity. }
  assert (Hne : forall x, allocated st x -> x <> r) by (intros x Hx ->; contradiction).
  split; [|split; [split; [intros a Ha; apply Hal; auto|intros t; apply Has]|]].
  2:{ split; [apply Hm; auto|exact Hfresh]. }
  split.
  - intros a Ha. apply Hal. right. apply (bt_mono _ B a Ha).
  - intros a Ha. rewrite Hout. apply (bt_out _ B a Ha).
  - intros a Ha. rewrite Hown' by (apply Hne, (bt_mono _ B a Ha)). apply (bt_owner _ B a Ha).
  - intros t Ht. apply Has, (bt_smono _ B t Ht).
  - intros t Ht. rewrite Hset. apply (bt_sets _ B t Ht).
  - intros x Hx. apply Hm in Hx as [->|Hx]; [exact Hown|].
    rewrite Hown' by (apply Hne, Hx). apply (bt_own _ B x Hx).
  - intros x y Hx. unfold succ. rewrite Hout. intros Hxy. apply Hm.
    apply Hm in Hx as [->|Hx]; [rewrite Hor in Hxy; destruct Hxy|].
    right. apply (bt_succ _ B x y Hx Hxy).
  - intros x y. unfold succ. rewrite Hout. intros Hxy Hy. apply Hm.
    apply Hm in Hy as [->|Hy]; [exfalso; apply Hfresh; eapply C; exact Hxy|].
    right. apply (bt_pred _ B x y Hxy Hy).
  - intros x y Hy. rewrite Hin, Hout. apply Hm in Hy as [->|Hy]; [|apply (bt_mirror _ B x y Hy)].
    rewrite Hir. simpl. symmetry. apply get_None_keys. intros H. apply Hfresh. eapply C; exact H.
  - intros x Hx. rewrite Hout. apply Hm in Hx as [->|Hx]; [rewrite Hor; constructor|].
    apply (bt_nodup_out _ B x Hx).
  - intros x Hx. rewrite Hin. apply Hm in Hx as [->|Hx]; [rewrite Hir; constructor|].
    apply (bt_nodup_in _ B x Hx).
  - intros x y S Hx. rewrite Hout. apply Hm in Hx as [->|Hx]; [rewrite Hor; intros []|].
    apply (bt_labels _ B x y S Hx).
  - intros t Ht. rewrite Hset. destruct (bt_new_sets _ B t Ht) as [H1 H2].
    split; [exact H1|]. intros f Hf. apply Hm. right. apply H2, Hf.
Qed.

Lemma built_putSet st t l :
  built st -> ~ allocatedSet s0 t -> List.NoDup l -> (forall f, In f l -> made st f) ->
  built (putSet st t l) /\ grows st (putSet st t l).
Proof.
  intros B Ht Hnd Hl.
  assert (Hn : store_nodes (putSet st t l) = store_nodes st) by reflexivity.
  assert (Hm : forall x, made (putSet st t l) x <-> made st x).
  { apply made_ext. intros a. apply allocated_same_nodes. exact Hn. }
  assert (Ho : forall a, outOf (putSet st t l) a = outOf st a)
    by (intros a; apply outOf_same_nodes; exact Hn).
  assert (Hi : forall a, inOf (putSet st t l) a = inOf st a)
    by (intros a; autorewrite with store; reflexivity).
  assert (Hw : forall a, owner (putSet st t l) a = owner st a)
    by (intros a; apply owner_same_nodes; exact Hn).
  split; [|split; [intros a Ha; apply (allocated_same_nodes st); auto
                  |intros u Hu; apply allocatedSet_putSet; auto]].
  split.
  - intros a Ha. apply (allocated_same_nodes st); [exact Hn|]. apply (bt_mono _ B a Ha).
  - intros a Ha. rewrite Ho. apply (bt_out _ B a Ha).
  - intros a Ha. rewrite Hw. apply (bt_owner _ B a Ha).
  - intros u Hu. apply allocatedSet_putSet. right. apply (bt_smono _ B u Hu).
  - intros u Hu. rewrite getSet_putSet, decide_False by (intros ->; contradiction).
    apply (bt_sets _ B u Hu).
  - intros x Hx. rewrite Hw. apply (bt_own _ B x), Hm, Hx.
  - intros x y Hx. unfold succ. rewrite Ho. intros Hxy. apply Hm.
    apply (bt_succ _ B x y); [apply Hm, Hx|exact Hxy].
  - intros x y. unfold succ. rewrite Ho. intros Hxy Hy. apply Hm.
    apply (bt_pred _ B x y Hxy). apply Hm, Hy.
  - intros x y Hy. rewrite Hi, Ho. apply (bt_mirror _ B x y). apply Hm, Hy.
  - intros x Hx. rewrite Ho. apply (bt_nodup_out _ B x). apply Hm, Hx.
  - intros x Hx. rewrite Hi. apply (bt_nodup_in _ B x). apply Hm, Hx.
  - intros x y S Hx. rewrite Ho. apply (bt_labels _ B x y S). apply Hm, Hx.
  - intros u Hu. rewrite getSet_putSet. destruct (decide (t = u)) as [<-|_].
    + split; [exact Hnd|]. intros f Hf. apply Hm, Hl, Hf.
    + destruct (bt_new_sets _ B u Hu) as [H1 H2]. split; [exact H1|].
      intros f Hf. apply Hm, H2, Hf.
Qed.

Lemma built_setAdd st t x st' :
  built st -> ~ allocatedSet s0 t -> made st x ->
  setAdd t x st = Ok (tt, st') -> built st' /\ grows st st'.
Proof.
  intros B Ht Hx Hrun. unfold setAdd, modify in Hrun. injection Hrun as <-.
  destruct (bt_new_sets _ B t Ht) as [H1 H2].
  apply built_putSet; [exact B|exact Ht| |].
  - apply NoDup_set_add, H1.
  - intros f Hf. apply JsSetFacts.In_add in Hf as [->|Hf]; [exact Hx|apply H2, Hf].
Qed.

Lemma built_setDelete st t x st' :
  built st -> ~ allocatedSet s0 t ->
  setDelete t x st = Ok (tt, st') -> built st' /\ grows st st'.
Proof.
  intros B Ht Hrun. unfold setDelete, modify in Hrun. injection Hrun as <-.
  destruct (bt_new_sets _ B t Ht) as [H1 H2].
  apply built_putSet; [exact B|exact Ht| |].
  - apply NoDup_set_delete, H1.
  - intros f Hf. apply JsSetFacts.In_delete in Hf as [_ Hf]. apply H2, Hf.
Qed.

Lemma built_setClear st t st' :
  built st -> ~ allocatedSet s0 t ->
  setClear t st = Ok (tt, st') -> built st' /\ grows st st'.
Proof.
  intros B Ht Hrun. unfold setClear, modify in Hrun. injection Hrun as <-.
  apply built_putSet; [exact B|exact Ht|constructor|intros f []].
Qed.

Lemma built_newSet st s st' :
  built st -> newSet st = Ok (s, st') ->
  built st' /\ grows st st' /\ ~ allocatedSet st s /\ allocatedSet st' s
  /\ ~ allocatedSet s0 s /\ getSet st' s = [].
Proof.
  intros B Hrun.
  destruct (newSet_spec st) as (s' & st'' & Hrun' & Hfresh & Hal & _ & Hnil & _).
  rewrite Hrun in Hrun'. injection Hrun' as <- <-.
  assert (H0 : ~ allocatedSet s0 s) by (intros H; apply Hfresh, (bt_smono _ B s H)).
  unfold newSet in Hrun. injection Hrun as Es <-. rewrite Es.
  destruct (built_putSet st s [] B H0) as [B' G']; [constructor|intros f []|].
  split; [exact B'|]. split; [exact G'|]. split; [exact Hfresh|].
  split; [apply allocatedSet_putSet; auto|]. split; [exact H0|].
  rewrite getSet_putSet, decide_True by reflexivity. reflexivity.
Qed.

(** The store as a whole is well formed when it was. *)
Lemma built_good st : good s0 -> built st -> good st.
Proof.
  intros [G1 G2 G3] B. pose proof (built_closed st B) as C. split.
  - intros a. destruct (decide (allocated s0 a)) as [Ha|Ha].
    + rewrite (bt_out _ B a Ha). apply G1.
    + destruct (decide (allocated st a)) as [Ha'|Ha'].
      * apply (bt_nodup_out _ B a). split; assumption.
      * unfold outOf. rewrite unallocated_blank by exact Ha'. constructor.
  - intros a b Hab. eapply C. exact Hab.
  - intros a b S. destruct (decide (allocated s0 a)) as [Ha|Ha].
    + rewrite (bt_out _ B a Ha). apply G3.
    + destruct (decide (allocated st a)) as [Ha'|Ha'].
      * apply (bt_labels _ B a b S). split; assumption.
      * unfold outOf. rewrite unallocated_blank by exact Ha'. intros [].
Qed.
End Built.

(** ** The transformers keep what is made in shape *)

Section Walks.
Variables (nodeList : NodeList) (s0 : Store).
Hypothesis closed0 : closedStore s0.

Local Abbreviation built := (built nodeList s0).
Local Abbreviation made := (made s0).

(** A sub-automaton among the made nodes. *)
Definition subIn (st : Store) (b : SubList) : Prop :=
  made st (initial b) /\ allocatedSet st (final b) /\ ~ allocatedSet s0 (final b).

Lemma subIn_grows st st' b : grows st st' -> subIn st b -> subIn st' b.
Proof.
  intros G (H1 & H2 & H3). split; [eapply made_grows; eauto|]. split; [apply G, H2|exact H3].
Qed.

Lemma made_final st t f : built st -> ~ allocatedSet s0 t -> In f (getSet st t) -> made st f.
Proof. intros B Ht Hf. apply (bt_new_sets _ _ _ B t Ht), Hf. Qed.

Lemma made_edge st x e : built st -> made st x -> In e (outOf st x) -> made st (fst e).
Proof.
  intros B Hx He. apply (bt_succ _ _ _ B x); [exact Hx|].
  unfold succ, JsMap.keys. apply in_map. exact He.
Qed.

Lemma made_key st x y : built st -> made st x -> In y (JsMap.keys (outOf st x)) -> made st y.
Proof. intros B Hx Hy. apply (bt_succ _ _ _ B x y Hx Hy). Qed.

Lemma made_in_edge st y e : built st -> made st y -> In e (inOf st y) -> made st (fst e).
Proof.
  intros B Hy He. apply (bt_pred _ _ _ B (fst e) y); [|exact Hy].
  assert (Hk : In (fst e) (JsMap.keys (inOf st y))) by (unfold JsMap.keys; apply in_map; exact He).
  apply JsMapFacts.In_keys in Hk as [v Hv]. rewrite (bt_mirror _ _ _ B (fst e) y Hy) in Hv.
  unfold succ. apply JsMapFacts.In_keys. eauto.
Qed.

(** A loop keeps the shape when its body does. *)
Lemma built_forEach {A} (l : list A) (body : A -> M Store unit) st st' :
  (forall x s s', In x l -> built s -> grows st s -> body x s = Ok (tt, s') ->
                  built s' /\ grows s s') ->
  built st -> forEach l body st = Ok (tt, st') -> built st' /\ grows st st'.
Proof.
  intros Hb B Hrun.
  refine (forEach_inv (fun _ s => built s /\ grows st s) _ _ _ _ _ _ Hrun).
  - split; [exact B|apply grows_refl].
  - intros pre x post s1 s2 E [B1 G1] Hbody.
    destruct (Hb x s1 s2) as [B2 G2]; auto.
    + rewrite E. apply in_elt.
    + split; [exact B2|]. eapply grows_trans; eauto.
Qed.

Ltac grown := eauto using made_grows, grows_trans, grows_refl.

Lemma built_baseMakeEmpty st st' base :
  built st -> made st (initial base) -> ~ allocatedSet s0 (final base) ->
  baseMakeEmpty nodeList base st = Ok (tt, st') -> built st' /\ grows st st'.
Proof.
  intros B Hi Hs Hrun. unfold baseMakeEmpty in Hrun.
  apply bind_Ok in Hrun as (outs & s & Hg & Hrun). unfold gets in Hg. injection Hg as <- <-.
  apply bind_Ok in Hrun as ([] & s1 & Hloop & Hclear).
  assert (K1 : built s1 /\ grows st s1).
  { refine (built_forEach _ _ _ _ _ B Hloop). intros o s s' Ho Bs Gs Hb.
    apply (built_unlinkNodes nodeList s0 s s' (initial base) o); auto.
    - grown.
    - eapply made_grows; [exact Gs|]. eapply made_key; eauto. }
  destruct K1 as [B1 G1].
  destruct (built_setClear nodeList s0 s1 (final base) st' B1 Hs Hclear) as [B2 G2].
  split; [exact B2|]. grown.
Qed.

Lemma built_baseConcat st st' base after :
  built st -> subIn st base -> subIn st after ->
  baseConcat nodeList base after st = Ok (tt, st') -> built st' /\ grows st st'.
Proof.
  intros B (Hbi & Hbs & Hbn) (Hai & Has & Han) Hrun. unfold baseConcat in Hrun.
  apply bind_Ok in Hrun as (nb & s & Hg & Hrun). unfold setSize, gets in Hg.
  injection Hg as <- <-.
  destruct (JsSet.size (getSet st (final base)) =? 0).
  { injection Hrun as <-. split; [exact B|apply grows_refl]. }
  apply bind_Ok in Hrun as (na & s & Hg & Hrun). unfold setSize, gets in Hg.
  injection Hg as <- <-.
  destruct (JsSet.size (getSet st (final after)) =? 0).
  { exact (built_baseMakeEmpty st st' base B Hbi Hbn Hrun). }
  apply bind_Ok in Hrun as (edges & s & Hg & Hrun). unfold gets in Hg. injection Hg as <- <-.
  apply bind_Ok in Hrun as (bfs & s & Hg & Hrun). unfold setElements, gets in Hg.
  injection Hg as <- <-.
  apply bind_Ok in Hrun as ([] & s1 & Hlink & Hrun).
  apply bind_Ok in Hrun as ([] & s2 & Hunlink & Hrun).
  apply bind_Ok in Hrun as (aif & s2' & Hg & Hrun). unfold setHas, gets in Hg.
  injection Hg as _ <-.
  apply bind_Ok in Hrun as ([] & s3 & Hclear & Hrun).
  apply bind_Ok in Hrun as (afs & s3' & Hg & Hrun). unfold setElements, gets in Hg.
  injection Hg as <- <-.
  assert (He : forall e, In e (outOf st (initial after)) -> made st (fst e)).
  { intros e. apply made_edge; assumption. }
  assert (Hf : forall f, In f (getSet st (final base)) -> made st f).
  { intros f. apply made_final; assumption. }
  assert (K1 : built s1 /\ grows st s1).
  { refine (built_forEach _ _ _ _ _ B Hlink). intros f s s' Hfin Bs Gs Hb.
    refine (built_forEach _ _ _ _ _ Bs Hb). intros e sa sb Hin Ba Ga Hl.
    apply (built_linkNodes nodeList s0 sa sb f (fst e) (snd e)); auto.
    - eapply made_grows; [|apply Hf, Hfin]. grown.
    - eapply made_grows; [|apply He, Hin]. grown. }
  destruct K1 as [B1 G1].
  assert (K2 : built s2 /\ grows s1 s2).
  { refine (built_forEach _ _ _ _ _ B1 Hunlink). intros e s s' Hin Bs Gs Hb.
    apply (built_unlinkNodes nodeList s0 s s' (initial after) (fst e)); auto.
    - eapply made_grows; [|exact Hai]. grown.
    - eapply made_grows; [|apply He, Hin]. grown. }
  destruct K2 as [B2 G2].
  assert (K3 : built s3 /\ grows s2 s3).
  { destruct aif; [injection Hclear as <-; split; [exact B2|apply grows_refl]|].
    exact (built_setClear nodeList s0 s2 (final base) s3 B2 Hbn Hclear). }
  destruct K3 as [B3 G3].
  assert (K4 : built st' /\ grows s3 st').
  { refine (built_forEach _ _ _ _ _ B3 Hrun). intros n s s' Hin Bs Gs Hb.
    destruct (n =? initial after); [injection Hb as <-; split; [exact Bs|apply grows_refl]|].
    apply (built_setAdd nodeList s0 s (final base) n s'); auto.
    eapply made_grows; [exact Gs|]. eapply made_final; eauto. }
  destruct K4 as [B4 G4]. split; [exact B4|]. grown.
Qed.

Lemma built_basePlus st st' base :
  built st -> subIn st base ->
  basePlus nodeList base st = Ok (tt, st') -> built st' /\ grows st st'.
Proof.
  intros B (Hbi & Hbs & Hbn) Hrun. unfold basePlus in Hrun.
  apply bind_Ok in Hrun as (fs & s & Hg & Hrun). unfold setElements, gets in Hg.
  injection Hg as <- <-.
  refine (built_forEach _ _ _ _ _ B Hrun). intros f s s' Hfin Bs Gs Hb.
  destruct (f =? initial base); [injection Hb as <-; split; [exact Bs|apply grows_refl]|].
  apply bind_Ok in Hb as (edges & sa & Hg & Hb). unfold gets in Hg. injection Hg as <- <-.
  refine (built_forEach _ _ _ _ _ Bs Hb). intros e sa sb Hin Ba Ga Hl.
  apply (built_linkNodes nodeList s0 sa sb f (fst e) (snd e)); auto.
  - apply (made_grows s0 st sa); [grown|]. exact (made_final st _ f B Hbn Hfin).
  - apply (made_grows s0 s sa); [exact Ga|]. apply (made_edge s (initial base) e Bs); [|exact Hin].
    apply (made_grows s0 st s); [exact Gs|exact Hbi].
Qed.

Lemma built_transferEdges st st' onto from :
  built st -> made st onto -> made st from ->
  transferEdges nodeList onto from st = Ok (tt, st') -> built st' /\ grows st st'.
Proof.
  intros B Ho Hf Hrun. unfold transferEdges in Hrun.
  apply bind_Ok in Hrun as (edges & s & Hg & Hrun). unfold gets in Hg. injection Hg as <- <-.
  refine (built_forEach _ _ _ _ _ B Hrun). intros e s s' Hin Bs Gs Hb.
  apply bind_Ok in Hb as ([] & s1 & Hl & Hu).
  assert (He : made st (fst e)) by (eapply made_edge; eauto).
  destruct (built_linkNodes nodeList s0 s s1 onto (fst e) (snd e) Bs) as [B1 G1];
    [grown|grown|exact Hl|].
  destruct (built_unlinkNodes nodeList s0 s1 s' from (fst e) B1) as [B2 G2];
    [grown|grown|exact Hu|].
  split; [exact B2|grown].
Qed.

Lemma built_reuse st st' base :
  built st -> subIn st base ->
  baseOptimizationReuseFinalStates nodeList base st = Ok (tt, st') ->
  built st' /\ grows st st'.
Proof.
  intros B (Hbi & Hbs & Hbn) Hrun. unfold baseOptimizationReuseFinalStates in Hrun.
  apply bind_Ok in Hrun as (fs & s & Hg & Hrun). unfold setElements, gets in Hg.
  injection Hg as <- <-.
  apply bind_Ok in Hrun as (reusable & s & Hg & Hrun). unfold gets in Hg.
  injection Hg as <- <-.
  set (reusable := List.filter _ _) in Hrun.
  destruct (1 <? length reusable) eqn:El;
    [|injection Hrun as <-; split; [exact B|apply grows_refl]].
  apply Nat.ltb_lt in El.
  assert (Hne : reusable <> []) by (intros E; rewrite E in El; simpl in El; lia).
  assert (Hr : forall f, In f reusable -> made st f).
  { intros f Hf. apply filter_In in Hf as [Hf _]. eapply made_final; eauto. }
  assert (Esplit : reusable = removelast reusable ++ [List.last reusable 0])
    by (apply app_removelast_last; exact Hne).
  assert (Hm : made st (List.last reusable 0)).
  { apply Hr. rewrite Esplit at 2. apply in_app_iff. simpl. auto. }
  refine (built_forEach _ _ _ _ _ B Hrun). intros r s s' Hin Bs Gs Hb.
  assert (Hrm : made st r) by (apply Hr; rewrite Esplit; apply in_app_iff; auto).
  apply bind_Ok in Hb as ([] & s1 & Hdel & Hb).
  destruct (built_setDelete nodeList s0 s (final base) r s1 Bs Hbn Hdel) as [B1 G1].
  apply bind_Ok in Hb as (edges & sa & Hg & Hb). unfold gets in Hg. injection Hg as <- <-.
  assert (K : built s' /\ grows s1 s'); [|destruct K; split; [assumption|grown]].
  refine (built_forEach _ _ _ _ _ B1 Hb). intros e sa sb Hine Ba Ga Hl.
  assert (He : made s1 (fst e)).
  { apply (made_in_edge s1 r e B1); [|exact Hine]. apply (made_grows s0 st s1); [grown|exact Hrm]. }
  apply bind_Ok in Hl as ([] & sc & Hl & Hu).
  destruct (built_linkNodes nodeList s0 sa sc (fst e) (List.last reusable 0) (snd e) Ba)
    as [Bc Gc]; [grown| |exact Hl|].
  { apply (made_grows s0 st sa); [grown|exact Hm]. }
  destruct (built_unlinkNodes nodeList s0 sc sb (fst e) r Bc) as [Bd Gd];
    [grown| |exact Hu|].
  { apply (made_grows s0 st sc); [grown|exact Hrm]. }
  split; [exact Bd|grown].
Qed.

Lemma built_addFinals st st' (base : SubList) (g : nat -> nat) fs :
  built st -> ~ allocatedSet s0 (final base) ->
  (forall n, In n fs -> made st (g n)) ->
  forEach fs (fun n => setAdd (final base) (g n)) st = Ok (tt, st') ->
  built st' /\ grows st st'.
Proof.
  intros B Hbn Hg Hrun.
  refine (built_forEach _ _ _ _ _ B Hrun). intros n s s' Hin Bs Gs Hb.
  apply (built_setAdd nodeList s0 s (final base) (g n) s'); auto.
  eapply made_grows; [exact Gs|]. apply Hg, Hin.
Qed.

Lemma built_baseUnion st st' base alt :
  built st -> subIn st base -> subIn st alt ->
  baseUnion nodeList base alt st = Ok (tt, st') -> built st' /\ grows st st'.
Proof.
  intros B Hb Ha Hrun. pose proof Hb as (Hbi & Hbs & Hbn). pose proof Ha as (Hai & Has & Han).
  unfold baseUnion in Hrun.
  apply bind_Ok in Hrun as (fs & s & Hg & Hrun). unfold setElements, gets in Hg.
  injection Hg as <- <-.
  apply bind_Ok in Hrun as ([] & s1 & Hadd & Hrun).
  apply bind_Ok in Hrun as ([] & s2 & Htr & Hrun).
  destruct (built_addFinals st s1 base
              (fun n => if n =? initial alt then initial base else n)
              (getSet st (final alt)) B Hbn) as [B1 G1]; [|exact Hadd|].
  { intros n Hn. destruct (n =? initial alt); [exact Hbi|]. exact (made_final st _ n B Han Hn). }
  destruct (built_transferEdges s1 s2 (initial base) (initial alt) B1) as [B2 G2];
    [grown|grown|exact Htr|].
  destruct (built_reuse s2 st' base B2) as [B3 G3]; [|exact Hrun|].
  { eapply subIn_grows; [|exact Hb]. grown. }
  split; [exact B3|grown].
Qed.

Lemma built_baseReplaceWith st st' base replacement :
  built st -> subIn st base -> subIn st replacement ->
  baseReplaceWith nodeList base replacement st = Ok (tt, st') -> built st' /\ grows st st'.
Proof.
  intros B Hb Ha Hrun. pose proof Hb as (Hbi & Hbs & Hbn). pose proof Ha as (Hai & Has & Han).
  unfold baseReplaceWith in Hrun.
  apply bind_Ok in Hrun as ([] & s1 & Hme & Hrun).
  apply bind_Ok in Hrun as (fs & s & Hg & Hrun). unfold setElements, gets in Hg.
  injection Hg as <- <-.
  apply bind_Ok in Hrun as ([] & s2 & Hadd & Hrun).
  destruct (built_baseMakeEmpty st s1 base B Hbi Hbn Hme) as [B1 G1].
  destruct (built_addFinals s1 s2 base
              (fun n => if n =? initial replacement then initial base else n)
              (getSet s1 (final replacement)) B1 Hbn) as [B2 G2]; [|exact Hadd|].
  { intros n Hn. destruct (n =? initial replacement); [grown|].
    exact (made_final s1 _ n B1 Han Hn). }
  destruct (built_transferEdges s2 st' (initial base) (initial replacement) B2) as [B3 G3];
    [grown|grown|exact Hrun|].
  split; [exact B3|grown].
Qed.

Lemma built_newSubList st b st' :
  built st -> newSubList nodeList st = Ok (b, st') ->
  built st' /\ grows st st' /\ subIn st' b
  /\ ~ allocated st (initial b) /\ ~ allocatedSet st (final b)
  /\ getSet st' (final b) = [].
Proof.
  intros B Hrun. unfold newSubList in Hrun.
  apply bind_Ok in Hrun as (i & s1 & Hc & Hrun).
  apply bind_Ok in Hrun as (f & s2 & Hn & Hrun). injection Hrun as <- <-.
  destruct (built_createNode nodeList s0 closed0 st i s1 B Hc) as (B1 & G1 & Hi & Hi').
  destruct (built_newSet nodeList s0 s1 f s2 B1 Hn) as (B2 & G2 & Hf & Hf' & Hf0 & He).
  split; [exact B2|]. split; [grown|]. simpl. split.
  { split; [grown|]. split; assumption. }
  split; [exact Hi'|]. split; [|exact He].
  intros H. apply Hf. apply G1, H.
Qed.
End Walks.

(** ** Copies, repetitions and quantifiers keep what is made in shape *)

Section CopyWalk.
Variables (nodeList : NodeList) (s0 : Store).
Hypothesis closed0 : closedStore s0.
Variable st : Store.

Local Abbreviation built := (built nodeList s0).
Local Abbreviation made := (made s0).

(** While a copy is made: the nodes of the cache are made nodes. *)
Definition copyBuilt (s : Store * list (nat * nat)) : Prop :=
  built (fst s) /\ grows st (fst s) /\ forall k v, In (k, v) (snd s) -> made (fst s) v.

Lemma copyBuilt_translate key s v s' :
  copyBuilt s -> cachedFunc (createNode (nl_id nodeList)) key s = Ok (v, s') ->
  copyBuilt s' /\ made (fst s') v /\ grows (fst s) (fst s').
Proof.
  intros (B & G & K). unfold cachedFunc. destruct (JsMap.get (snd s) key) as [v0|] eqn:E.
  - intros [= <- <-]. apply JsMapFacts.get_Some_In in E.
    split; [split; [exact B|split; [exact G|exact K]]|]. split; [eapply K; eauto|apply grows_refl].
  - destruct (createNode (nl_id nodeList) (fst s)) as [[r st1]|] eqn:Hc; [|discriminate].
    intros [= <- <-]. simpl.
    destruct (built_createNode nodeList s0 closed0 (fst s) r st1 B Hc) as (B1 & G1 & Hr & _).
    split; [|split; [exact Hr|exact G1]].
    split; [exact B1|]. split; [eapply grows_trans; eauto|].
    intros k v' Hin. apply In_set in Hin as [[_ ->]|Hin]; [exact Hr|].
    eapply made_grows; [exact G1|]. eapply K; eauto.
Qed.

Lemma copyBuilt_next toCopy final' node s r s' :
  ~ allocatedSet s0 final' -> copyBuilt s ->
  localCopyNext nodeList toCopy final' node s = Ok (r, s') -> copyBuilt s'.
Proof.
  intros Hf I Hrun. unfold localCopyNext in Hrun.
  apply bind_Ok in Hrun as (trans & s1 & Htr & Hrun).
  destruct (copyBuilt_translate _ _ _ _ I Htr) as ((B1 & G1 & K1) & Ht1 & _).
  apply bind_Ok in Hrun as (isFinal & s1' & Hhas & Hrun).
  unfold onStore, setHas, gets in Hhas. injection Hhas as _ <-.
  apply bind_Ok in Hrun as ([] & s2 & Hadd & Hrun).
  assert (I2 : copyBuilt s2 /\ made (fst s2) trans).
  { destruct isFinal.
    - unfold onStore, setAdd, modify in Hadd. injection Hadd as <-. simpl.
      destruct (built_setAdd nodeList s0 (fst s1) final' trans _ B1 Hf Ht1 eq_refl)
        as [Ba Ga].
      split; [|eapply made_grows; eauto].
      split; [exact Ba|]. split; [eapply grows_trans; eauto|].
      intros k v Hin. eapply made_grows; [exact Ga|]. eapply K1; eauto.
    - injection Hadd as <-. split; [split; [exact B1|split; [exact G1|exact K1]]|exact Ht1]. }
  clear Hadd. destruct I2 as [I2 Ht2].
  apply bind_Ok in Hrun as (edges & s2' & Hg & Hrun).
  unfold onStore, gets in Hg. injection Hg as <- <-.
  apply bind_Ok in Hrun as ([] & s3 & Hloop & Hrun).
  unfold onStore, gets in Hrun. injection Hrun as _ <-.
  assert (H : copyBuilt s3 /\ made (fst s3) trans);
    [|destruct H as [H _]; destruct s3; exact H].
  refine (forEach_inv (fun _ s => copyBuilt s /\ made (fst s) trans) _ _ _ _ _ _ Hloop).
  - destruct s2. auto.
  - intros pre e post sa sb _ [Ia Hta] Hbody.
    apply bind_Ok in Hbody as (to' & sc & Hto & Hlink).
    destruct (copyBuilt_translate _ _ _ _ Ia Hto) as ((Bc & Gc & Kc) & Hc1 & Gac).
    unfold onStore in Hlink.
    destruct (linkNodes nodeList trans to' (snd e) (fst sc)) as [[[] sd]|] eqn:Hl;
      [|discriminate].
    injection Hlink as <-. simpl.
    destruct (built_linkNodes nodeList s0 (fst sc) sd trans to' (snd e) Bc) as [Bd Gd];
      [eapply made_grows; eauto|exact Hc1|exact Hl|].
    split; [|eapply made_grows; [exact Gd|]; eapply made_grows; eauto].
    split; [exact Bd|]. split; [eapply grows_trans; eauto|].
    intros k v Hin. eapply made_grows; [exact Gd|]. eapply Kc; eauto.
Qed.
End CopyWalk.

Section MoreWalks.
Variables (nodeList : NodeList) (s0 : Store).
Hypothesis closed0 : closedStore s0.

Local Abbreviation built := (built nodeList s0).
Local Abbreviation made := (made s0).
Local Abbreviation subIn := (subIn s0).

Ltac grown := eauto using made_grows, grows_trans, grows_refl, subIn_grows.

Lemma built_localCopy st toCopy c st' :
  built st -> localCopy nodeList toCopy st = Ok (c, st') ->
  built st' /\ grows st st' /\ subIn st' c
  /\ ~ allocated st (initial c) /\ ~ allocatedSet st (final c).
Proof.
  intros B Hrun. unfold localCopy in Hrun.
  apply bind_Ok in Hrun as (initial' & st1 & Hc & Hrun).
  apply bind_Ok in Hrun as (final' & st2 & Hn & Hrun).
  destruct (DFS _ _ _ _) as [[[] [st3 cache]]|] eqn:HD; [|discriminate].
  injection Hrun as <- <-.
  destruct (built_createNode nodeList s0 closed0 st initial' st1 B Hc) as (B1 & G1 & Hi & Hi').
  destruct (built_newSet nodeList s0 st1 final' st2 B1 Hn) as (B2 & G2 & Hf & Hf' & Hf0 & _).
  assert (I0 : copyBuilt nodeList s0 st2 (st2, [(initial toCopy, initial')])).
  { split; [exact B2|]. split; [apply grows_refl|].
    intros k v [[= _ <-]|[]]. simpl. grown. }
  assert (H : exists V' : list nat, copyBuilt nodeList s0 st2 (st3, cache)).
  { unfold DFS in HD.
    refine (DFSLoop_inv (fun _ _ s => copyBuilt nodeList s0 st2 s)
              (localCopyNext nodeList toCopy final') _ _ _ _ _ _ (st3, cache) I0 HD); [auto|].
    intros V e K s r s' Hs _ Hnext. eapply copyBuilt_next; eauto. }
  destruct H as [_ (B3 & G3 & _)]. simpl in *.
  split; [exact B3|]. split; [grown|]. split.
  { split; [grown|]. split; [apply G3, Hf'|exact Hf0]. }
  split; [exact Hi'|]. intros H. apply Hf, G1, H.
Qed.

(** One round of [baseRepeat]. *)
Lemma built_round st st' base copy :
  built st -> subIn st base ->
  (c <- localCopy nodeList copy ;; baseConcat nodeList base c) st = Ok (tt, st') ->
  built st' /\ grows st st'.
Proof.
  intros B Hb Hrun. apply bind_Ok in Hrun as (c & s1 & Hc & Hcat).
  destruct (built_localCopy st copy c s1 B Hc) as (B1 & G1 & Hc1 & _).
  destruct (built_baseConcat nodeList s0 s1 st' base c B1) as [B2 G2];
    [grown|exact Hc1|exact Hcat|].
  split; [exact B2|grown].
Qed.

Lemma built_rounds base copy k : forall st st',
  built st -> subIn st base ->
  repeatM k (c <- localCopy nodeList copy ;; baseConcat nodeList base c) st = Ok (tt, st') ->
  built st' /\ grows st st'.
Proof.
  induction k as [|k IH]; intros st st' B Hb Hrun.
  - injection Hrun as <-. split; [exact B|apply grows_refl].
  - simpl in Hrun. apply bind_Ok in Hrun as ([] & s1 & Hr & Hrun).
    destruct (built_round st s1 base copy B Hb Hr) as [B1 G1].
    destruct (IH s1 st' B1) as [B2 G2]; [grown|exact Hrun|].
    split; [exact B2|grown].
Qed.

Lemma built_collect base copy k : forall st st' rf rf',
  built st -> subIn st base -> (forall g, In g rf -> made st g) ->
  repeatCollect nodeList base copy k rf st = Ok (rf', st') ->
  built st' /\ grows st st' /\ forall g, In g rf' -> made st' g.
Proof.
  induction k as [|k IH]; intros st st' rf rf' B Hb Hrf Hrun.
  - injection Hrun as <- <-. split; [exact B|]. split; [apply grows_refl|exact Hrf].
  - simpl in Hrun.
    apply bind_Ok in Hrun as (c & s1 & Hc & Hrun).
    apply bind_Ok in Hrun as ([] & s2 & Hcat & Hrun).
    apply bind_Ok in Hrun as (fs & s2' & Hg & Hrun).
    unfold setElements, gets in Hg. injection Hg as <- <-.
    destruct (built_round st s2 base copy B Hb) as [B2 G2].
    { unfold bind. rewrite Hc. exact Hcat. }
    destruct (IH s2 st' (addAll rf (getSet s2 (final base))) rf' B2) as (B3 & G3 & H3);
      [grown| |exact Hrun|].
    { intros g Hg. apply JsSetFacts.In_addAll in Hg as [Hg|Hg]; [|grown].
      destruct Hb as (_ & _ & Hbn). exact (made_final nodeList s0 s2 _ g B2 Hbn Hg). }
    split; [exact B3|]. split; [grown|exact H3].
Qed.

Lemma built_baseRepeat st st' base n :
  built st -> subIn st base ->
  baseRepeat nodeList base n st = Ok (tt, st') -> built st' /\ grows st st'.
Proof.
  intros B Hb Hrun. pose proof Hb as (Hbi & Hbs & Hbn). unfold baseRepeat in Hrun.
  destruct (n =? 0).
  { apply bind_Ok in Hrun as ([] & s1 & Hme & Hadd).
    destruct (built_baseMakeEmpty nodeList s0 st s1 base B Hbi Hbn Hme) as [B1 G1].
    destruct (built_setAdd nodeList s0 s1 (final base) (initial base) st' B1 Hbn) as [B2 G2];
      [grown|exact Hadd|].
    split; [exact B2|grown]. }
  destruct (n =? 1).
  { injection Hrun as <-. split; [exact B|apply grows_refl]. }
  apply bind_Ok in Hrun as (size & s & Hg & Hrun). unfold setSize, gets in Hg.
  injection Hg as <- <-.
  apply bind_Ok in Hrun as (iif & s & Hg & Hrun). unfold setHas, gets in Hg.
  injection Hg as <- <-.
  set (finals := getSet st (final base)) in *.
  destruct ((JsSet.size finals =? 1) && JsSet.has finals (initial base)).
  { injection Hrun as <-. split; [exact B|apply grows_refl]. }
  destruct (JsSet.size finals =? 0).
  { injection Hrun as <-. split; [exact B|apply grows_refl]. }
  destruct (JsSet.has finals (initial base)); cbn [negb] in Hrun.
  2:{ apply bind_Ok in Hrun as (copy & s1 & Hc & Hrun).
      apply bind_Ok in Hrun as ([] & s2 & Hrounds & Hcat).
      destruct (built_localCopy st base copy s1 B Hc) as (B1 & G1 & Hc1 & _).
      destruct (built_rounds base copy (n - 2) s1 s2 B1) as [B2 G2]; [grown|exact Hrounds|].
      destruct (built_baseConcat nodeList s0 s2 st' base copy B2) as [B3 G3];
        [grown|grown|exact Hcat|].
      split; [exact B3|grown]. }
  apply bind_Ok in Hrun as (rf & s & Hg & Hrun). unfold setElements, gets in Hg.
  injection Hg as <- <-. fold finals in Hrun.
  apply bind_Ok in Hrun as ([] & sa & Hdel & Hrun).
  destruct (built_setDelete nodeList s0 st (final base) (initial base) sa B Hbn Hdel)
    as [Ba Ga].
  apply bind_Ok in Hrun as (copy & s1 & Hc & Hrun).
  apply bind_Ok in Hrun as (rf2 & s2 & Hcol & Hrun).
  apply bind_Ok in Hrun as ([] & s3 & Hcat & Hrun).
  apply bind_Ok in Hrun as (fs & s & Hg & Hrun). unfold setElements, gets in Hg.
  injection Hg as <- <-.
  apply bind_Ok in Hrun as ([] & sc & Hclr & Hrun).
  destruct (built_localCopy sa base copy s1 Ba Hc) as (B1 & G1 & Hc1 & _).
  destruct (built_collect base copy (n - 2) s1 s2 finals rf2 B1) as (B2 & G2 & Hrf2);
    [grown| |exact Hcol|].
  { intros g Hg. apply (made_grows s0 st s1); [grown|].
    exact (made_final nodeList s0 st _ g B Hbn Hg). }
  destruct (built_baseConcat nodeList s0 s2 s3 base copy B2) as [B3 G3];
    [eapply subIn_grows; [|exact Hb]; grown|grown|exact Hcat|].
  destruct (built_setClear nodeList s0 s3 (final base) sc B3 Hbn Hclr) as [Bc Gc].
  assert (K : built st' /\ grows sc st').
  { refine (built_forEach nodeList s0 _ _ _ _ _ Bc Hrun). intros f s s' Hin Bs Gs Hb'.
    apply (built_setAdd nodeList s0 s (final base) f s'); auto.
    apply (made_grows s0 s3 s); [grown|].
    apply JsSetFacts.In_addAll in Hin as [Hin|Hin].
    - exact (made_final nodeList s0 s3 _ f B3 Hbn Hin).
    - apply (made_grows s0 s2 s3); [exact G3|]. apply Hrf2, Hin. }
  destruct K as [B4 G4]. split; [exact B4|].
  eapply grows_trans; [exact Ga|]. eapply grows_trans; [exact G1|].
  eapply grows_trans; [exact G2|]. eapply grows_trans; [exact G3|]. grown.
Qed.

Lemma built_baseQuantify st st' base min max :
  built st -> subIn st base ->
  baseQuantify nodeList base min max st = Ok (tt, st') -> built st' /\ grows st st'.
Proof.
  intros B Hb Hrun. pose proof Hb as (Hbi & Hbs & Hbn).
  assert (H0 : forall s', (baseMakeEmpty nodeList base ;;; setAdd (final base) (initial base)) st
                          = Ok (tt, s') -> built s' /\ grows st s').
  { intros s' H. apply bind_Ok in H as ([] & s1 & Hme & Hadd).
    destruct (built_baseMakeEmpty nodeList s0 st s1 base B Hbi Hbn Hme) as [B1 G1].
    destruct (built_setAdd nodeList s0 s1 (final base) (initial base) s' B1 Hbn) as [B2 G2];
      [grown|exact Hadd|].
    split; [exact B2|grown]. }
  unfold baseQuantify in Hrun.
  assert (Hrest : forall k : bool -> M Store unit,
            (forall b s, built s -> grows st s -> k b s = Ok (tt, st') ->
                         built st' /\ grows s st') ->
            (initialIsFinal <- setHas (final base) (initial base) ;;
             (if negb initialIsFinal && ((if initialIsFinal : bool then 0 else min) =? 0)
              then setAdd (final base) (initial base) else ret tt) ;;; k initialIsFinal) st
            = Ok (tt, st') ->
            built st' /\ grows st st').
  { intros k Hk H. apply bind_Ok in H as (iif & s & Hg & H). unfold setHas, gets in Hg.
    injection Hg as <- <-.
    apply bind_Ok in H as ([] & s1 & Hadd & H).
    assert (K1 : built s1 /\ grows st s1).
    { destruct (negb _ && _); [|injection Hadd as <-; split; [exact B|apply grows_refl]].
      apply (built_setAdd nodeList s0 st (final base) (initial base) s1); auto. }
    destruct K1 as [B1 G1]. destruct (Hk _ s1 B1 G1 H) as [B2 G2]. split; [exact B2|grown]. }
  assert (Hcopy : forall s (k : SubList -> M Store unit),
            built s -> grows st s ->
            (forall c s1, built s1 -> grows s s1 -> subIn s1 c -> k c s1 = Ok (tt, st') ->
                          built st' /\ grows s1 st') ->
            (copy <- localCopy nodeList base ;; k copy) s = Ok (tt, st') ->
            built st' /\ grows s st').
  { intros s k Bs Gs Hk H. apply bind_Ok in H as (c & s1 & Hc & H).
    destruct (built_localCopy s base c s1 Bs Hc) as (B1 & G1 & Hc1 & _).
    destruct (Hk c s1 B1 G1 Hc1 H) as [B2 G2]. split; [exact B2|grown]. }
  destruct max as [[|[|M]]|].
  - exact (H0 st' Hrun).
  - refine (Hrest _ (fun b s Bs Gs H => _) Hrun). cbv beta in H. injection H as <-.
    split; [exact Bs|apply grows_refl].
  - refine (Hrest _ (fun b s Bs Gs H => _) Hrun). cbv beta in H.
    destruct ((if b then 0 else min) =? Datatypes.S (Datatypes.S M)).
    + eapply (built_baseRepeat s st' base); [exact Bs|grown|exact H].
    + refine (Hcopy s _ Bs Gs (fun c s1 B1 G1 Hc1 H1 => _) H).
      apply bind_Ok in H1 as ([] & s2 & Hadd & H1).
      destruct Hc1 as (Hci & Hcs & Hcn).
      destruct (built_setAdd nodeList s0 s1 (final c) (initial c) s2 B1 Hcn Hci Hadd)
        as [B2 G2].
      apply bind_Ok in H1 as ([] & s3 & Hr1 & H1).
      assert (Hc2 : subIn s2 c).
      { apply (subIn_grows s0 s1 s2 c G2). split; [exact Hci|]. split; assumption. }
      destruct (built_baseRepeat s2 s3 c _ B2 Hc2 Hr1) as [B3 G3].
      apply bind_Ok in H1 as ([] & s4 & Hr2 & H1).
      assert (Hb3 : subIn s3 base).
      { apply (subIn_grows s0 st s3 base); [|exact Hb]. grown. }
      destruct (built_baseRepeat s3 s4 base _ B3 Hb3 Hr2) as [B4 G4].
      destruct (built_baseConcat nodeList s0 s4 st' base c B4) as [B5 G5]; [| |exact H1|].
      { apply (subIn_grows s0 st s4 base); [|exact Hb]. grown. }
      { apply (subIn_grows s0 s1 s4 c); [grown|]. split; [exact Hci|]. split; assumption. }
      split; [exact B5|grown].
  - refine (Hrest _ (fun b s Bs Gs H => _) Hrun). cbv beta in H.
    destruct (1 <? (if b then 0 else min)).
    + refine (Hcopy s _ Bs Gs (fun c s1 B1 G1 Hc1 H1 => _) H).
      apply bind_Ok in H1 as ([] & s2 & Hp & H1).
      destruct (built_basePlus nodeList s0 s1 s2 c B1 Hc1 Hp) as [B2 G2].
      apply bind_Ok in H1 as ([] & s3 & Hr & H1).
      assert (Hb2 : subIn s2 base).
      { apply (subIn_grows s0 st s2 base); [|exact Hb]. grown. }
      destruct (built_baseRepeat s2 s3 base _ B2 Hb2 Hr) as [B3 G3].
      destruct (built_baseConcat nodeList s0 s3 st' base c B3) as [B4 G4]; [| |exact H1|].
      { apply (subIn_grows s0 st s3 base); [|exact Hb]. grown. }
      { apply (subIn_grows s0 s1 s3 c); [grown|exact Hc1]. }
      split; [exact B4|grown].
    + apply (built_basePlus nodeList s0 s st' base Bs); [grown|exact H].
Qed.

Lemma built_handleCharacterClass options st st' chars base :
  built st -> subIn st base ->
  handleCharacterClass nodeList options chars base st = Ok (tt, st') ->
  built st' /\ grows st st'.
Proof.
  intros B Hb Hrun. pose proof Hb as (Hbi & Hbs & Hbn). unfold handleCharacterClass in Hrun.
  destruct (negb _); [discriminate|].
  destruct (CharSet.isEmpty chars).
  { exact (built_baseMakeEmpty nodeList s0 st st' base B Hbi Hbn Hrun). }
  apply bind_Ok in Hrun as (s & s1 & Hc & Hrun).
  apply bind_Ok in Hrun as (fs & s1' & Hg & Hrun). unfold setElements, gets in Hg.
  injection Hg as <- <-.
  apply bind_Ok in Hrun as ([] & s2 & Hlink & Hrun).
  apply bind_Ok in Hrun as ([] & s3 & Hclr & Hadd).
  destruct (built_createNode nodeList s0 closed0 st s s1 B Hc) as (B1 & G1 & Hs & _).
  assert (K2 : built s2 /\ grows s1 s2).
  { refine (built_forEach nodeList s0 _ _ _ _ _ B1 Hlink). intros f sa sb Hin Ba Ga Hl.
    apply (built_linkNodes nodeList s0 sa sb f s chars); auto.
    - apply (made_grows s0 s1 sa); [exact Ga|]. exact (made_final nodeList s0 s1 _ f B1 Hbn Hin).
    - grown. }
  destruct K2 as [B2 G2].
  destruct (built_setClear nodeList s0 s2 (final base) s3 B2 Hbn Hclr) as [B3 G3].
  destruct (built_setAdd nodeList s0 s3 (final base) s st' B3 Hbn) as [B4 G4];
    [grown|exact Hadd|].
  split; [exact B4|grown].
Qed.
End MoreWalks.

(** ** Sub-automata under construction *)

Section Owns.
Variable nodeList : NodeList.

(** The sub-automaton [b] was made since the store [s0], and no edge
    enters its initial node. *)
Record owns (s0 st : Store) (b : SubList) : Prop := mkOwns {
  ow_built : built nodeList s0 st;
  ow_sub : subIn s0 st b;
  ow_norm : forall x, ~ succ st x (initial b)
}.

Lemma made_older s00 s0 st x :
  (forall a, allocated s00 a -> allocated s0 a) -> made s0 st x -> made s00 st x.
Proof. intros H [H1 H2]. split; auto. Qed.

Lemma subIn_older s00 s0 st b :
  built nodeList s00 s0 -> subIn s0 st b -> subIn s00 st b.
Proof.
  intros B (H1 & H2 & H3). split; [|split; [exact H2|]].
  - eapply made_older; [|exact H1]. apply (bt_mono _ _ _ B).
  - intros H. apply H3. apply (bt_smono _ _ _ B), H.
Qed.

Lemma owns_rooted s0 st b : good s0 -> owns s0 st b -> rooted nodeList st b.
Proof.
  intros G [B (Hi & Hs & Hn) _]. split.
  - apply (built_good nodeList s0 (good_closed _ G) st G B).
  - apply Hi.
  - exact Hs.
  - apply (bt_own _ _ _ B), Hi.
  - intros o Ho. apply (bt_own _ _ _ B). apply (bt_succ _ _ _ B _ o Hi Ho).
  - intros f Hf. pose proof (made_final nodeList s0 st _ f B Hn Hf) as Hm.
    split; [apply Hm|apply (bt_own _ _ _ B), Hm].
Qed.

Lemma owns_part s0 st b : owns s0 st b -> part nodeList st b (made s0 st).
Proof.
  intros [B (Hi & Hs & Hn) Hnorm]. split.
  - intros y Hy. split; [apply Hy|apply (bt_own _ _ _ B), Hy].
  - apply (bt_succ _ _ _ B).
  - apply (bt_pred _ _ _ B).
  - exact Hi.
  - intros f Hf. exact (made_final nodeList s0 st _ f B Hn Hf).
  - exact Hs.
  - exact Hnorm.
Qed.

(** What is made later leaves a sub-automaton as it is. *)
Lemma owns_later s0 st st1 b :
  good s0 -> owns s0 st b -> built nodeList s0 st1 -> built nodeList st st1 ->
  owns s0 st1 b /\ forall w, accepts st1 b w <-> accepts st b w.
Proof.
  intros G [B (Hi & Hs & Hn) Hnorm] B1 B'.
  pose proof (built_good nodeList s0 (good_closed _ G) st G B) as Gst.
  split.
  - split; [exact B1| |].
    + split; [|split; [apply (bt_smono _ _ _ B'), Hs|exact Hn]].
      split; [apply (bt_mono _ _ _ B'), Hi|apply Hi].
    + intros x Hx. destruct (decide (allocated st x)) as [Ha|Ha].
      * apply (Hnorm x). unfold succ in *. rewrite (bt_out _ _ _ B' x Ha) in Hx. exact Hx.
      * assert (Hm : made st st1 x) by (split; [eapply succ_allocated; eauto|exact Ha]).
        destruct (bt_succ _ _ _ B' x _ Hm Hx) as [_ H]. apply H, Hi.
  - intros w. apply accepts_frame; [exact Gst|apply Hi| |].
    + intros x Hx. apply (bt_out _ _ _ B' x Hx).
    + apply (bt_sets _ _ _ B'), Hs.
Qed.

(** A sub-automaton made later lies apart. *)
Lemma owns_apart s0 st st1 b c :
  owns s0 st b -> owns st st1 c -> apart st1 b c (made st st1).
Proof.
  intros [B (Hi & Hs & Hn) _] [B' (Hci & Hcs & Hcn) _]. split.
  - intros [_ H]. apply H, Hi.
  - intros f Hf [_ H]. apply H. rewrite (bt_sets _ _ _ B' _ Hs) in Hf.
    apply (made_final nodeList s0 st _ f B Hn Hf).
  - intros E. apply Hcn. rewrite <- E. exact Hs.
Qed.

(** [baseConcat] with a sub-automaton made later. *)
Lemma concat_owns s0 st st1 b c :
  good s0 -> owns s0 st b -> built nodeList s0 st1 -> owns st st1 c ->
  exists st2,
    baseConcat nodeList b c st1 = Ok (tt, st2)
    /\ (forall w, accepts st2 b w <->
                  exists u v, w = u ++ v /\ accepts st b u /\ accepts st1 c v)
    /\ (forall x, ~ succ st2 x (initial b)).
Proof.
  intros G Ob B1 Oc.
  destruct (owns_later s0 st st1 b G Ob B1 (ow_built _ _ _ Oc)) as [Ob1 Hb].
  pose proof (owns_rooted s0 st1 b G Ob1) as R.
  pose proof (owns_part st st1 c Oc) as P.
  pose proof (owns_apart s0 st st1 b c Ob Oc) as A.
  destruct (concat_step nodeList st1 b c _ R P A) as (st2 & Hrun & _ & Hlang & _).
  exists st2. split; [exact Hrun|]. split.
  - intros w. rewrite Hlang.
    split; intros (u & v & -> & Hu & Hv); exists u, v; (split; [reflexivity|]);
      (split; [apply Hb; exact Hu|exact Hv]).
  - exact (concat_norm nodeList b c st1 _ st2 R P A (ow_norm _ _ _ Ob1) Hrun).
Qed.

(** [baseQuantify] on a sub-automaton under construction. *)
Lemma quantify_owns s0 st b min max :
  good s0 -> owns s0 st b -> withinBound min max ->
  exists st',
    baseQuantify nodeList b min max st = Ok (tt, st')
    /\ (forall w, accepts st' b w <-> quantified min max (accepts st b) w)
    /\ (forall x, ~ succ st' x (initial b)).
Proof.
  intros G O Hb.
  exact (baseQuantify_language nodeList b min max st (owns_rooted s0 st b G O)
           (ow_norm _ _ _ O) Hb).
Qed.
End Owns.

(** ** Edges into a node *)

Lemma succ_linkNodes this from to chars st st' :
  linkNodes this from to chars st = Ok (tt, st') ->
  forall x y, succ st' x y <-> succ st x y \/ (x = from /\ y = to).
Proof.
  intros H x y. apply linkNodes_effect in H as (Hout & _). unfold succ. rewrite Hout.
  destruct (decide (from = x)) as [<-|Hne].
  - rewrite keys_add. clear. intuition (subst; intuition).
  - clear -Hne. intuition congruence.
Qed.

Lemma succ_unlinkNodes this from to st st' :
  unlinkNodes this from to st = Ok (tt, st') -> forall x y, succ st' x y -> succ st x y.
Proof.
  intros H x y. apply unlinkNodes_effect in H as (Hout & _). unfold succ. rewrite Hout.
  destruct (decide (from = x)) as [<-|Hne]; [|auto].
  rewrite In_keys_delete. tauto.
Qed.

(** [baseUnion] leads no edge into the initial node of the base. *)
Lemma baseUnion_norm nodeList base alt st st' :
  (forall x, ~ succ st x (initial base)) ->
  baseUnion nodeList base alt st = Ok (tt, st') ->
  forall x, ~ succ st' x (initial base).
Proof.
  intros Hnp Hrun. unfold baseUnion in Hrun.
  apply bind_Ok in Hrun as (fs & s & Hg & Hrun). unfold setElements, gets in Hg.
  injection Hg as <- <-.
  apply bind_Ok in Hrun as ([] & s1 & Hadd & Hrun).
  apply bind_Ok in Hrun as ([] & s2 & Htr & Hrun).
  assert (N1 : store_nodes s1 = store_nodes st).
  { refine (forEach_setAdd_nodes _ _ _ _ _ Hadd). intros x s s' Hb.
    unfold setAdd, modify in Hb. injection Hb as <-. reflexivity. }
  assert (Hn1 : forall x, ~ succ s1 x (initial base)).
  { intros x. unfold succ. rewrite (outOf_same_nodes st s1) by exact N1. apply Hnp. }
  assert (Hn2 : forall x, ~ succ s2 x (initial base)).
  { unfold transferEdges in Htr.
    apply bind_Ok in Htr as (edges & s & Hg & Htr). unfold gets in Hg. injection Hg as <- <-.
    refine (forEach_inv (fun _ s => forall x, ~ succ s x (initial base)) _ _ _ _ _ _ Htr);
      [exact Hn1|].
    intros pre e post sa sb E Hsa Hb. apply bind_Ok in Hb as ([] & sc & Hl & Hu).
    intros x Hx. apply (succ_unlinkNodes _ _ _ _ _ Hu) in Hx.
    apply (succ_linkNodes _ _ _ _ _ _ Hl) in Hx as [Hx|[_ Hx]]; [exact (Hsa x Hx)|].
    apply (Hn1 (initial alt)). unfold succ, JsMap.keys. rewrite Hx, E.
    apply in_map. apply in_elt. }
  unfold baseOptimizationReuseFinalStates in Hrun.
  apply bind_Ok in Hrun as (fs & s & Hg & Hrun). unfold setElements, gets in Hg.
  injection Hg as <- <-.
  apply bind_Ok in Hrun as (reusable & s & Hg & Hrun). unfold gets in Hg.
  injection Hg as <- <-.
  set (reusable := List.filter _ _) in Hrun.
  destruct (1 <? length reusable) eqn:El; [|injection Hrun as <-; exact Hn2].
  apply Nat.ltb_lt in El.
  assert (Hne : reusable <> []) by (intros E; rewrite E in El; simpl in El; lia).
  assert (Hm : List.last reusable 0 <> initial base).
  { assert (H : In (List.last reusable 0) reusable).
    { rewrite (app_removelast_last 0 Hne) at 2. apply in_app_iff. simpl. auto. }
    apply filter_In in H as [_ H]. apply andb_true_iff in H as [H _].
    apply negb_true_iff, Nat.eqb_neq in H. exact H. }
  refine (forEach_inv (fun _ s => forall x, ~ succ s x (initial base)) _ _ _ _ _ _ Hrun);
    [exact Hn2|].
  intros pre r post sa sb _ Hsa Hb.
  apply bind_Ok in Hb as ([] & sc & Hdel & Hb).
  unfold setDelete, modify in Hdel. injection Hdel as <-.
  apply bind_Ok in Hb as (edges & sd & Hg & Hb). unfold gets in Hg. injection Hg as <- <-.
  refine (forEach_inv (fun _ s => forall x, ~ succ s x (initial base)) _ _ _ _ _ _ Hb).
  { intros x. unfold succ. autorewrite with store. apply Hsa. }
  intros pre' e post' se sf _ Hse Hbody.
  apply bind_Ok in Hbody as ([] & sg & Hl & Hu).
  intros x Hx. apply (succ_unlinkNodes _ _ _ _ _ Hu) in Hx.
  apply (succ_linkNodes _ _ _ _ _ _ Hl) in Hx as [Hx|[_ Hx]]; [exact (Hse x Hx)|].
  apply Hm. symmetry. exact Hx.
Qed.

Section Steps.
Variable nodeList : NodeList.

(** A new sub-automaton: one node, no final node, no edge. *)
Lemma newSubList_owns st :
  good st ->
  exists b st',
    newSubList nodeList st = Ok (b, st')
    /\ owns nodeList st st' b
    /\ getSet st' (final b) = []
    /\ outOf st' (initial b) = [].
Proof.
  intros G. pose proof (good_closed _ G) as C.
  destruct (newSubList nodeList st) as [[b st']|e] eqn:Hrun.
  2:{ unfold newSubList, bind, createNode, newSet, ret in Hrun. discriminate. }
  exists b, st'. split; [reflexivity|].
  destruct (built_newSubList nodeList st C st b st' (built_refl nodeList st C) Hrun)
    as (B & Gr & Hsub & Hi & Hf & He).
  assert (Hout : forall a, outOf st' a = outOf st a).
  { unfold newSubList in Hrun.
    apply bind_Ok in Hrun as (i & s1 & Hc & Hrun).
    apply bind_Ok in Hrun as (f & s2 & Hn & Hrun). injection Hrun as _ <-.
    destruct (createNode_spec (nl_id nodeList) st)
      as (i' & s1' & Hc' & _ & _ & _ & _ & Hout & _).
    rewrite Hc in Hc'. injection Hc' as _ <-.
    destruct (newSet_spec s1) as (f' & s2' & Hn' & _ & _ & _ & _ & Hnodes).
    rewrite Hn in Hn'. injection Hn' as _ <-.
    intros a. rewrite (outOf_same_nodes s1 s2) by exact Hnodes. apply Hout. }
  split; [|split; [exact He|]].
  - split; [exact B|exact Hsub|].
    intros x Hx. apply Hi. apply (C x). unfold succ in *. rewrite <- Hout. exact Hx.
  - rewrite Hout. unfold outOf. rewrite unallocated_blank by exact Hi. reflexivity.
Qed.

(** The empty word alone, once the initial node is final. *)
Lemma epsilon_accepts st b w :
  getSet st (final b) = [initial b] -> outOf st (initial b) = [] ->
  accepts st b w <-> w = [].
Proof.
  intros Hf Ho. unfold accepts. rewrite Hf. split.
  - intros (f & [<-|[]] & Hp). apply (path_no_out _ _ _ _ Ho Hp).
  - intros ->. exists (initial b). split; [left; reflexivity|constructor].
Qed.

(** [baseUnion] with a sub-automaton made later. *)
Lemma union_owns s0 st st1 b c :
  good s0 -> owns nodeList s0 st b -> built nodeList s0 st1 -> owns nodeList st st1 c ->
  exists st2,
    baseUnion nodeList b c st1 = Ok (tt, st2)
    /\ (forall w, accepts st2 b w <-> accepts st b w \/ accepts st1 c w)
    /\ (forall x, ~ succ st2 x (initial b)).
Proof.
  intros G Ob B1 Oc.
  destruct (owns_later nodeList s0 st st1 b G Ob B1 (ow_built _ _ _ _ Oc)) as [Ob1 Hb].
  pose proof (owns_apart nodeList s0 st st1 b c Ob Oc) as [A1 A2 A3].
  destruct Oc as [B' (Hci & Hcs & Hcn) Hnc].
  destruct Ob1 as [_ (Hbi & Hbs & Hbn) Hnb].
  destruct b as [bi bf]. simpl in *.
  pose proof (built_region nodeList s0 st1 bi bf B1 Hbi Hbn) as R.
  destruct (baseUnion_language (mkNodeList (nl_id nodeList) (mkSubList bi bf)) st1
              (made s0 st1) c (made st st1) R Hnb Hnc) as (st2 & Hrun & Hlang & _).
  - intros x Hx. eapply made_older; [|exact Hx]. apply (bt_mono _ _ _ (ow_built _ _ _ _ Ob)).
  - apply (bt_succ _ _ _ B').
  - apply (bt_pred _ _ _ B').
  - exact Hci.
  - exact A1.
  - exact A2.
  - intros f. apply (made_final nodeList st st1 _ f B' Hcn).
  - simpl. intros E. apply A3. symmetry. exact E.
  - exists st2. split; [exact Hrun|]. split.
    + intros w. rewrite Hlang, Hb. reflexivity.
    + exact (baseUnion_norm nodeList (mkSubList bi bf) c st1 st2 Hnb Hrun).
Qed.
End Steps.

(** ** A character class after a sub-automaton *)

Section CharPaths.
Variables (st s2 : Store) (s : nat) (fs : list nat) (chars : CharSet).
Hypothesis G : good st.
Hypothesis Hs : ~ allocated st s.
Hypothesis Hfs : forall f, In f fs -> allocated st f.
Hypothesis Hstep : forall x c y,
  step s2 x c y <-> step st x c y \/ (In x fs /\ y = s /\ CharSet.has chars c = true).

Lemma char_old_path x w y : path st x w y -> path s2 x w y.
Proof.
  induction 1 as [a|a c b w d Hab _ IH]; [constructor|].
  econstructor; [apply Hstep; left; exact Hab|exact IH].
Qed.

Lemma char_last x w y :
  path s2 x w y -> y = s -> allocated st x ->
  exists u c f, w = u ++ [c] /\ path st x u f /\ In f fs /\ CharSet.has chars c = true.
Proof.
  induction 1 as [a|a c b w d Hab Hp IH]; intros -> Ha.
  - contradiction.
  - apply Hstep in Hab as [Hab|(Hf & -> & Hc)].
    + destruct (IH eq_refl) as (u & c' & f & -> & Hu & Hf & Hc').
      { eapply (good_closed _ G). eapply step_succ. exact Hab. }
      exists (c :: u), c', f. split; [reflexivity|]. split; [econstructor; eauto|auto].
    + assert (w = []) as ->.
      { destruct w as [|c' w']; [reflexivity|]. exfalso.
        apply path_cons_inv in Hp as (y & Hs' & _).
        apply Hstep in Hs' as [Hs'|(Hf' & _)].
        - apply Hs. eapply succ_allocated. eapply step_succ. exact Hs'.
        - apply Hs, Hfs, Hf'. }
      exists [], c, a. split; [reflexivity|]. split; [constructor|auto].
Qed.

Lemma char_paths x w :
  allocated st x ->
  path s2 x w s
  <-> exists u v, w = u ++ v
        /\ (exists f, In f fs /\ path st x u f)
        /\ exists c, v = [c] /\ CharSet.has chars c = true.
Proof.
  intros Ha. split.
  - intros Hp. destruct (char_last x w s Hp eq_refl Ha) as (u & c & f & -> & Hu & Hf & Hc).
    exists u, [c]. split; [reflexivity|]. split; [exists f; auto|exists c; auto].
  - intros (u & v & -> & (f & Hf & Hu) & c & -> & Hc).
    apply path_snoc. exists f. split; [apply char_old_path, Hu|].
    apply Hstep. right. auto.
Qed.
End CharPaths.

Section CharClass.
Variables (nodeList : NodeList) (options : NFAOptions).

Lemma charclass_owns s0 st b chars :
  good s0 -> owns nodeList s0 st b ->
  CharSet.maximum chars = maxCharacter options ->
  exists st',
    handleCharacterClass nodeList options chars b st = Ok (tt, st')
    /\ (forall w, accepts st' b w <->
          exists u v, w = u ++ v /\ accepts st b u
                      /\ exists c, v = [c] /\ CharSet.has chars c = true)
    /\ (forall x, ~ succ st' x (initial b)).
Proof.
  intros G0 O Hmax. pose proof (owns_rooted nodeList s0 st b G0 O) as R.
  pose proof (rt_good _ _ _ R) as G.
  unfold handleCharacterClass. rewrite Hmax, Z.eqb_refl. cbn [negb].
  destruct (CharSet.isEmpty chars) eqn:Ee.
  - destruct (baseMakeEmpty_spec nodeList b st G (rt_owner _ _ _ R) (rt_succ _ _ _ R))
      as (st' & Hrun & _ & Hout & _ & _ & Hset & _).
    exists st'. split; [exact Hrun|]. split.
    + intros w. unfold accepts at 1. rewrite Hset, decide_True by reflexivity. split.
      * intros (f & [] & _).
      * intros (u & v & _ & _ & c & _ & Hc).
        rewrite (CharSetFacts.isEmpty_has _ _ Ee) in Hc. discriminate.
    + intros x Hx. unfold succ in Hx. rewrite Hout in Hx.
      destruct (decide (x = initial b)); [destruct Hx|]. exact (ow_norm _ _ _ _ O x Hx).
  - destruct (createNode_spec (nl_id nodeList) st)
      as (s & s1 & Hc & Hfresh & Hal1 & Hown1 & Hown1' & Hout1 & _ & Hset1 & _).
    set (fs := getSet st (final b)).
    assert (Hfs : forall f, In f fs -> allocated st f /\ owner st f = nl_id nodeList)
      by (intros f Hf; apply (rt_finals _ _ _ R f Hf)).
    assert (G1 : good s1).
    { apply (good_same_out st s1); [exact Hout1| |exact G]. intros a Ha. apply Hal1. auto. }
    destruct (link_all nodeList (map (fun f => (f, (s, chars))) fs) s1 G1)
      as (s2 & Hrun2 & _ & Hstep2 & Hsucc2 & _ & _ & _ & Hset2 & _).
    { intros x y S Hin. apply in_map_iff in Hin as (f & [= <- <- <-] & Hf).
      destruct (Hfs f Hf) as [Ha Ho].
      split; [|split; [exact Hown1|exact Ee]].
      rewrite Hown1' by (intros ->; contradiction). exact Ho. }
    rewrite forEach_map in Hrun2. simpl in Hrun2.
    set (st' := putSet (putSet s2 (final b) []) (final b)
                       (JsSet.add (getSet (putSet s2 (final b) []) (final b)) s)).
    exists st'. split.
    { unfold bind at 1. rewrite Hc. unfold bind at 1, setElements, gets.
      rewrite Hset1. fold fs. unfold bind at 1. rewrite Hrun2. reflexivity. }
    assert (Hn : store_nodes st' = store_nodes s2) by reflexivity.
    assert (Hf' : getSet st' (final b) = [s]).
    { unfold st'. rewrite !getSet_putSet, !decide_True by reflexivity. reflexivity. }
    assert (Hstep : forall x c y,
              step s2 x c y <-> step st x c y \/ (In x fs /\ y = s /\ CharSet.has chars c = true)).
    { intros x c y. rewrite Hstep2. rewrite (step_same_out st s1 x c y (Hout1 x)).
      split; (intros [H|H]; [left; exact H|right]).
      - destruct H as (S & Hin & Hh). apply in_map_iff in Hin as (f & [= <- <- <-] & Hf). auto.
      - destruct H as (Hx & -> & Hh). exists chars. split; [|exact Hh].
        apply in_map_iff. exists x. auto. }
    split.
    + intros w.
      pose proof (char_paths st s2 s fs chars G Hfresh (fun f Hf => proj1 (Hfs f Hf)) Hstep
                    (initial b) w (rt_init _ _ _ R)) as CP.
      unfold accepts at 1. rewrite Hf'. split.
      * intros (f & [<-|[]] & Hp). apply (proj1 CP).
        apply (path_same_nodes s2 st'); [exact Hn|exact Hp].
      * intros H. exists s. split; [left; reflexivity|].
        apply (path_same_nodes st' s2); [symmetry; exact Hn|]. apply (proj2 CP). exact H.
    + intros x Hx. unfold succ in Hx. rewrite (outOf_same_nodes s2 st') in Hx by exact Hn.
      apply Hsucc2 in Hx as [Hx|(S & Hin)].
      * apply (ow_norm _ _ _ _ O x). unfold succ in *. rewrite <- Hout1. exact Hx.
      * apply in_map_iff in Hin as (f & [= _ E _] & _). apply Hfresh. rewrite E.
        apply (rt_init _ _ _ R).
Qed.
End CharClass.

(** ** The compiler's monad *)

Lemma lift_Done {A} (m : M Store A) st r : lift m st = Done r <-> m st = Ok r.
Proof.
  unfold lift. destruct (m st) as [r'|e]; split; intros H; try discriminate;
    injection H as <-; reflexivity.
Qed.

Lemma bindB_Done {A C} (m : B A) (k : A -> B C) st r :
  bindB m k st = Done r <-> exists a s1, m st = Done (a, s1) /\ k a s1 = Done r.
Proof.
  unfold bindB. destruct (m st) as [[a s1]|f]; split.
  - intros H. eauto.
  - intros (a' & s1' & [= <- <-] & H). exact H.
  - discriminate.
  - intros (a' & s1' & [=] & _).
Qed.

(** ** The handlers *)

Section Compiler.
Variables (nodeList : NodeList) (options : NFAOptions).

Local Abbreviation handle := (handleElement nodeList options).
Local Abbreviation owns := (owns nodeList).
Local Abbreviation built := (built nodeList).

(** What is made from [st] on leaves every construction under way in
    shape. *)
Definition keeps (st st' : Store) : Prop :=
  grows st st' /\ forall s0, good s0 -> built s0 st -> built s0 st'.

(** A handler that alters the sub-automaton [base]: after it the base
    accepts a word of before followed by a word of [L]. *)
Definition appends (run : SubList -> B unit) (L : list Z -> Prop) : Prop :=
  forall base st,
    (exists s0, good s0 /\ owns s0 st base) ->
    exists st',
      run base st = Done (tt, st')
      /\ grows st st'
      /\ (forall s0, good s0 -> owns s0 st base -> owns s0 st' base)
      /\ forall w, accepts st' base w <->
                   exists u v, w = u ++ v /\ accepts st base u /\ L v.

(** A handler that makes a sub-automaton for the words of [L]. *)
Definition makes (run : B SubList) (L : list Z -> Prop) : Prop :=
  forall st,
    good st ->
    exists b st',
      run st = Done (b, st')
      /\ owns st st' b
      /\ keeps st st'
      /\ forall w, accepts st' b w <-> L w.

Lemma owns_step s0 st st' base :
  owns s0 st base -> built s0 st' -> grows st st' ->
  (forall x, ~ succ st' x (initial base)) -> owns s0 st' base.
Proof.
  intros [_ Hs _] B G Hn. split; [exact B| |exact Hn]. eapply subIn_grows; eauto.
Qed.

Lemma owns_good s0 st base : good s0 -> owns s0 st base -> good st.
Proof. intros G [B _ _]. apply (built_good nodeList s0 (good_closed _ G) st G B). Qed.

Lemma handleElement_alternation alternatives base :
  handle (Alternation alternatives) base
  = (sub <~ handleAlternation nodeList handle alternatives ;;
     lift (baseConcat nodeList base sub)).
Proof. reflexivity. Qed.

Lemma handleElement_quantifier alternatives min max base :
  handle (Quantifier alternatives min max) base
  = (sub <~ handleQuantifier nodeList handle alternatives min max ;;
     lift (baseConcat nodeList base sub)).
Proof. reflexivity. Qed.

Lemma handleElement_characterClass chars base :
  handle (CharacterClass chars) base = lift (handleCharacterClass nodeList options chars base).
Proof. reflexivity. Qed.

Lemma appends_ext (run run' : SubList -> B unit) L :
  (forall base, run' base = run base) -> appends run L <-> appends run' L.
Proof.
  intros E. unfold appends. split; intros H base st Hpre;
    destruct (H base st Hpre) as (st' & Hrun & Hrest); exists st';
    (split; [|exact Hrest]); [rewrite E|rewrite <- E]; exact Hrun.
Qed.

(** What is to be shown of an element. *)
Definition elementOk (element : Element) : Prop :=
  supported options element ->
  appends (handle element) (elementWords element).

(** A sub-automaton that is made is appended by [baseConcat]. *)
Lemma appends_made (run : B SubList) L :
  makes run L ->
  appends (fun base => sub <~ run ;; lift (baseConcat nodeList base sub)) L.
Proof.
  intros Hm base st (s0 & G0 & O).
  pose proof (owns_good s0 st base G0 O) as Gst.
  destruct (Hm st Gst) as (c & s1 & Hrun1 & Oc & (Gr1 & K1) & Hlang1).
  pose proof (K1 s0 G0 (ow_built _ _ _ _ O)) as B1.
  destruct (concat_owns nodeList s0 st s1 base c G0 O B1 Oc) as (s2 & Hrun2 & Hlang2 & Hn2).
  assert (Hwalk : forall s0', good s0' -> owns s0' st base ->
                    built s0' s2 /\ grows s1 s2).
  { intros s0' G0' O'.
    apply (built_baseConcat nodeList s0' s1 s2 base c (K1 s0' G0' (ow_built _ _ _ _ O'))).
    - eapply subIn_grows; [exact Gr1|apply (ow_sub _ _ _ _ O')].
    - apply (subIn_older nodeList s0' st s1 c (ow_built _ _ _ _ O')), (ow_sub _ _ _ _ Oc).
    - exact Hrun2. }
  destruct (Hwalk s0 G0 O) as [_ Gr2].
  exists s2. split.
  { unfold bindB. rewrite Hrun1. apply lift_Done. exact Hrun2. }
  split; [eapply grows_trans; eauto|]. split.
  - intros s0' G0' O'. destruct (Hwalk s0' G0' O') as [B2 _].
    apply (owns_step s0' st s2 base O' B2); [eapply grows_trans; eauto|exact Hn2].
  - intros w. rewrite Hlang2.
    split; intros (u & v & -> & Hu & Hv); exists u, v; (split; [reflexivity|]);
      (split; [exact Hu|apply Hlang1; exact Hv]).
Qed.

Lemma elements_ok (elements : list Element) :
  allElements elementOk elements ->
  allElements (supported options) elements ->
  appends (handleElements handle elements) (concatWords elementWords elements).
Proof.
  induction elements as [|element rest IH]; intros Hok Hsup base st Hpre.
  - exists st. split; [reflexivity|]. split; [apply grows_refl|]. split; [auto|].
    intros w. simpl. split.
    + intros H. exists w, []. rewrite app_nil_r. auto.
    + intros (u & v & -> & Hu & ->). rewrite app_nil_r. exact Hu.
  - destruct Hsup as [Hs1 Hs2]. destruct Hok as [Hk1 Hk2]. simpl handleElements.
    unfold bindB at 1, lift at 1, setSize, gets.
    destruct (JsSet.size (getSet st (final base)) =? 0) eqn:Esz.
    + (* the base accepts nothing: the loop ends *)
      exists st. split; [reflexivity|]. split; [apply grows_refl|]. split; [auto|].
      apply Nat.eqb_eq in Esz. unfold JsSet.size in Esz. apply length_zero_iff_nil in Esz.
      assert (Hno : forall u, ~ accepts st base u).
      { intros u (f & Hf & _). rewrite Esz in Hf. destruct Hf. }
      intros w. split; [intros H; destruct (Hno w H)|].
      intros (u & v & _ & Hu & _). destruct (Hno u Hu).
    + destruct (Hk1 Hs1 base st Hpre) as (s1 & Hrun1 & Gr1 & K1 & Hlang1).
      destruct Hpre as (s0 & G0 & O).
      destruct (IH Hk2 Hs2 base s1) as (s2 & Hrun2 & Gr2 & K2 & Hlang2).
      { exists s0. split; [exact G0|]. apply (K1 s0 G0 O). }
      exists s2. split.
      { unfold bindB. rewrite Hrun1. exact Hrun2. }
      split; [eapply grows_trans; eauto|]. split.
      * intros s0' G0' O'. apply (K2 s0' G0'), (K1 s0' G0' O').
      * intros w. rewrite Hlang2. simpl. split.
        -- intros (u & v & -> & Hu & Hv). apply Hlang1 in Hu as (u1 & u2 & -> & Hu1 & Hu2).
           exists u1, (u2 ++ v). rewrite app_assoc. split; [reflexivity|].
           split; [exact Hu1|]. exists u2, v. auto.
        -- intros (u1 & v' & -> & Hu1 & u2 & v & -> & Hu2 & Hv).
           exists (u1 ++ u2), v. rewrite app_assoc. split; [reflexivity|].
           split; [|exact Hv]. apply Hlang1. exists u1, u2. auto.
Qed.

(** A concatenation starts from a sub-automaton for the empty word. *)
Lemma concatenation_start st :
  good st ->
  exists b s1 s2,
    newSubList nodeList st = Ok (b, s1)
    /\ setAdd (final b) (initial b) s1 = Ok (tt, s2)
    /\ owns st s2 b
    /\ grows st s2
    /\ (forall s0, good s0 -> built s0 st -> built s0 s2 /\ subIn s0 s2 b)
    /\ forall w, accepts s2 b w <-> w = [].
Proof.
  intros Gst. pose proof (good_closed _ Gst) as Cst.
  destruct (newSubList_owns nodeList st Gst) as (b & s1 & Hrun1 & O1 & Hf1 & Ho1).
  set (s2 := putSet s1 (final b) (JsSet.add (getSet s1 (final b)) (initial b))).
  assert (Hadd : setAdd (final b) (initial b) s1 = Ok (tt, s2)) by reflexivity.
  assert (Hwalk : forall s0, good s0 -> built s0 st ->
                    built s0 s2 /\ grows st s2 /\ subIn s0 s2 b).
  { intros s0 G0 B0.
    destruct (built_newSubList nodeList s0 (good_closed _ G0) st b s1 B0 Hrun1)
      as (B1 & Gr1 & Hsub1 & _).
    destruct (built_setAdd nodeList s0 s1 (final b) (initial b) s2 B1) as [B2 Gr2];
      [apply Hsub1|apply Hsub1|exact Hadd|].
    split; [exact B2|]. split; [eapply grows_trans; eauto|]. eapply subIn_grows; eauto. }
  destruct (Hwalk st Gst (built_refl nodeList st Cst)) as (B2 & Gr2 & Hsub2).
  assert (Hn2 : forall x, ~ succ s2 x (initial b)).
  { intros x. unfold succ. rewrite (outOf_same_nodes s1 s2) by reflexivity.
    apply (ow_norm _ _ _ _ O1). }
  exists b, s1, s2. split; [exact Hrun1|]. split; [exact Hadd|].
  split; [split; assumption|]. split; [exact Gr2|]. split.
  - intros s0 G0 B0. destruct (Hwalk s0 G0 B0) as (B2' & _ & Hsub2'). auto.
  - intros w. apply epsilon_accepts.
    + unfold s2. rewrite getSet_putSet, decide_True, Hf1 by reflexivity. reflexivity.
    + rewrite (outOf_same_nodes s1 s2) by reflexivity. exact Ho1.
Qed.

(** A concatenation is made by appending its elements to the empty word. *)
Lemma concatenation_makes (concatenation : Concatenation) (L : list Z -> Prop) :
  appends (handleElements handle concatenation) L ->
  makes (handleConcatenation nodeList handle concatenation) L.
Proof.
  intros Happ st Gst.
  destruct (concatenation_start st Gst)
    as (b & s1 & s2 & Hrun1 & Hadd & O2 & Gr2 & Hwalk & Hlang2).
  destruct (Happ b s2) as (s3 & Hrun3 & Gr3 & K3 & Hlang3).
  { exists st. auto. }
  exists b, s3. split.
  { unfold handleConcatenation, bindB at 1. rewrite (proj2 (lift_Done _ _ _) Hrun1).
    unfold bindB at 1. rewrite (proj2 (lift_Done _ _ _) Hadd).
    unfold bindB. rewrite Hrun3. reflexivity. }
  split; [apply (K3 st Gst O2)|]. split.
  - split; [eapply grows_trans; eauto|]. intros s0 G0 B0.
    destruct (Hwalk s0 G0 B0) as (B2' & Hsub2').
    apply (K3 s0 G0). split; [exact B2'|exact Hsub2'|apply (ow_norm _ _ _ _ O2)].
  - intros w. rewrite Hlang3. split.
    + intros (u & v & -> & Hu & Hv). apply Hlang2 in Hu. subst u. exact Hv.
    + intros H. exists [], w. split; [reflexivity|]. split; [apply Hlang2; reflexivity|exact H].
Qed.

Lemma concatenation_ok (concatenation : Concatenation) :
  allElements elementOk concatenation ->
  allElements (supported options) concatenation ->
  makes (handleConcatenation nodeList handle concatenation)
        (concatWords elementWords concatenation).
Proof. intros Hok Hsup. apply concatenation_makes, elements_ok; assumption. Qed.

(** A concatenation whose sub-automaton is made for its words. *)
Definition concatenationOk (concatenation : Concatenation) : Prop :=
  makes (handleConcatenation nodeList handle concatenation)
        (concatWords elementWords concatenation).

(** The alternatives after the first join the base by [baseUnion]. *)
Lemma alternatives_makes (alternatives : list Concatenation) :
  Forall concatenationOk alternatives ->
  forall base st,
    (exists s0, good s0 /\ owns s0 st base) ->
    exists st',
      handleAlternatives nodeList handle alternatives base st = Done (tt, st')
      /\ grows st st'
      /\ (forall s0, good s0 -> owns s0 st base -> owns s0 st' base)
      /\ forall w, accepts st' base w <->
                   accepts st base w \/ alternationWords elementWords alternatives w.
Proof.
  induction alternatives as [|alternative rest IH]; intros Hok base st Hpre.
  - exists st. split; [reflexivity|]. split; [apply grows_refl|]. split; [auto|].
    intros w. simpl. tauto.
  - apply Forall_cons_iff in Hok as [Hk1 Hk2]. destruct Hpre as (s0 & G0 & O).
    pose proof (owns_good s0 st base G0 O) as Gst.
    destruct (Hk1 st Gst) as (c & s1 & Hrun1 & Oc & (Gr1 & K1) & Hlang1).
    pose proof (K1 s0 G0 (ow_built _ _ _ _ O)) as B1.
    destruct (union_owns nodeList s0 st s1 base c G0 O B1 Oc) as (s2 & Hrun2 & Hlang2 & Hn2).
    assert (Hwalk : forall s0', good s0' -> owns s0' st base ->
                      built s0' s2 /\ grows s1 s2).
    { intros s0' G0' O'.
      apply (built_baseUnion nodeList s0' s1 s2 base c (K1 s0' G0' (ow_built _ _ _ _ O'))).
      - eapply subIn_grows; [exact Gr1|apply (ow_sub _ _ _ _ O')].
      - apply (subIn_older nodeList s0' st s1 c (ow_built _ _ _ _ O')), (ow_sub _ _ _ _ Oc).
      - exact Hrun2. }
    destruct (Hwalk s0 G0 O) as [B2 Gr2].
    assert (Hstep : forall s0', good s0' -> owns s0' st base -> owns s0' s2 base).
    { intros s0' G0' O'. destruct (Hwalk s0' G0' O') as [B2' _].
      apply (owns_step s0' st s2 base O' B2'); [eapply grows_trans; eauto|exact Hn2]. }
    destruct (IH Hk2 base s2) as (s3 & Hrun3 & Gr3 & K3 & Hlang3).
    { exists s0. split; [exact G0|]. apply (Hstep s0 G0 O). }
    exists s3. split.
    { simpl. unfold bindB at 1. rewrite Hrun1.
      unfold bindB at 1. rewrite (proj2 (lift_Done _ _ _) Hrun2). exact Hrun3. }
    split; [eapply grows_trans; [exact Gr1|]; eapply grows_trans; eauto|]. split.
    + intros s0' G0' O'. apply (K3 s0' G0'), (Hstep s0' G0' O').
    + intros w. rewrite Hlang3, Hlang2, Hlang1. simpl. tauto.
Qed.

Lemma alternation_makes (alternatives : list Concatenation) :
  Forall concatenationOk alternatives ->
  makes (handleAlternation nodeList handle alternatives)
        (alternationWords elementWords alternatives).
Proof.
  intros Hok st Gst. destruct alternatives as [|first rest].
  - destruct (newSubList_owns nodeList st Gst) as (b & s1 & Hrun1 & O1 & Hf1 & _).
    exists b, s1. split; [apply lift_Done; exact Hrun1|]. split; [exact O1|]. split.
    + split.
      * destruct (built_newSubList nodeList st (good_closed _ Gst) st b s1
                    (built_refl nodeList st (good_closed _ Gst)) Hrun1) as (_ & Gr & _).
        exact Gr.
      * intros s0 G0 B0.
        destruct (built_newSubList nodeList s0 (good_closed _ G0) st b s1 B0 Hrun1)
          as (B1 & _). exact B1.
    + intros w. simpl. split; [|intros []]. intros (f & Hf & _). rewrite Hf1 in Hf. exact Hf.
  - apply Forall_cons_iff in Hok as [Hk1 Hk2].
    destruct (Hk1 st Gst) as (b & s1 & Hrun1 & O1 & (Gr1 & K1) & Hlang1).
    destruct (alternatives_makes rest Hk2 b s1) as (s2 & Hrun2 & Gr2 & K2 & Hlang2).
    { exists st. auto. }
    exists b, s2. split.
    { simpl. unfold bindB at 1. rewrite Hrun1. unfold bindB. rewrite Hrun2. reflexivity. }
    split; [apply (K2 st Gst O1)|]. split.
    + split; [eapply grows_trans; eauto|]. intros s0 G0 B0.
      apply (K2 s0 G0). split; [apply (K1 s0 G0 B0)| |apply (ow_norm _ _ _ _ O1)].
      apply (subIn_older nodeList s0 st s1 b B0), (ow_sub _ _ _ _ O1).
    + intros w. rewrite Hlang2, Hlang1. simpl. tauto.
Qed.

Lemma alternatives_Forall (alternatives : list Concatenation) :
  allAlternatives elementOk alternatives ->
  allAlternatives (supported options) alternatives ->
  Forall concatenationOk alternatives.
Proof.
  induction alternatives as [|c rest IH]; intros Hok Hsup; [constructor|].
  destruct Hok as [Hk1 Hk2]. destruct Hsup as [Hs1 Hs2]. constructor; [|auto].
  apply concatenation_ok; assumption.
Qed.

Lemma alternation_ok (alternatives : list Concatenation) :
  allAlternatives elementOk alternatives ->
  allAlternatives (supported options) alternatives ->
  makes (handleAlternation nodeList handle alternatives)
        (alternationWords elementWords alternatives).
Proof. intros Hok Hsup. apply alternation_makes, alternatives_Forall; assumption. Qed.

Lemma quantifier_ok (alternatives : list Concatenation) (min : nat) (max : bound) :
  allAlternatives elementOk alternatives ->
  allAlternatives (supported options) alternatives -> withinBound min max ->
  makes (handleQuantifier nodeList handle alternatives min max)
        (quantified min max (alternationWords elementWords alternatives)).
Proof.
  intros Hok Hsup Hb st Gst.
  destruct (alternation_ok alternatives Hok Hsup st Gst)
    as (b & s1 & Hrun1 & O1 & (Gr1 & K1) & Hlang1).
  destruct (quantify_owns nodeList st s1 b min max Gst O1 Hb) as (s2 & Hrun2 & Hlang2 & Hn2).
  assert (Hwalk : forall s0, good s0 -> built s0 st -> built s0 s2 /\ grows s1 s2).
  { intros s0 G0 B0.
    apply (built_baseQuantify nodeList s0 (good_closed _ G0) s1 s2 b min max (K1 s0 G0 B0));
      [|exact Hrun2].
    apply (subIn_older nodeList s0 st s1 b B0), (ow_sub _ _ _ _ O1). }
  destruct (Hwalk st Gst (built_refl nodeList st (good_closed _ Gst))) as [B2 Gr2].
  exists b, s2. split.
  { unfold handleQuantifier, bindB at 1. rewrite Hrun1.
    unfold bindB. rewrite (proj2 (lift_Done _ _ _) Hrun2). reflexivity. }
  split; [apply (owns_step st s1 s2 b O1 B2 Gr2 Hn2)|]. split.
  - split; [eapply grows_trans; eauto|]. intros s0 G0 B0. apply (Hwalk s0 G0 B0).
  - intros w. rewrite Hlang2. apply quantified_ext. exact Hlang1.
Qed.

(** Every element that the compiler accepts is handled. *)
Lemma element_ok (element : Element) : elementOk element.
Proof.
  induction element as [alternatives IH| |chars|alternatives min max IH]
    using Element_induction.
  - intros Hsup. rewrite <- (appends_ext _ _ _ (handleElement_alternation alternatives)).
    apply appends_made. apply alternation_ok; assumption.
  - intros [].
  - intros Hsup base st (s0 & G0 & O).
    destruct (charclass_owns nodeList options s0 st base chars G0 O Hsup)
      as (st' & Hrun & Hlang & Hn).
    assert (Hwalk : forall s0', good s0' -> owns s0' st base ->
                      built s0' st' /\ grows st st').
    { intros s0' G0' O'.
      apply (built_handleCharacterClass nodeList s0' (good_closed _ G0') options st st' chars
               base (ow_built _ _ _ _ O') (ow_sub _ _ _ _ O') Hrun). }
    exists st'. split; [rewrite handleElement_characterClass; apply lift_Done; exact Hrun|].
    split; [apply (Hwalk s0 G0 O)|]. split; [|exact Hlang].
    intros s0' G0' O'. destruct (Hwalk s0' G0' O') as [B' Gr'].
    apply (owns_step s0' st st' base O' B' Gr' Hn).
  - intros [Hsup Hb].
    rewrite <- (appends_ext _ _ _ (handleElement_quantifier alternatives min max)).
    apply appends_made. apply quantifier_ok; assumption.
Qed.

Lemma all_elements (P : Element -> Prop) (alternatives : list Concatenation) :
  (forall element, P element) -> allAlternatives P alternatives.
Proof.
  intros H. induction alternatives as [|c rest IH]; simpl; [exact I|]. split; [|exact IH].
  induction c as [|e tl IHc]; simpl; auto.
Qed.

(** [handleAlternation] on an expression that the compiler accepts. *)
Lemma handleAlternation_ok (alternatives : list Concatenation) :
  allAlternatives (supported options) alternatives ->
  makes (handleAlternation nodeList handle alternatives)
        (alternationWords elementWords alternatives).
Proof. apply alternation_ok. apply all_elements. exact element_ok. Qed.
End Compiler.

(** ** baseReplaceWith *)

(** [baseReplaceWith] on a node list without edges and final nodes: the
    list takes over the sub-automaton [replacement], which lives in a part
    [New] of the list. *)
Lemma baseReplaceWith_language (this : NodeList) st N (replacement : SubList)
    (New : nat -> Prop) :
  region this st N ->
  outOf st (initial this) = [] -> getSet st (final this) = [] ->
  (forall x, ~ succ st x (initial this)) -> (forall x, ~ succ st x (initial replacement)) ->
  (forall x, New x -> N x) ->
  (forall x y, New x -> succ st x y -> New y) ->
  (forall x y, succ st x y -> New y -> New x) ->
  New (initial replacement) -> ~ New (initial this) ->
  (forall f, In f (getSet st (final replacement)) -> New f) ->
  final replacement <> final this ->
  exists st',
    baseReplaceWith this this replacement st = Ok (tt, st')
    /\ forall w, accepts st' this w <-> accepts st replacement w.
Proof.
  intros R Hout Hfin Hnb Hnc HNew Hcl Hinto Hci Hbi HFc Hsets.
  set (bi := initial this) in *. set (ci := initial replacement) in *.
  assert (Hne : bi <> ci) by (intros E; apply Hbi; rewrite E; exact Hci).
  set (s1 := putSet st (final this) []).
  assert (N1 : store_nodes s1 = store_nodes st) by reflexivity.
  assert (F1 : forall t, getSet s1 t = getSet st t).
  { intros t. unfold s1. rewrite getSet_putSet. destruct (decide (final this = t)) as [<-|_];
      [symmetry; exact Hfin|reflexivity]. }
  assert (R1 : region this s1 N).
  { apply region_putSet; [|exact R]. intros _. split; [constructor|intros f []]. }
  destruct (add_finals_region this s1 N (fun n => if n =? ci then bi else n)
              (getSet s1 (final replacement)) R1) as (s2 & Hrun2 & R2 & F2 & T2 & N2).
  { intros n Hn. destruct (n =? ci); [apply (rg_init _ _ _ R)|].
    apply HNew, HFc. rewrite <- F1. exact Hn. }
  destruct (transfer_edges this s2 N bi ci R2) as (s3 & Hrun3 & _ & E3 & T3 & _).
  { apply (rg_init _ _ _ R). }
  { apply HNew, Hci. }
  { exact Hne. }
  exists s3. split.
  { unfold baseReplaceWith, baseMakeEmpty, bind at 1, bind at 1, gets. fold bi.
    rewrite Hout. simpl forEach. unfold ret, bind at 1, setClear, modify. fold s1.
    unfold bind at 1, setElements, gets. unfold bind. fold ci bi.
    rewrite Hrun2. exact Hrun3. }
  assert (Hout2 : forall a, outOf s2 a = outOf st a).
  { intros a. rewrite (outOf_same_nodes s1 s2) by exact N2. apply outOf_same_nodes. exact N1. }
  assert (Hs : forall a c y, step s3 a c y <->
                 (step st a c y /\ a <> ci) \/ (a = bi /\ step st ci c y)).
  { intros a c y. rewrite E3. unfold step. rewrite !Hout2. reflexivity. }
  intros w. unfold accepts at 1. fold bi.
  rewrite (union_accepts st s3 bi ci New Hs Hnb Hnc Hcl Hinto Hci Hbi
             [] (getSet st (final replacement)) (getSet s3 (final this))).
  - unfold accepts. fold ci. split; [intros [(f & [] & _)|H]; exact H|auto].
  - intros f [].
  - exact HFc.
  - intros f. rewrite T3, F2, F1, Hfin, F1. reflexivity.
Qed.

(** [baseReplaceWith] leads no edge into the initial node of the base. *)
Lemma baseReplaceWith_norm nodeList base replacement st st' :
  (forall x, ~ succ st x (initial base)) ->
  baseReplaceWith nodeList base replacement st = Ok (tt, st') ->
  forall x, ~ succ st' x (initial base).
Proof.
  intros Hnp Hrun. unfold baseReplaceWith in Hrun.
  apply bind_Ok in Hrun as ([] & s1 & Hme & Hrun).
  apply bind_Ok in Hrun as (fs & s & Hg & Hrun). unfold setElements, gets in Hg.
  injection Hg as <- <-.
  apply bind_Ok in Hrun as ([] & s2 & Hadd & Htr).
  assert (Hn1 : forall x, ~ succ s1 x (initial base)).
  { unfold baseMakeEmpty in Hme.
    apply bind_Ok in Hme as (outs & s & Hg & Hme). unfold gets in Hg. injection Hg as <- <-.
    apply bind_Ok in Hme as ([] & sa & Hloop & Hclear).
    unfold setClear, modify in Hclear. injection Hclear as <-.
    intros x. unfold succ. rewrite (outOf_same_nodes sa (putSet sa (final base) []))
      by reflexivity.
    revert x.
    refine (forEach_inv (fun _ s => forall x, ~ succ s x (initial base)) _ _ _ _ _ _ Hloop);
      [exact Hnp|].
    intros pre o post sb sc _ Hsb Hu x Hx.
    apply (succ_unlinkNodes _ _ _ _ _ Hu) in Hx. exact (Hsb x Hx). }
  assert (N2 : store_nodes s2 = store_nodes s1).
  { refine (forEach_setAdd_nodes _ _ _ _ _ Hadd). intros x s s' Hb.
    unfold setAdd, modify in Hb. injection Hb as <-. reflexivity. }
  assert (Hn2 : forall x, ~ succ s2 x (initial base)).
  { intros x. unfold succ. rewrite (outOf_same_nodes s1 s2) by exact N2. apply Hn1. }
  unfold transferEdges in Htr.
  apply bind_Ok in Htr as (edges & s & Hg & Htr). unfold gets in Hg. injection Hg as <- <-.
  refine (forEach_inv (fun _ s => forall x, ~ succ s x (initial base)) _ _ _ _ _ _ Htr);
    [exact Hn2|].
  intros pre e post sa sb E Hsa Hb. apply bind_Ok in Hb as ([] & sc & Hl & Hu).
  intros x Hx. apply (succ_unlinkNodes _ _ _ _ _ Hu) in Hx.
  apply (succ_linkNodes _ _ _ _ _ _ Hl) in Hx as [Hx|[_ Hx]]; [exact (Hsa x Hx)|].
  apply (Hn2 (initial replacement)). unfold succ, JsMap.keys. rewrite Hx, E.
  apply in_map. apply in_elt.
Qed.

(** ** createNodeList and fromRegex *)

(** A new node list is the first thing made. *)
Lemma newNodeList_built st :
  closedStore st ->
  exists nl s1,
    newNodeList st = Ok (nl, s1)
    /\ built nl st s1
    /\ made st s1 (initial nl)
    /\ ~ allocatedSet st (final nl) /\ allocatedSet s1 (final nl)
    /\ outOf s1 (initial nl) = []
    /\ getSet s1 (final nl) = []
    /\ (forall a, outOf s1 a = outOf st a)
    /\ (forall a, allocated st a -> allocated s1 a).
Proof.
  intros C.
  destruct (newNodeList_fresh st C)
    as (nl & s1 & Hrun & Hid & R & Hfresh & Hal & Hout & Hfin & Hsets & Hfs & Hmono).
  exists nl, s1. split; [exact Hrun|].
  assert (Hm : forall x, made st s1 x <-> x = initial nl).
  { intros x. unfold made. rewrite Hal. split.
    - intros [[->|H] H']; [reflexivity|contradiction].
    - intros ->. auto. }
  assert (Hnew : ~ allocatedSet st (final nl)).
  { intros H. destruct (Hmono _ H) as [_ H']. congruence. }
  assert (Ho : outOf s1 (initial nl) = []).
  { rewrite Hout. unfold outOf. rewrite unallocated_blank by exact Hfresh. reflexivity. }
  split; [|split; [apply Hm; reflexivity|split; [exact Hnew|split; [exact Hfs|]]]].
  2:{ split; [exact Ho|]. split; [exact Hfin|]. split; [exact Hout|].
      intros a Ha. apply Hal. auto. }
  assert (Hown : forall a, allocated st a -> owner s1 a = owner st a).
  { unfold newNodeList in Hrun.
    apply bind_Ok in Hrun as (f & sa & Hf & Hrun).
    apply bind_Ok in Hrun as (n & sb & Hn & Hret). injection Hret as _ <-.
    destruct (createNode_spec (NodeList_counter st) sa)
      as (r & sb' & Hn' & Hfr & _ & _ & Hown' & _).
    rewrite Hn in Hn'. injection Hn' as <- <-.
    unfold newSet in Hf. injection Hf as _ <-.
    intros a Ha. rewrite Hown'; [reflexivity|]. intros ->. apply Hfr. exact Ha. }
  destruct nl as [id [n0 f0]]. simpl in *.
  apply (region_built (mkNodeList id (mkSubList n0 f0)) st st s1 n0 f0
           (built_refl _ st C)).
  - eapply region_ext; [|exact R]. intros x. symmetry. apply Hm.
  - intros a Ha. apply Hal. auto.
  - intros a _. apply Hout.
  - exact Hown.
  - intros t Ht. apply (Hmono t Ht).
  - intros t Ht. apply Hsets. intros ->. contradiction.
  - intros t Ht. destruct (decide (t = f0)) as [->|Hne].
    + rewrite Hfin. split; [constructor|intros f []].
    + rewrite Hsets by exact Hne. unfold getSet, allocatedSet in *.
      destruct (store_sets st !! t); [exfalso; apply Ht; eauto|].
      split; [constructor|intros f []].
Qed.

(** [createNodeList] around any way of making the expression's
    sub-automaton: the node list is made since the store of before, it
    takes over the words of the sub-automaton, and no edge enters its
    initial node. *)
Lemma createNodeList_makes (expression : list Concatenation) (options : NFAOptions)
    (L : list Z -> Prop) st :
  good st ->
  (forall nl, makes nl (handleAlternation nl (handleElement nl options) expression) L) ->
  exists nl st',
    createNodeList expression options st = Done (nl, st')
    /\ (forall w, accepts st' nl w <-> L w)
    /\ built nl st st'
    /\ subIn st st' nl
    /\ (forall x, ~ succ st' x (initial nl)).
Proof.
  intros G Hmakes. pose proof (good_closed _ G) as C.
  destruct (newNodeList_built st C)
    as (nl & s1 & Hrun1 & B1 & Hn0 & Hf0 & Hf1 & Ho1 & He1 & Hout1 & Hal1).
  assert (G1 : good s1) by (apply (good_same_out st s1); assumption).
  destruct (Hmakes nl s1 G1) as (r & s2 & Hrun2 & Or & (Gr2 & K2) & Hlang2).
  pose proof (K2 st G B1) as B2.
  pose proof (ow_built _ _ _ _ Or) as B12.
  destruct Or as [_ (Hri & Hrs & Hrn) Hnr].
  assert (Hn0' : made st s2 (initial nl)) by (eapply made_grows; eauto).
  assert (Ho2 : outOf s2 (initial nl) = []).
  { rewrite (bt_out _ _ _ B12) by apply Hn0. exact Ho1. }
  assert (He2 : getSet s2 (final nl) = []).
  { rewrite (bt_sets _ _ _ B12) by exact Hf1. exact He1. }
  assert (R : region nl s2 (made st s2)).
  { pose proof (built_region nl st s2 (initial nl) (final nl) B2 Hn0' Hf0) as R.
    destruct nl as [id [n0 f0]]. exact R. }
  assert (Hnb : forall x, ~ succ s2 x (initial nl)).
  { intros x Hx. destruct (decide (allocated s1 x)) as [Ha|Ha].
    + unfold succ in Hx. rewrite (bt_out _ _ _ B12 x Ha), Hout1 in Hx.
      apply (proj2 Hn0). eapply C. exact Hx.
    + assert (Hm : made s1 s2 x) by (split; [eapply succ_allocated; eauto|exact Ha]).
      destruct (bt_succ _ _ _ B12 x _ Hm Hx) as [_ H]. apply H, Hn0. }
  assert (Hsub : subIn st s2 nl).
  { split; [exact Hn0'|]. split; [apply (bt_smono _ _ _ B12), Hf1|exact Hf0]. }
  assert (Hsubr : subIn st s2 r).
  { split; [|split; [exact Hrs|]].
    - eapply made_older; [|exact Hri]. exact Hal1.
    - intros H. apply Hrn. apply (bt_smono _ _ _ B1), H. }
  destruct (baseReplaceWith_language nl s2 (made st s2) r (made s1 s2) R Ho2 He2 Hnb)
    as (s3 & Hrun3 & Hlang3).
  - exact Hnr.
  - intros x Hx. eapply made_older; [|exact Hx]. exact Hal1.
  - apply (bt_succ _ _ _ B12).
  - apply (bt_pred _ _ _ B12).
  - exact Hri.
  - intros [_ H]. apply H, Hn0.
  - intros f. apply (made_final nl s1 s2 _ f B12 Hrn).
  - intros E. apply Hrn. rewrite E. exact Hf1.
  - destruct (built_baseReplaceWith nl st s2 s3 nl r B2 Hsub Hsubr Hrun3) as [B3 Gr3].
    exists nl, s3. split.
    { unfold createNodeList, bindB at 1. rewrite (proj2 (lift_Done _ _ _) Hrun1).
      unfold bindB at 1. rewrite Hrun2.
      unfold bindB. rewrite (proj2 (lift_Done _ _ _) Hrun3). reflexivity. }
    split; [intros w; rewrite Hlang3; apply Hlang2|].
    split; [exact B3|]. split; [eapply subIn_grows; eauto|].
    exact (baseReplaceWith_norm nl nl r s2 s3 Hnb Hrun3).
Qed.

Lemma createNodeList_language (expression : list Concatenation) (options : NFAOptions) st :
  good st ->
  allAlternatives (supported options) expression ->
  exists nl st',
    createNodeList expression options st = Done (nl, st')
    /\ forall w, accepts st' nl w <-> alternationWords elementWords expression w.
Proof.
  intros G Hsup.
  destruct (createNodeList_makes expression options
              (alternationWords elementWords expression) st G)
    as (nl & st' & Hrun & Hlang & _).
  - intros nl. apply handleAlternation_ok. exact Hsup.
  - exists nl, st'. auto.
Qed.

(** X19.  In a store whose [out] maps are well formed, [fromRegex] on an
    expression without assertions, whose character classes are over the
    alphabet of the options and whose quantifiers have [min <= max],
    returns an automaton that accepts exactly the words of the expression:
    a word of an alternative is a sequence of words of its elements, a word
    of a character class is one of its characters, and a word of a
    quantifier is a sequence of [k] words of its alternatives, for a [k]
    from [min] to [max]. *)
Theorem fromRegex_language (value : RegexValue) (options : NFAOptions) (st : Store) :
  good st ->
  supportedValue options value ->
  exists nfa st',
    fromRegex value options st = Done (nfa, st')
    /\ forall word, test nfa word st' = Ok (true, st') <-> regexWords value word.
Proof.
  intros G Hsup. unfold supportedValue in Hsup. unfold fromRegex, regexWords.
  set (expression := match value with
                     | OfConcatenation concat => [concat]
                     | OfExpression expression => alternatives expression
                     | OfAlternatives alts => alts
                     end) in *.
  destruct (createNodeList_language expression options st G Hsup) as (nl & st' & Hrun & Hlang).
  exists (mkNFA nl options), st'. split.
  - unfold bindB. destruct value; simpl in *; subst expression; rewrite Hrun; reflexivity.
  - intros word. rewrite test_true_accepts. apply Hlang.
Qed.

(** The expression [a(b|c){1,2}] over the 16-bit alphabet. *)
Definition sampleRegex : RegexValue :=
  OfConcatenation
    [CharacterClass (CharSet.mk 65535 [CharSet.mkRange 97 97]);
     Quantifier [[CharacterClass (CharSet.mk 65535 [CharSet.mkRange 98 98])];
                 [CharacterClass (CharSet.mk 65535 [CharSet.mkRange 99 99])]]
                1 (Finite 2)].

Lemma fromRegex_language_witness :
  exists nfa st',
    fromRegex sampleRegex options16 emptyStore = Done (nfa, st')
    /\ forall word, test nfa word st' = Ok (true, st') <-> regexWords sampleRegex word.
Proof.
  apply (fromRegex_language sampleRegex options16 emptyStore).
  - apply goodb_sound. vm_compute. reflexivity.
  - simpl. repeat split; try reflexivity. unfold withinBound. lia.
Defined.

(** ** The automaton that [fromRegex] returns *)

(** The alternatives that [fromRegex] hands to [createNodeList]. *)
Lemma fromRegex_run (value : RegexValue) (options : NFAOptions) st nl st' :
  createNodeList match value with
                 | OfAlternatives alts => alts
                 | OfConcatenation concat => [concat]
                 | OfExpression expression => alternatives expression
                 end options st = Done (nl, st') ->
  fromRegex value options st = Done (mkNFA nl options, st').
Proof.
  intros Hrun. unfold fromRegex, bindB. destruct value; simpl in *; rewrite Hrun; reflexivity.
Qed.

(** A map without a value for any key is empty. *)
Lemma get_None_nil {V} (m : list (nat * V)) : (forall k, JsMap.get m k = None) -> m = [].
Proof.
  destruct m as [|[k v] tl]; [reflexivity|]. intros H. specialize (H k). simpl in H.
  rewrite Nat.eqb_refl in H. discriminate.
Qed.

(** A node list made since [st] is well formed and normalized once no edge
    enters its initial node. *)
Lemma built_wellFormed (nl : NodeList) st st' :
  good st -> built nl st st' -> subIn st st' nl ->
  (forall x, ~ succ st' x (initial nl)) ->
  good st' /\ wellFormed st' nl nl /\ normalized st' nl.
Proof.
  intros G B (Hi & Hs & Hn) Hnorm.
  pose proof (built_good nl st (good_closed _ G) st' G B) as G'.
  assert (R : region nl st' (made st st')).
  { pose proof (built_region nl st st' (initial nl) (final nl) B Hi Hn) as R.
    destruct nl as [id [n0 f0]]. exact R. }
  split; [exact G'|]. split.
  - split.
    + exact G'.
    + intros x Hx. destruct (Hnorm x Hx).
    + apply Hi.
    + exact Hs.
    + intros f Hf. apply (rg_alloc _ _ _ R), (rg_finals _ _ _ R), Hf.
    + intros a Ha. apply (rg_alloc _ _ _ R).
      apply (succ_closed_rtc st' (made st st') (initial nl) a); [|exact Hi|exact Ha].
      intros x y Hx Hxy. apply (rg_out _ _ _ R x y Hx Hxy).
  - unfold normalized. apply get_None_nil. intros k.
    rewrite (rg_mirror _ _ _ R k (initial nl)) by exact Hi.
    apply get_None_keys. apply Hnorm.
Qed.

(** What the store had answers as before. *)
Lemma built_others (nl : NodeList) st st' (other : SubList) w :
  good st -> built nl st st' ->
  allocated st (initial other) -> allocatedSet st (final other) ->
  accepts st' other w <-> accepts st other w.
Proof.
  intros G B Hi Hs. apply accepts_frame; [exact G|exact Hi| |].
  - intros x Hx. apply (bt_out _ _ _ B x Hx).
  - apply (bt_sets _ _ _ B), Hs.
Qed.

(** X20.  The automaton that [fromRegex] returns for an expression that
    the compiler accepts is in the form that [quantify], [concat] and the
    transformers ask for: the [out] maps of the store are well formed, the
    initial node, the set of final nodes and the final nodes exist, all the
    nodes that the initial node reaches belong to the node list of the
    automaton, and no edge enters the initial node, whose [in] map is
    empty. *)
Theorem fromRegex_wellFormed (value : RegexValue) (options : NFAOptions) (st : Store) :
  good st ->
  supportedValue options value ->
  exists nfa st',
    fromRegex value options st = Done (nfa, st')
    /\ good st'
    /\ wellFormed st' (nodes nfa) (nodes nfa)
    /\ normalized st' (nodes nfa).
Proof.
  intros G Hsup. unfold supportedValue in Hsup.
  destruct (createNodeList_makes _ options _ st G
              (fun nl => handleAlternation_ok nl options _ Hsup))
    as (nl & st' & Hrun & _ & B & Hsub & Hnorm).
  exists (mkNFA nl options), st'. split; [apply fromRegex_run, Hrun|].
  destruct (built_wellFormed nl st st' G B Hsub Hnorm) as (G' & W & N). auto.
Qed.

Lemma fromRegex_wellFormed_witness :
  exists nfa st',
    fromRegex sampleRegex options16 emptyStore = Done (nfa, st')
    /\ good st'
    /\ wellFormed st' (nodes nfa) (nodes nfa)
    /\ normalized st' (nodes nfa).
Proof.
  apply (fromRegex_wellFormed sampleRegex options16 emptyStore).
  - apply goodb_sound. vm_compute. reflexivity.
  - simpl. repeat split; try reflexivity. unfold withinBound. lia.
Defined.

(** X21.  [fromRegex] builds beside what is there: the automaton it
    returns has a new initial node and a new set of final nodes, and an
    automaton whose initial node and set of final nodes the store had
    answers [test] afterwards as it did before. *)
Theorem fromRegex_keeps_others (value : RegexValue) (options : NFAOptions) (st : Store)
    (other : NFA) :
  good st ->
  supportedValue options value ->
  allocated st (initial (nodes other)) -> allocatedSet st (final (nodes other)) ->
  exists nfa st',
    fromRegex value options st = Done (nfa, st')
    /\ ~ allocated st (initial (nodes nfa))
    /\ ~ allocatedSet st (final (nodes nfa))
    /\ forall word, test other word st' = Ok (true, st') <-> test other word st = Ok (true, st).
Proof.
  intros G Hsup Hi Hs. unfold supportedValue in Hsup.
  destruct (createNodeList_makes _ options _ st G
              (fun nl => handleAlternation_ok nl options _ Hsup))
    as (nl & st' & Hrun & _ & B & (Hni & _ & Hns) & _).
  exists (mkNFA nl options), st'. split; [apply fromRegex_run, Hrun|].
  split; [apply Hni|]. split; [exact Hns|].
  intros word. rewrite !test_true_accepts. apply (built_others nl st st' _ word G B Hi Hs).
Qed.

Lemma fromRegex_keeps_others_witness :
  exists nfa st',
    fromRegex sampleRegex options16 deadEndStore = Done (nfa, st')
    /\ ~ allocated deadEndStore (initial (nodes nfa))
    /\ ~ allocatedSet deadEndStore (final (nodes nfa))
    /\ forall word, test (mkNFA deadEndList options16) word st' = Ok (true, st')
                    <-> test (mkNFA deadEndList options16) word deadEndStore
                        = Ok (true, deadEndStore).
Proof.
  apply (fromRegex_keeps_others sampleRegex options16 deadEndStore
           (mkNFA deadEndList options16)).
  - apply goodb_sound. vm_compute. reflexivity.
  - simpl. repeat split; try reflexivity. unfold withinBound. lia.
  - apply allocatedb_sound. vm_compute. reflexivity.
  - apply allocatedSetb_sound. vm_compute. reflexivity.
Defined.

(** ** Where the compiler stops *)

Lemma every_element (P : Element -> Prop) (elements : list Element) :
  (forall element, P element) -> allElements P elements.
Proof. intros H. induction elements as [|e tl IH]; simpl; auto. Qed.

Lemma alternationWords_app (l1 l2 : list Concatenation) w :
  alternationWords elementWords (l1 ++ l2) w
  <-> alternationWords elementWords l1 w \/ alternationWords elementWords l2 w.
Proof. induction l1 as [|c l1 IH]; simpl; [tauto|]. rewrite IH. tauto. Qed.

(** A concatenation with an empty character class has no word. *)
Lemma concatWords_dead (prefix rest : list Element) chars w :
  CharSet.isEmpty chars = true ->
  ~ concatWords elementWords (prefix ++ CharacterClass chars :: rest) w.
Proof.
  intros He. revert w. induction prefix as [|e prefix IH]; intros w; simpl.
  - intros (u & v & _ & (c & _ & Hc) & _).
    rewrite (CharSetFacts.isEmpty_has chars c He) in Hc. discriminate.
  - intros (u & v & _ & _ & Hv). exact (IH v Hv).
Qed.

Section Early.
Variables (nodeList : NodeList) (options : NFAOptions).

Local Abbreviation handle := (handleElement nodeList options).

(** The loop of [handleConcatenation] on a base without final nodes. *)
Lemma handleElements_stop (elements : list Element) base st :
  getSet st (final base) = [] -> handleElements handle elements base st = Done (tt, st).
Proof.
  intros E. destruct elements as [|e tl]; [reflexivity|].
  simpl. unfold bindB, lift, setSize, gets. rewrite E. reflexivity.
Qed.

Lemma handleElements_app (l1 l2 : list Element) base st :
  handleElements handle (l1 ++ l2) base st
  = match handleElements handle l1 base st with
    | Done (_, s1) => handleElements handle l2 base s1
    | Failed f => Failed f
    end.
Proof.
  revert st. induction l1 as [|e l1 IH]; intros st; [reflexivity|].
  cbn [app handleElements]. unfold bindB, lift, setSize, gets.
  destruct (JsSet.size (getSet st (final base)) =? 0) eqn:Esz.
  - apply size_zero in Esz. unfold retB. symmetry. apply handleElements_stop, Esz.
  - destruct (handle e base st) as [[[] s1]|f]; [|reflexivity]. apply IH.
Qed.

Lemma handleAlternatives_app (l1 l2 : list Concatenation) base st :
  handleAlternatives nodeList handle (l1 ++ l2) base st
  = match handleAlternatives nodeList handle l1 base st with
    | Done (_, s1) => handleAlternatives nodeList handle l2 base s1
    | Failed f => Failed f
    end.
Proof.
  revert st. induction l1 as [|c l1 IH]; intros st; [reflexivity|].
  cbn [app handleAlternatives]. unfold bindB.
  destruct (handleConcatenation nodeList handle c st) as [[sub s1]|f]; [|reflexivity].
  destruct (lift (baseUnion nodeList base sub) s1) as [[[] s2]|f]; [|reflexivity].
  apply IH.
Qed.

(** An empty character class leaves the base without final nodes. *)
Lemma charclass_empty chars base st st' :
  CharSet.maximum chars = maxCharacter options -> CharSet.isEmpty chars = true ->
  handleCharacterClass nodeList options chars base st = Ok (tt, st') ->
  getSet st' (final base) = [].
Proof.
  intros Hmax He Hrun. unfold handleCharacterClass in Hrun.
  rewrite Hmax, Z.eqb_refl, He in Hrun. cbn [negb] in Hrun.
  unfold baseMakeEmpty in Hrun.
  apply bind_Ok in Hrun as (outs & s & Hg & Hrun). unfold gets in Hg. injection Hg as <- <-.
  apply bind_Ok in Hrun as ([] & sa & _ & Hclear).
  unfold setClear, modify in Hclear. injection Hclear as <-.
  rewrite getSet_putSet, decide_True by reflexivity. reflexivity.
Qed.

(** The elements after an empty character class are not handled. *)
Lemma early_appends (prefix rest : list Element) chars :
  allElements (supported options) prefix ->
  CharSet.maximum chars = maxCharacter options -> CharSet.isEmpty chars = true ->
  appends nodeList (handleElements handle (prefix ++ CharacterClass chars :: rest))
          (concatWords elementWords (prefix ++ CharacterClass chars :: rest)).
Proof.
  intros Hsup Hmax He base st Hpre.
  destruct (elements_ok nodeList options prefix
              (every_element _ prefix (element_ok nodeList options)) Hsup base st Hpre)
    as (s1 & Hrun1 & Gr1 & K1 & _).
  assert (Hpre1 : exists s0, good s0 /\ owns nodeList s0 s1 base).
  { destruct Hpre as (s0 & G0 & O). exists s0. split; [exact G0|apply (K1 s0 G0 O)]. }
  assert (H2 : exists s2,
             handleElements handle (CharacterClass chars :: rest) base s1 = Done (tt, s2)
             /\ grows s1 s2
             /\ (forall s0, good s0 -> owns nodeList s0 s1 base -> owns nodeList s0 s2 base)
             /\ getSet s2 (final base) = []).
  { cbn [handleElements]. unfold bindB at 1. unfold lift at 1, setSize, gets.
    destruct (JsSet.size (getSet s1 (final base)) =? 0) eqn:Esz.
    - apply size_zero in Esz. exists s1. split; [reflexivity|].
      split; [apply grows_refl|]. split; [auto|exact Esz].
    - destruct (element_ok nodeList options (CharacterClass chars) Hmax base s1 Hpre1)
        as (s2 & Hrun2 & Gr2 & K2 & _).
      exists s2. unfold bindB. rewrite Hrun2.
      rewrite handleElement_characterClass in Hrun2. apply lift_Done in Hrun2.
      pose proof (charclass_empty chars base s1 s2 Hmax He Hrun2) as E2.
      split; [apply handleElements_stop, E2|]. auto. }
  destruct H2 as (s2 & Hrun2 & Gr2 & K2 & E2).
  exists s2. split.
  { rewrite handleElements_app, Hrun1. exact Hrun2. }
  split; [eapply grows_trans; eauto|]. split.
  - intros s0 G0 O. apply (K2 s0 G0), (K1 s0 G0 O).
  - intros w. split.
    + intros (f & Hf & _). rewrite E2 in Hf. destruct Hf.
    + intros (u & v & _ & _ & Hv). destruct (concatWords_dead prefix rest chars v He Hv).
Qed.

(** An element that cannot be handled, after elements that leave a word. *)
Lemma elements_fail (prefix rest : list Element) (bad : Element) (f : Failure)
    base st u0 w :
  (exists s0, good s0 /\ owns nodeList s0 st base) ->
  allElements (supported options) prefix ->
  accepts st base u0 -> concatWords elementWords prefix w ->
  (forall b s, handle bad b s = Failed f) ->
  handleElements handle (prefix ++ bad :: rest) base st = Failed f.
Proof.
  intros Hpre Hsup Hu Hw Hbad.
  destruct (elements_ok nodeList options prefix
              (every_element _ prefix (element_ok nodeList options)) Hsup base st Hpre)
    as (s1 & Hrun1 & _ & _ & Hlang1).
  assert (Ha : accepts s1 base (u0 ++ w)) by (apply Hlang1; exists u0, w; auto).
  rewrite handleElements_app, Hrun1.
  cbn [handleElements]. unfold bindB at 1. unfold lift at 1, setSize, gets.
  destruct (JsSet.size (getSet s1 (final base)) =? 0) eqn:Esz.
  - apply size_zero in Esz. destruct Ha as (x & Hx & _). rewrite Esz in Hx. destruct Hx.
  - unfold bindB. rewrite Hbad. reflexivity.
Qed.

Lemma concatenation_fail (prefix rest : list Element) (bad : Element) (f : Failure) st w :
  good st ->
  allElements (supported options) prefix -> concatWords elementWords prefix w ->
  (forall b s, handle bad b s = Failed f) ->
  handleConcatenation nodeList handle (prefix ++ bad :: rest) st = Failed f.
Proof.
  intros G Hsup Hw Hbad.
  destruct (concatenation_start nodeList st G)
    as (b & s1 & s2 & Hrun1 & Hadd & O2 & _ & _ & Hlang2).
  unfold handleConcatenation, bindB at 1. rewrite (proj2 (lift_Done _ _ _) Hrun1).
  unfold bindB at 1. rewrite (proj2 (lift_Done _ _ _) Hadd).
  unfold bindB. rewrite (elements_fail prefix rest bad f b s2 [] w); auto.
  - exists st. auto.
  - apply Hlang2. reflexivity.
Qed.

(** An alternative that cannot be handled, after alternatives that can. *)
Lemma alternation_fail (before others : list Concatenation) (failing : Concatenation)
    (f : Failure) st :
  good st ->
  Forall (concatenationOk nodeList options) before ->
  (forall s, good s -> handleConcatenation nodeList handle failing s = Failed f) ->
  handleAlternation nodeList handle (before ++ failing :: others) st = Failed f.
Proof.
  intros G Hok Hfail. destruct before as [|first before].
  - cbn [app handleAlternation]. unfold bindB. rewrite (Hfail st G). reflexivity.
  - apply Forall_cons_iff in Hok as [Hk1 Hk2].
    destruct (Hk1 st G) as (b & s1 & Hrun1 & O1 & _).
    destruct (alternatives_makes nodeList options before Hk2 b s1)
      as (s2 & Hrun2 & _ & K2 & _).
    { exists st. auto. }
    cbn [app handleAlternation]. unfold bindB at 1. rewrite Hrun1.
    unfold bindB at 1. rewrite handleAlternatives_app, Hrun2.
    cbn [handleAlternatives]. unfold bindB at 1.
    rewrite (Hfail s2); [reflexivity|].
    apply (owns_good nodeList st s2 b G), (K2 st G O1).
Qed.
End Early.

Lemma createNodeList_fail (expression : list Concatenation) (options : NFAOptions)
    (f : Failure) st :
  good st ->
  (forall nl s, good s ->
     handleAlternation nl (handleElement nl options) expression s = Failed f) ->
  createNodeList expression options st = Failed f.
Proof.
  intros G Hfail.
  destruct (newNodeList_built st (good_closed _ G))
    as (nl & s1 & Hrun1 & _ & _ & _ & _ & _ & _ & Hout1 & Hal1).
  assert (G1 : good s1) by (apply (good_same_out st s1); assumption).
  unfold createNodeList, bindB at 1. rewrite (proj2 (lift_Done _ _ _) Hrun1).
  unfold bindB. rewrite (Hfail nl s1 G1). reflexivity.
Qed.

Lemma supported_Forall (nl : NodeList) (options : NFAOptions) (l : list Concatenation) :
  allAlternatives (supported options) l -> Forall (concatenationOk nl options) l.
Proof.
  intros H. apply alternatives_Forall; [|exact H].
  apply all_elements. apply element_ok.
Qed.

(** X22.  The loop of [handleConcatenation] stops at a base without final
    nodes, so the elements after an empty character class are never
    handled: whatever they are, assertions included, [fromRegex] returns,
    and the automaton accepts exactly the words of the other
    alternatives. *)
Theorem fromRegex_stops_early (options : NFAOptions) (before others : list Concatenation)
    (prefix rest : list Element) (chars : CharSet) (st : Store) :
  good st ->
  allAlternatives (supported options) before ->
  allAlternatives (supported options) others ->
  allElements (supported options) prefix ->
  CharSet.maximum chars = maxCharacter options ->
  CharSet.isEmpty chars = true ->
  exists nfa st',
    fromRegex (OfAlternatives (before ++ (prefix ++ CharacterClass chars :: rest) :: others))
              options st = Done (nfa, st')
    /\ forall word, test nfa word st' = Ok (true, st')
                    <-> alternationWords elementWords (before ++ others) word.
Proof.
  intros G Hb Ho Hp Hmax He.
  set (stopped := prefix ++ CharacterClass chars :: rest).
  destruct (createNodeList_makes (before ++ stopped :: others) options
              (alternationWords elementWords (before ++ stopped :: others)) st G)
    as (nl & st' & Hrun & Hlang & _).
  { intros nl. apply alternation_makes. apply Forall_app. split.
    - apply supported_Forall, Hb.
    - constructor; [|apply supported_Forall, Ho].
      apply concatenation_makes, early_appends; assumption. }
  exists (mkNFA nl options), st'. split; [apply fromRegex_run, Hrun|].
  intros word. rewrite test_true_accepts. cbn [nodes]. rewrite Hlang.
  rewrite !alternationWords_app. cbn [alternationWords].
  pose proof (concatWords_dead prefix rest chars word He) as Hd. fold stopped in Hd. tauto.
Qed.

(** The expression [a|b[](?=c)] over the 16-bit alphabet, whose second
    alternative holds an empty character class before an assertion. *)
Lemma fromRegex_stops_early_witness :
  exists nfa st',
    fromRegex (OfAlternatives
                 ([[CharacterClass (CharSet.mk 65535 [CharSet.mkRange 97 97])]]
                  ++ ([CharacterClass (CharSet.mk 65535 [CharSet.mkRange 98 98])]
                      ++ CharacterClass (CharSet.mk 65535 []) :: [Assertion]) :: []))
              options16 emptyStore = Done (nfa, st')
    /\ forall word, test nfa word st' = Ok (true, st')
                    <-> alternationWords elementWords
                          ([[CharacterClass (CharSet.mk 65535 [CharSet.mkRange 97 97])]] ++ [])
                          word.
Proof.
  apply (fromRegex_stops_early options16
           [[CharacterClass (CharSet.mk 65535 [CharSet.mkRange 97 97])]] []
           [CharacterClass (CharSet.mk 65535 [CharSet.mkRange 98 98])] [Assertion]
           (CharSet.mk 65535 []) emptyStore).
  - apply goodb_sound. vm_compute. reflexivity.
  - simpl. repeat split; reflexivity.
  - exact I.
  - simpl. repeat split; reflexivity.
  - reflexivity.
  - reflexivity.
Defined.

(** X23.  An assertion that the compiler reaches makes [fromRegex] fail
    with 'Assertions are not supported yet.': the alternatives before are
    accepted by the compiler, and so are the elements before the assertion,
    which have a word together; what comes after does not matter. *)
Theorem fromRegex_assertion (options : NFAOptions) (before others : list Concatenation)
    (prefix rest : list Element) (w : list Z) (st : Store) :
  good st ->
  allAlternatives (supported options) before ->
  allElements (supported options) prefix ->
  concatWords elementWords prefix w ->
  fromRegex (OfAlternatives (before ++ (prefix ++ Assertion :: rest) :: others)) options st
  = Failed Unsupported.
Proof.
  intros G Hb Hp Hw.
  assert (Hrun : createNodeList (before ++ (prefix ++ Assertion :: rest) :: others) options st
                 = Failed Unsupported).
  { apply createNodeList_fail; [exact G|]. intros nl s Gs.
    apply alternation_fail; [exact Gs|apply supported_Forall, Hb|].
    intros s' Gs'. apply (concatenation_fail nl options prefix rest Assertion _ s' w); auto. }
  unfold fromRegex, bindB. rewrite Hrun. reflexivity.
Qed.

(** The expression [a(?=b)] over the 16-bit alphabet. *)
Lemma fromRegex_assertion_witness :
  fromRegex (OfAlternatives
               ([] ++ ([CharacterClass (CharSet.mk 65535 [CharSet.mkRange 97 97])]
                       ++ Assertion :: []) :: []))
            options16 emptyStore = Failed Unsupported
  /\ concatWords elementWords [CharacterClass (CharSet.mk 65535 [CharSet.mkRange 97 97])]
                 [97%Z].
Proof.
  assert (Hw : concatWords elementWords
                 [CharacterClass (CharSet.mk 65535 [CharSet.mkRange 97 97])] [97%Z]).
  { exists [97%Z], []. split; [reflexivity|]. split; [|reflexivity].
    exists 97%Z. split; reflexivity. }
  split; [|exact Hw].
  apply (fromRegex_assertion options16 [] []
           [CharacterClass (CharSet.mk 65535 [CharSet.mkRange 97 97])] [] [97%Z] emptyStore).
  - apply goodb_sound. vm_compute. reflexivity.
  - exact I.
  - simpl. repeat split; reflexivity.
  - exact Hw.
Defined.

(** X24.  A character class over another alphabet than the one of the
    options makes [fromRegex] fail once the compiler reaches it: the
    alternatives before are accepted by the compiler, and so are the
    elements before the class, which have a word together; what comes
    after does not matter. *)
Theorem fromRegex_alphabet (options : NFAOptions) (before others : list Concatenation)
    (prefix rest : list Element) (chars : CharSet) (w : list Z) (st : Store) :
  good st ->
  allAlternatives (supported options) before ->
  allElements (supported options) prefix ->
  concatWords elementWords prefix w ->
  CharSet.maximum chars <> maxCharacter options ->
  fromRegex (OfAlternatives (before ++ (prefix ++ CharacterClass chars :: rest) :: others))
            options st
  = Failed (EngineError AlphabetMismatch).
Proof.
  intros G Hb Hp Hw Hmax.
  assert (Hrun : createNodeList (before ++ (prefix ++ CharacterClass chars :: rest) :: others)
                                options st
                 = Failed (EngineError AlphabetMismatch)).
  { apply createNodeList_fail; [exact G|]. intros nl s Gs.
    apply alternation_fail; [exact Gs|apply supported_Forall, Hb|].
    intros s' Gs'.
    apply (concatenation_fail nl options prefix rest (CharacterClass chars) _ s' w); auto.
    intros b s0. cbn [handleElement]. unfold lift, handleCharacterClass.
    apply Z.eqb_neq in Hmax. rewrite Hmax. reflexivity. }
  unfold fromRegex, bindB. rewrite Hrun. reflexivity.
Qed.

(** The expression [ab] with [b] over the 8-bit alphabet, compiled for the
    16-bit alphabet. *)
Lemma fromRegex_alphabet_witness :
  fromRegex (OfAlternatives
               ([] ++ ([CharacterClass (CharSet.mk 65535 [CharSet.mkRange 97 97])]
                       ++ CharacterClass (CharSet.mk 255 [CharSet.mkRange 98 98]) :: [])
                      :: []))
            options16 emptyStore = Failed (EngineError AlphabetMismatch)
  /\ concatWords elementWords [CharacterClass (CharSet.mk 65535 [CharSet.mkRange 97 97])]
                 [97%Z].
Proof.
  assert (Hw : concatWords elementWords
                 [CharacterClass (CharSet.mk 65535 [CharSet.mkRange 97 97])] [97%Z]).
  { exists [97%Z], []. split; [reflexivity|]. split; [|reflexivity].
    exists 97%Z. split; reflexivity. }
  split; [|exact Hw].
  apply (fromRegex_alphabet options16 [] []
           [CharacterClass (CharSet.mk 65535 [CharSet.mkRange 97 97])] []
           (CharSet.mk 255 [CharSet.mkRange 98 98]) [97%Z] emptyStore).
  - apply goodb_sound. vm_compute. reflexivity.
  - exact I.
  - simpl. repeat split; reflexivity.
  - exact Hw.
  - simpl. lia.
Defined.

(** ** A quantifier around a compiled expression *)

(** The bounds of [quantify] as [baseQuantify] takes them. *)
Definition boundOf (max : option Z) : bound :=
  match max with Some m => Finite (Z.to_nat m) | None => Infinity end.

Lemma quantify_run (this : NFA) (min : Z) (max : option Z) st :
  (0 <= min)%Z -> (forall m, max = Some m -> (min <= m)%Z) ->
  quantify this min max st
  = baseQuantify (nodes this) (nodes this) (Z.to_nat min) (boundOf max) st.
Proof.
  intros Hmin Hmax. unfold quantify, boundOf.
  assert (E : (match max with
               | Some m => (min <? 0)%Z || (m <? min)%Z
               | None => (min <? 0)%Z
               end) = false).
  { destruct max as [m|].
    - specialize (Hmax m eq_refl). apply orb_false_iff. split; apply Z.ltb_ge; lia.
    - apply Z.ltb_ge. lia. }
  rewrite E. reflexivity.
Qed.

Lemma quantified_range (min : Z) (max : option Z) (L : list Z -> Prop) w :
  (0 <= min)%Z -> (forall m, max = Some m -> (min <= m)%Z) ->
  quantified (Z.to_nat min) (boundOf max) L w
  <-> exists k, (min <= Z.of_nat k)%Z
                /\ (forall m, max = Some m -> (Z.of_nat k <= m)%Z)
                /\ power k L w.
Proof.
  intros Hmin Hmax. unfold quantified, boundOf.
  split; intros (k & H1 & H2 & H3); exists k; (split; [lia|]); (split; [|exact H3]).
  - intros m ->. simpl in H2. specialize (Hmax m eq_refl). lia.
  - destruct max as [m|]; simpl; [|exact I]. specialize (H2 m eq_refl). lia.
Qed.

(** X25.  [fromRegex] and [quantify] compose: for an expression that the
    compiler accepts and bounds [0 <= min <= max], [max] possibly
    infinite, [quantify(min, max)] on the automaton that [fromRegex]
    returns succeeds, and afterwards the automaton accepts exactly the
    sequences of [k] words of the expression, for the numbers [k] from
    [min] to [max]. *)
Theorem fromRegex_quantify (value : RegexValue) (options : NFAOptions) (min : Z)
    (max : option Z) (st : Store) :
  good st ->
  supportedValue options value ->
  (0 <= min)%Z ->
  (forall m, max = Some m -> (min <= m)%Z) ->
  exists nfa st1 st2,
    fromRegex value options st = Done (nfa, st1)
    /\ quantify nfa min max st1 = Ok (tt, st2)
    /\ forall word,
         test nfa word st2 = Ok (true, st2)
         <-> exists k, (min <= Z.of_nat k)%Z
                       /\ (forall m, max = Some m -> (Z.of_nat k <= m)%Z)
                       /\ power k (regexWords value) word.
Proof.
  intros G Hsup Hmin Hmax. unfold supportedValue in Hsup.
  destruct (createNodeList_makes _ options _ st G
              (fun nl => handleAlternation_ok nl options _ Hsup))
    as (nl & st1 & Hrun1 & Hlang1 & B & Hsub & Hnorm).
  destruct (built_wellFormed nl st st1 G B Hsub Hnorm) as (_ & W & _).
  assert (Hb : withinBound (Z.to_nat min) (boundOf max)).
  { destruct max as [m|]; simpl; [|exact I]. specialize (Hmax m eq_refl). lia. }
  destruct (baseQuantify_language nl nl (Z.to_nat min) (boundOf max) st1
              (wellFormed_rooted _ _ _ W) Hnorm Hb) as (st2 & Hrun2 & Hlang2 & _).
  exists (mkNFA nl options), st1, st2. split; [apply fromRegex_run, Hrun1|].
  split; [rewrite quantify_run by assumption; exact Hrun2|].
  intros word. rewrite test_true_accepts. cbn [nodes]. rewrite Hlang2.
  rewrite (quantified_ext (Z.to_nat min) (boundOf max) (accepts st1 nl) (regexWords value))
    by exact Hlang1.
  apply quantified_range; assumption.
Qed.

(** Two or more words of [a(b|c){1,2}]. *)
Lemma fromRegex_quantify_witness :
  exists nfa st1 st2,
    fromRegex sampleRegex options16 emptyStore = Done (nfa, st1)
    /\ quantify nfa 2%Z None st1 = Ok (tt, st2)
    /\ forall word,
         test nfa word st2 = Ok (true, st2)
         <-> exists k, (2 <= Z.of_nat k)%Z
                       /\ (forall m, @None Z = Some m -> (Z.of_nat k <= m)%Z)
                       /\ power k (regexWords sampleRegex) word.
Proof.
  apply (fromRegex_quantify sampleRegex options16 2%Z None emptyStore).
  - apply goodb_sound. vm_compute. reflexivity.
  - simpl. repeat split; try reflexivity. unfold withinBound. lia.
  - lia.
  - intros m [=].
Defined.
